(** * ShadowOS boot-time volume and filesystem layer

    A shallow embedding of the read-only storage stack of the bootloader
    (volume byte reader with its one-block cache, GPT/MBR partition
    parsers, ISO9660 and FAT12/16/32 readers, path canonicalisation)
    together with the properties stated for it. *)

From Stdlib Require Import String Ascii ZArith List Lia Bool.
Import ListNotations.
Open Scope Z_scope.

(** ** Machine integers *)

Definition UINT64_MAX : Z := 18446744073709551615.
Definition UINT32_MAX : Z := 4294967295.

(** Conversion of a mathematical value to [uint64_t]. *)
Definition wrap64 (x : Z) : Z := x mod 18446744073709551616.

(** [__builtin_mul_overflow] and [__builtin_add_overflow] on [uint64_t]
    destinations: [None] is the "overflowed" (true) return. *)
Definition mul_overflow (a b : Z) : option Z :=
  if (0 <=? a * b) && (a * b <=? UINT64_MAX) then Some (a * b) else None.

Definition add_overflow (a b : Z) : option Z :=
  if (0 <=? a + b) && (a + b <=? UINT64_MAX) then Some (a + b) else None.

(** ** Byte buffers *)

(** [memcpy(dst, &src[offset], n)]: the [n] bytes taken from [src]. *)
Definition memcpy_from (src : list Z) (offset n : Z) : list Z :=
  firstn (Z.to_nat n) (skipn (Z.to_nat offset) src).

(** Storing [data] at the start of an existing buffer [dst]: the buffer
    keeps its size and the bytes that were not overwritten. *)
Definition store (dst data : list Z) : list Z :=
  firstn (length dst) (data ++ skipn (length data) dst).

(** [ext_mem_alloc(n)]: a fresh zero-filled buffer. *)
Definition ext_mem_alloc (n : Z) : list Z := repeat 0 (Z.to_nat n).

(** ** Volumes *)

Definition CACHE_NOT_READY : Z := 0.
Definition CACHE_READY : Z := 1.

(** [struct volume].  The declaration lives in [lib/part.h]; the fields
    are those read and written by the partition and cache code.  The
    firmware handle is the BIOS [drive] number; [backing_dev] is a
    back-pointer that no read path dereferences and is not represented. *)
Record volume : Type := mkVolume {
  drive : Z;
  fastest_xfer_size : Z;
  index : Z;
  is_optical : bool;
  pxe : bool;
  partition : Z;
  sector_size : Z;
  cache_status : Z;
  cache : option (list Z);
  cached_block : Z;
  first_sect : Z;
  sect_count : Z;
  guid_valid : bool;
  guid : list Z;
  part_guid_valid : bool;
  part_guid : list Z;
  fslabel_valid : bool;
  fslabel : list Z
}.

Definition set_cache_status (v : volume) (st : Z) : volume :=
  mkVolume (drive v) (fastest_xfer_size v) (index v) (is_optical v) (pxe v)
           (partition v) (sector_size v) st (cache v) (cached_block v)
           (first_sect v) (sect_count v) (guid_valid v) (guid v)
           (part_guid_valid v) (part_guid v) (fslabel_valid v) (fslabel v).

Definition set_cache (v : volume) (c : option (list Z)) : volume :=
  mkVolume (drive v) (fastest_xfer_size v) (index v) (is_optical v) (pxe v)
           (partition v) (sector_size v) (cache_status v) c (cached_block v)
           (first_sect v) (sect_count v) (guid_valid v) (guid v)
           (part_guid_valid v) (part_guid v) (fslabel_valid v) (fslabel v).

Definition set_cached_block (v : volume) (b : Z) : volume :=
  mkVolume (drive v) (fastest_xfer_size v) (index v) (is_optical v) (pxe v)
           (partition v) (sector_size v) (cache_status v) (cache v) b
           (first_sect v) (sect_count v) (guid_valid v) (guid v)
           (part_guid_valid v) (part_guid v) (fslabel_valid v) (fslabel v).

(** The contents of [volume->cache] ([NULL] holds no byte). *)
Definition cache_buf (v : volume) : list Z :=
  match cache v with Some c => c | None => [] end.

(** Outcome of a computation that reads through a volume: a value and
    the volume with its cache as left behind, a [panic()], or a model
    that ran out of loop fuel. *)
Inductive res (A : Type) : Type :=
| Val (a : A) (v : volume)
| Panic
| Stuck.
Arguments Val {A} a v.
Arguments Panic {A}.
Arguments Stuck {A}.

Definition bind {A B : Type} (m : volume -> res A) (k : A -> volume -> res B)
  : volume -> res B :=
  fun v => match m v with
           | Val a v' => k a v'
           | Panic => Panic
           | Stuck => Stuck
           end.

Definition ret {A : Type} (a : A) : volume -> res A := fun v => Val a v.

Notation "x <- m ;; k" := (bind m (fun x => k))
  (at level 61, m at next level, right associativity).
Notation "' p <- m ;; k" := (bind m (fun x => match x with p => k end))
  (at level 61, p pattern, m at next level, right associativity).

(** The answer of a run that returns. *)
Definition fst_val {A : Type} (r : res A) : option A :=
  match r with Val a _ => Some a | _ => None end.

(** Status of the disk primitive.
    Modelled from the spec: [drivers/disk.h] is not among the sources;
    the primitive answers [SUCCESS] or [NO_MEDIA], and any other answer
    is the transient failure that [cache_block] retries. *)
Inductive disk_status : Type := DISK_SUCCESS | DISK_NO_MEDIA | DISK_FAILURE.

Section VolumeRead.

(** [disk_read_sectors(volume, buf, block, count)], the external disk
    primitive: its status and the bytes it stored from the start of
    [buf]. *)
Variable disk_read_sectors : volume -> list Z -> Z -> Z -> disk_status * list Z.

(** The retry loop of [cache_block]: one request per iteration, with a
    transfer size that shrinks by one sector after each failure. *)
Fixpoint cache_block_loop (fuel : nat) (v : volume) (block read_sector xfer_size : Z)
  : res bool :=
  match fuel with
  | O => Stuck
  | S fuel' =>
      let '(r, data) := disk_read_sectors v (cache_buf v) read_sector xfer_size in
      let v := set_cache v (Some (store (cache_buf v) data)) in
      match r with
      | DISK_NO_MEDIA => Val false v
      | DISK_SUCCESS =>
          Val true (set_cached_block (set_cache_status v CACHE_READY) block)
      | DISK_FAILURE =>
          let xfer_size := wrap64 (xfer_size - 1) in
          if xfer_size =? 0 then Val false v
          else cache_block_loop fuel' v block read_sector xfer_size
      end
  end.

Definition cache_block (v : volume) (block : Z) : res bool :=
  if (cache_status v =? CACHE_READY) && (block =? cached_block v) then Val true v
  else
    let v := set_cache_status v CACHE_NOT_READY in
    let v := match cache v with
             | None => set_cache v (Some (ext_mem_alloc
                          (wrap64 (fastest_xfer_size v * sector_size v))))
             | Some _ => v
             end in
    if negb (first_sect v mod (sector_size v / 512) =? 0) then Val false v
    else
      let first := first_sect v / (sector_size v / 512) in
      let xfer_size := fastest_xfer_size v in
      match mul_overflow block (fastest_xfer_size v) with
      | None => Val false v
      | Some block_offset =>
          match add_overflow first block_offset with
          | None => Val false v
          | Some read_sector =>
              cache_block_loop (Z.to_nat xfer_size) v block read_sector xfer_size
          end
      end.

(** The [while (progress < count)] loop of [volume_read]; [buffer] is
    what has been copied to the destination so far. *)
Fixpoint volume_read_loop (fuel : nat) (v : volume)
         (loc count block_size progress : Z) (buffer : list Z)
  : res (bool * list Z) :=
  if progress <? count then
    match fuel with
    | O => Stuck
    | S fuel' =>
        let block := wrap64 (loc + progress) / block_size in
        match cache_block v block with
        | Val false v' => Val (false, buffer) v'
        | Val true v' =>
            let chunk := count - progress in
            let offset := wrap64 (loc + progress) mod block_size in
            let chunk := if chunk >? block_size - offset
                         then block_size - offset else chunk in
            let buffer := buffer ++ memcpy_from (cache_buf v') offset chunk in
            volume_read_loop fuel' v' loc count block_size (progress + chunk) buffer
        | Panic => Panic
        | Stuck => Stuck
        end
    end
  else Val (true, buffer) v.

(** The size check made when [sect_count] is not [(uint64_t)-1]. *)
Definition range_ok (v : volume) (loc count : Z) : bool :=
  if sect_count v =? UINT64_MAX then true
  else match mul_overflow (sect_count v) (sector_size v) with
       | None => false
       | Some part_size =>
           negb ((loc >=? part_size) || (count >? part_size - loc))
       end.

(** [volume_read(volume, buffer, loc, count)]: the success flag and the
    bytes copied to [buffer]. *)
Definition volume_read (loc count : Z) (v : volume) : res (bool * list Z) :=
  if pxe v then Panic
  else if negb (range_ok v loc count) then Val (false, []) v
  else
    let block_size := wrap64 (fastest_xfer_size v * sector_size v) in
    volume_read_loop (Z.to_nat count) v loc count block_size 0 [].

(** The reader of the specification: [n] successive one-byte calls of
    [volume_read], starting at [loc], stopping at the first failure. *)
Fixpoint volume_read_bytewise (n : nat) (loc : Z) (v : volume)
  : res (bool * list Z) :=
  match n with
  | O => Val (true, []) v
  | S n' =>
      match volume_read loc 1 v with
      | Val (true, b) v' =>
          match volume_read_bytewise n' (loc + 1) v' with
          | Val (ok, bs) v'' => Val (ok, b ++ bs) v''
          | Panic => Panic
          | Stuck => Stuck
          end
      | Val (false, b) v' => Val (false, b) v'
      | Panic => Panic
      | Stuck => Stuck
      end
  end.

End VolumeRead.

(** The reference reader of the specification, without a cache: byte
    [off] of the volume is fetched by a request of its own for the one
    sector that holds it, [None] when the disk does not deliver it. *)
Definition read_byte_cacheless
           (disk : volume -> list Z -> Z -> Z -> disk_status * list Z)
           (v : volume) (off : Z) : option Z :=
  let ss := sector_size v in
  match disk v [] (first_sect v / (ss / 512) + off / ss) 1 with
  | (DISK_SUCCESS, data) => nth_error data (Z.to_nat (off mod ss))
  | _ => None
  end.

Fixpoint volume_read_cacheless
         (disk : volume -> list Z -> Z -> Z -> disk_status * list Z)
         (n : nat) (loc : Z) (v : volume) : option (list Z) :=
  match n with
  | O => Some []
  | S n' =>
      match read_byte_cacheless disk v loc, volume_read_cacheless disk n' (loc + 1) v with
      | Some b, Some bs => Some (b :: bs)
      | _, _ => None
      end
  end.


(** ** A disk that holds an image *)

(** The integers [start], [start + 1], ... ([len] of them). *)
Definition seqZ (start len : Z) : list Z :=
  map (fun i => start + Z.of_nat i) (seq 0 (Z.to_nat len)).

(** A disk primitive that always succeeds and transfers the requested
    sectors of the byte image [img] (indexed by physical byte offset). *)
Definition image_disk (img : Z -> Z)
  : volume -> list Z -> Z -> Z -> disk_status * list Z :=
  fun v _ sector count =>
    (DISK_SUCCESS, map img (seqZ (sector * sector_size v) (count * sector_size v))).

(** Physical byte offset at which a volume starts. *)
Definition vol_base (v : volume) : Z :=
  first_sect v / (sector_size v / 512) * sector_size v.

(** ** Partition tables *)

(** A byte as [uint8_t], and little-endian fields of a packed struct. *)
Definition u8 (b : Z) : Z := b mod 256.

Fixpoint le_bytes (l : list Z) : Z :=
  match l with
  | [] => 0
  | b :: rest => u8 b + 256 * le_bytes rest
  end.

Definition field (buf : list Z) (off n : nat) : Z :=
  le_bytes (firstn n (skipn off buf)).

Definition bytes_at (buf : list Z) (off n : nat) : list Z :=
  map u8 (firstn n (skipn off buf)).

(** [memcmp(a, b, n) == 0] on byte buffers. *)
Definition memcmp_eq (a b : list Z) (n : nat) : bool :=
  if list_eq_dec Z.eq_dec (map u8 (firstn n a)) (map u8 (firstn n b))
  then true else false.

(** Result codes of the partition parsers.
    Modelled from the spec: [lib/part.h] is not among the sources; the
    parsers return 0 for a partition and three distinct negative codes
    otherwise. *)
Definition NO_PARTITION : Z := -1.
Definition INVALID_TABLE : Z := -2.
Definition END_OF_TABLE : Z := -3.

(** [struct gpt_table_header] (packed, 92 bytes). *)
Record gpt_table_header : Type := {
  signature : list Z;
  revision : Z;
  header_size : Z;
  crc32 : Z;
  my_lba : Z;
  alternate_lba : Z;
  first_usable_lba : Z;
  last_usable_lba : Z;
  disk_guid : list Z;
  partition_entry_lba : Z;
  number_of_partition_entries : Z;
  size_of_partition_entry : Z;
  partition_entry_array_crc32 : Z
}.

Definition sizeof_gpt_table_header : Z := 92.

Definition as_gpt_table_header (b : list Z) : gpt_table_header :=
  {| signature := bytes_at b 0 8;
     revision := field b 8 4;
     header_size := field b 12 4;
     crc32 := field b 16 4;
     my_lba := field b 24 8;
     alternate_lba := field b 32 8;
     first_usable_lba := field b 40 8;
     last_usable_lba := field b 48 8;
     disk_guid := bytes_at b 56 16;
     partition_entry_lba := field b 72 8;
     number_of_partition_entries := field b 80 4;
     size_of_partition_entry := field b 84 4;
     partition_entry_array_crc32 := field b 88 4 |}.

(** [struct gpt_entry] (packed, 128 bytes). *)
Record gpt_entry : Type := {
  partition_type_guid : list Z;
  unique_partition_guid : list Z;
  starting_lba : Z;
  ending_lba : Z;
  attributes : Z;
  partition_name : list Z
}.

Definition sizeof_gpt_entry : Z := 128.

Definition as_gpt_entry (b : list Z) : gpt_entry :=
  {| partition_type_guid := bytes_at b 0 16;
     unique_partition_guid := bytes_at b 16 16;
     starting_lba := field b 32 8;
     ending_lba := field b 40 8;
     attributes := field b 48 8;
     partition_name := bytes_at b 56 72 |}.

(** [struct mbr_entry] (packed, 16 bytes). *)
Record mbr_entry : Type := {
  status : Z;
  chs_first_sect : list Z;
  type : Z;
  chs_last_sect : list Z;
  mbr_first_sect : Z;
  mbr_sect_count : Z
}.

Definition sizeof_mbr_entry : Z := 16.

Definition as_mbr_entry (b : list Z) : mbr_entry :=
  {| status := field b 0 1;
     chs_first_sect := bytes_at b 1 3;
     type := field b 4 1;
     chs_last_sect := bytes_at b 5 3;
     mbr_first_sect := field b 8 4;
     mbr_sect_count := field b 12 4 |}.

(** The bytes of an ASCII string literal. *)
Definition literal (s : string) : list Z :=
  map (fun c => Z.of_nat (nat_of_ascii c)) (list_ascii_of_string s).

(** [struct volume v = {0}]. *)
Definition zero_volume : volume :=
  mkVolume 0 0 0 false false 0 0 0 None 0 0 0
           false (repeat 0 16) false (repeat 0 16) false [].

(** The assignments that make [r] a partition of [parent]: transport
    fields copied, partition number and extent set. *)
Definition inherit (r parent : volume) (part first count : Z) : volume :=
  mkVolume (drive parent) (fastest_xfer_size parent) (index parent)
           (is_optical parent) (pxe r) part (sector_size parent)
           (cache_status r) (cache r) (cached_block r) first count
           (guid_valid r) (guid r) (part_guid_valid r) (part_guid r)
           (fslabel_valid r) (fslabel r).

Definition set_guid (r : volume) (valid : bool) (g : list Z) : volume :=
  mkVolume (drive r) (fastest_xfer_size r) (index r) (is_optical r) (pxe r)
           (partition r) (sector_size r) (cache_status r) (cache r)
           (cached_block r) (first_sect r) (sect_count r) valid g
           (part_guid_valid r) (part_guid r) (fslabel_valid r) (fslabel r).

Definition set_part_guid (r : volume) (valid : bool) (g : list Z) : volume :=
  mkVolume (drive r) (fastest_xfer_size r) (index r) (is_optical r) (pxe r)
           (partition r) (sector_size r) (cache_status r) (cache r)
           (cached_block r) (first_sect r) (sect_count r) (guid_valid r) (guid r)
           valid g (fslabel_valid r) (fslabel r).

Definition set_fslabel (r : volume) (valid : bool) (l : list Z) : volume :=
  mkVolume (drive r) (fastest_xfer_size r) (index r) (is_optical r) (pxe r)
           (partition r) (sector_size r) (cache_status r) (cache r)
           (cached_block r) (first_sect r) (sect_count r) (guid_valid r) (guid r)
           (part_guid_valid r) (part_guid r) valid l.

Section Partitions.

Variable disk_read_sectors : volume -> list Z -> Z -> Z -> disk_status * list Z.

(** The filesystem probes [fs_get_guid(&guid, part)] and
    [fs_get_label(part)] of [fs/file.h], external to the parsers: the
    answer ([None] for [false] / [NULL]) and the probed volume as its
    reads left it. *)
Variable fs_get_guid : volume -> option (list Z) * volume.
Variable fs_get_label : volume -> option (list Z) * volume.

Local Abbreviation volume_read := (volume_read disk_read_sectors).

(** The tail shared by the three parsers: probe the new partition for
    a filesystem GUID and label. *)
Definition probe_filesystem (r : volume) : volume :=
  let '(g, r) := fs_get_guid r in
  let r := match g with
           | None => set_guid r false (guid r)
           | Some g => set_guid r true g
           end in
  let '(l, r) := fs_get_label r in
  match l with
  | None => set_fslabel r false (fslabel r)
  | Some l => set_fslabel r true l
  end.

Definition lb_guesses : list Z := [512; 4096].

(** The loop over [lb_guesses] of [gpt_get_part]: the logical block
    size whose header carries the signature ([-1] when none does) and
    the header buffer as the reads left it. *)
Fixpoint gpt_find_header (guesses : list Z) (header : list Z)
  : volume -> res (Z * list Z) :=
  match guesses with
  | [] => ret (-1, header)
  | g :: rest =>
      '(ok, data) <- volume_read (g * 1) sizeof_gpt_table_header ;;
      let header := store header data in
      if negb ok then gpt_find_header rest header
      else if negb (memcmp_eq header (literal "EFI PART") 8)
           then gpt_find_header rest header
           else ret (g, header)
  end.

Definition gpt_get_part (r : volume) (partition : Z) : volume -> res (Z * volume) :=
  '(lb_size, hdr) <- gpt_find_header lb_guesses (repeat 0 92) ;;
  let header := as_gpt_table_header hdr in
  if lb_size =? -1 then ret (INVALID_TABLE, r)
  else if negb (revision header =? 65536) then ret (INVALID_TABLE, r)
  else if partition mod 4294967296 >=? number_of_partition_entries header
       then ret (END_OF_TABLE, r)
  else
    let entry_size := size_of_partition_entry header in
    if entry_size <? sizeof_gpt_entry then ret (INVALID_TABLE, r)
    else
      match mul_overflow (partition_entry_lba header) lb_size with
      | None => ret (INVALID_TABLE, r)
      | Some entry_offset =>
          let partition_offset := wrap64 (wrap64 partition * entry_size) in
          match add_overflow entry_offset partition_offset with
          | None => ret (INVALID_TABLE, r)
          | Some entry_offset =>
              '(ok, data) <- volume_read entry_offset sizeof_gpt_entry ;;
              let entry := as_gpt_entry (store (repeat 0 128) data) in
              if negb ok then ret (END_OF_TABLE, r)
              else if memcmp_eq (unique_partition_guid entry) (repeat 0 16) 16
                   then ret (NO_PARTITION, r)
              else if ending_lba entry <? starting_lba entry
                   then ret (NO_PARTITION, r)
              else
                let sect_multiplier := lb_size / 512 in
                match mul_overflow (starting_lba entry) sect_multiplier with
                | None => ret (NO_PARTITION, r)
                | Some first_sect_result =>
                    let partition_size := ending_lba entry - starting_lba entry in
                    if partition_size =? UINT64_MAX then ret (NO_PARTITION, r)
                    else
                      let partition_blocks := partition_size + 1 in
                      match mul_overflow partition_blocks sect_multiplier with
                      | None => ret (NO_PARTITION, r)
                      | Some sect_count_result =>
                          fun volume =>
                            let r := inherit r volume (partition + 1)
                                       first_sect_result sect_count_result in
                            let r := probe_filesystem r in
                            let r := set_part_guid r true
                                       (unique_partition_guid entry) in
                            Val (0, r) volume
                      end
                end
          end
      end.

(** One plausibility read of [is_valid_mbr]: a status byte that is
    neither [0x00] nor [0x80] disqualifies the table. *)
Definition mbr_status_ok (hint : list Z) : bool :=
  (field hint 0 1 =? 0) || (field hint 0 1 =? 128).

Definition is_valid_mbr : volume -> res bool :=
  let hint := [0; 0] in
  '(ok, d) <- volume_read 446 1 ;; let hint := store hint d in
  if negb ok then ret false else if negb (mbr_status_ok hint) then ret false else
  '(ok, d) <- volume_read 462 1 ;; let hint := store hint d in
  if negb ok then ret false else if negb (mbr_status_ok hint) then ret false else
  '(ok, d) <- volume_read 478 1 ;; let hint := store hint d in
  if negb ok then ret false else if negb (mbr_status_ok hint) then ret false else
  '(ok, d) <- volume_read 494 1 ;; let hint := store hint d in
  if negb ok then ret false else if negb (mbr_status_ok hint) then ret false else
  let hintc := repeat 0 64 in
  '(ok, d) <- volume_read 3 4 ;; let hintc := store hintc d in
  if negb ok then ret false else if memcmp_eq hintc (literal "NTFS") 4 then ret false else
  '(ok, d) <- volume_read 54 3 ;; let hintc := store hintc d in
  if negb ok then ret false else if memcmp_eq hintc (literal "FAT") 3 then ret false else
  '(ok, d) <- volume_read 82 3 ;; let hintc := store hintc d in
  if negb ok then ret false else if memcmp_eq hintc (literal "FAT") 3 then ret false else
  '(ok, d) <- volume_read 3 5 ;; let hintc := store hintc d in
  if negb ok then ret false else if memcmp_eq hintc (literal "FAT32") 5 then ret false else
  '(ok, d) <- volume_read 1080 2 ;; let hint := store hint d in
  if negb ok then ret false else if field hint 0 2 =? 61267 then ret false else
  ret true.

Definition MAX_LOGICAL_PARTITIONS : Z := 256.

(** The [for (i = 0; i < partition; i++)] walk over the EBR chain, with
    [n] iterations left: [None] is the [END_OF_TABLE] return, otherwise
    the EBR sector reached. *)
Fixpoint ebr_walk (n : nat) (i : Z) (ebr_sector : Z)
  : volume -> res (option Z) :=
  match n with
  | O => ret (Some ebr_sector)
  | S n' =>
      let entry_offset := wrap64 (ebr_sector * 512 + 462) in
      '(ok, data) <- volume_read entry_offset sizeof_mbr_entry ;;
      if negb ok then ret None
      else
        let entry := as_mbr_entry (store (repeat 0 16) data) in
        if negb (type entry =? 15) && negb (type entry =? 5) then ret None
        else
          let prev_ebr_sector := ebr_sector in
          let ebr_sector := mbr_first_sect entry in
          if (ebr_sector =? 0) || ((i >? 0) && (ebr_sector <=? prev_ebr_sector))
          then ret None
          else
            fun extended_part =>
              if ebr_sector >=? sect_count extended_part then Val None extended_part
              else ebr_walk n' (i + 1) ebr_sector extended_part
  end.

(** [mbr_get_logical_part(ret, extended_part, partition)], run on the
    extended partition's own volume. *)
Definition mbr_get_logical_part (r : volume) (partition : Z)
  : volume -> res (Z * volume) :=
  if partition >=? MAX_LOGICAL_PARTITIONS then ret (END_OF_TABLE, r)
  else
    walk <- ebr_walk (Z.to_nat partition) 0 0 ;;
    match walk with
    | None => ret (END_OF_TABLE, r)
    | Some ebr_sector =>
        let entry_offset := wrap64 (ebr_sector * 512 + 446) in
        '(ok, data) <- volume_read entry_offset sizeof_mbr_entry ;;
        if negb ok then ret (END_OF_TABLE, r)
        else
          let entry := as_mbr_entry (store (repeat 0 16) data) in
          if type entry =? 0 then ret (NO_PARTITION, r)
          else if mbr_sect_count entry =? 0 then ret (NO_PARTITION, r)
          else
            fun extended_part =>
              match add_overflow (first_sect extended_part) ebr_sector with
              | None => Val (NO_PARTITION, r) extended_part
              | Some first_sect_64 =>
                  match add_overflow first_sect_64 (mbr_first_sect entry) with
                  | None => Val (NO_PARTITION, r) extended_part
                  | Some first_sect_64 =>
                      match add_overflow first_sect_64 (mbr_sect_count entry) with
                      | None => Val (NO_PARTITION, r) extended_part
                      | Some partition_end =>
                          let r := inherit r extended_part (partition + 4 + 1)
                                     first_sect_64 (mbr_sect_count entry) in
                          let r := probe_filesystem r in
                          let r := set_part_guid r false (part_guid r) in
                          Val (0, r) extended_part
                      end
                  end
              end
    end.

(** The [for (i = 0; i < 4; i++)] search of [mbr_get_part] for the first
    usable extended primary entry; [slots] are the values of [i] left. *)
Fixpoint mbr_find_extended (slots : list Z) (r : volume) (partition : Z)
  : volume -> res (Z * volume) :=
  match slots with
  | [] => ret (END_OF_TABLE, r)
  | i :: rest =>
      let entry_offset := 446 + sizeof_mbr_entry * i in
      '(ok, data) <- volume_read entry_offset sizeof_mbr_entry ;;
      if negb ok then mbr_find_extended rest r partition
      else
        let entry := as_mbr_entry (store (repeat 0 16) data) in
        if negb (type entry =? 15) && negb (type entry =? 5)
        then mbr_find_extended rest r partition
        else if mbr_sect_count entry =? 0 then mbr_find_extended rest r partition
        else
          fun volume =>
            let extended_part :=
              inherit zero_volume volume (i + 1)
                      (mbr_first_sect entry) (mbr_sect_count entry) in
            match mbr_get_logical_part r (partition - 4) extended_part with
            | Val a _ => Val a volume
            | Panic => Panic
            | Stuck => Stuck
            end
  end.

Definition mbr_get_part (r : volume) (partition : Z) : volume -> res (Z * volume) :=
  valid <- is_valid_mbr ;;
  if negb valid then ret (INVALID_TABLE, r)
  else if partition >? 3 then mbr_find_extended [0; 1; 2; 3] r partition
  else
    let entry_offset := 446 + sizeof_mbr_entry * partition in
    '(ok, data) <- volume_read entry_offset sizeof_mbr_entry ;;
    if negb ok then ret (END_OF_TABLE, r)
    else
      let entry := as_mbr_entry (store (repeat 0 16) data) in
      if type entry =? 0 then ret (NO_PARTITION, r)
      else if mbr_sect_count entry =? 0 then ret (NO_PARTITION, r)
      else
        fun volume =>
          let r := inherit r volume (partition + 1)
                     (mbr_first_sect entry) (mbr_sect_count entry) in
          let r := probe_filesystem r in
          let r := set_part_guid r false (part_guid r) in
          Val (0, r) volume.

Definition part_get (part : volume) (partition : Z) : volume -> res (Z * volume) :=
  if partition <? 0 then ret (NO_PARTITION, part)
  else
    '(r, part) <- gpt_get_part part partition ;;
    if negb (r =? INVALID_TABLE) then ret (r, part)
    else
      '(r, part) <- mbr_get_part part partition ;;
      if negb (r =? INVALID_TABLE) then ret (r, part)
      else ret (INVALID_TABLE, part).

End Partitions.

(** ** Numbers in text *)

(** [bcd_to_int] and [int_to_bcd] on [uint8_t]. *)
Definition bcd_to_int (val : Z) : Z :=
  u8 (Z.land val 15 + Z.shiftr (Z.land val 240) 4 * 10).

Definition int_to_bcd (val : Z) : Z :=
  u8 (Z.lor (val mod 10) (Z.shiftl (val / 10) 4)).

(** [digit_to_int(c)] *)
Definition digit_to_int (c : Z) : Z :=
  if (97 <=? c) && (c <=? 102) then c - 97 + 10
  else if (65 <=? c) && (c <=? 70) then c - 65 + 10
  else if (48 <=? c) && (c <=? 57) then c - 48
  else -1.

(** The [for] loop of [strtoui] at index [i] of the string, of which
    [s] is what is left before the terminating NUL: the value returned
    and the index that [*end] is given. *)
Fixpoint strtoui_loop (s : list Z) (i n base : Z) : Z * Z :=
  match s with
  | [] => (n, i)
  | c :: rest =>
      let d := digit_to_int c in
      if d =? -1 then (n, i)
      else
        match mul_overflow n (wrap64 base) with
        | None => (UINT64_MAX, i)
        | Some mul_result =>
            match add_overflow mul_result (wrap64 d) with
            | None => (UINT64_MAX, i)
            | Some n => strtoui_loop rest (i + 1) n base
            end
        end
  end.

Definition strtoui (s : list Z) (base : Z) : Z * Z := strtoui_loop s 0 0 base.

(** ** Path canonicalisation *)

(** C strings are lists of characters, the terminating NUL left
    implicit; the output buffer is the list of the [size] bytes that
    [get_absolute_path] may use, whatever they hold on entry. *)
Definition chars (s : string) : list ascii := list_ascii_of_string s.

Definition NUL : ascii := zero.

Definition is_slash (c : ascii) : bool := Ascii.eqb c "/".

(** [strncmp(path, lit, strlen(lit)) == 0]. *)
Fixpoint starts_with (lit path : list ascii) : bool :=
  match lit, path with
  | [], _ => true
  | _ :: _, [] => false
  | l :: lit', c :: path' => Ascii.eqb l c && starts_with lit' path'
  end.

(** [strncmp(path, lit "\0", strlen(lit) + 1) == 0]. *)
Definition is_string (lit path : list ascii) : bool :=
  if list_eq_dec ascii_dec path lit then true else false.

(** What a call comes to: a [bool] return with the buffer as written,
    or an access outside the [size] bytes of the buffer. *)
Inductive outcome : Type :=
| Returned (b : bool) (buf : list ascii)
| Fault.

(** [*p] and [*p = c] for [p = orig_ptr + i]. *)
Definition peek (buf : list ascii) (i : nat) : option ascii := nth_error buf i.

Definition poke (buf : list ascii) (i : nat) (c : ascii) : option (list ascii) :=
  if (i <? length buf)%nat then Some (firstn i buf ++ c :: skipn (S i) buf) else None.

(** [memcpy(path_ptr, pwd, pwd_len + 1)] at the start of the buffer,
    after the check [pwd_len < size]. *)
Definition put_string (buf pwd : list ascii) : list ascii :=
  pwd ++ NUL :: skipn (S (length pwd)) buf.

(** [while ( *path_ptr != '/') path_ptr--;] *)
Fixpoint rewind (buf : list ascii) (ptr : nat) : option nat :=
  match peek buf ptr with
  | None => None
  | Some c =>
      if is_slash c then Some ptr
      else match ptr with
           | O => None
           | S p => rewind buf p
           end
  end.

(** The two statements shared by the [..] cases. *)
Definition pop (buf : list ascii) (ptr : nat) : option nat :=
  match rewind buf ptr with
  | None => None
  | Some p => Some (if (p =? 0)%nat then S p else p)
  end.

(** The [term:] label. *)
Definition term (buf : list ascii) (ptr : nat) : outcome :=
  match ptr with
  | O => Fault
  | S p =>
      match peek buf p with
      | None => Fault
      | Some c =>
          let ptr := if is_slash c && negb (p =? 0)%nat then p else ptr in
          match poke buf ptr NUL with
          | None => Fault
          | Some buf => Returned true buf
          end
      end
  end.

(** [loop] is the [switch ( *path)] at the head of the [for (;;)];
    [first_run] is the code from the label of that name to its
    [continue], with the [switch] that the [continue] reaches. *)
Fixpoint loop (path buf : list ascii) (ptr : nat) {struct path} : outcome :=
  match path with
  | [] => term buf ptr
  | c :: rest =>
      if is_slash c then first_run rest buf ptr
      else if (length buf - 1 <=? ptr)%nat then Returned false buf
      else match poke buf ptr c with
           | None => Fault
           | Some buf => loop rest buf (S ptr)
           end
  end
with first_run (path buf : list ascii) (ptr : nat) {struct path} : outcome :=
  if starts_with (chars "/") path then
    match path with
    | _ :: rest => first_run rest buf ptr
    | [] => Fault
    end
  else if is_string (chars ".") path || is_string (chars "./") path then term buf ptr
  else if is_string (chars "..") path || is_string (chars "../") path then
    match pop buf ptr with
    | None => Fault
    | Some ptr => term buf ptr
    end
  else if starts_with (chars "../") path then
    match pop buf ptr with
    | None => Fault
    | Some ptr =>
        match poke buf ptr NUL with
        | None => Fault
        | Some buf =>
            match path with
            | _ :: _ :: _ :: rest => first_run rest buf ptr
            | _ => Fault
            end
        end
    end
  else if starts_with (chars "./") path then
    match path with
    | _ :: _ :: rest => first_run rest buf ptr
    | _ => Fault
    end
  else
    let separated :=
      if (ptr =? 1)%nat then Some (Some (buf, ptr))
      else match ptr with
           | O => None
           | S p =>
               match peek buf p with
               | None => None
               | Some c =>
                   if is_slash c then Some (Some (buf, ptr))
                   else if (length buf - 1 <=? ptr)%nat then Some None
                   else match poke buf ptr "/" with
                        | None => None
                        | Some buf => Some (Some (buf, S ptr))
                        end
               end
           end in
    match separated with
    | None => Fault
    | Some None => Returned false buf
    | Some (Some (buf, ptr)) =>
        match path with
        | [] => term buf ptr
        | c :: rest =>
            if is_slash c then first_run rest buf ptr
            else if (length buf - 1 <=? ptr)%nat then Returned false buf
            else match poke buf ptr c with
                 | None => Fault
                 | Some buf => loop rest buf (S ptr)
                 end
        end
    end.

(** [get_absolute_path(path_ptr, path, pwd, size)] on a buffer of
    [size] bytes. *)
Definition get_absolute_path (buf path pwd : list ascii) : outcome :=
  let size := length buf in
  if (size =? 0)%nat then Returned false buf
  else
    match path with
    | [] =>
        if (size <=? length pwd)%nat then Returned false buf
        else Returned true (put_string buf pwd)
    | c :: rest =>
        if negb (is_slash c) then
          if (size <=? length pwd)%nat then Returned false buf
          else first_run path (put_string buf pwd) (length pwd)
        else
          match poke buf 0 "/" with
          | None => Fault
          | Some buf => first_run rest buf 1
          end
    end.

(** The C string held by a buffer: its bytes up to the first NUL. *)
Fixpoint cstring (buf : list ascii) : list ascii :=
  match buf with
  | [] => []
  | c :: rest => if Ascii.eqb c NUL then [] else c :: cstring rest
  end.

(** The canonical form by the book.  [split_path cur path] are the
    components of [cur ++ path] between its ['/'], [cur] being free of
    them; [resolve_step] applies one component to the stack of the
    components so far: an empty one and [.] change nothing, [..]
    drops the last, any other is added; [resolve_path pwd path] is the
    stack for [path] taken from [pwd], or from the root when [path]
    starts with a ['/']. *)
Fixpoint split_path (cur path : list ascii) : list (list ascii) :=
  match path with
  | [] => [cur]
  | c :: rest =>
      if is_slash c then cur :: split_path [] rest else split_path (cur ++ [c]) rest
  end.

Definition resolve_step (stack : list (list ascii)) (w : list ascii)
  : list (list ascii) :=
  if is_string [] w then stack
  else if is_string (chars ".") w then stack
  else if is_string (chars "..") w then removelast stack
  else stack ++ [w].

Definition resolve (stack : list (list ascii)) (cur path : list ascii)
  : list (list ascii) :=
  fold_left resolve_step (split_path cur path) stack.

Definition resolve_path (pwd path : list ascii) : list (list ascii) :=
  resolve [] [] (if starts_with ["/"%char] path then path else pwd ++ "/"%char :: path).

(** ** ISO9660 *)

(** An outcome for code that reads no volume. *)
Inductive result (A : Type) : Type :=
| Done (a : A)
| Panicked
| OutOfFuel.
Arguments Done {A} a.
Arguments Panicked {A}.
Arguments OutOfFuel {A}.

(** The byte at offset [i] of a buffer. *)
Definition rdz (buf : list Z) (i : Z) : Z := u8 (nth (Z.to_nat i) buf 0).

(** A [uint32_t] stored little-endian at offset [i]. *)
Definition le32 (buf : list Z) (i : Z) : Z := field buf (Z.to_nat i) 4.

(** The C string held by a byte buffer: its bytes before the first 0. *)
Fixpoint cstr (buf : list Z) : list Z :=
  match buf with
  | [] => []
  | c :: rest => if u8 c =? 0 then [] else u8 c :: cstr rest
  end.

(** String comparison.
    Modelled from the spec: [lib/libc] is not among the sources;
    [strcmp] is exact comparison of the two strings and [strcasecmp]
    compares them after folding ASCII letters to lower case. *)
Definition tolower (c : Z) : Z := if (65 <=? c) && (c <=? 90) then c + 32 else c.

Definition strcmp_eq (a b : list Z) : bool :=
  if list_eq_dec Z.eq_dec (cstr a) (cstr b) then true else false.

Definition strcasecmp_eq (a b : list Z) : bool :=
  if list_eq_dec Z.eq_dec (map tolower (cstr a)) (map tolower (cstr b))
  then true else false.

(** [ALIGN_UP] and [ALIGN_DOWN] of [lib/misc.h]. *)
Definition ALIGN_UP (x a : Z) : Z := (x + (a - 1)) / a * a.
Definition ALIGN_DOWN (x a : Z) : Z := x / a * a.
Definition DIV_ROUNDUP (a b : Z) : Z := (a + (b - 1)) / b.

Definition ISO9660_SECTOR_SIZE : Z := 2048.
Definition ISO9660_FLAG_MULTI_EXTENT : Z := 128.
Definition ISO9660_FIRST_VOLUME_DESCRIPTOR : Z := 16.
Definition ROCK_RIDGE_MAX_FILENAME : Z := 255.
Definition ISO9660_MAX_EXTENT_COUNT : Z := 65536.
Definition ISO9660_MAX_VOLUME_DESCRIPTORS : Z := 256.
Definition ISO9660_MAX_DIR_SIZE : Z := 67108864.
Definition ISO9660_VDT_PRIMARY : Z := 1.
Definition ISO9660_VDT_TERMINATOR : Z := 255.

(** [struct iso9660_directory_entry] (packed, 33 bytes before the
    name), read in place at offset [e] of a directory buffer. *)
Definition sizeof_directory_entry : Z := 33.
Definition de_length (dir : list Z) (e : Z) : Z := rdz dir e.
Definition de_extent (dir : list Z) (e : Z) : Z := le32 dir (e + 2).
Definition de_extent_size (dir : list Z) (e : Z) : Z := le32 dir (e + 10).
Definition de_flags (dir : list Z) (e : Z) : Z := rdz dir (e + 25).
Definition de_filename_size (dir : list Z) (e : Z) : Z := rdz dir (e + 32).
Definition de_name (dir : list Z) (e : Z) (n : Z) : list Z :=
  map (rdz dir) (seqZ (e + 33) n).

Record iso9660_extent : Type := { LBA : Z; size : Z }.

(** [struct iso9660_context]; [ctx_vol] is the address of the volume. *)
Record iso9660_context : Type := {
  ctx_vol : Z;
  root : list Z;
  root_size : Z
}.

Record iso9660_file_handle : Type := {
  context : iso9660_context;
  total_size : Z;
  extent_count : Z;
  extents : list iso9660_extent
}.

(** The [while] loop of [load_name] over the System Use Area:
    [rrnamelen] and [nm_entry] ([None] for [NULL]) at its exit. *)
Fixpoint rr_scan (fuel : nat) (dir : list Z) (sysarea sysarea_len : Z)
  : option (Z * option Z) :=
  match fuel with
  | O => None
  | S fuel' =>
      if (sysarea_len >=? 4) && (rdz dir (sysarea + 3) =? 1) then
        if rdz dir (sysarea + 2) >? sysarea_len then Some (0, None)
        else if (rdz dir sysarea =? 78) && (rdz dir (sysarea + 1) =? 77) then
          if (rdz dir (sysarea + 2) >=? 5) && (rdz dir (sysarea + 2) <=? sysarea_len)
          then Some (rdz dir (sysarea + 2) - 5, Some sysarea)
          else Some (0, None)
        else if rdz dir (sysarea + 2) =? 0 then Some (0, None)
        else rr_scan fuel' dir (sysarea + rdz dir (sysarea + 2))
                     (sysarea_len - rdz dir (sysarea + 2))
      else Some (0, None)
  end.

(** The copy loop under [use_iso_name]: the name up to [;] or [.;]. *)
Fixpoint iso_name_copy (name : list Z) : list Z :=
  match name with
  | [] => []
  | c :: rest =>
      if c =? 59 then []
      else if (c =? 46) && match rest with
                           | c2 :: _ => c2 =? 59
                           | [] => false
                           end then []
      else c :: iso_name_copy rest
  end.

(** The [use_iso_name:] label of [load_name]. *)
Definition use_iso_name (limit : Z) (dir : list Z) (e : Z) : result (bool * list Z) :=
  let name_len := de_filename_size dir e in
  if name_len >=? limit then Panicked
  else
    let name_len :=
      if de_length dir e <? sizeof_directory_entry + name_len then
        if de_length dir e <=? sizeof_directory_entry then 0
        else de_length dir e - sizeof_directory_entry
      else name_len in
    Done (false, iso_name_copy (de_name dir e name_len) ++ [0]).

(** [load_name(buf, limit, entry)]: the return value and the bytes
    stored in [buf], terminator included. *)
Definition load_name (limit : Z) (dir : list Z) (e : Z) : result (bool * list Z) :=
  let sysarea := e + sizeof_directory_entry + de_filename_size dir e in
  if de_length dir e <? sizeof_directory_entry + de_filename_size dir e
  then use_iso_name limit dir e
  else
    let sysarea_len := de_length dir e - sizeof_directory_entry - de_filename_size dir e in
    let scan (sysarea sysarea_len : Z) : result (bool * list Z) :=
      match rr_scan (S (Z.to_nat sysarea_len)) dir sysarea sysarea_len with
      | None => OutOfFuel
      | Some (rrnamelen, nm_entry) =>
          match nm_entry with
          | Some nm =>
              if rrnamelen >? 0 then
                let name_len := rrnamelen in
                if name_len >=? limit then Panicked
                else Done (true, map (rdz dir) (seqZ (nm + 5) name_len) ++ [0])
              else use_iso_name limit dir e
          | None => use_iso_name limit dir e
          end
      end in
    if Z.land (de_filename_size dir e) 1 =? 0 then
      if sysarea_len =? 0 then use_iso_name limit dir e
      else scan (sysarea + 1) (sysarea_len - 1)
    else scan sysarea sysarea_len.

(** [iso9660_next_entry(current, buffer_end)] on offsets into a
    directory buffer that starts on a sector boundary. *)
Definition iso9660_next_entry (dir : list Z) (current buffer_end : Z) : option Z :=
  if de_length dir current =? 0 then
    let next_sector := ALIGN_UP (current + 1) ISO9660_SECTOR_SIZE in
    if next_sector >=? buffer_end then None
    else if de_length dir next_sector =? 0 then None
    else Some next_sector
  else
    let next := current + de_length dir current in
    if next >=? buffer_end then None
    else
      let skipped :=
        if de_length dir next =? 0 then
          let next_sector := ALIGN_UP (next + 1) ISO9660_SECTOR_SIZE in
          if next_sector >=? buffer_end then None
          else if de_length dir next_sector =? 0 then None
          else Some next_sector
        else Some next in
      match skipped with
      | None => None
      | Some entry =>
          if de_length dir entry <? sizeof_directory_entry then None
          else Some entry
      end.

(** [iso9660_find(buffer, size, filename)]: the offset of the matching
    entry; [off] is how far [buffer] has advanced.  The flag is the
    global [case_insensitive_fopen]. *)
Fixpoint iso9660_find (fuel : nat) (case_insensitive_fopen : bool)
         (dir : list Z) (off size : Z) (filename : list Z)
  : result (option Z) :=
  if size =? 0 then Done None
  else
    match fuel with
    | O => OutOfFuel
    | S fuel' =>
        if de_length dir off =? 0 then
          if size <=? ISO9660_SECTOR_SIZE then Done None
          else
            let prev_size := size in
            let size := ALIGN_DOWN size ISO9660_SECTOR_SIZE in
            if prev_size =? size then
              if size <=? ISO9660_SECTOR_SIZE then Done None
              else iso9660_find fuel' case_insensitive_fopen dir
                     (off + ISO9660_SECTOR_SIZE) (size - ISO9660_SECTOR_SIZE) filename
            else iso9660_find fuel' case_insensitive_fopen dir
                   (off + (prev_size - size)) size filename
        else if de_length dir off >? size then Done None
        else if de_length dir off <? sizeof_directory_entry then Done None
        else
          match load_name 256 dir off with
          | Panicked => Panicked
          | OutOfFuel => OutOfFuel
          | Done (rr, entry_filename) =>
              if rr && negb case_insensitive_fopen then
                if strcmp_eq filename entry_filename then Done (Some off)
                else iso9660_find fuel' case_insensitive_fopen dir
                       (off + de_length dir off) (size - de_length dir off) filename
              else
                if strcasecmp_eq filename entry_filename then Done (Some off)
                else iso9660_find fuel' case_insensitive_fopen dir
                       (off + de_length dir off) (size - de_length dir off) filename
          end
    end.

(** First pass of the multi-extent collection in [iso9660_open]: the
    extent count and total size at the exit of the [while]. *)
Fixpoint count_extents (fuel : nat) (dir : list Z) (buffer_end e : Z)
         (extent_count total_size : Z) : option (Z * Z) :=
  if negb (Z.land (de_flags dir e) ISO9660_FLAG_MULTI_EXTENT =? 0) then
    match fuel with
    | O => None
    | S fuel' =>
        match iso9660_next_entry dir e buffer_end with
        | None => Some (extent_count, total_size)
        | Some next =>
            let e := next in
            let extent_count := extent_count + 1 in
            let total_size := total_size + de_extent_size dir e in
            if extent_count >=? ISO9660_MAX_EXTENT_COUNT
            then Some (extent_count, total_size)
            else count_extents fuel' dir buffer_end e extent_count total_size
        end
    end
  else Some (extent_count, total_size).

(** Second pass: the [n] slots of the zero-filled extent array, filled
    from entry [e] on. *)
Fixpoint fill_extents (n : nat) (dir : list Z) (buffer_end e : Z)
  : list iso9660_extent :=
  match n with
  | O => []
  | S n' =>
      {| LBA := de_extent dir e; size := de_extent_size dir e |} ::
      match n' with
      | O => []
      | S _ =>
          match iso9660_next_entry dir e buffer_end with
          | None => repeat {| LBA := 0; size := 0 |} n'
          | Some next => fill_extents n' dir buffer_end next
          end
      end
  end.

(** The block of [iso9660_open] entered when the last path component
    has been found at [entry] of the directory [current]. *)
Definition collect_extents (ctx : iso9660_context) (current : list Z)
           (current_size entry : Z) : result iso9660_file_handle :=
  let buffer_end := current_size in
  match count_extents (Z.to_nat ISO9660_MAX_EXTENT_COUNT) current buffer_end entry 1
                      (de_extent_size current entry) with
  | None => OutOfFuel
  | Some (extent_count, total_size) =>
      Done {| context := ctx;
              total_size := total_size;
              extent_count := extent_count;
              extents := fill_extents (Z.to_nat extent_count) current
                                      buffer_end entry |}
  end.

Section ISO9660.

Variable disk_read_sectors : volume -> list Z -> Z -> Z -> disk_status * list Z.

(** The global [case_insensitive_fopen]. *)
Variable case_insensitive_fopen : bool.

Local Abbreviation volume_read := (volume_read disk_read_sectors).

(** [iso9660_find_PVD]: the descriptor found; every failure panics. *)
Fixpoint iso9660_find_PVD (fuel : nat) (lba : Z) : volume -> res (list Z) :=
  match fuel with
  | O => fun _ => Panic
  | S fuel' =>
      let offset := lba * ISO9660_SECTOR_SIZE in
      '(ok, desc) <- volume_read offset 2048 ;;
      if negb ok then fun _ => Panic
      else
        let type := rdz desc 0 in
        if type =? ISO9660_VDT_PRIMARY then ret desc
        else if type =? ISO9660_VDT_TERMINATOR then fun _ => Panic
        else iso9660_find_PVD fuel' (lba + 1)
  end.

(** [iso9660_cache_root]: the root directory and its size. *)
Definition iso9660_cache_root : volume -> res (list Z * Z) :=
  pv <- iso9660_find_PVD (Z.to_nat ISO9660_MAX_VOLUME_DESCRIPTORS)
                         ISO9660_FIRST_VOLUME_DESCRIPTOR ;;
  let root_size := le32 pv 166 in
  if (root_size =? 0) || (root_size >? ISO9660_MAX_DIR_SIZE) then fun _ => Panic
  else
    let offset := le32 pv 158 * ISO9660_SECTOR_SIZE in
    '(ok, root) <- volume_read offset root_size ;;
    if negb ok then fun _ => Panic
    else ret (root, root_size).

(** [iso9660_get_context]: the cached context of the volume at address
    [vol], created on first use and pushed on the global list. *)
Definition iso9660_get_context (vol : Z) (contexts : list iso9660_context)
  : volume -> res (iso9660_context * list iso9660_context) :=
  match find (fun c => ctx_vol c =? vol) contexts with
  | Some c => ret (c, contexts)
  | None =>
      '(root, root_size) <- iso9660_cache_root ;;
      let c := {| ctx_vol := vol; root := root; root_size := root_size |} in
      ret (c, c :: contexts)
  end.

(** [while ( *path == '/') path++;] *)
Fixpoint skip_slashes (path : list Z) : list Z :=
  match path with
  | c :: rest => if c =? 47 then skip_slashes rest else path
  | [] => []
  end.

(** The copy of one path component into [filename]: the component and
    what follows it, or [None] for the panic of an over-long one;
    [room] is [aux_end - aux]. *)
Fixpoint take_component (room : nat) (path : list Z) : option (list Z * list Z) :=
  match path with
  | [] => Some ([], [])
  | c :: rest =>
      if c =? 47 then Some ([], path)
      else match room with
           | O => None
           | S room' =>
               match take_component room' rest with
               | None => None
               | Some (name, rest') => Some (c :: name, rest')
               end
           end
  end.

(** The [while (true)] of [iso9660_open]; [first] tells whether
    [current] is still the cached root. *)
Fixpoint iso9660_open_walk (fuel : nat) (ctx : iso9660_context)
         (path : list Z) (current : list Z) (current_size : Z) (first : bool)
         (next_sector next_size : Z)
  : volume -> res (option iso9660_file_handle) :=
  match fuel with
  | O => fun _ => Stuck
  | S fuel' =>
      let path := skip_slashes path in
      match path with
      | [] =>
          if first then ret None
          else ret (Some {| context := ctx;
                            total_size := next_size;
                            extent_count := 1;
                            extents := [{| LBA := next_sector; size := next_size |}] |})
      | _ :: _ =>
          match take_component (Z.to_nat (ROCK_RIDGE_MAX_FILENAME - 1)) path with
          | None => fun _ => Panic
          | Some (filename, path) =>
              match iso9660_find (S (Z.to_nat current_size)) case_insensitive_fopen
                                 current 0 current_size filename with
              | Panicked => fun _ => Panic
              | OutOfFuel => fun _ => Stuck
              | Done None => ret None
              | Done (Some entry) =>
                  let next_sector := de_extent current entry in
                  let next_size := de_extent_size current entry in
                  match path with
                  | [] =>
                      match collect_extents ctx current current_size entry with
                      | Done h => ret (Some h)
                      | Panicked => fun _ => Panic
                      | OutOfFuel => fun _ => Stuck
                      end
                  | _ :: path =>
                      if (next_size =? 0) || (next_size >? ISO9660_MAX_DIR_SIZE)
                      then ret None
                      else
                        let current_size := next_size in
                        let dir_offset := next_sector * ISO9660_SECTOR_SIZE in
                        '(ok, current) <- volume_read dir_offset current_size ;;
                        if negb ok then ret None
                        else iso9660_open_walk fuel' ctx path current current_size
                                               false next_sector next_size
                  end
              end
          end
      end
  end.

(** [iso9660_open(vol, path)], with the global list of contexts passed
    in and out; the [file_handle] wrapper carries the same size. *)
Definition iso9660_open (vol : Z) (contexts : list iso9660_context) (path : list Z)
  : volume -> res (option iso9660_file_handle * list iso9660_context) :=
  let signature := ISO9660_FIRST_VOLUME_DESCRIPTOR * ISO9660_SECTOR_SIZE + 1 in
  '(ok, buf) <- volume_read signature 5 ;;
  if negb ok then ret (None, contexts)
  else if negb (strcmp_eq (store (repeat 0 6) buf) (literal "CD001"))
  then ret (None, contexts)
  else
    '(ctx, contexts) <- iso9660_get_context vol contexts ;;
    let path := skip_slashes path in
    h <- iso9660_open_walk (S (length path)) ctx path (root ctx) (root_size ctx)
                           true 0 0 ;;
    ret (h, contexts).

(** The [for] loop of [iso9660_read] over the extents left, with the
    bytes stored in [buf] so far. *)
Fixpoint iso9660_read_loop (extents : list iso9660_extent)
         (extent_start loc count : Z) (buf : list Z) : volume -> res (list Z) :=
  match extents with
  | [] => ret buf
  | ex :: rest =>
      if count >? 0 then
        let extent_size := size ex in
        let extent_end := extent_start + extent_size in
        if loc <? extent_end then
          let offset_in_extent := if loc >? extent_start then loc - extent_start else 0 in
          let bytes_available := extent_size - offset_in_extent in
          let to_read := if count <? bytes_available then count else bytes_available in
          let disk_offset := LBA ex * ISO9660_SECTOR_SIZE + offset_in_extent in
          '(ok, data) <- volume_read disk_offset to_read ;;
          if negb ok then fun _ => Panic
          else iso9660_read_loop rest extent_end (loc + to_read) (count - to_read)
                                 (buf ++ data)
        else iso9660_read_loop rest extent_end loc count buf
      else ret buf
  end.

Definition iso9660_read (f : iso9660_file_handle) (loc count : Z)
  : volume -> res (list Z) :=
  iso9660_read_loop (firstn (Z.to_nat (extent_count f)) (extents f)) 0 loc count [].

End ISO9660.

(** ** FAT12/16/32 *)

Definition FAT32_LFN_MAX_ENTRIES : Z := 20.
Definition FAT32_LFN_MAX_FILENAME_LENGTH : Z := FAT32_LFN_MAX_ENTRIES * 13 + 1.
Definition FAT32_ATTRIBUTE_SUBDIRECTORY : Z := 16.
Definition FAT32_LFN_ATTRIBUTE : Z := 15.
Definition FAT32_ATTRIBUTE_VOLLABEL : Z := 8.

(** [64 * 1024 * 1024 / sizeof(uint32_t)] *)
Definition FAT32_MAX_CHAIN_LENGTH : Z := 64 * 1024 * 1024 / 4.

(** [struct fat32_context]; the volume [part] is the state the readers
    run on, [label] is [None] for [NULL], and [fat_type] and
    [fat_root_size] are its [type] and [root_size]. *)
Record fat32_context : Type := {
  fat_type : Z;
  label : option (list Z);
  bytes_per_sector : Z;
  sectors_per_cluster : Z;
  reserved_sectors : Z;
  number_of_fats : Z;
  hidden_sectors : Z;
  sectors_per_fat : Z;
  fat_start_lba : Z;
  data_start_lba : Z;
  root_directory_cluster : Z;
  root_entries : Z;
  root_start : Z;
  fat_root_size : Z
}.

Definition set_label (c : fat32_context) (l : option (list Z)) : fat32_context :=
  {| fat_type := fat_type c; label := l; bytes_per_sector := bytes_per_sector c;
     sectors_per_cluster := sectors_per_cluster c;
     reserved_sectors := reserved_sectors c; number_of_fats := number_of_fats c;
     hidden_sectors := hidden_sectors c; sectors_per_fat := sectors_per_fat c;
     fat_start_lba := fat_start_lba c; data_start_lba := data_start_lba c;
     root_directory_cluster := root_directory_cluster c;
     root_entries := root_entries c; root_start := root_start c;
     fat_root_size := fat_root_size c |}.

(** [struct fat32_file_handle]; [cluster_chain] is [None] for [NULL]. *)
Record fat32_file_handle : Type := {
  fat_context : fat32_context;
  first_cluster : Z;
  size_bytes : Z;
  size_clusters : Z;
  cluster_chain : option (list Z);
  chain_len : Z
}.

(** The fields of [struct fat32_bpb] (packed) that the code reads. *)
Record fat32_bpb : Type := {
  bpb_bytes_per_sector : Z;
  bpb_sectors_per_cluster : Z;
  bpb_reserved_sectors : Z;
  bpb_fats_count : Z;
  bpb_root_entries_count : Z;
  bpb_sectors_count_16 : Z;
  bpb_sectors_per_fat_16 : Z;
  bpb_hidden_sectors_count : Z;
  bpb_sectors_count_32 : Z;
  bpb_sectors_per_fat_32 : Z;
  bpb_root_directory_cluster : Z
}.

Definition as_fat32_bpb (b : list Z) : fat32_bpb :=
  {| bpb_bytes_per_sector := field b 11 2;
     bpb_sectors_per_cluster := field b 13 1;
     bpb_reserved_sectors := field b 14 2;
     bpb_fats_count := field b 16 1;
     bpb_root_entries_count := field b 17 2;
     bpb_sectors_count_16 := field b 19 2;
     bpb_sectors_per_fat_16 := field b 22 2;
     bpb_hidden_sectors_count := field b 28 4;
     bpb_sectors_count_32 := field b 32 4;
     bpb_sectors_per_fat_32 := field b 36 4;
     bpb_root_directory_cluster := field b 44 4 |}.

(** [struct fat32_directory_entry] (packed, 32 bytes). *)
Record fat32_directory_entry : Type := {
  file_name_and_ext : list Z;
  attribute : Z;
  cluster_num_high : Z;
  cluster_num_low : Z;
  file_size_bytes : Z
}.

Definition sizeof_fat32_directory_entry : Z := 32.

(** [directory_entries[i]] *)
Definition as_fat32_directory_entry (b : list Z) (i : Z) : fat32_directory_entry :=
  let off := Z.to_nat (i * sizeof_fat32_directory_entry) in
  {| file_name_and_ext := bytes_at b off 11;
     attribute := field b (off + 11) 1;
     cluster_num_high := field b (off + 20) 2;
     cluster_num_low := field b (off + 26) 2;
     file_size_bytes := field b (off + 28) 4 |}.

(** The directory entry that stands for the FAT32 root: only its
    cluster number is assigned, and nothing else of it is read. *)
Definition root_directory_entry (cluster : Z) : fat32_directory_entry :=
  {| file_name_and_ext := []; attribute := 0;
     cluster_num_high := Z.shiftr cluster 16;
     cluster_num_low := Z.land cluster 65535;
     file_size_bytes := 0 |}.

(** [strncmp(a, b, n) == 0] and [toupper].
    Modelled from the spec: [lib/libc] is not among the sources;
    [strncmp] compares at most [n] characters and stops after a common
    NUL, [toupper] folds ASCII lower-case letters. *)
Fixpoint strncmp_eq (n : nat) (a b : list Z) : bool :=
  match n with
  | O => true
  | S n' =>
      let x := u8 (hd 0 a) in
      let y := u8 (hd 0 b) in
      if x =? y then (if x =? 0 then true else strncmp_eq n' (tl a) (tl b))
      else false
  end.

Definition toupper (c : Z) : Z := if (97 <=? c) && (c <=? 122) then c - 32 else c.

(** [a[i] = x] on an array held as a list. *)
Definition array_set (a : list Z) (i : Z) (x : Z) : list Z :=
  if (0 <=? i) && (i <? Z.of_nat (length a))
  then firstn (Z.to_nat i) a ++ x :: skipn (S (Z.to_nat i)) a
  else a.

(** The marker threshold of [cache_cluster_chain]. *)
Definition cluster_limit (context : fat32_context) : Z :=
  Z.lor (if fat_type context =? 12 then 4079 else 0)
        (Z.lor (if fat_type context =? 16 then 65519 else 0)
               (if fat_type context =? 32 then 268435439 else 0)).

(** [fat32_lfncpy]: the destination after the copy. *)
Fixpoint fat32_lfncpy_loop (n : nat) (destination : list Z)
         (dest_size dest_offset : Z) (source : list Z) (i : Z) : list Z :=
  match n with
  | O => destination
  | S n' =>
      if dest_offset + i >=? dest_size then destination
      else fat32_lfncpy_loop n'
             (array_set destination (dest_offset + i) (rdz source (i * 2)))
             dest_size dest_offset source (i + 1)
  end.

Definition fat32_lfncpy (destination : list Z) (dest_size dest_offset : Z)
           (source : list Z) (size : nat) : list Z :=
  fat32_lfncpy_loop size destination dest_size dest_offset source 0.

(** [fat32_filename_to_8_3]: [dest] when it returns [true]. *)
Fixpoint fat32_filename_to_8_3_loop (src : list Z) (j : Z) (ext : bool)
         (dest : list Z) : option (list Z) :=
  match src with
  | [] => Some dest
  | c :: rest =>
      if u8 c =? 0 then Some dest
      else if u8 c =? 46 then
        if ext then None
        else fat32_filename_to_8_3_loop rest 8 true dest
      else if (j >=? 8 + 3) || ((j >=? 8) && negb ext) then None
      else fat32_filename_to_8_3_loop rest (j + 1) ext
             (array_set dest j (toupper (u8 c)))
  end.

Definition fat32_filename_to_8_3 (src : list Z) : option (list Z) :=
  fat32_filename_to_8_3_loop src 0 false (repeat 32 11).

(** What [fat32_open_in] leaves in [*file] when it returns 0: a
    directory entry, or the volume label when [name] is [NULL]. *)
Inductive fat32_found : Type :=
| Found (file : fat32_directory_entry)
| Label (r : list Z)
| NotFound.

(** The loop that removes trailing spaces from the label; [n] is
    [j + 1]. *)
Fixpoint label_trim (n : nat) (r : list Z) : list Z :=
  match n with
  | O => r
  | S j => if rdz r (Z.of_nat j) =? 32 then label_trim j (array_set r (Z.of_nat j) 0)
           else r
  end.

(** The loop that terminates the long name after its last character
    that is not a space; [n] is [j + 1]. *)
Fixpoint lfn_trim (n : nat) (current_lfn : list Z) : list Z :=
  match n with
  | O => array_set current_lfn 0 0
  | S j => if rdz current_lfn (Z.of_nat j) =? 32 then lfn_trim j current_lfn
           else array_set current_lfn (Z.of_nat j + 1) 0
  end.

(** The [for] loop of [fat32_open_in] over the directory entries, with
    [n] iterations left before [i] reaches [total]. *)
Fixpoint fat32_scan (case_insensitive_fopen : bool) (n : nat)
         (directory_entries : list Z) (total : Z) (name : option (list Z))
         (i : Z) (current_lfn : list Z) : fat32_found :=
  match n with
  | O => NotFound
  | S n' =>
      let continue := fat32_scan case_insensitive_fopen n' directory_entries total
                                 name (i + 1) in
      let e := as_fat32_directory_entry directory_entries i in
      if rdz (file_name_and_ext e) 0 =? 0 then NotFound
      else
        match name with
        | None =>
            if negb (attribute e =? FAT32_ATTRIBUTE_VOLLABEL) then continue current_lfn
            else Label (label_trim 11 (store (ext_mem_alloc 12) (file_name_and_ext e)))
        | Some name =>
            let sfn (current_lfn : list Z) :=
              if negb (Z.land (attribute e) 8 =? 0) then continue current_lfn
              else
                match fat32_filename_to_8_3 name with
                | None => continue current_lfn
                | Some fn =>
                    if strncmp_eq 11 (file_name_and_ext e) fn then Found e
                    else continue current_lfn
                end in
            if attribute e =? FAT32_LFN_ATTRIBUTE then
              let lfn := firstn 32 (skipn (Z.to_nat (i * 32)) directory_entries) in
              let sequence_number := rdz lfn 0 in
              let current_lfn :=
                if negb (Z.land sequence_number 64 =? 0)
                then repeat 32 (Z.to_nat FAT32_LFN_MAX_FILENAME_LENGTH)
                else current_lfn in
              let seq_num := Z.land sequence_number 31 in
              if seq_num =? 0 then continue current_lfn
              else
                let lfn_index := (seq_num - 1) * 13 in
                if lfn_index >=? FAT32_LFN_MAX_ENTRIES * 13 then continue current_lfn
                else
                  let current_lfn :=
                    fat32_lfncpy current_lfn FAT32_LFN_MAX_FILENAME_LENGTH
                                 (lfn_index + 0) (skipn 1 lfn) 5 in
                  let current_lfn :=
                    fat32_lfncpy current_lfn FAT32_LFN_MAX_FILENAME_LENGTH
                                 (lfn_index + 5) (skipn 14 lfn) 6 in
                  let current_lfn :=
                    fat32_lfncpy current_lfn FAT32_LFN_MAX_FILENAME_LENGTH
                                 (lfn_index + 11) (skipn 28 lfn) 2 in
                  if negb (lfn_index =? 0) then continue current_lfn
                  else
                    let current_lfn :=
                      lfn_trim (Z.to_nat (FAT32_LFN_MAX_FILENAME_LENGTH - 1))
                               current_lfn in
                    if (if case_insensitive_fopen
                        then strcasecmp_eq current_lfn name
                        else strcmp_eq current_lfn name)
                    then
                      if i + 1 >=? total then NotFound
                      else
                        let sfn_entry :=
                          as_fat32_directory_entry directory_entries (i + 1) in
                        if (rdz (file_name_and_ext sfn_entry) 0 =? 0)
                           || (rdz (file_name_and_ext sfn_entry) 0 =? 229)
                           || (attribute sfn_entry =? FAT32_LFN_ATTRIBUTE)
                        then NotFound
                        else Found sfn_entry
                    else sfn current_lfn
            else sfn current_lfn
        end
  end.

Section FAT32.

Variable disk_read_sectors : volume -> list Z -> Z -> Z -> disk_status * list Z.

(** The global [case_insensitive_fopen]. *)
Variable case_insensitive_fopen : bool.

Local Abbreviation volume_read := (volume_read disk_read_sectors).

(** [read_cluster_from_map]: [*out] when it returns 0, [None] when it
    returns -1.  [type], here [fat_type], is one of 12, 16 and 32; the unreachable
    [default] does not return. *)
Definition read_cluster_from_map (context : fat32_context) (cluster : Z)
  : volume -> res (option Z) :=
  let fat_base := fat_start_lba context * bytes_per_sector context in
  let fat_size := sectors_per_fat context * bytes_per_sector context in
  if fat_type context =? 12 then
    let offset := cluster + cluster / 2 in
    if offset + 2 >? fat_size then ret None
    else
      '(ok, data) <- volume_read (fat_base + offset) 2 ;;
      if negb ok then ret None
      else
        let tmp := field (store [0; 0] data) 0 2 in
        if cluster mod 2 =? 0 then ret (Some (Z.land tmp 4095))
        else ret (Some (Z.shiftr tmp 4))
  else if fat_type context =? 16 then
    let offset := cluster * 2 in
    if offset + 2 >? fat_size then ret None
    else
      '(ok, data) <- volume_read (fat_base + offset) 2 ;;
      if negb ok then ret None
      else ret (Some (field (store [0; 0; 0; 0] data) 0 4))
  else if fat_type context =? 32 then
    let offset := cluster * 4 in
    if offset + 4 >? fat_size then ret None
    else
      '(ok, data) <- volume_read (fat_base + offset) 4 ;;
      if negb ok then ret None
      else ret (Some (Z.land (field data 0 4) 268435455))
  else fun _ => Stuck.

(** The first [for] loop of [cache_cluster_chain]: [chain_length] at
    its exit, or [None] when a link cannot be read. *)
Fixpoint chain_scan (fuel : nat) (context : fat32_context) (max_clusters : Z)
         (cluster chain_length : Z) : volume -> res (option Z) :=
  if chain_length <=? max_clusters then
    match fuel with
    | O => fun _ => Stuck
    | S fuel' =>
        r <- read_cluster_from_map context cluster ;;
        match r with
        | None => ret None
        | Some cluster =>
            if (cluster <? 2) || (cluster >? cluster_limit context)
            then ret (Some chain_length)
            else chain_scan fuel' context max_clusters cluster (chain_length + 1)
        end
    end
  else ret (Some chain_length).

(** The second loop: the [n] slots of the chain, from [cluster] on. *)
Fixpoint chain_fill (n : nat) (context : fat32_context) (cluster : Z)
  : volume -> res (option (list Z)) :=
  match n with
  | O => ret (Some [])
  | S n' =>
      r <- read_cluster_from_map context cluster ;;
      match r with
      | None => ret None
      | Some next =>
          rest <- chain_fill n' context next ;;
          ret (option_map (cons cluster) rest)
      end
  end.

(** [cache_cluster_chain]: the chain, whose length is [*_chain_length],
    or [None] for [NULL]. *)
Definition cache_cluster_chain (context : fat32_context) (initial_cluster : Z)
  : volume -> res (option (list Z)) :=
  if (initial_cluster <? 2) || (initial_cluster >? cluster_limit context) then ret None
  else
    let max_clusters := cluster_limit context - 1 in
    let max_clusters :=
      if max_clusters >? FAT32_MAX_CHAIN_LENGTH then FAT32_MAX_CHAIN_LENGTH
      else max_clusters in
    r <- chain_scan (Z.to_nat max_clusters) context max_clusters initial_cluster 1 ;;
    match r with
    | None => ret None
    | Some chain_length =>
        if chain_length >? max_clusters then ret None
        else
          (* [alloc_size] is a [size_t]; the product is at most 64 Mi *)
          match mul_overflow chain_length 4 with
          | None => ret None
          | Some _ => chain_fill (Z.to_nat chain_length) context initial_cluster
          end
    end.

(** The loop of [read_cluster_chain], with the bytes stored so far. *)
Fixpoint read_cluster_chain_loop (fuel : nat) (context : fat32_context)
         (cluster_chain : list Z) (chain_len : Z) (loc count progress : Z)
         (buf : list Z) : volume -> res (bool * list Z) :=
  let block_size := sectors_per_cluster context * bytes_per_sector context in
  if progress <? count then
    match fuel with
    | O => fun _ => Stuck
    | S fuel' =>
        let block := wrap64 (loc + progress) / block_size in
        if block >=? chain_len then ret (false, buf)
        else
          let cluster := nth (Z.to_nat block) cluster_chain 0 in
          if cluster <? 2 then ret (false, buf)
          else
            let chunk := count - progress in
            let offset := wrap64 (loc + progress) mod block_size in
            let chunk := if chunk >? block_size - offset then block_size - offset
                         else chunk in
            let base := wrap64 ((data_start_lba context
                                 + (cluster - 2) * sectors_per_cluster context)
                                * bytes_per_sector context) in
            '(ok, data) <- volume_read (wrap64 (base + offset)) chunk ;;
            if negb ok then ret (false, buf ++ data)
            else read_cluster_chain_loop fuel' context cluster_chain chain_len
                                         loc count (progress + chunk) (buf ++ data)
    end
  else ret (true, buf).

Definition read_cluster_chain (context : fat32_context) (cluster_chain : list Z)
           (chain_len : Z) (loc count : Z) : volume -> res (bool * list Z) :=
  read_cluster_chain_loop (Z.to_nat count) context cluster_chain chain_len
                          loc count 0 [].

(** The first part of [fat32_open_in]: [dir_chain_len] and the
    directory read into [directory_entries], or [None] for the
    [return -1]. *)
Definition fat32_load_directory (context : fat32_context)
           (directory : option fat32_directory_entry)
  : volume -> res (option (Z * list Z)) :=
  let block_size := sectors_per_cluster context * bytes_per_sector context in
  match directory with
  | Some directory =>
      let current_cluster_number :=
        if fat_type context =? 32
        then Z.lor (cluster_num_low directory) (Z.shiftl (cluster_num_high directory) 16)
        else cluster_num_low directory in
      directory_cluster_chain <- cache_cluster_chain context current_cluster_number ;;
      match directory_cluster_chain with
      | None => ret None
      | Some directory_cluster_chain =>
          let dir_chain_len := Z.of_nat (length directory_cluster_chain) in
          let alloc_size := dir_chain_len * block_size in
          (* an overflowing product is above the limit as well *)
          if alloc_size >? 256 * 1024 * 1024 then ret None
          else
            '(ok, data) <- read_cluster_chain context directory_cluster_chain
                                              dir_chain_len 0 alloc_size ;;
            if negb ok then ret None
            else ret (Some (dir_chain_len, store (ext_mem_alloc alloc_size) data))
      end
  | None =>
      let dir_chain_len :=
        DIV_ROUNDUP (root_entries context * sizeof_fat32_directory_entry) block_size in
      let alloc_size := dir_chain_len * block_size in
      if alloc_size >? 256 * 1024 * 1024 then ret None
      else
        '(ok, data) <- volume_read (root_start context * bytes_per_sector context)
                                   (root_entries context * sizeof_fat32_directory_entry) ;;
        if negb ok then ret None
        else ret (Some (dir_chain_len, store (ext_mem_alloc alloc_size) data))
  end.

(** [fat32_open_in(context, directory, file, name)] *)
Definition fat32_open_in (context : fat32_context)
           (directory : option fat32_directory_entry) (name : option (list Z))
  : volume -> res fat32_found :=
  let block_size := sectors_per_cluster context * bytes_per_sector context in
  loaded <- fat32_load_directory context directory ;;
  match loaded with
  | None => ret NotFound
  | Some (dir_chain_len, directory_entries) =>
      let total := dir_chain_len * block_size / sizeof_fat32_directory_entry in
      ret (fat32_scan case_insensitive_fopen (Z.to_nat total) directory_entries total
                      name 0 (repeat 0 (Z.to_nat FAT32_LFN_MAX_FILENAME_LENGTH)))
  end.

(** [fat32_init_context]: the context when it returns 0. *)
Definition fat32_init_context : volume -> res (option fat32_context) :=
  '(ok, data) <- volume_read 0 512 ;;
  if negb ok then ret None
  else
    let bpb := as_fat32_bpb data in
    if negb (strncmp_eq 3 (skipn 54 data) (literal "FAT")
             || strncmp_eq 3 (skipn 82 data) (literal "FAT")
             || strncmp_eq 5 (skipn 3 data) (literal "FAT32"))
    then ret None
    else if negb (existsb (Z.eqb (bpb_sectors_per_cluster bpb))
                          [1; 2; 4; 8; 16; 32; 64; 128])
    then ret None
    else if negb (existsb (Z.eqb (bpb_bytes_per_sector bpb)) [512; 1024; 2048; 4096])
    then ret None
    else if (bpb_fats_count bpb =? 0) || (bpb_fats_count bpb >? 4) then ret None
    else
      let root_dir_sects :=
        (bpb_root_entries_count bpb * 32 + (bpb_bytes_per_sector bpb - 1))
        / bpb_bytes_per_sector bpb in
      let total_sects :=
        if negb (bpb_sectors_count_16 bpb =? 0) then bpb_sectors_count_16 bpb
        else bpb_sectors_count_32 bpb in
      let sectors_per_fat :=
        if negb (bpb_sectors_per_fat_16 bpb =? 0) then bpb_sectors_per_fat_16 bpb
        else bpb_sectors_per_fat_32 bpb in
      let metadata_sects :=
        bpb_reserved_sectors bpb + bpb_fats_count bpb * sectors_per_fat
        + root_dir_sects in
      if metadata_sects >=? total_sects then ret None
      else
        let data_sects := total_sects - metadata_sects in
        let clusters_count := data_sects / bpb_sectors_per_cluster bpb in
        let type := if clusters_count <? 4085 then 12
                    else if clusters_count <? 65525 then 16 else 32 in
        let sectors_per_fat :=
          if type =? 32 then bpb_sectors_per_fat_32 bpb
          else bpb_sectors_per_fat_16 bpb in
        if sectors_per_fat =? 0 then ret None
        else
          let root_start_64 :=
            bpb_reserved_sectors bpb + bpb_fats_count bpb * sectors_per_fat in
          if root_start_64 >? UINT32_MAX then ret None
          else
            let root_start := root_start_64 in
            let root_size :=
              DIV_ROUNDUP (bpb_root_entries_count bpb * sizeof_fat32_directory_entry)
                          (bpb_bytes_per_sector bpb) in
            let finish (data_start_lba : Z) : volume -> res (option fat32_context) :=
              let context :=
                {| fat_type := type; label := None;
                   bytes_per_sector := bpb_bytes_per_sector bpb;
                   sectors_per_cluster := bpb_sectors_per_cluster bpb;
                   reserved_sectors := bpb_reserved_sectors bpb;
                   number_of_fats := bpb_fats_count bpb;
                   hidden_sectors := bpb_hidden_sectors_count bpb;
                   sectors_per_fat := sectors_per_fat;
                   fat_start_lba := bpb_reserved_sectors bpb;
                   data_start_lba := data_start_lba;
                   root_directory_cluster := bpb_root_directory_cluster bpb;
                   root_entries := bpb_root_entries_count bpb;
                   root_start := root_start;
                   fat_root_size := root_size |} in
              let current_directory :=
                if type =? 32
                then Some (root_directory_entry (root_directory_cluster context))
                else None in
              r <- fat32_open_in context current_directory None ;;
              match r with
              | Label vol_label => ret (Some (set_label context (Some vol_label)))
              | _ => ret (Some (set_label context None))
              end in
            if type =? 32 then finish root_start
            else if root_start + root_size >? UINT32_MAX then ret None
            else finish (root_start + root_size).

(** The scan of one path component in [fat32_open]. *)
Inductive fat32_part : Type :=
| PartEnd (current_part : list Z)
| PartSlash (current_part : list Z) (new_index : Z)
| PartOverflow
| PartTooLong.

Fixpoint fat32_scan_part (n : nat) (path : list Z) (current_index i : Z) : fat32_part :=
  match n with
  | O => PartTooLong
  | S n' =>
      if i + current_index >? UINT32_MAX then PartOverflow
      else
        let path_idx := i + current_index in
        let current_part :=
          firstn (Z.to_nat i) (skipn (Z.to_nat current_index) path) in
        if rdz path path_idx =? 0 then PartEnd current_part
        else if rdz path path_idx =? 47 then
          if current_index + (i + 1) >? UINT32_MAX then PartOverflow
          else PartSlash current_part (current_index + (i + 1))
        else fat32_scan_part n' path current_index (i + 1)
  end.

(** [while (path[current_index] == '/') current_index++;] with
    [n] characters of [path] left. *)
Fixpoint fat32_skip_slashes (n : nat) (path : list Z) (current_index : Z) : Z :=
  match n with
  | O => current_index
  | S n' => if rdz path current_index =? 47
            then fat32_skip_slashes n' path (current_index + 1)
            else current_index
  end.

(** The [else] branch that ends [fat32_open]: the handle for the file
    found; the [file_handle] wrapper carries the same size. *)
Definition fat32_open_file (context : fat32_context) (current_file : fat32_directory_entry)
  : volume -> res (option fat32_file_handle) :=
  let first_cluster :=
    if fat_type context =? 32
    then Z.lor (cluster_num_low current_file)
               (Z.shiftl (cluster_num_high current_file) 16)
    else cluster_num_low current_file in
  let size_bytes := file_size_bytes current_file in
  chain <- cache_cluster_chain context first_cluster ;;
  let chain_len := match chain with
                   | Some c => Z.of_nat (length c)
                   | None => 0
                   end in
  if match chain with None => true | Some _ => false end && negb (size_bytes =? 0)
  then ret None
  else ret (Some {| fat_context := context;
                    first_cluster := first_cluster;
                    size_bytes := size_bytes;
                    size_clusters := DIV_ROUNDUP size_bytes (bytes_per_sector context);
                    cluster_chain := chain;
                    chain_len := chain_len |}).

(** The [for (;;)] of [fat32_open]. *)
Fixpoint fat32_open_walk (fuel : nat) (context : fat32_context) (path : list Z)
         (current_index : Z) (current_directory : option fat32_directory_entry)
  : volume -> res (option fat32_file_handle) :=
  match fuel with
  | O => fun _ => Stuck
  | S fuel' =>
      let step (current_part : list Z) (k : fat32_directory_entry ->
                                            volume -> res (option fat32_file_handle)) :=
        r <- fat32_open_in context current_directory (Some current_part) ;;
        match r with
        | Found current_file => k current_file
        | _ => ret None
        end in
      match fat32_scan_part (Z.to_nat (FAT32_LFN_MAX_FILENAME_LENGTH - 1)) path
                            current_index 0 with
      | PartOverflow => ret None
      | PartTooLong => ret None
      | PartSlash current_part new_index =>
          step current_part
               (fun current_file =>
                  fat32_open_walk fuel' context path new_index (Some current_file))
      | PartEnd current_part =>
          step current_part (fat32_open_file context)
      end
  end.

(** [fat32_open(part, path)] *)
Definition fat32_open (path : list Z) : volume -> res (option fat32_file_handle) :=
  r <- fat32_init_context ;;
  match r with
  | None => ret None
  | Some context =>
      let current_index := fat32_skip_slashes (length path) path 0 in
      let current_directory :=
        if fat_type context =? 32
        then Some (root_directory_entry (root_directory_cluster context))
        else None in
      fat32_open_walk (S (length path)) context path current_index current_directory
  end.

(** [fat32_read]: the bytes stored in [buf]; a failed read panics. *)
Definition fat32_read (f : fat32_file_handle) (loc count : Z) : volume -> res (list Z) :=
  '(ok, data) <- read_cluster_chain (fat_context f)
                   (match cluster_chain f with Some c => c | None => [] end)
                   (chain_len f) loc count ;;
  if negb ok then fun _ => Panic else ret data.

End FAT32.

(** ** Identifiers and the volume index *)

Section VolumeQueries.

Variable disk_read_sectors : volume -> list Z -> Z -> Z -> disk_status * list Z.

Local Abbreviation volume_read := (volume_read disk_read_sectors).

(** [gpt_get_guid(guid, volume)]: the disk GUID, [None] for [false].
    Its loop over [lb_guesses] is the one of [gpt_get_part]. *)
Definition gpt_get_guid : volume -> res (option (list Z)) :=
  '(lb_size, hdr) <- gpt_find_header disk_read_sectors lb_guesses (repeat 0 92) ;;
  let header := as_gpt_table_header hdr in
  if lb_size =? -1 then ret None
  else if negb (revision header =? 65536) then ret None
  else ret (Some (disk_guid header)).


End VolumeQueries.

(** [volume_get_by_guid], [volume_get_by_fslabel],
    [volume_get_by_coord] and [volume_get_by_bios_drive] over the
    global [volume_index], given as the list of its [volume_index_i]
    volumes; [None] is [NULL]. *)
Fixpoint volume_get_by_guid (volume_index : list volume) (g : list Z) : option volume :=
  match volume_index with
  | [] => None
  | v :: rest =>
      if guid_valid v && memcmp_eq (guid v) g 16 then Some v
      else if part_guid_valid v && memcmp_eq (part_guid v) g 16 then Some v
      else volume_get_by_guid rest g
  end.

Fixpoint volume_get_by_fslabel (volume_index : list volume) (label : list Z)
  : option volume :=
  match volume_index with
  | [] => None
  | v :: rest =>
      if fslabel_valid v && strcmp_eq (fslabel v) label then Some v
      else volume_get_by_fslabel rest label
  end.

Fixpoint volume_get_by_coord (volume_index : list volume) (optical : bool)
         (drive_index part : Z) : option volume :=
  match volume_index with
  | [] => None
  | v :: rest =>
      if (index v =? drive_index) && Bool.eqb (is_optical v) optical
         && (partition v =? part)
      then Some v
      else volume_get_by_coord rest optical drive_index part
  end.

Fixpoint volume_get_by_bios_drive (volume_index : list volume) (d : Z) : option volume :=
  match volume_index with
  | [] => None
  | v :: rest => if drive v =? d then Some v else volume_get_by_bios_drive rest d
  end.

(** ** Sample disks and volumes *)

(** An image given by the bytes that are not zero. *)
Definition image_of (bytes : list (Z * Z)) : Z -> Z :=
  fun off => match find (fun p => fst p =? off) bytes with
             | Some p => snd p
             | None => 0
             end.

(** The bytes [l] placed at offset [off]. *)
Definition place (off : Z) (l : list Z) : list (Z * Z) :=
  combine (seqZ off (Z.of_nat (length l))) l.

(** A probe that finds no filesystem. *)
Definition no_probe : volume -> option (list Z) * volume := fun v => (None, v).

(** A freshly enumerated disk of [sects] sectors of [ssize] bytes,
    transferring [xfer] sectors at a time, starting at [first]. *)
Definition fresh_volume (xfer ssize first sects : Z) : volume :=
  mkVolume 128 xfer 0 false false 0 ssize CACHE_NOT_READY None 0 first sects
           false (repeat 0 16) false (repeat 0 16) false [].

(** A disk whose bytes count up modulo 251. *)
Definition counting_image : Z -> Z := fun off => off mod 251.

(** A GPT disk with 512-byte logical blocks: the header in block 1, 128
    entries of 128 bytes from block 2, entry 0 spanning blocks 2048 to
    4095 and the other entries empty. *)
Definition gpt_image : Z -> Z :=
  image_of (place 512 (literal "EFI PART") ++ place 520 [0; 0; 1; 0] ++
            place 584 [2] ++ place 592 [128] ++ place 596 [128] ++
            place 1040 [170; 187] ++ place 1056 [0; 8] ++ place 1064 [255; 15]).

(** An MBR disk whose first primary entry (type 0x83) starts at sector
    1000 and is 5000 sectors long. *)
Definition mbr_image : Z -> Z :=
  image_of (place 450 [131] ++ place 454 [232; 3] ++ place 458 [136; 19] ++
            place 510 [85; 170]).

(** The [n] little-endian bytes of [x]. *)
Definition le_encode (n : nat) (x : Z) : list Z :=
  map (fun i => (x / 256 ^ Z.of_nat i) mod 256) (seq 0 n).

(** An ISO9660 directory record: extent, size, flags and name in their
    places, a pad byte after a name of even length, then the System
    Use Area. *)
Definition dirent (lba sz flags : Z) (name sua : list Z) : list Z :=
  let pad := if Z.even (Z.of_nat (length name)) then [0] else [] in
  let body := [0] ++ le_encode 4 lba ++ repeat 0 4 ++ le_encode 4 sz ++ repeat 0 4 ++
              repeat 0 7 ++ [flags; 0; 0] ++ repeat 0 4 ++
              [Z.of_nat (length name)] ++ name ++ pad ++ sua in
  Z.of_nat (S (length body)) :: body.

(** A Rock Ridge [NM] entry (version 1, no flags) holding [name]. *)
Definition nm_entry (name : list Z) : list Z :=
  [78; 77; 5 + Z.of_nat (length name); 1; 0] ++ name.

(** A root directory of one sector: [.], [..], a file with the ISO
    name [README.TXT;1] and the Rock Ridge name [readme.txt], and a
    file [BIG.BIN;1] in three extents. *)
Definition sample_root : list Z :=
  Eval vm_compute in
  let entries :=
    dirent 20 2048 2 [0] [] ++ dirent 20 2048 2 [1] [] ++
    dirent 30 11 0 (literal "README.TXT;1") (nm_entry (literal "readme.txt")) ++
    dirent 31 2048 128 (literal "BIG.BIN;1") [] ++
    dirent 40 2048 128 (literal "BIG.BIN;1") [] ++
    dirent 35 300 0 (literal "BIG.BIN;1") [] in
  entries ++ repeat 0 (2048 - length entries).

(** A directory entry whose [NM] entry has length 5: no name bytes. *)
Definition empty_nm_dir : list Z :=
  dirent 30 11 0 (literal "README.TXT;1") (nm_entry []).

(** An ISO9660 image: the primary volume descriptor in sector 16, the
    root directory in sector 20, and file data that counts up modulo
    251 everywhere else. *)
Definition sample_iso : Z -> Z :=
  fun off =>
    if (40960 <=? off) && (off <? 43008)
    then nth (Z.to_nat (off - 40960)) sample_root 0
    else
      match find (fun p => fst p =? off)
                 (place 32768 (1 :: literal "CD001") ++
                  place 32926 (le_encode 4 20) ++ place 32934 (le_encode 4 2048)) with
      | Some p => snd p
      | None => off mod 251
      end.

(** A FAT12 table packed from its entries, two to every three bytes. *)
Fixpoint fat12_table (entries : list Z) : list Z :=
  match entries with
  | a :: b :: rest =>
      [a mod 256; a / 256 + (b mod 16) * 16; b / 16] ++ fat12_table rest
  | [a] => [a mod 256; a / 256]
  | [] => []
  end.

(** A short-name directory record. *)
Definition fat_dirent (name : string) (attr cluster sz : Z) : list Z :=
  literal name ++ [attr] ++ repeat 0 8 ++ le_encode 2 (cluster / 65536) ++
  repeat 0 4 ++ le_encode 2 (cluster mod 65536) ++ le_encode 4 sz.

(** The first three sectors of a FAT12 volume of 100 sectors of 512
    bytes: the boot sector, one FAT in which clusters 3 and 4 point at
    each other and clusters 5 and 6 form a chain, and a root directory
    of 16 entries. *)
Definition sample_fat_head : list Z :=
  Eval vm_compute in
  let boot := repeat 0 11 ++ le_encode 2 512 ++ [1] ++ le_encode 2 1 ++ [1] ++
              le_encode 2 16 ++ le_encode 2 100 ++ [248] ++ le_encode 2 1 ++
              repeat 0 30 ++ literal "FAT12   " in
  let fat := fat12_table [4088; 4095; 4095; 4; 3; 6; 4095] in
  let dir := fat_dirent "LOOP    BIN" 32 3 1000 ++ fat_dirent "ZERO    BIN" 32 3 0 ++
             fat_dirent "EMPTY   TXT" 32 0 0 ++ fat_dirent "DATA    BIN" 32 5 700 in
  boot ++ repeat 0 (512 - length boot) ++ fat ++ repeat 0 (512 - length fat) ++
  dir ++ repeat 0 (512 - length dir).

(** The image of that volume; its data area counts up modulo 251. *)
Definition sample_fat : Z -> Z :=
  fun off =>
    if (0 <=? off) && (off <? 1536) then nth (Z.to_nat off) sample_fat_head 0
    else off mod 251.

(** The context that [fat32_init_context] builds for that volume. *)
Definition sample_fat_context : fat32_context :=
  {| fat_type := 12; label := None; bytes_per_sector := 512;
     sectors_per_cluster := 1; reserved_sectors := 1; number_of_fats := 1;
     hidden_sectors := 0; sectors_per_fat := 1; fat_start_lba := 1;
     data_start_lba := 3; root_directory_cluster := 0; root_entries := 16;
     root_start := 2; fat_root_size := 1 |}.

(** The first sectors of an extended partition of 100 sectors: the
    boot record in sector 0 links to one in sector 3, which links to
    one in sector 7. *)
Definition ebr_image : Z -> Z :=
  image_of (place 466 [5] ++ place 470 [3] ++ place 2002 [5] ++ place 2006 [7]).

(** The handle of the file [DATA.BIN] of the sample FAT volume. *)
Definition sample_fat_handle : fat32_file_handle :=
  {| fat_context := sample_fat_context; first_cluster := 5; size_bytes := 700;
     size_clusters := 2; cluster_chain := Some [5; 6]; chain_len := 2 |}.

(** A disk that holds the image [img] but fails every request for
    exactly [bad] sectors. *)
Definition choosy_disk (img : Z -> Z) (bad : Z)
  : volume -> list Z -> Z -> Z -> disk_status * list Z :=
  fun v buf sector count =>
    if count =? bad then (DISK_FAILURE, []) else image_disk img v buf sector count.

(** A volume like [fresh_volume] whose cache is marked ready for block
    0 and holds the byte 99 throughout. *)
Definition stale_volume (xfer ssize first sects : Z) : volume :=
  mkVolume 128 xfer 0 false false 0 ssize CACHE_READY
           (Some (repeat 99 (Z.to_nat (xfer * ssize)))) 0 first sects
           false (repeat 0 16) false (repeat 0 16) false [].


(** A GPT disk like [gpt_image] whose header carries the disk GUID
    [1; 2; ...; 16]. *)
Definition gpt_guid_image : Z -> Z :=
  image_of (place 512 (literal "EFI PART") ++ place 520 [0; 0; 1; 0] ++
            place 568 [1; 2; 3; 4; 5; 6; 7; 8; 9; 10; 11; 12; 13; 14; 15; 16] ++
            place 584 [2] ++ place 592 [128] ++ place 596 [128] ++
            place 1040 [170; 187] ++ place 1056 [0; 8] ++ place 1064 [255; 15]).

(** An MBR disk of 100 sectors whose second primary entry is an
    extended partition (type 5) of 50 sectors from sector 10.  Its
    first boot record holds a logical partition (relative start 2, 20
    sectors) and a link to the record at relative sector 3, which
    holds a logical partition (relative start 1, 5 sectors). *)
Definition logical_image : Z -> Z :=
  image_of (place 466 [5] ++ place 470 [10] ++ place 474 [50] ++
            place 510 [85; 170] ++
            place 5570 [131] ++ place 5574 [2] ++ place 5578 [20] ++
            place 5586 [5] ++ place 5590 [3] ++ place 5594 [1] ++
            place 7106 [131] ++ place 7110 [1] ++ place 7114 [5]).

(** * Properties *)

(** ** Arithmetic and buffer facts *)

Lemma wrap64_small (x : Z) : 0 <= x <= UINT64_MAX -> wrap64 x = x.
Proof. unfold wrap64, UINT64_MAX. intros H. apply Z.mod_small. lia. Qed.

Lemma mul_overflow_Some (a b : Z) :
  0 <= a * b <= UINT64_MAX -> mul_overflow a b = Some (a * b).
Proof.
  intros [H1 H2]. unfold mul_overflow.
  apply Z.leb_le in H1. apply Z.leb_le in H2. now rewrite H1, H2.
Qed.

Lemma mul_overflow_None (a b : Z) :
  UINT64_MAX < a * b -> mul_overflow a b = None.
Proof.
  intros H. unfold mul_overflow.
  replace (a * b <=? UINT64_MAX) with false by (symmetry; apply Z.leb_gt; lia).
  now rewrite andb_false_r.
Qed.

Lemma add_overflow_Some (a b : Z) :
  0 <= a + b <= UINT64_MAX -> add_overflow a b = Some (a + b).
Proof.
  intros [H1 H2]. unfold add_overflow.
  apply Z.leb_le in H1. apply Z.leb_le in H2. now rewrite H1, H2.
Qed.

Lemma length_store (dst data : list Z) : length (store dst data) = length dst.
Proof.
  unfold store. rewrite length_firstn, length_app, length_skipn. lia.
Qed.

Lemma length_ext_mem_alloc (n : Z) : length (ext_mem_alloc n) = Z.to_nat n.
Proof. unfold ext_mem_alloc. apply repeat_length. Qed.

Lemma firstn_plus {A : Type} (a b : nat) (l : list A) :
  firstn (a + b) l = firstn a l ++ firstn b (skipn a l).
Proof.
  revert l. induction a as [|a IH]; intros l; simpl; [reflexivity|].
  destruct l as [|x l]; simpl.
  - now rewrite firstn_nil.
  - now rewrite IH.
Qed.

Lemma memcpy_from_split (c : list Z) (off a b : Z) :
  0 <= off -> 0 <= a -> 0 <= b ->
  memcpy_from c off (a + b) = memcpy_from c off a ++ memcpy_from c (off + a) b.
Proof.
  intros Ho Ha Hb. unfold memcpy_from.
  rewrite Z2Nat.inj_add by lia. rewrite firstn_plus, skipn_skipn.
  do 3 f_equal. rewrite Z2Nat.inj_add by lia. lia.
Qed.

Lemma memcpy_from_length (c : list Z) (off n : Z) :
  0 <= off -> 0 <= n -> off + n <= Z.of_nat (length c) ->
  Z.of_nat (length (memcpy_from c off n)) = n.
Proof.
  intros Ho Hn H. unfold memcpy_from.
  rewrite length_firstn, length_skipn. lia.
Qed.

(** ** The volume reader *)

Section VolumeReadFacts.

Variable disk : volume -> list Z -> Z -> Z -> disk_status * list Z.

(** Everything of a volume except its cache slot. *)
Definition geometry (v : volume) : volume :=
  set_cached_block (set_cache (set_cache_status v 0) None) 0.

Lemma geometry_pxe v v' : geometry v' = geometry v -> pxe v' = pxe v.
Proof. intros H. apply (f_equal pxe) in H. exact H. Qed.
Lemma geometry_fxs v v' :
  geometry v' = geometry v -> fastest_xfer_size v' = fastest_xfer_size v.
Proof. intros H. apply (f_equal fastest_xfer_size) in H. exact H. Qed.
Lemma geometry_ss v v' : geometry v' = geometry v -> sector_size v' = sector_size v.
Proof. intros H. apply (f_equal sector_size) in H. exact H. Qed.
Lemma geometry_first v v' : geometry v' = geometry v -> first_sect v' = first_sect v.
Proof. intros H. apply (f_equal first_sect) in H. exact H. Qed.
Lemma geometry_count v v' : geometry v' = geometry v -> sect_count v' = sect_count v.
Proof. intros H. apply (f_equal sect_count) in H. exact H. Qed.


(** The block buffer, once allocated, has the size of one aggregate
    block, and a volume without a buffer is not [READY]. *)
Definition cache_sized (v : volume) : Prop :=
  match cache v with
  | None => cache_status v <> CACHE_READY
  | Some c => Z.of_nat (length c) = fastest_xfer_size v * sector_size v
  end.

(** Transport parameters of a usable volume. *)
Definition volume_ok (v : volume) : Prop :=
  pxe v = false /\ 0 < fastest_xfer_size v /\ 512 <= sector_size v /\
  fastest_xfer_size v * sector_size v <= UINT64_MAX.

Lemma volume_ok_geometry v v' :
  geometry v' = geometry v -> volume_ok v -> volume_ok v'.
Proof.
  intros H (Hp & Hf & Hs & Hb). unfold volume_ok.
  rewrite (geometry_pxe _ _ H), (geometry_fxs _ _ H), (geometry_ss _ _ H). auto.
Qed.

Lemma block_size_eq v :
  volume_ok v ->
  wrap64 (fastest_xfer_size v * sector_size v) = fastest_xfer_size v * sector_size v
  /\ 0 < fastest_xfer_size v * sector_size v.
Proof.
  intros (_ & Hf & Hs & Hb). split; [apply wrap64_small|]; nia.
Qed.

Lemma cache_block_loop_spec fuel : forall v block rs x r v',
  cache_block_loop disk fuel v block rs x = Val r v' ->
  geometry v' = geometry v /\
  length (cache_buf v') = length (cache_buf v) /\
  cache v' <> None /\
  (r = true -> cache_status v' = CACHE_READY /\ cached_block v' = block) /\
  (r = false -> cache_status v' = cache_status v).
Proof.
  induction fuel as [|fuel IH]; intros v block rs x r v' H; simpl in H; [discriminate|].
  destruct (disk v (cache_buf v) rs x) as [st data] eqn:Ed.
  assert (Hdone : forall b vv, Val b vv = Val r v' ->
            geometry vv = geometry v ->
            cache_buf vv = store (cache_buf v) data ->
            cache vv <> None ->
            (b = true -> cache_status vv = CACHE_READY /\ cached_block vv = block) ->
            (b = false -> cache_status vv = cache_status v) ->
            geometry v' = geometry v /\
            length (cache_buf v') = length (cache_buf v) /\
            cache v' <> None /\
            (r = true -> cache_status v' = CACHE_READY /\ cached_block v' = block) /\
            (r = false -> cache_status v' = cache_status v)).
  { intros b vv E Hg Hb Hc Ht Hf. inversion E; subst.
    rewrite Hb, length_store. auto. }
  destruct st.
  - apply (Hdone _ _ H); try reflexivity; try discriminate. auto.
  - apply (Hdone _ _ H); try reflexivity; try discriminate.
  - destruct (wrap64 (x - 1) =? 0).
    + apply (Hdone _ _ H); try reflexivity; try discriminate.
    + apply IH in H. destruct H as (Hg & Hl & Hc & Ht & Hf).
      split; [rewrite Hg; reflexivity|].
      split; [rewrite Hl; cbn; apply length_store|].
      split; [exact Hc|]. split; [exact Ht|].
      intros Hr. rewrite (Hf Hr). reflexivity.
Qed.

(** What [cache_block] leaves alone and what each answer establishes. *)
Lemma cache_block_spec v block r v' :
  cache_block disk v block = Val r v' ->
  geometry v' = geometry v /\
  (volume_ok v -> cache_sized v -> cache_sized v') /\
  (r = true -> cache_status v' = CACHE_READY /\ cached_block v' = block) /\
  (r = false -> cache_status v' <> CACHE_READY).
Proof.
  unfold cache_block. intros H.
  destruct ((cache_status v =? CACHE_READY) && (block =? cached_block v)) eqn:Ehit.
  - inversion H; subst; clear H. apply andb_prop in Ehit. destruct Ehit as [E1 E2].
    apply Z.eqb_eq in E1. apply Z.eqb_eq in E2.
    repeat split; auto; discriminate.
  - set (v0 := set_cache_status v CACHE_NOT_READY) in *.
    set (v1 := match cache v0 with
               | None => set_cache v0 (Some (ext_mem_alloc
                            (wrap64 (fastest_xfer_size v0 * sector_size v0))))
               | Some _ => v0
               end) in *.
    assert (Hg1 : geometry v1 = geometry v).
    { unfold v1. destruct (cache v0); reflexivity. }
    assert (Hst1 : cache_status v1 = CACHE_NOT_READY).
    { unfold v1. destruct (cache v0); reflexivity. }
    assert (Hsz1 : volume_ok v -> cache_sized v ->
                   Z.of_nat (length (cache_buf v1)) =
                   fastest_xfer_size v * sector_size v /\ cache v1 <> None).
    { intros Hok Hs. unfold v1, cache_sized, cache_buf in *. cbn.
      destruct (cache v) eqn:Ec; cbn.
      - rewrite Ec. split; [exact Hs|discriminate].
      - split; [|discriminate]. rewrite length_ext_mem_alloc.
        destruct (block_size_eq v Hok) as [-> Hpos]. lia. }
    assert (Hfalse : forall vv, Val false v1 = Val r vv ->
              geometry vv = geometry v /\
              (volume_ok v -> cache_sized v -> cache_sized vv) /\
              (r = true -> cache_status vv = CACHE_READY /\ cached_block vv = block) /\
              (r = false -> cache_status vv <> CACHE_READY)).
    { intros vv Hv. injection Hv as Hr Hvv. subst r vv. split; [exact Hg1|].
      split; [|split; [discriminate|intros _; rewrite Hst1; discriminate]].
      intros Hok Hs. destruct (Hsz1 Hok Hs) as [Hl Hn].
      unfold cache_sized, cache_buf in *. destruct (cache v1); [|contradiction].
      rewrite (geometry_fxs _ _ Hg1), (geometry_ss _ _ Hg1). exact Hl. }
    destruct (negb (first_sect v1 mod (sector_size v1 / 512) =? 0)); [now apply Hfalse|].
    destruct (mul_overflow block (fastest_xfer_size v1)); [|now apply Hfalse].
    destruct (add_overflow (first_sect v1 / (sector_size v1 / 512)) z); [|now apply Hfalse].
    apply cache_block_loop_spec in H. destruct H as (Hg & Hl & Hc & Ht & Hf).
    split; [rewrite Hg; exact Hg1|]. split; [|split; [exact Ht|]].
    + intros Hok Hs. destruct (Hsz1 Hok Hs) as [Hl1 Hn].
      unfold cache_sized. destruct (cache v') eqn:Ec'; [|contradiction].
      rewrite (geometry_fxs _ _ (eq_trans Hg Hg1)), (geometry_ss _ _ (eq_trans Hg Hg1)).
      unfold cache_buf in Hl at 1. rewrite Ec' in Hl. rewrite Hl. exact Hl1.
    + intros Hr. rewrite (Hf Hr), Hst1. discriminate.
Qed.

(** A request that lies fully within a volume of known size. *)
Definition in_volume (v : volume) (loc count : Z) : Prop :=
  sect_count v <> UINT64_MAX /\ 0 <= loc /\ 0 <= count /\
  0 <= sect_count v * sector_size v <= UINT64_MAX /\
  loc < sect_count v * sector_size v /\
  count <= sect_count v * sector_size v - loc.

Lemma in_volume_range_ok v loc count :
  in_volume v loc count -> range_ok v loc count = true.
Proof.
  intros (Hs & Hl & Hc & Hp & Hlt & Hle). unfold range_ok.
  apply Z.eqb_neq in Hs. rewrite Hs. rewrite mul_overflow_Some by exact Hp.
  apply negb_true_iff, orb_false_iff. rewrite Z.geb_leb, Z.gtb_ltb.
  split; [apply Z.leb_gt|apply Z.ltb_ge]; lia.
Qed.

Lemma in_volume_geometry v v' loc count :
  geometry v' = geometry v -> in_volume v loc count -> in_volume v' loc count.
Proof.
  intros H. unfold in_volume.
  now rewrite (geometry_count _ _ H), (geometry_ss _ _ H).
Qed.

Lemma in_volume_sub v loc count loc' count' :
  in_volume v loc count -> loc <= loc' -> 0 <= count' ->
  loc' < loc + count -> loc' + count' <= loc + count ->
  in_volume v loc' count'.
Proof. unfold in_volume. intros (Hs & Hl & Hc & Hp & Hlt & Hle) ? ? ? ?. repeat split; lia. Qed.

(** One byte read at [p]: a single [cache_block] and one copied byte. *)
Lemma volume_read_one v p :
  volume_ok v -> in_volume v p 1 ->
  volume_read disk p 1 v =
  match cache_block disk v (p / (fastest_xfer_size v * sector_size v)) with
  | Val true v' =>
      Val (true, memcpy_from (cache_buf v') (p mod (fastest_xfer_size v * sector_size v)) 1) v'
  | Val false v' => Val (false, []) v'
  | Panic => Panic
  | Stuck => Stuck
  end.
Proof.
  intros Hok Hin. unfold volume_read.
  destruct Hok as (Hp & Hok'). rewrite Hp.
  rewrite (in_volume_range_ok _ _ _ Hin). cbn [negb].
  destruct (block_size_eq v (conj Hp Hok')) as [-> HB].
  change (Z.to_nat 1) with 1%nat. cbn [volume_read_loop].
  change (0 <? 1) with true. cbv iota.
  assert (Hw : wrap64 (p + 0) = p).
  { rewrite Z.add_0_r. apply wrap64_small. unfold in_volume in Hin. lia. }
  rewrite Hw.
  destruct (cache_block disk v (p / (fastest_xfer_size v * sector_size v))) as [[|] v'| |];
    try reflexivity.
  change (1 - 0) with 1.
  assert (Hm := Z.mod_pos_bound p _ HB).
  replace (1 >? fastest_xfer_size v * sector_size v -
                p mod (fastest_xfer_size v * sector_size v)) with false
    by (symmetry; rewrite Z.gtb_ltb; apply Z.ltb_ge; lia).
  change (0 + 1 <? 1) with false. cbv iota. reflexivity.
Qed.

Lemma volume_read_bytewise_app n : forall m p v,
  volume_read_bytewise disk (n + m) p v =
  match volume_read_bytewise disk n p v with
  | Val (true, bs) v' =>
      match volume_read_bytewise disk m (p + Z.of_nat n) v' with
      | Val (ok, bs') v'' => Val (ok, bs ++ bs') v''
      | Panic => Panic
      | Stuck => Stuck
      end
  | Val (false, bs) v' => Val (false, bs) v'
  | Panic => Panic
  | Stuck => Stuck
  end.
Proof.
  induction n as [|n IH]; intros m p v.
  - cbn [Nat.add volume_read_bytewise]. rewrite Z.add_0_r.
    destruct (volume_read_bytewise disk m p v) as [[ok bs] v'| |]; reflexivity.
  - cbn [Nat.add volume_read_bytewise].
    destruct (volume_read disk p 1 v) as [[[|] b] v'| |]; try reflexivity.
    rewrite IH.
    destruct (volume_read_bytewise disk n (p + 1) v') as [[[|] bs] v''| |]; try reflexivity.
    replace (p + 1 + Z.of_nat n) with (p + Z.of_nat (S n)) by lia.
    destruct (volume_read_bytewise disk m (p + Z.of_nat (S n)) v'') as [[ok bs'] v3| |];
      try reflexivity.
    now rewrite app_assoc.
Qed.

(** Bytes of the block that is already cached are served from the
    cache, one call after the other, without touching the volume. *)
Lemma volume_read_bytewise_hit n : forall p v,
  volume_ok v -> cache_status v = CACHE_READY ->
  cached_block v = p / (fastest_xfer_size v * sector_size v) ->
  p mod (fastest_xfer_size v * sector_size v) + Z.of_nat n
    <= fastest_xfer_size v * sector_size v ->
  (n <> 0%nat -> in_volume v p (Z.of_nat n)) ->
  volume_read_bytewise disk n p v =
  Val (true, memcpy_from (cache_buf v)
               (p mod (fastest_xfer_size v * sector_size v)) (Z.of_nat n)) v.
Proof.
  induction n as [|n IH]; intros p v Hok Hst Hcb Hfit Hin.
  - reflexivity.
  - assert (Hin' := Hin ltac:(discriminate)).
    destruct (block_size_eq v Hok) as [_ HB].
    set (B := fastest_xfer_size v * sector_size v) in *.
    assert (Hm := Z.mod_pos_bound p _ HB).
    cbn [volume_read_bytewise].
    rewrite volume_read_one; [|exact Hok|].
    2:{ eapply in_volume_sub; [exact Hin'| | | |]; lia. }
    fold B. unfold cache_block. rewrite Hst, Hcb. fold B.
    rewrite !Z.eqb_refl. cbn [andb].
    assert (Hdiv : (p + 1) / B = p / B /\ (p + 1) mod B = p mod B + 1 \/ n = 0%nat).
    { destruct n; [now right|left].
      assert (E : p + 1 = B * (p / B) + (p mod B + 1)).
      { rewrite (Z.div_mod p B) at 1 by lia. lia. }
      split.
      - symmetry. apply (Z.div_unique _ _ _ (p mod B + 1)); [lia|exact E].
      - symmetry. apply (Z.mod_unique _ _ (p / B)); [lia|exact E]. }
    destruct Hdiv as [[Hd Hmod]|Hn0].
    + rewrite IH; [| exact Hok | exact Hst | fold B; now rewrite Hd | fold B; lia |].
      2:{ intros Hn. eapply in_volume_sub; [exact Hin'| | | |]; lia. }
      fold B. rewrite Hmod. f_equal. f_equal.
      replace (Z.of_nat (S n)) with (1 + Z.of_nat n) by lia.
      rewrite memcpy_from_split by lia. reflexivity.
    + subst n. cbn [volume_read_bytewise]. now rewrite app_nil_r.
Qed.

(** The block loop, entered at any [progress], delivers what the
    remaining one-byte calls deliver. *)
Lemma volume_read_loop_bytewise fuel : forall v loc count progress acc,
  volume_ok v -> in_volume v loc count ->
  0 <= progress <= count -> count - progress <= Z.of_nat fuel ->
  volume_read_loop disk fuel v loc count
    (fastest_xfer_size v * sector_size v) progress acc =
  match volume_read_bytewise disk (Z.to_nat (count - progress)) (loc + progress) v with
  | Val (ok, bs) v' => Val (ok, acc ++ bs) v'
  | Panic => Panic
  | Stuck => Stuck
  end.
Proof.
  induction fuel as [|fuel IH]; intros v loc count progress acc Hok Hin Hpr Hfuel.
  - assert (progress = count) by lia. subst progress.
    cbn [volume_read_loop]. rewrite Z.ltb_irrefl, Z.sub_diag.
    cbn. now rewrite app_nil_r.
  - cbn [volume_read_loop].
    destruct (progress <? count) eqn:Elt.
    2:{ apply Z.ltb_ge in Elt. assert (progress = count) by lia. subst progress.
        rewrite Z.sub_diag. cbn. now rewrite app_nil_r. }
    apply Z.ltb_lt in Elt.
    destruct (block_size_eq v Hok) as [_ HB].
    set (B := fastest_xfer_size v * sector_size v) in *.
    set (p := loc + progress).
    assert (Hpdef : p = loc + progress) by reflexivity.
    assert (Hpb : 0 <= p <= UINT64_MAX) by (unfold in_volume in Hin; lia).
    rewrite (wrap64_small p Hpb).
    assert (Hm := Z.mod_pos_bound p _ HB).
    set (off := p mod B) in *.
    set (rem := count - progress).
    assert (Hrdef : rem = count - progress) by reflexivity.
    set (chunk := if rem >? B - off then B - off else rem).
    assert (Hchunk : 1 <= chunk <= rem /\ off + chunk <= B).
    { unfold chunk. rewrite Z.gtb_ltb. destruct (B - off <? rem) eqn:E;
        [apply Z.ltb_lt in E|apply Z.ltb_ge in E]; lia. }
    replace (Z.to_nat rem) with (S (Z.to_nat (chunk - 1) + Z.to_nat (rem - chunk)))%nat by lia.
    cbn [volume_read_bytewise].
    assert (Hin1 : in_volume v p 1).
    { eapply in_volume_sub; [exact Hin| | | |]; lia. }
    rewrite (volume_read_one v p Hok Hin1). fold B. fold off.
    destruct (cache_block disk v (p / B)) as [[|] v'| |] eqn:Ecb; try reflexivity.
    2:{ now rewrite app_nil_r. }
    destruct (cache_block_spec _ _ _ _ Ecb) as (Hg & _ & Hready & _).
    destruct (Hready eq_refl) as [Hst Hblk].
    assert (Hok' := volume_ok_geometry _ _ Hg Hok).
    assert (HB' : fastest_xfer_size v' * sector_size v' = B).
    { now rewrite (geometry_fxs _ _ Hg), (geometry_ss _ _ Hg). }
    rewrite volume_read_bytewise_app.
    assert (Hdiv : (chunk - 1 = 0) \/
                   (chunk <> 1 /\ (p + 1) / B = p / B /\ (p + 1) mod B = off + 1)).
    { destruct (Z.eq_dec chunk 1) as [->|Hne]; [now left|right]. split; [exact Hne|].
      assert (E : p + 1 = B * (p / B) + (off + 1)).
      { unfold off. rewrite (Z.div_mod p B) at 1 by lia. lia. }
      split.
      - symmetry. apply (Z.div_unique _ _ _ (off + 1)); [lia|exact E].
      - symmetry. apply (Z.mod_unique _ _ (p / B)); [lia|exact E]. }
    assert (Hhit : volume_read_bytewise disk (Z.to_nat (chunk - 1)) (p + 1) v' =
                   Val (true, memcpy_from (cache_buf v') (off + 1) (chunk - 1)) v').
    { destruct Hdiv as [H0|(Hne & Hd & Hmod)].
      - rewrite H0. reflexivity.
      - rewrite volume_read_bytewise_hit; rewrite ?HB', ?Hmod, ?Hd, ?Z2Nat.id by lia;
          auto; try lia.
        intros _. eapply in_volume_geometry; [exact Hg|].
        eapply in_volume_sub; [exact Hin| | | |]; lia. }
    rewrite Hhit.
    rewrite Z2Nat.id by lia.
    replace (p + 1 + (chunk - 1)) with (loc + (progress + chunk)) by (unfold p; lia).
    rewrite <- HB' at 1.
    rewrite (IH v' loc count (progress + chunk)); try lia; auto.
    2:{ eapply in_volume_geometry; [exact Hg|exact Hin]. }
    replace (count - (progress + chunk)) with (rem - chunk) by (unfold rem; lia).
    destruct (volume_read_bytewise disk (Z.to_nat (rem - chunk))
                (loc + (progress + chunk)) v') as [[ok bs] v''| |]; try reflexivity.
    f_equal. f_equal.
    replace chunk with (1 + (chunk - 1)) at 1 by lia.
    rewrite memcpy_from_split by lia.
    now rewrite <- !app_assoc.
Qed.

(** For a usable volume and a request lying fully within
    [sect_count * sector_size], [volume_read] and [count] successive
    one-byte calls of [volume_read] starting at [loc] give the same
    answer: the same bytes, the same success flag and the same volume
    afterwards, from whatever cache state the volume starts in and
    whatever the disk primitive answers. *)
Lemma volume_read_bytewise_equiv (v : volume) (loc count : Z) :
  volume_ok v -> in_volume v loc count ->
  volume_read disk loc count v =
  volume_read_bytewise disk (Z.to_nat count) loc v.
Proof.
  intros Hok Hin. unfold volume_read.
  destruct Hok as (Hp & Hok'). rewrite Hp.
  rewrite (in_volume_range_ok _ _ _ Hin). cbn [negb].
  destruct (block_size_eq v (conj Hp Hok')) as [-> HB].
  assert (Hc : 0 <= count) by (unfold in_volume in Hin; lia).
  rewrite (volume_read_loop_bytewise (Z.to_nat count) v loc count 0 []);
    [|exact (conj Hp Hok')|exact Hin|lia|lia].
  rewrite Z.sub_0_r, Z.add_0_r.
  destruct (volume_read_bytewise disk (Z.to_nat count) loc v) as [[ok bs] v'| |];
    reflexivity.
Qed.

(** *** Termination and the shape of the answer *)

Lemma cache_block_loop_total fuel : forall v block rs x,
  1 <= x <= Z.of_nat fuel -> x <= UINT64_MAX ->
  exists r v', cache_block_loop disk fuel v block rs x = Val r v'.
Proof.
  induction fuel as [|fuel IH]; intros v block rs x Hx Hm; [lia|].
  cbn [cache_block_loop].
  destruct (disk v (cache_buf v) rs x) as [[| |] data]; try (eexists; eexists; reflexivity).
  rewrite wrap64_small by lia.
  destruct (x - 1 =? 0) eqn:E; [eexists; eexists; reflexivity|].
  apply Z.eqb_neq in E. apply IH; lia.
Qed.

Lemma cache_block_total v block :
  volume_ok v -> exists r v', cache_block disk v block = Val r v'.
Proof.
  intros (Hp & Hf & Hs & Hb). unfold cache_block.
  destruct ((cache_status v =? CACHE_READY) && (block =? cached_block v));
    [eexists; eexists; reflexivity|].
  set (v1 := match cache (set_cache_status v CACHE_NOT_READY) with
             | None => _ | Some _ => _ end).
  assert (Hf1 : fastest_xfer_size v1 = fastest_xfer_size v).
  { unfold v1. destruct (cache (set_cache_status v CACHE_NOT_READY)); reflexivity. }
  destruct (negb (first_sect v1 mod (sector_size v1 / 512) =? 0));
    [eexists; eexists; reflexivity|].
  destruct (mul_overflow block (fastest_xfer_size v1)); [|eexists; eexists; reflexivity].
  destruct (add_overflow (first_sect v1 / (sector_size v1 / 512)) z);
    [|eexists; eexists; reflexivity].
  apply cache_block_loop_total; rewrite Hf1; nia.
Qed.

(** The block of a request that is not the one held by the cache. *)
Definition cache_hit (v : volume) (block : Z) : Prop :=
  cache_status v = CACHE_READY /\ block = cached_block v.

Lemma cache_hit_false v block :
  ~ cache_hit v block ->
  (cache_status v =? CACHE_READY) && (block =? cached_block v) = false.
Proof.
  intros H. apply andb_false_iff.
  destruct (Z.eqb_spec (cache_status v) CACHE_READY); [|now left].
  destruct (Z.eqb_spec block (cached_block v)); [|now right].
  exfalso. apply H. now split.
Qed.

(** A miss on a misaligned volume fails before any disk request. *)
Lemma cache_block_misaligned v block :
  ~ cache_hit v block -> first_sect v mod (sector_size v / 512) <> 0 ->
  exists v', cache_block disk v block = Val false v'.
Proof.
  intros Hmiss Hal. unfold cache_block. rewrite (cache_hit_false _ _ Hmiss).
  set (v1 := match cache (set_cache_status v CACHE_NOT_READY) with
             | None => _ | Some _ => _ end).
  assert (Hg : first_sect v1 = first_sect v /\ sector_size v1 = sector_size v).
  { unfold v1. destruct (cache (set_cache_status v CACHE_NOT_READY)); split; reflexivity. }
  destruct Hg as [-> ->]. apply Z.eqb_neq in Hal. rewrite Hal.
  eexists; reflexivity.
Qed.


(** A miss on an aligned volume whose sector offset does not overflow,
    answered by [SUCCESS], loads the block. *)
Lemma cache_block_success v block :
  volume_ok v -> first_sect v mod (sector_size v / 512) = 0 ->
  0 <= block -> 0 <= first_sect v ->
  first_sect v / (sector_size v / 512) + block * fastest_xfer_size v <= UINT64_MAX ->
  (forall v' buf s n, fst (disk v' buf s n) = DISK_SUCCESS) ->
  exists v', cache_block disk v block = Val true v'.
Proof.
  intros (Hp & Hf & Hs & Hb) Hal Hblk Hfs Hsum Hgood. unfold cache_block.
  destruct ((cache_status v =? CACHE_READY) && (block =? cached_block v));
    [eexists; reflexivity|].
  set (v1 := match cache (set_cache_status v CACHE_NOT_READY) with
             | None => _ | Some _ => _ end).
  assert (Hg : first_sect v1 = first_sect v /\ sector_size v1 = sector_size v /\
               fastest_xfer_size v1 = fastest_xfer_size v).
  { unfold v1. destruct (cache (set_cache_status v CACHE_NOT_READY)); repeat split. }
  destruct Hg as (-> & -> & ->). rewrite Hal. cbn [Z.eqb negb].
  assert (H512 : 0 < sector_size v / 512) by (apply Z.div_str_pos; lia).
  assert (Hq : 0 <= first_sect v / (sector_size v / 512)) by (apply Z.div_pos; lia).
  rewrite mul_overflow_Some by nia. rewrite add_overflow_Some by nia.
  destruct (Z.to_nat (fastest_xfer_size v)) eqn:En; [lia|].
  cbn [cache_block_loop].
  match goal with |- context [disk ?a ?b ?c ?d] =>
    specialize (Hgood a b c d); destruct (disk a b c d) as [st data] end.
  cbn in Hgood. subst st. eexists; reflexivity.
Qed.

(** The block loop returns: with [true] after delivering every
    remaining byte, or with [false] after a [cache_block] that failed. *)
Lemma volume_read_loop_total fuel : forall v loc count progress acc,
  volume_ok v -> cache_sized v ->
  0 <= progress <= count -> count - progress <= Z.of_nat fuel ->
  exists ok out v',
    volume_read_loop disk fuel v loc count
      (fastest_xfer_size v * sector_size v) progress acc = Val (ok, out) v' /\
    geometry v' = geometry v /\ cache_sized v' /\
    (ok = true ->
       Z.of_nat (length out) = Z.of_nat (length acc) + (count - progress)) /\
    (ok = false ->
       Z.of_nat (length out) < Z.of_nat (length acc) + (count - progress) /\
       exists v1 block v2,
         geometry v1 = geometry v /\
         0 <= block <= UINT64_MAX / (fastest_xfer_size v * sector_size v) /\
         cache_block disk v1 block = Val false v2).
Proof.
  induction fuel as [|fuel IH]; intros v loc count progress acc Hok Hsz Hpr Hfuel.
  - assert (progress = count) by lia. subst progress.
    cbn [volume_read_loop]. rewrite Z.ltb_irrefl.
    exists true, acc, v. split; [reflexivity|]. split; [reflexivity|].
    split; [exact Hsz|]. split; [intros _; lia|discriminate].
  - cbn [volume_read_loop].
    destruct (progress <? count) eqn:Elt.
    2:{ apply Z.ltb_ge in Elt. exists true, acc, v.
        split; [reflexivity|]. split; [reflexivity|].
        split; [exact Hsz|]. split; [intros _; lia|discriminate]. }
    apply Z.ltb_lt in Elt.
    destruct (block_size_eq v Hok) as [_ HB].
    set (B := fastest_xfer_size v * sector_size v) in *.
    set (p := wrap64 (loc + progress)).
    assert (Hpb : 0 <= p <= UINT64_MAX).
    { unfold p, wrap64, UINT64_MAX.
      pose proof (Z.mod_pos_bound (loc + progress) 18446744073709551616). lia. }
    assert (Hm := Z.mod_pos_bound p _ HB).
    assert (Hblk : 0 <= p / B <= UINT64_MAX / B).
    { split; [apply Z.div_pos; lia|apply Z.div_le_mono; lia]. }
    destruct (cache_block_total v (p / B) Hok) as (r & v' & Ecb). rewrite Ecb.
    destruct (cache_block_spec _ _ _ _ Ecb) as (Hg & Hsz' & Hready & Hnr).
    destruct r.
    + set (chunk := if count - progress >? B - p mod B then B - p mod B else count - progress).
      assert (Hchunk : 1 <= chunk <= count - progress /\ p mod B + chunk <= B).
      { unfold chunk. rewrite Z.gtb_ltb. destruct (B - p mod B <? count - progress) eqn:E;
          [apply Z.ltb_lt in E|apply Z.ltb_ge in E]; lia. }
      assert (HB' : fastest_xfer_size v' * sector_size v' = B).
      { now rewrite (geometry_fxs _ _ Hg), (geometry_ss _ _ Hg). }
      assert (Hok' := volume_ok_geometry _ _ Hg Hok).
      assert (Hlen : Z.of_nat (length (cache_buf v')) = B).
      { specialize (Hsz' Hok Hsz). unfold cache_sized in Hsz'. unfold cache_buf.
        destruct (Hready eq_refl) as [Hst _].
        destruct (cache v'); [lia|contradiction]. }
      destruct (IH v' loc count (progress + chunk)
                  (acc ++ memcpy_from (cache_buf v') (p mod B) chunk) Hok' (Hsz' Hok Hsz))
        as (ok & out & v'' & E & Hg'' & Hsz'' & Ht & Hf); try lia.
      rewrite HB' in E. rewrite E. exists ok, out, v''.
      split; [reflexivity|]. split; [now rewrite Hg''|]. split; [exact Hsz''|].
      rewrite length_app in Ht, Hf.
      rewrite Nat2Z.inj_add, memcpy_from_length in Ht, Hf by lia.
      split.
      * intros Hk. specialize (Ht Hk). lia.
      * intros Hk. destruct (Hf Hk) as (Hlt & v1 & blk & v2 & Hg1 & Hb1 & Hc1).
        split; [lia|]. exists v1, blk, v2. rewrite HB' in Hb1.
        split; [now rewrite Hg1|]. split; [exact Hb1|exact Hc1].
    + exists false, acc, v'. split; [reflexivity|]. split; [exact Hg|].
      split; [now apply Hsz'|]. split; [discriminate|].
      intros _. split; [lia|]. exists v, (p / B), v'. auto.
Qed.

Lemma range_ok_in_volume v loc count :
  sect_count v <> UINT64_MAX -> 0 <= loc -> 0 <= count ->
  range_ok v loc count = true -> in_volume v loc count.
Proof.
  intros Hs Hl Hc. unfold range_ok, mul_overflow.
  apply Z.eqb_neq in Hs. rewrite Hs.
  destruct (0 <=? sect_count v * sector_size v) eqn:E1; [|discriminate].
  destruct (sect_count v * sector_size v <=? UINT64_MAX) eqn:E2; [|discriminate].
  cbn [andb]. intros H. apply negb_true_iff, orb_false_iff in H.
  rewrite Z.geb_leb, Z.gtb_ltb in H. destruct H as [H1 H2].
  apply Z.leb_le in E1. apply Z.leb_le in E2. apply Z.leb_gt in H1. apply Z.ltb_ge in H2.
  apply Z.eqb_neq in Hs. unfold in_volume. repeat split; lia.
Qed.

Lemma volume_read_loop_first_fail v loc count B v1 :
  0 < count -> cache_block disk v (wrap64 loc / B) = Val false v1 ->
  volume_read_loop disk (Z.to_nat count) v loc count B 0 [] = Val (false, []) v1.
Proof.
  intros Hc E. destruct (Z.to_nat count) eqn:En; [lia|].
  cbn [volume_read_loop]. apply Z.ltb_lt in Hc. rewrite Hc.
  rewrite Z.add_0_r, E. reflexivity.
Qed.


(** C10.  On a volume whose [sect_count] is the unknown-size sentinel
    [(uint64_t)-1] no request is refused for its size: [volume_read]
    returns for every [loc] and [count], a [false] answer always comes
    from a [cache_block] call that failed on one of the blocks, and
    when the volume is aligned, the sector offsets fit 64 bits and the
    disk primitive answers [SUCCESS], the answer is [true] with all
    [count] bytes delivered. *)
Theorem volume_read_unknown_size (v : volume) (loc count : Z) :
  volume_ok v -> cache_sized v -> sect_count v = UINT64_MAX ->
  0 <= loc <= UINT64_MAX -> 0 <= count <= UINT64_MAX ->
  exists ok out v',
    volume_read disk loc count v = Val (ok, out) v' /\
    (ok = true -> Z.of_nat (length out) = count) /\
    (ok = false ->
       exists v1 block v2,
         geometry v1 = geometry v /\
         0 <= block <= UINT64_MAX / (fastest_xfer_size v * sector_size v) /\
         cache_block disk v1 block = Val false v2) /\
    (0 <= first_sect v -> first_sect v mod (sector_size v / 512) = 0 ->
     first_sect v / (sector_size v / 512) + UINT64_MAX / sector_size v <= UINT64_MAX ->
     (forall v' buf s n, fst (disk v' buf s n) = DISK_SUCCESS) ->
     ok = true).
Proof.
  intros Hok Hsz Hs Hl Hc. unfold volume_read.
  destruct Hok as (Hp & Hok'). rewrite Hp. pose proof (conj Hp Hok') as Hok.
  unfold range_ok. rewrite Hs, Z.eqb_refl. cbn [negb].
  destruct (block_size_eq v Hok) as [-> HB].
  destruct (volume_read_loop_total (Z.to_nat count) v loc count 0 [] Hok Hsz)
    as (ok & out & v' & E & Hg & Hsz' & Ht & Hf); [lia|lia|].
  exists ok, out, v'. split; [exact E|]. split; [|split].
  - intros Hk. specialize (Ht Hk). cbn in Ht. lia.
  - intros Hk. destruct (Hf Hk) as [_ H]. exact H.
  - intros Hfs Hal Hbound Hgood. destruct ok; [reflexivity|exfalso].
    destruct (Hf eq_refl) as (_ & v1 & blk & v2 & Hg1 & Hb1 & Hc1).
    assert (Hok1 := volume_ok_geometry _ _ Hg1 Hok).
    destruct Hok' as (Hf0 & Hs0 & Hb0).
    destruct (cache_block_success v1 blk Hok1) as [v3 E3]; auto.
    + now rewrite (geometry_first _ _ Hg1), (geometry_ss _ _ Hg1).
    + lia.
    + rewrite (geometry_first _ _ Hg1). exact Hfs.
    + rewrite (geometry_first _ _ Hg1), (geometry_ss _ _ Hg1), (geometry_fxs _ _ Hg1).
      assert (blk * fastest_xfer_size v <= UINT64_MAX / sector_size v).
      { apply Z.div_le_lower_bound; [lia|].
        assert (blk * (fastest_xfer_size v * sector_size v) <= UINT64_MAX).
        { destruct Hb1 as [_ Hb1].
          pose proof (Z.mul_div_le UINT64_MAX _ HB). nia. }
        nia. }
      lia.
    + rewrite E3 in Hc1. discriminate.
Qed.

End VolumeReadFacts.

(** ** Reading an image through the cache *)

Lemma seqZ_length (s n : Z) : length (seqZ s n) = Z.to_nat n.
Proof. unfold seqZ. now rewrite length_map, length_seq. Qed.

Lemma map_seq_from {A : Type} (f : nat -> A) (n : nat) : forall k,
  map f (seq k n) = map (fun i => f (k + i)%nat) (seq 0 n).
Proof.
  induction n as [|n IH]; intros k; cbn [seq map]; [reflexivity|].
  f_equal; [f_equal; lia|].
  rewrite (IH (S k)), <- seq_shift, map_map.
  apply map_ext. intros i. f_equal. lia.
Qed.

Lemma seqZ_app (s a b : Z) :
  0 <= a -> 0 <= b -> seqZ s (a + b) = seqZ s a ++ seqZ (s + a) b.
Proof.
  intros Ha Hb. unfold seqZ. rewrite Z2Nat.inj_add by lia.
  rewrite seq_app, map_app. f_equal. cbn [Nat.add].
  rewrite map_seq_from. apply map_ext. intros i. lia.
Qed.

Lemma memcpy_from_seqZ (f : Z -> Z) (s n off k : Z) :
  0 <= off -> 0 <= k -> off + k <= n ->
  memcpy_from (map f (seqZ s n)) off k = map f (seqZ (s + off) k).
Proof.
  intros Ho Hk Hn. unfold memcpy_from.
  replace n with (off + (k + (n - off - k))) by lia.
  rewrite seqZ_app by lia. rewrite map_app.
  rewrite skipn_app, skipn_all2 by (rewrite length_map, seqZ_length; lia).
  rewrite length_map, seqZ_length, Nat.sub_diag. cbn [skipn app].
  rewrite seqZ_app by lia. rewrite map_app.
  rewrite firstn_app, firstn_all2 by (rewrite length_map, seqZ_length; lia).
  rewrite length_map, seqZ_length, Nat.sub_diag. cbn [firstn]. now rewrite app_nil_r.
Qed.

Lemma store_full (dst data : list Z) :
  length data = length dst -> store dst data = data.
Proof.
  intros H. unfold store. rewrite H, skipn_all, app_nil_r.
  rewrite <- H. apply firstn_all.
Qed.

(** The cache, when [READY], holds the image bytes of its block. *)
Definition cache_coherent (img : Z -> Z) (v : volume) : Prop :=
  cache_sized v /\
  (cache_status v = CACHE_READY ->
   0 <= cached_block v /\
   cache_buf v =
   map img (seqZ (vol_base v + cached_block v * (fastest_xfer_size v * sector_size v))
                 (fastest_xfer_size v * sector_size v))).

(** Every sector of the volume has a 64-bit address on the disk. *)
Definition addressable (v : volume) : Prop :=
  0 <= first_sect v /\ first_sect v mod (sector_size v / 512) = 0 /\
  first_sect v / (sector_size v / 512) + sect_count v <= UINT64_MAX.

Lemma cache_block_image img v block :
  volume_ok v -> addressable v -> cache_coherent img v ->
  0 <= block -> block * fastest_xfer_size v <= sect_count v ->
  exists v', cache_block (image_disk img) v block = Val true v' /\
             geometry v' = geometry v /\ cache_coherent img v' /\
             cache_status v' = CACHE_READY /\ cached_block v' = block.
Proof.
  intros Hok (Hfs & Hal & Hadd) [Hsz Hcoh] Hb Hblk.
  pose proof Hok as (Hp & Hf & Hs & HB).
  unfold cache_block.
  destruct ((cache_status v =? CACHE_READY) && (block =? cached_block v)) eqn:Ehit.
  - apply andb_prop in Ehit. destruct Ehit as [E1 E2].
    apply Z.eqb_eq in E1. apply Z.eqb_eq in E2.
    exists v. split; [reflexivity|]. split; [reflexivity|].
    split; [split; assumption|]. split; [exact E1|symmetry; exact E2].
  - set (v1 := match cache (set_cache_status v CACHE_NOT_READY) with
               | None => _ | Some _ => _ end).
    assert (Hg1 : geometry v1 = geometry v).
    { unfold v1. destruct (cache (set_cache_status v CACHE_NOT_READY)); reflexivity. }
    assert (Hlen1 : Z.of_nat (length (cache_buf v1)) =
                    fastest_xfer_size v * sector_size v).
    { unfold v1, cache_sized, cache_buf in *. cbn.
      destruct (cache v) eqn:Ec; cbn.
      - rewrite Ec. exact Hsz.
      - rewrite length_ext_mem_alloc.
        destruct (block_size_eq v Hok) as [-> Hpos]. lia. }
    rewrite (geometry_first _ _ Hg1), (geometry_ss _ _ Hg1), (geometry_fxs _ _ Hg1).
    rewrite Hal. cbn [Z.eqb negb].
    assert (H512 : 0 < sector_size v / 512) by (apply Z.div_str_pos; lia).
    assert (Hq : 0 <= first_sect v / (sector_size v / 512)) by (apply Z.div_pos; lia).
    rewrite mul_overflow_Some by nia. rewrite add_overflow_Some by nia.
    destruct (Z.to_nat (fastest_xfer_size v)) eqn:En; [lia|].
    cbn [cache_block_loop image_disk].
    rewrite (geometry_ss _ _ Hg1).
    set (data := map img _).
    assert (Hdl : length data = length (cache_buf v1)).
    { unfold data. rewrite length_map, seqZ_length. lia. }
    rewrite (store_full _ _ Hdl).
    eexists. split; [reflexivity|]. split; [exact Hg1|].
    split; [|split; reflexivity].
    split.
    + unfold cache_sized. cbn. rewrite (geometry_ss _ _ Hg1), (geometry_fxs _ _ Hg1).
      rewrite Hdl. exact Hlen1.
    + intros _. cbn. split; [exact Hb|].
      unfold vol_base. cbn.
      rewrite (geometry_ss _ _ Hg1), (geometry_fxs _ _ Hg1), (geometry_first _ _ Hg1).
      unfold data. do 2 f_equal. lia.
Qed.

Lemma vol_base_geometry v v' : geometry v' = geometry v -> vol_base v' = vol_base v.
Proof.
  intros H. unfold vol_base. now rewrite (geometry_first _ _ H), (geometry_ss _ _ H).
Qed.

Lemma addressable_geometry v v' :
  geometry v' = geometry v -> addressable v -> addressable v'.
Proof.
  intros H. unfold addressable.
  now rewrite (geometry_first _ _ H), (geometry_ss _ _ H), (geometry_count _ _ H).
Qed.

Lemma volume_read_loop_image img fuel : forall v loc count progress acc,
  volume_ok v -> addressable v -> cache_coherent img v -> in_volume v loc count ->
  0 <= progress <= count -> count - progress <= Z.of_nat fuel ->
  exists v',
    volume_read_loop (image_disk img) fuel v loc count
      (fastest_xfer_size v * sector_size v) progress acc =
    Val (true, acc ++ map img (seqZ (vol_base v + loc + progress) (count - progress))) v' /\
    geometry v' = geometry v /\ cache_coherent img v'.
Proof.
  induction fuel as [|fuel IH]; intros v loc count progress acc Hok Had Hcoh Hin Hpr Hfuel.
  - assert (progress = count) by lia. subst progress.
    cbn [volume_read_loop]. rewrite Z.ltb_irrefl, Z.sub_diag.
    exists v. cbn. rewrite app_nil_r. auto.
  - cbn [volume_read_loop].
    destruct (progress <? count) eqn:Elt.
    2:{ apply Z.ltb_ge in Elt. assert (progress = count) by lia. subst progress.
        rewrite Z.sub_diag. exists v. cbn. rewrite app_nil_r. auto. }
    apply Z.ltb_lt in Elt.
    destruct (block_size_eq v Hok) as [_ HB].
    pose proof Hok as (Hp & Hf & Hs & HBm).
    set (B := fastest_xfer_size v * sector_size v) in *.
    assert (HBdef : B = fastest_xfer_size v * sector_size v) by reflexivity.
    set (p := loc + progress).
    assert (Hpdef : p = loc + progress) by reflexivity.
    pose proof Hin as (Hsn & Hl0 & Hc0 & Hps & Hlt & Hle).
    assert (Hpb : 0 <= p <= UINT64_MAX) by lia.
    rewrite (wrap64_small p Hpb).
    assert (Hm := Z.mod_pos_bound p _ HB).
    assert (Hdm := Z.div_mod p B ltac:(lia)).
    assert (Hd0 : 0 <= p / B) by (apply Z.div_pos; lia).
    assert (Hblk : p / B * fastest_xfer_size v <= sect_count v).
    { assert (p / B * fastest_xfer_size v * sector_size v < sect_count v * sector_size v)
        by nia. nia. }
    destruct (cache_block_image img v (p / B) Hok Had Hcoh Hd0 Hblk)
      as (v' & Ecb & Hg & Hcoh' & Hst & Hcb).
    rewrite Ecb.
    set (chunk := if count - progress >? B - p mod B then B - p mod B else count - progress).
    assert (Hchunk : 1 <= chunk <= count - progress /\ p mod B + chunk <= B).
    { unfold chunk. rewrite Z.gtb_ltb. destruct (B - p mod B <? count - progress) eqn:E;
        [apply Z.ltb_lt in E|apply Z.ltb_ge in E]; lia. }
    assert (HB' : fastest_xfer_size v' * sector_size v' = B).
    { now rewrite (geometry_fxs _ _ Hg), (geometry_ss _ _ Hg). }
    destruct (IH v' loc count (progress + chunk)
                (acc ++ memcpy_from (cache_buf v') (p mod B) chunk))
      as (v'' & E & Hg'' & Hcoh''); try lia.
    { exact (volume_ok_geometry _ _ Hg Hok). }
    { exact (addressable_geometry _ _ Hg Had). }
    { exact Hcoh'. }
    { exact (in_volume_geometry _ _ _ _ Hg Hin). }
    rewrite HB' in E. rewrite E. exists v''.
    split; [|split; [now rewrite Hg''|exact Hcoh'']].
    f_equal. f_equal. rewrite <- app_assoc. f_equal.
    destruct Hcoh' as [_ Hbuf]. destruct (Hbuf Hst) as [_ ->].
    rewrite HB', Hcb, (vol_base_geometry _ _ Hg).
    rewrite memcpy_from_seqZ by lia. rewrite <- map_app. f_equal.
    replace (count - progress) with (chunk + (count - (progress + chunk))) by lia.
    rewrite seqZ_app by lia. f_equal; f_equal; lia.
Qed.

(** Cache transparency for a disk that holds an image: whatever block
    a coherent cache holds, a request within the volume delivers the
    image bytes of the request and leaves a coherent cache. *)
Lemma volume_read_image img v loc count :
  volume_ok v -> addressable v -> cache_coherent img v -> in_volume v loc count ->
  exists v',
    volume_read (image_disk img) loc count v =
    Val (true, map img (seqZ (vol_base v + loc) count)) v' /\
    geometry v' = geometry v /\ cache_coherent img v'.
Proof.
  intros Hok Had Hcoh Hin. unfold volume_read.
  pose proof Hok as (Hp & _). rewrite Hp.
  rewrite (in_volume_range_ok _ _ _ Hin). cbn [negb].
  destruct (block_size_eq v Hok) as [-> HB].
  assert (Hc : 0 <= count) by (unfold in_volume in Hin; lia).
  destruct (volume_read_loop_image img (Z.to_nat count) v loc count 0 [] Hok Had Hcoh Hin)
    as (v' & E & Hg & Hcoh'); [lia|lia|].
  rewrite E. exists v'. rewrite Z.add_0_r, Z.sub_0_r. auto.
Qed.

(** ** Partition parsers *)

Lemma le_bytes_bound (l : list Z) : 0 <= le_bytes l < 256 ^ Z.of_nat (length l).
Proof.
  induction l as [|b l IH]; [cbn; lia|].
  cbn [le_bytes length]. rewrite Nat2Z.inj_succ, Z.pow_succ_r by lia.
  unfold u8. pose proof (Z.mod_pos_bound b 256). lia.
Qed.

Lemma field_bound (b : list Z) (off n : nat) : 0 <= field b off n < 256 ^ Z.of_nat n.
Proof.
  unfold field. pose proof (le_bytes_bound (firstn n (skipn off b))) as H.
  assert (Hl : (length (firstn n (skipn off b)) <= n)%nat) by apply firstn_le_length.
  assert (256 ^ Z.of_nat (length (firstn n (skipn off b))) <= 256 ^ Z.of_nat n)
    by (apply Z.pow_le_mono_r; lia).
  lia.
Qed.

Lemma mul_overflow_inv (a b c : Z) :
  mul_overflow a b = Some c -> c = a * b /\ 0 <= c <= UINT64_MAX.
Proof.
  unfold mul_overflow.
  destruct (0 <=? a * b) eqn:E1; [|discriminate].
  destruct (a * b <=? UINT64_MAX) eqn:E2; [|discriminate].
  cbn. intros H. injection H as <-.
  apply Z.leb_le in E1. apply Z.leb_le in E2. lia.
Qed.

Lemma add_overflow_inv (a b c : Z) :
  add_overflow a b = Some c -> c = a + b /\ 0 <= c <= UINT64_MAX.
Proof.
  unfold add_overflow.
  destruct (0 <=? a + b) eqn:E1; [|discriminate].
  destruct (a + b <=? UINT64_MAX) eqn:E2; [|discriminate].
  cbn. intros H. injection H as <-.
  apply Z.leb_le in E1. apply Z.leb_le in E2. lia.
Qed.

Lemma wrap64_bound (x : Z) : 0 <= wrap64 x <= UINT64_MAX.
Proof.
  unfold wrap64, UINT64_MAX. pose proof (Z.mod_pos_bound x 18446744073709551616). lia.
Qed.

(** *** A small program logic for total, panic-free runs *)

(** A volume on which [volume_read] can be run. *)
Definition good (v : volume) : Prop := volume_ok v /\ cache_sized v.

(** [m] returns on every good volume of geometry [g], leaving a good
    volume of the same geometry and an answer that satisfies [Q]. *)
Definition total {A : Type} (g : volume) (m : volume -> res A) (Q : A -> Prop) : Prop :=
  forall v, good v -> geometry v = g ->
  exists a v', m v = Val a v' /\ good v' /\ geometry v' = g /\ Q a.

Lemma total_ret {A : Type} (g : volume) (a : A) (Q : A -> Prop) :
  Q a -> total g (ret a) Q.
Proof. intros H v Hv Hg. exists a, v. auto. Qed.

Lemma total_bind {A B : Type} (g : volume) (m : volume -> res A)
      (k : A -> volume -> res B) (P : A -> Prop) (Q : B -> Prop) :
  total g m P -> (forall a, P a -> total g (k a) Q) -> total g (bind m k) Q.
Proof.
  intros Hm Hk v Hv Hg. destruct (Hm v Hv Hg) as (a & v1 & E & Hv1 & Hg1 & Pa).
  unfold bind. rewrite E. exact (Hk a Pa v1 Hv1 Hg1).
Qed.

Lemma total_weaken {A : Type} (g : volume) (m : volume -> res A) (P Q : A -> Prop) :
  total g m P -> (forall a, P a -> Q a) -> total g m Q.
Proof.
  intros Hm HPQ v Hv Hg. destruct (Hm v Hv Hg) as (a & v1 & E & Hv1 & Hg1 & Pa).
  exists a, v1. auto.
Qed.

Lemma total_state {A : Type} (g : volume) (f : volume -> res A) (Q : A -> Prop) :
  (forall v, good v -> geometry v = g -> exists a, f v = Val a v /\ Q a) ->
  total g f Q.
Proof.
  intros H v Hv Hg. destruct (H v Hv Hg) as (a & E & Qa). exists a, v. auto.
Qed.

Section PartitionFacts.

Variable disk : volume -> list Z -> Z -> Z -> disk_status * list Z.
Variable fs_get_guid : volume -> option (list Z) * volume.
Variable fs_get_label : volume -> option (list Z) * volume.

(** The probes read through the partition's cache and touch nothing
    else of the volume they are given. *)
Hypothesis fs_get_guid_frame : forall r, geometry (snd (fs_get_guid r)) = geometry r.
Hypothesis fs_get_label_frame : forall r, geometry (snd (fs_get_label r)) = geometry r.

(** [volume_read] returns on a good volume, and a [true] answer comes
    with exactly [count] bytes. *)
Lemma total_volume_read g loc count :
  0 <= loc <= UINT64_MAX -> 0 <= count <= UINT64_MAX ->
  total g (volume_read disk loc count)
        (fun r => fst r = true -> Z.of_nat (length (snd r)) = count).
Proof.
  intros Hl Hc v [Hok Hsz] Hg. unfold volume_read.
  pose proof Hok as (Hp & _). rewrite Hp.
  destruct (range_ok v loc count); cbn [negb].
  - destruct (block_size_eq v Hok) as [-> HB].
    destruct (volume_read_loop_total disk (Z.to_nat count) v loc count 0 [] Hok Hsz)
      as (ok & out & v' & E & Hg' & Hsz' & Ht & Hf); [lia|lia|].
    exists (ok, out), v'. split; [exact E|].
    split; [split; [exact (volume_ok_geometry _ _ Hg' Hok)|exact Hsz']|].
    split; [now rewrite Hg'|]. cbn. intros Hk. specialize (Ht Hk). cbn in Ht. lia.
  - exists (false, []), v. split; [reflexivity|].
    split; [split; assumption|]. split; [exact Hg|]. cbn. discriminate.
Qed.

(** The fields that the parsers assign from the parent and the table. *)
Definition transport (v : volume) : Z * Z * Z * bool * Z * Z * Z * Z :=
  (drive v, fastest_xfer_size v, index v, is_optical v, sector_size v,
   partition v, first_sect v, sect_count v).

Lemma transport_geometry v v' : geometry v' = geometry v -> transport v' = transport v.
Proof. intros H. change (transport (geometry v') = transport (geometry v)). now rewrite H. Qed.

Lemma probe_filesystem_frame r :
  transport (probe_filesystem fs_get_guid fs_get_label r) = transport r /\
  part_guid (probe_filesystem fs_get_guid fs_get_label r) = part_guid r /\
  pxe (probe_filesystem fs_get_guid fs_get_label r) = pxe r.
Proof.
  unfold probe_filesystem.
  pose proof (fs_get_guid_frame r) as H1.
  destruct (fs_get_guid r) as [g r1]. cbn [snd] in H1.
  set (r2 := match g with
             | Some g0 => set_guid r1 true g0
             | None => set_guid r1 false (guid r1)
             end).
  assert (H2 : transport r2 = transport r /\ part_guid r2 = part_guid r /\ pxe r2 = pxe r).
  { assert (E : transport r2 = transport r1 /\ part_guid r2 = part_guid r1 /\
                pxe r2 = pxe r1) by (unfold r2; destruct g; repeat split).
    destruct E as (-> & -> & ->).
    split; [exact (transport_geometry _ _ H1)|].
    split; [exact (f_equal part_guid H1)|exact (f_equal pxe H1)]. }
  pose proof (fs_get_label_frame r2) as H3.
  destruct (fs_get_label r2) as [l r3]. cbn [snd] in H3.
  destruct H2 as (<- & <- & <-).
  destruct l;
    (split; [exact (transport_geometry _ _ H3)|];
     split; [exact (f_equal part_guid H3)|exact (f_equal pxe H3)]).
Qed.

(** A partition produced from a parent of geometry [g]: the transport
    fields are the parent's and the extent is a non-empty 64-bit one. *)
Definition is_child (g c : volume) : Prop :=
  drive c = drive g /\ fastest_xfer_size c = fastest_xfer_size g /\
  index c = index g /\ is_optical c = is_optical g /\
  sector_size c = sector_size g /\
  0 <= first_sect c <= UINT64_MAX /\ 1 <= sect_count c <= UINT64_MAX.

(** What a parser may answer: one of the four codes, the caller's
    volume untouched unless the code is 0, and a child when it is. *)
Definition part_result (g r : volume) (a : Z * volume) : Prop :=
  (fst a = 0 \/ fst a = NO_PARTITION \/ fst a = END_OF_TABLE \/ fst a = INVALID_TABLE) /\
  (fst a <> 0 -> snd a = r) /\
  (fst a = 0 -> is_child g (snd a)).

Lemma part_result_fail g r st :
  st = NO_PARTITION \/ st = END_OF_TABLE \/ st = INVALID_TABLE ->
  part_result g r (st, r).
Proof.
  intros H. unfold part_result, NO_PARTITION, END_OF_TABLE, INVALID_TABLE in *.
  cbn [fst snd]. split; [auto|]. split; [auto|]. intros ->. lia.
Qed.

Lemma part_result_child g r p part first count b x :
  transport p = transport g ->
  0 <= first <= UINT64_MAX -> 1 <= count <= UINT64_MAX ->
  part_result g r
    (0, set_part_guid
          (probe_filesystem fs_get_guid fs_get_label (inherit r p part first count)) b x).
Proof.
  intros Hp Hf Hc. unfold part_result. cbn [fst snd].
  split; [now left|]. split; [congruence|]. intros _.
  destruct (probe_filesystem_frame (inherit r p part first count)) as (Ht & _ & _).
  set (c := probe_filesystem fs_get_guid fs_get_label (inherit r p part first count)) in *.
  clearbody c.
  assert (E : transport (set_part_guid c b x) =
              (drive g, fastest_xfer_size g, index g, is_optical g, sector_size g,
               part, first, count)).
  { change (transport (set_part_guid c b x)) with (transport c). rewrite Ht.
    unfold transport in *. cbn. injection Hp as -> -> -> -> -> _ _ _. reflexivity. }
  unfold transport in E. injection E as E1 E2 E3 E4 E5 _ E7 E8.
  unfold is_child. cbn. rewrite E1, E2, E3, E4, E5, E7, E8. repeat split; lia.
Qed.

Ltac tstep :=
  match goal with
  | |- total _ (ret _) _ => apply total_ret
  | |- total _ (bind (volume_read _ _ _) _) _ =>
      eapply total_bind;
      [apply total_volume_read; try (unfold UINT64_MAX; lia)|intros [? ?] ?]
  | |- total _ (if ?c then _ else _) _ => destruct c eqn:?
  | |- total _ (match ?c with Some _ => _ | None => _ end) _ => destruct c eqn:?
  end.

Lemma total_gpt_find_header g hdr :
  total g (gpt_find_header disk lb_guesses hdr)
        (fun a => fst a = -1 \/ fst a = 512 \/ fst a = 4096).
Proof.
  unfold lb_guesses. cbn [gpt_find_header]. unfold sizeof_gpt_table_header.
  repeat (tstep; cbn [fst]; auto).
Qed.

Lemma total_gpt_get_part g r partition :
  total g (gpt_get_part disk fs_get_guid fs_get_label r partition) (part_result g r).
Proof.
  unfold gpt_get_part.
  eapply total_bind; [apply total_gpt_find_header|]. intros [lb hdr] Hlb. cbn [fst] in Hlb.
  cbv zeta. unfold sizeof_gpt_entry.
  repeat (tstep; try (apply part_result_fail; auto; fail)).
  - apply add_overflow_inv in Heqo0. lia.
  - apply total_state. intros v Hv Hg. eexists. split; [reflexivity|].
    apply Z.eqb_neq in Heqb. destruct Hlb as [Hlb|Hlb]; [contradiction|].
    assert (Hm : lb / 512 = 1 \/ lb / 512 = 8) by (destruct Hlb; subst lb; auto).
    apply mul_overflow_inv in Heqo1. apply mul_overflow_inv in Heqo2.
    apply Z.ltb_ge in Heqb5.
    apply part_result_child; [rewrite <- Hg; reflexivity|lia|].
    destruct Hm as [Hm|Hm]; rewrite Hm in *; lia.
Qed.

Lemma total_is_valid_mbr g : total g (is_valid_mbr disk) (fun _ => True).
Proof.
  unfold is_valid_mbr. cbv zeta.
  repeat (tstep; auto).
Qed.

Lemma total_ebr_walk g n : forall i ebr_sector,
  0 <= ebr_sector < 4294967296 ->
  total g (ebr_walk disk n i ebr_sector)
        (fun o => forall e, o = Some e -> 0 <= e < 4294967296).
Proof.
  induction n as [|n IH]; intros i ebr_sector Hb; cbn [ebr_walk].
  - apply total_ret. intros e [= <-]. exact Hb.
  - cbv zeta. unfold sizeof_mbr_entry.
    eapply total_bind; [apply total_volume_read; [apply wrap64_bound|unfold UINT64_MAX; lia]|].
    intros [ok data] _.
    repeat (tstep; try (intros ? [=]; fail)).
    intros v Hv Hg.
    set (e := mbr_first_sect (as_mbr_entry (store (repeat 0 16) data))).
    destruct (e >=? sect_count v).
    + exists None, v. split; [reflexivity|]. split; [exact Hv|].
      split; [exact Hg|]. intros ? [=].
    + apply IH; auto. unfold e, as_mbr_entry. cbn [mbr_first_sect].
      apply (field_bound _ 8 4).
Qed.

Lemma total_mbr_get_logical_part g r partition :
  total g (mbr_get_logical_part disk fs_get_guid fs_get_label r partition)
        (part_result g r).
Proof.
  unfold mbr_get_logical_part.
  tstep; [tstep; apply part_result_fail; auto|].
  eapply total_bind; [apply total_ebr_walk; lia|]. intros [e|] He.
  2:{ tstep. apply part_result_fail; auto. }
  specialize (He e eq_refl). cbv zeta. unfold sizeof_mbr_entry.
  eapply total_bind; [apply total_volume_read; [apply wrap64_bound|unfold UINT64_MAX; lia]|].
  intros [ok data] _.
  repeat (tstep; try (apply part_result_fail; auto; fail)).
  apply total_state. intros v Hv Hg.
  set (entry := as_mbr_entry (store (repeat 0 16) data)) in *.
  destruct (add_overflow (first_sect v) e) as [f1|] eqn:E1;
    [|eexists; split; [reflexivity|apply part_result_fail; auto]].
  destruct (add_overflow f1 (mbr_first_sect entry)) as [f2|] eqn:E2;
    [|eexists; split; [reflexivity|apply part_result_fail; auto]].
  destruct (add_overflow f2 (mbr_sect_count entry)) as [f3|] eqn:E3;
    [|eexists; split; [reflexivity|apply part_result_fail; auto]].
  eexists. split; [reflexivity|].
  apply add_overflow_inv in E2. apply add_overflow_inv in E3.
  assert (Hc : 0 <= mbr_sect_count entry < 4294967296)
    by (unfold entry, as_mbr_entry; cbn [mbr_sect_count]; apply (field_bound _ 12 4)).
  apply Z.eqb_neq in Heqb2.
  apply part_result_child; [rewrite <- Hg; reflexivity|lia|unfold UINT64_MAX; lia].
Qed.

(** The stack volume that stands for an extended partition can be
    read: it starts with no cache and is not a PXE volume. *)
Lemma good_extended v part first count :
  good v -> good (inherit zero_volume v part first count).
Proof.
  intros [(Hp & Hf & Hs & Hb) _]. split.
  - unfold volume_ok. cbn. auto.
  - unfold cache_sized. cbn. discriminate.
Qed.

Lemma part_result_extended g v r a part first count :
  geometry v = g ->
  part_result (geometry (inherit zero_volume v part first count)) r a ->
  part_result g r a.
Proof.
  intros <- (H1 & H2 & H3). split; [exact H1|]. split; [exact H2|].
  intros H0. exact (H3 H0).
Qed.

Lemma total_mbr_find_extended g r partition slots :
  Forall (fun i => 0 <= i <= 3) slots ->
  total g (mbr_find_extended disk fs_get_guid fs_get_label slots r partition)
        (part_result g r).
Proof.
  induction slots as [|i slots IH]; intros Hs; cbn [mbr_find_extended].
  - apply total_ret. apply part_result_fail; auto.
  - inversion Hs as [|? ? Hi Hs']; subst. specialize (IH Hs').
    cbv zeta. unfold sizeof_mbr_entry.
    eapply total_bind; [apply total_volume_read; unfold UINT64_MAX; lia|].
    intros [ok data] _.
    repeat (tstep; try exact IH).
    intros v Hv Hg.
    set (ext := inherit zero_volume v (i + 1) _ _).
    destruct (total_mbr_get_logical_part (geometry ext) r (partition - 4) ext)
      as (a & v' & E & _ & _ & Ha); [apply good_extended; exact Hv|reflexivity|].
    rewrite E. exists a, v. split; [reflexivity|]. split; [exact Hv|].
    split; [exact Hg|]. eapply part_result_extended; [exact Hg|exact Ha].
Qed.

Lemma total_mbr_get_part g r partition :
  0 <= partition ->
  total g (mbr_get_part disk fs_get_guid fs_get_label r partition) (part_result g r).
Proof.
  intros Hp. unfold mbr_get_part.
  eapply total_bind; [apply total_is_valid_mbr|]. intros valid _.
  tstep; [tstep; apply part_result_fail; auto|].
  tstep; [apply total_mbr_find_extended; repeat constructor; lia|].
  rewrite Z.gtb_ltb in Heqb0. apply Z.ltb_ge in Heqb0.
  cbv zeta. unfold sizeof_mbr_entry.
  eapply total_bind; [apply total_volume_read; unfold UINT64_MAX; lia|].
  intros [ok data] _.
  repeat (tstep; try (apply part_result_fail; auto; fail)).
  apply total_state. intros v Hv Hg. eexists. split; [reflexivity|].
  set (entry := as_mbr_entry (store (repeat 0 16) data)) in *.
  assert (Hf : 0 <= mbr_first_sect entry < 4294967296)
    by (unfold entry, as_mbr_entry; cbn [mbr_first_sect]; apply (field_bound _ 8 4)).
  assert (Hc : 0 <= mbr_sect_count entry < 4294967296)
    by (unfold entry, as_mbr_entry; cbn [mbr_sect_count]; apply (field_bound _ 12 4)).
  apply Z.eqb_neq in Heqb3.
  apply part_result_child; [rewrite <- Hg; reflexivity| |]; unfold UINT64_MAX; lia.
Qed.

(** Whatever the disk primitive delivers for the table sectors and
    whatever the partition index, [part_get] on a readable (non-PXE)
    volume returns, without panic, one of [0], [NO_PARTITION],
    [END_OF_TABLE], [INVALID_TABLE]; on any code but [0] the caller's
    volume is left as it was, and on [0] the child carries the
    parent's transport fields, a [first_sect] within 64 bits and a
    [sect_count] between 1 and [2^64 - 1]. *)
Lemma part_get_total (v part : volume) (partition : Z) :
  good v -> -2147483648 <= partition < 2147483647 ->
  exists st child v',
    part_get disk fs_get_guid fs_get_label part partition v = Val (st, child) v' /\
    geometry v' = geometry v /\
    (st = 0 \/ st = NO_PARTITION \/ st = END_OF_TABLE \/ st = INVALID_TABLE) /\
    (st <> 0 -> child = part) /\
    (st = 0 -> is_child v child).
Proof.
  intros Hv Hp.
  assert (H : total (geometry v)
                (part_get disk fs_get_guid fs_get_label part partition)
                (part_result (geometry v) part)).
  { unfold part_get. tstep; [tstep; apply part_result_fail; auto|].
    apply Z.ltb_ge in Heqb.
    eapply total_bind; [apply total_gpt_get_part|]. intros [st c] Hr.
    tstep; [tstep; exact Hr|].
    apply negb_false_iff, Z.eqb_eq in Heqb0. subst st.
    destruct Hr as (_ & Hc & _). cbn [fst snd] in Hc.
    rewrite (Hc ltac:(discriminate)).
    eapply total_bind; [apply total_mbr_get_part; exact Heqb|]. intros [st' c'] Hr'.
    tstep; [tstep; exact Hr'|].
    apply negb_false_iff, Z.eqb_eq in Heqb0. subst st'.
    destruct Hr' as (_ & Hc' & _). cbn [fst snd] in Hc'.
    rewrite (Hc' ltac:(discriminate)).
    tstep. apply part_result_fail; auto. }
  destruct (H v Hv eq_refl) as ([st child] & v' & E & _ & Hg & H1 & H2 & H3).
  exists st, child, v'. cbn [fst snd] in *. auto.
Qed.

(** *** What a GPT entry becomes *)

Lemma volume_read_loop_geometry fuel : forall v loc count B progress acc a v',
  volume_read_loop disk fuel v loc count B progress acc = Val a v' ->
  geometry v' = geometry v.
Proof.
  induction fuel as [|fuel IH]; intros v loc count B progress acc a v' H;
    cbn [volume_read_loop] in H.
  - destruct (progress <? count); [discriminate|]. now injection H as _ <-.
  - destruct (progress <? count); [|now injection H as _ <-].
    destruct (cache_block disk v (wrap64 (loc + progress) / B)) as [[|] v1| |] eqn:E;
      try discriminate.
    + apply IH in H. rewrite H.
      now destruct (cache_block_spec _ _ _ _ _ E) as [-> _].
    + injection H as _ <-. now destruct (cache_block_spec _ _ _ _ _ E) as [-> _].
Qed.

Lemma volume_read_geometry v loc count a v' :
  volume_read disk loc count v = Val a v' -> geometry v' = geometry v.
Proof.
  unfold volume_read. destruct (pxe v); [discriminate|].
  destruct (negb (range_ok v loc count)); [now intros [= _ <-]|].
  apply volume_read_loop_geometry.
Qed.

Lemma gpt_find_header_any guesses : forall v h lb hdr v1,
  gpt_find_header disk guesses h v = Val (lb, hdr) v1 ->
  geometry v1 = geometry v /\ (lb = -1 \/ In lb guesses).
Proof.
  induction guesses as [|g rest IH]; intros v h lb hdr v1; cbn [gpt_find_header].
  - intros [= <- <- <-]. auto.
  - unfold bind at 1.
    destruct (volume_read disk (g * 1) sizeof_gpt_table_header v)
      as [[ok d] w| |] eqn:E; try discriminate.
    apply volume_read_geometry in E.
    assert (Hrec : gpt_find_header disk rest (store h d) w = Val (lb, hdr) v1 ->
                   geometry v1 = geometry v /\ (lb = -1 \/ In lb (g :: rest))).
    { intros H. apply IH in H. destruct H as [Hg [Hl|Hl]];
        (split; [congruence|]); [now left|right; now right]. }
    destruct (negb ok); [exact Hrec|].
    destruct (negb (memcmp_eq (store h d) (literal "EFI PART") 8)); [exact Hrec|].
    intros [= <- <- <-]. split; [exact E|]. right. left. lia.
Qed.

Lemma gpt_find_header_inv v h lb hdr v1 :
  gpt_find_header disk lb_guesses h v = Val (lb, hdr) v1 ->
  geometry v1 = geometry v /\ (lb = -1 \/ lb = 512 \/ lb = 4096).
Proof.
  intros H. apply gpt_find_header_any in H. destruct H as [Hg [Hl|Hl]].
  - auto.
  - split; [exact Hg|]. cbn in Hl. destruct Hl as [<-|[<-|[]]]; auto.
Qed.

Lemma u8_idem (b : Z) : u8 (u8 b) = u8 b.
Proof. unfold u8. apply Z.mod_mod. lia. Qed.

Lemma memcmp_zero_guid (b : list Z) (off : nat) :
  memcmp_eq (bytes_at b off 16) (repeat 0 16) 16 = true <->
  bytes_at b off 16 = repeat 0 16.
Proof.
  unfold memcmp_eq, bytes_at.
  rewrite firstn_all2 by (rewrite length_map; apply firstn_le_length).
  rewrite map_map. rewrite (map_ext _ u8 u8_idem).
  change (map u8 (firstn 16 (repeat 0 16))) with (repeat 0 16).
  destruct (list_eq_dec Z.eq_dec (map u8 (firstn 16 (skipn off b))) (repeat 0 16));
    split; auto; discriminate.
Qed.

(** C3.  Once [gpt_get_part] has found a header with the signature
    (logical block size [lb]), revision 1.0, more than [partition]
    entries of at least 128 bytes each, an entry offset that fits 64
    bits, and has read the entry: an all-zero unique partition GUID,
    [ending_lba < starting_lba], or a product
    [starting_lba * (lb/512)] or
    [(ending_lba - starting_lba + 1) * (lb/512)] beyond 64 bits gives
    [NO_PARTITION] and leaves the caller's volume untouched; otherwise
    the answer is 0 and the child has [partition = index + 1], the two
    products as [first_sect] and [sect_count], the entry's unique GUID
    as [part_guid], and the parent's [sector_size],
    [fastest_xfer_size], [index], [is_optical] and firmware handle. *)
Theorem gpt_get_part_entry (v r : volume) (idx lb : Z) (hdr : list Z)
        (v1 : volume) (off0 off : Z) (data : list Z) (v2 : volume) :
  gpt_find_header disk lb_guesses (repeat 0 92) v = Val (lb, hdr) v1 ->
  lb <> -1 ->
  revision (as_gpt_table_header hdr) = 65536 ->
  0 <= idx < 2147483647 ->
  idx < number_of_partition_entries (as_gpt_table_header hdr) ->
  128 <= size_of_partition_entry (as_gpt_table_header hdr) ->
  mul_overflow (partition_entry_lba (as_gpt_table_header hdr)) lb = Some off0 ->
  add_overflow off0 (idx * size_of_partition_entry (as_gpt_table_header hdr))
    = Some off ->
  volume_read disk off 128 v1 = Val (true, data) v2 ->
  let entry := as_gpt_entry (store (repeat 0 128) data) in
  let m := lb / 512 in
  (unique_partition_guid entry = repeat 0 16 \/
   ending_lba entry < starting_lba entry \/
   UINT64_MAX < starting_lba entry * m \/
   UINT64_MAX < (ending_lba entry - starting_lba entry + 1) * m ->
   gpt_get_part disk fs_get_guid fs_get_label r idx v
   = Val (NO_PARTITION, r) v2) /\
  (~ (unique_partition_guid entry = repeat 0 16 \/
      ending_lba entry < starting_lba entry \/
      UINT64_MAX < starting_lba entry * m \/
      UINT64_MAX < (ending_lba entry - starting_lba entry + 1) * m) ->
   exists child,
     gpt_get_part disk fs_get_guid fs_get_label r idx v = Val (0, child) v2 /\
     partition child = idx + 1 /\
     first_sect child = starting_lba entry * m /\
     sect_count child = (ending_lba entry - starting_lba entry + 1) * m /\
     part_guid_valid child = true /\
     part_guid child = unique_partition_guid entry /\
     sector_size child = sector_size v /\
     fastest_xfer_size child = fastest_xfer_size v /\
     index child = index v /\
     is_optical child = is_optical v /\
     drive child = drive v).
Proof.
  intros Hfind Hlb Hrev Hp Hn Hsz Hmul Hadd Hread entry m.
  destruct (gpt_find_header_inv _ _ _ _ _ Hfind) as [Hg1 Hlbv].
  pose proof (volume_read_geometry _ _ _ _ _ Hread) as Hg2.
  assert (Hm : m = 1 \/ m = 8).
  { unfold m. destruct Hlbv as [?|[?|?]]; subst lb; auto. contradiction. }
  assert (Hs : 0 <= starting_lba entry < 256 ^ 8)
    by (unfold entry, as_gpt_entry; cbn [starting_lba]; apply (field_bound _ 32 8)).
  assert (He : 0 <= ending_lba entry < 256 ^ 8)
    by (unfold entry, as_gpt_entry; cbn [ending_lba]; apply (field_bound _ 40 8)).
  assert (Hes : 0 <= size_of_partition_entry (as_gpt_table_header hdr) < 256 ^ 4)
    by (unfold as_gpt_table_header; cbn [size_of_partition_entry];
        apply (field_bound _ 84 4)).
  assert (Hnn : 0 <= number_of_partition_entries (as_gpt_table_header hdr) < 256 ^ 4)
    by (unfold as_gpt_table_header; cbn [number_of_partition_entries];
        apply (field_bound _ 80 4)).
  change (256 ^ 8) with 18446744073709551616 in *.
  change (256 ^ 4) with 4294967296 in *.
  assert (Hrun : gpt_get_part disk fs_get_guid fs_get_label r idx v =
    if memcmp_eq (unique_partition_guid entry) (repeat 0 16) 16
    then Val (NO_PARTITION, r) v2
    else if ending_lba entry <? starting_lba entry then Val (NO_PARTITION, r) v2
    else match mul_overflow (starting_lba entry) m with
         | None => Val (NO_PARTITION, r) v2
         | Some first_sect_result =>
             if ending_lba entry - starting_lba entry =? UINT64_MAX
             then Val (NO_PARTITION, r) v2
             else match mul_overflow (ending_lba entry - starting_lba entry + 1) m with
                  | None => Val (NO_PARTITION, r) v2
                  | Some sect_count_result =>
                      Val (0, set_part_guid
                                (probe_filesystem fs_get_guid fs_get_label
                                   (inherit r v2 (idx + 1)
                                      first_sect_result sect_count_result))
                                true (unique_partition_guid entry)) v2
                  end
         end).
  { unfold gpt_get_part, bind at 1. rewrite Hfind. cbv zeta.
    apply Z.eqb_neq in Hlb. rewrite Hlb, Hrev. cbn [Z.eqb Pos.eqb negb].
    rewrite Z.mod_small by lia.
    replace (idx >=? number_of_partition_entries (as_gpt_table_header hdr))
      with false by (symmetry; rewrite Z.geb_leb; apply Z.leb_gt; lia).
    unfold sizeof_gpt_entry.
    replace (size_of_partition_entry (as_gpt_table_header hdr) <? 128)
      with false by (symmetry; apply Z.ltb_ge; lia).
    rewrite Hmul.
    rewrite (wrap64_small idx) by (unfold UINT64_MAX; lia).
    rewrite wrap64_small by (unfold UINT64_MAX; nia).
    rewrite Hadd. unfold bind. rewrite Hread. cbn [negb]. fold entry. fold m.
    destruct (memcmp_eq (unique_partition_guid entry) (repeat 0 16) 16); [reflexivity|].
    destruct (ending_lba entry <? starting_lba entry); [reflexivity|].
    destruct (mul_overflow (starting_lba entry) m); [|reflexivity].
    destruct (ending_lba entry - starting_lba entry =? UINT64_MAX); [reflexivity|].
    destruct (mul_overflow (ending_lba entry - starting_lba entry + 1) m); reflexivity. }
  rewrite Hrun. clear Hrun.
  pose proof (memcmp_zero_guid (store (repeat 0 128) data) 16) as Hguid.
  change (bytes_at (store (repeat 0 128) data) 16 16)
    with (unique_partition_guid entry) in Hguid.
  split.
  - intros Hbad.
    destruct (memcmp_eq (unique_partition_guid entry) (repeat 0 16) 16) eqn:Eg;
      [reflexivity|].
    destruct Hbad as [Hz|Hbad]; [apply Hguid in Hz; congruence|].
    destruct (ending_lba entry <? starting_lba entry) eqn:El; [reflexivity|].
    apply Z.ltb_ge in El. destruct Hbad as [Hl|Hbad]; [lia|].
    destruct (mul_overflow (starting_lba entry) m) as [fs|] eqn:E1; [|reflexivity].
    apply mul_overflow_inv in E1. destruct Hbad as [Ho|Hbad]; [lia|].
    destruct (ending_lba entry - starting_lba entry =? UINT64_MAX); [reflexivity|].
    rewrite mul_overflow_None by exact Hbad. reflexivity.
  - intros Hgood.
    destruct (memcmp_eq (unique_partition_guid entry) (repeat 0 16) 16) eqn:Eg.
    { exfalso. apply Hgood. left. now apply Hguid. }
    destruct (ending_lba entry <? starting_lba entry) eqn:El.
    { exfalso. apply Hgood. right. left. now apply Z.ltb_lt. }
    apply Z.ltb_ge in El.
    assert (H1 : starting_lba entry * m <= UINT64_MAX) by lia.
    assert (H2 : (ending_lba entry - starting_lba entry + 1) * m <= UINT64_MAX) by lia.
    rewrite mul_overflow_Some by (destruct Hm as [-> | ->]; lia).
    replace (ending_lba entry - starting_lba entry =? UINT64_MAX) with false
      by (symmetry; apply Z.eqb_neq; unfold UINT64_MAX in *; destruct Hm as [E|E];
          rewrite E in *; lia).
    rewrite mul_overflow_Some by (destruct Hm as [-> | ->]; lia).
    eexists. split; [reflexivity|].
    set (c0 := inherit r v2 (idx + 1) (starting_lba entry * m)
                 ((ending_lba entry - starting_lba entry + 1) * m)).
    destruct (probe_filesystem_frame c0) as (Ht & _ & _).
    set (c := probe_filesystem fs_get_guid fs_get_label c0) in *. clearbody c.
    unfold transport in Ht. cbn in Ht.
    injection Ht as E1 E2 E3 E4 E5 E6 E7 E8.
    pose proof (eq_trans Hg2 Hg1) as Hg.
    cbn. rewrite E1, E2, E3, E4, E5, E6, E7, E8.
    rewrite (geometry_ss _ _ Hg), (geometry_fxs _ _ Hg).
    repeat split; try reflexivity.
    + exact (f_equal index Hg).
    + exact (f_equal is_optical Hg).
    + exact (f_equal drive Hg).
Qed.

End PartitionFacts.

(** ** Path canonicalisation *)

(** A component of a canonical path: not empty, free of ['/'] and NUL,
    and neither [.] nor [..]. *)
Definition good_char (c : ascii) : Prop := is_slash c = false /\ c <> NUL.

Definition good_comp (w : list ascii) : Prop :=
  w <> [] /\ Forall good_char w /\ w <> chars "." /\ w <> chars "..".

Fixpoint join (comps : list (list ascii)) : list ascii :=
  match comps with
  | [] => []
  | w :: rest => "/"%char :: w ++ join rest
  end.

Definition render (comps : list (list ascii)) : list ascii :=
  match comps with
  | [] => ["/"%char]
  | _ => join comps
  end.

(** Canonical form: a ['/'] alone, or ['/']-led good components. *)
Definition canonical (q : list ascii) : Prop :=
  exists comps, Forall good_comp comps /\ q = render comps.

Definition nul_free (s : list ascii) : Prop := Forall (fun c => c <> NUL) s.

(** The characters of [path] before its first ['/']. *)
Fixpoint head_comp (path : list ascii) : list ascii :=
  match path with
  | [] => []
  | c :: rest => if is_slash c then [] else c :: head_comp rest
  end.

Lemma is_slash_true c : is_slash c = true <-> c = "/"%char.
Proof. unfold is_slash. apply Ascii.eqb_eq. Qed.

Lemma join_app (a b : list (list ascii)) : join (a ++ b) = join a ++ join b.
Proof.
  induction a as [|w a IH]; [reflexivity|].
  cbn [join app]. rewrite IH. now rewrite <- app_assoc.
Qed.

Lemma join_snoc (a : list (list ascii)) (w : list ascii) :
  join (a ++ [w]) = join a ++ "/"%char :: w.
Proof. rewrite join_app. cbn [join]. now rewrite app_nil_r. Qed.

Lemma render_snoc (a : list (list ascii)) (w : list ascii) :
  render (a ++ [w]) = join a ++ "/"%char :: w.
Proof.
  unfold render. destruct (a ++ [w]) eqn:E.
  - destruct a; discriminate.
  - rewrite <- E. apply join_snoc.
Qed.

Lemma good_comp_nul_free w : good_comp w -> nul_free w.
Proof.
  intros (_ & H & _). unfold nul_free. eapply Forall_impl; [|exact H].
  intros c [_ Hc]. exact Hc.
Qed.

Lemma join_nul_free comps : Forall good_comp comps -> nul_free (join comps).
Proof.
  induction 1 as [|w comps Hw _ IH]; [constructor|].
  cbn [join]. constructor; [discriminate|].
  apply Forall_app. split; [now apply good_comp_nul_free|exact IH].
Qed.

Lemma render_nul_free comps : Forall good_comp comps -> nul_free (render comps).
Proof.
  intros H. destruct comps; [repeat constructor; discriminate|].
  now apply join_nul_free.
Qed.

Lemma cstring_app_nul (q rest : list ascii) :
  nul_free q -> cstring (q ++ NUL :: rest) = q.
Proof.
  induction 1 as [|c q Hc _ IH]; [reflexivity|].
  cbn [app cstring]. apply Ascii.eqb_neq in Hc. now rewrite Hc, IH.
Qed.

Ltac list_assoc :=
  repeat first [rewrite <- app_assoc | progress cbn [app]]; reflexivity.

(** *** The buffer seen as written text followed by the bytes not yet
    written. *)

Lemma peek_text (out junk : list ascii) (i : nat) :
  (i < length out)%nat -> peek (out ++ junk) i = nth_error out i.
Proof. intros H. unfold peek. now apply nth_error_app1. Qed.

Lemma peek_junk (out : list ascii) (j : ascii) (js : list ascii) :
  peek (out ++ j :: js) (length out) = Some j.
Proof. unfold peek. rewrite nth_error_app2, Nat.sub_diag by lia. reflexivity. Qed.

Lemma peek_last (out : list ascii) (c : ascii) (junk : list ascii) :
  peek ((out ++ [c]) ++ junk) (length out) = Some c.
Proof. rewrite <- app_assoc. apply peek_junk. Qed.

Lemma poke_junk (out : list ascii) (j : ascii) (js : list ascii) (c : ascii) :
  poke (out ++ j :: js) (length out) c = Some ((out ++ [c]) ++ js).
Proof.
  unfold poke. rewrite length_app. cbn [length].
  replace (length out <? length out + S (length js))%nat with true
    by (symmetry; apply Nat.ltb_lt; lia).
  rewrite firstn_app, firstn_all, Nat.sub_diag. cbn [firstn].
  rewrite skipn_app, skipn_all2 by lia.
  replace (S (length out) - length out)%nat with 1%nat by lia.
  cbn [skipn app]. now rewrite app_nil_r, <- app_assoc.
Qed.

Lemma poke_length (buf : list ascii) (i : nat) (c : ascii) (buf' : list ascii) :
  poke buf i c = Some buf' -> length buf' = length buf.
Proof.
  unfold poke. destruct (i <? length buf)%nat eqn:E; [|discriminate].
  apply Nat.ltb_lt in E. intros H.
  assert (E' : buf' = firstn i buf ++ c :: skipn (S i) buf) by congruence.
  rewrite E', length_app.
  change (length (c :: skipn (S i) buf)) with (S (length (skipn (S i) buf))).
  rewrite length_firstn, length_skipn. lia.
Qed.

(** Walking back over text without ['/'] stops on the ['/'] before it. *)
Lemma rewind_back (pre : list ascii) (w : list ascii) : forall tail,
  Forall (fun c => is_slash c = false) w ->
  rewind (pre ++ "/"%char :: w ++ tail) (length pre + length w) = Some (length pre).
Proof.
  induction w as [|c w IH] using rev_ind; intros tail Hw.
  - rewrite Nat.add_0_r. cbn [app].
    destruct (length pre) eqn:Ep; cbn [rewind]; rewrite <- ?Ep, peek_junk; reflexivity.
  - apply Forall_app in Hw. destruct Hw as [Hw Hc]. inversion Hc as [|? ? Hcs _]; subst.
    rewrite length_app. cbn [length].
    replace (length pre + (length w + 1))%nat with (S (length pre + length w)) by lia.
    cbn [rewind].
    replace (pre ++ "/"%char :: (w ++ [c]) ++ tail)
      with ((pre ++ "/"%char :: w) ++ c :: tail).
    2:{ list_assoc. }
    replace (S (length pre + length w)) with (length (pre ++ "/"%char :: w)).
    2:{ rewrite length_app. cbn. lia. }
    rewrite peek_junk, Hcs.
    rewrite <- app_assoc. cbn [app]. apply IH. exact Hw.
Qed.

(** Walking back from the first unwritten byte [j]: a ['/'] there stops
    the walk at once; otherwise it stops on the last ['/'] written. *)
Lemma rewind_text (pre w : list ascii) (j : ascii) (js : list ascii) :
  Forall (fun c => is_slash c = false) w ->
  rewind ((pre ++ "/"%char :: w) ++ j :: js) (length (pre ++ "/"%char :: w)) =
  Some (if is_slash j then length (pre ++ "/"%char :: w) else length pre).
Proof.
  intros Hw.
  destruct (length (pre ++ "/"%char :: w)) eqn:El.
  { rewrite length_app in El. cbn in El. lia. }
  cbn [rewind]. rewrite <- El, peek_junk.
  destruct (is_slash j); [reflexivity|].
  assert (Hn : n = (length pre + length w)%nat).
  { rewrite length_app in El. cbn in El. lia. }
  subst n. rewrite <- app_assoc. cbn [app]. now apply rewind_back.
Qed.

Lemma term_nonslash (body : list ascii) (c j : ascii) (js : list ascii) :
  is_slash c = false ->
  term ((body ++ [c]) ++ j :: js) (length (body ++ [c])) =
  Returned true ((body ++ [c]) ++ NUL :: js).
Proof.
  intros Hc. rewrite length_app. cbn [length].
  replace (length body + 1)%nat with (S (length body)) by lia.
  cbn [term]. rewrite peek_last, Hc. cbn [andb].
  replace (S (length body)) with (length (body ++ [c])) by (rewrite length_app; cbn; lia).
  rewrite poke_junk. f_equal. list_assoc.
Qed.

Lemma term_root (j : ascii) (js : list ascii) :
  term (["/"%char] ++ j :: js) 1 = Returned true (["/"%char] ++ NUL :: js).
Proof. reflexivity. Qed.

Lemma term_separator (body : list ascii) (j : ascii) (js : list ascii) :
  body <> [] ->
  term ((body ++ ["/"%char]) ++ j :: js) (length (body ++ ["/"%char])) =
  Returned true (body ++ NUL :: j :: js).
Proof.
  intros Hb. rewrite length_app. cbn [length].
  replace (length body + 1)%nat with (S (length body)) by lia.
  cbn [term]. rewrite peek_last.
  replace (is_slash "/") with true by reflexivity.
  replace (negb (length body =? 0)%nat) with true.
  2:{ symmetry. apply negb_true_iff, Nat.eqb_neq. destruct body; [contradiction|cbn; lia]. }
  cbn [andb]. rewrite <- app_assoc. cbn [app]. rewrite poke_junk. f_equal. list_assoc.
Qed.

Lemma good_comp_last w :
  good_comp w -> exists body c, w = body ++ [c] /\ is_slash c = false.
Proof.
  intros (Hne & Hall & _). induction w as [|x w' _] using rev_ind; [contradiction|].
  exists w', x. split; [reflexivity|].
  apply Forall_app in Hall. destruct Hall as [_ Hx]. inversion Hx as [|? ? [Hs _] _]. exact Hs.
Qed.

Lemma good_comp_noslash w : good_comp w -> Forall (fun c => is_slash c = false) w.
Proof. intros (_ & H & _). eapply Forall_impl; [|exact H]. now intros c [Hc _]. Qed.

(** The text of a canonical path ends in a character that is not
    ['/'], unless it is the root. *)
Lemma render_last comps :
  Forall good_comp comps -> comps <> [] ->
  exists body c, render comps = body ++ [c] /\ is_slash c = false.
Proof.
  intros Hall Hne. induction comps as [|w cs _] using rev_ind; [contradiction|].
  apply Forall_app in Hall. destruct Hall as [_ Hw]. inversion Hw as [|? ? Hg _]; subst.
  destruct (good_comp_last _ Hg) as (body & c & -> & Hc).
  exists (join cs ++ "/"%char :: body), c. split; [|exact Hc].
  rewrite render_snoc. list_assoc.
Qed.

Lemma term_render comps j js :
  Forall good_comp comps ->
  term (render comps ++ j :: js) (length (render comps)) =
  Returned true (render comps ++ NUL :: js).
Proof.
  intros Hall. destruct (list_eq_dec (list_eq_dec ascii_dec) comps []) as [->|Hne];
    [apply term_root|].
  destruct (render_last comps Hall Hne) as (body & c & -> & Hc).
  now apply term_nonslash.
Qed.

Lemma render_length_ge2 comps :
  Forall good_comp comps -> comps <> [] -> (2 <= length (render comps))%nat.
Proof.
  intros Hall Hne. destruct comps as [|w comps]; [contradiction|].
  inversion Hall as [|? ? (Hw & _) _]; subst.
  cbn [render join length]. rewrite length_app. destruct w; [contradiction|cbn; lia].
Qed.

(** Dropping the last component, or none when the first unwritten
    byte happens to be a ['/']: what the two [..] statements do to a
    canonical text. *)
Lemma pop_render comps j js :
  Forall good_comp comps ->
  exists comps' extra,
    Forall good_comp comps' /\ render comps = render comps' ++ extra /\
    pop (render comps ++ j :: js) (length (render comps)) = Some (length (render comps')).
Proof.
  intros Hall. unfold pop.
  induction comps as [|w cs _] using rev_ind.
  - exists [], []. split; [constructor|]. split; [reflexivity|].
    change (render []) with ([] ++ "/"%char :: @nil ascii).
    rewrite rewind_text by constructor. destruct (is_slash j); reflexivity.
  - pose proof Hall as Hall'.
    apply Forall_app in Hall. destruct Hall as [Hcs Hw]. inversion Hw as [|? ? Hg _]; subst.
    rewrite render_snoc, rewind_text by (now apply good_comp_noslash).
    destruct (is_slash j).
    + exists (cs ++ [w]), []. split; [exact Hall'|].
      rewrite render_snoc, app_nil_r. split; [reflexivity|].
      replace (length (join cs ++ "/"%char :: w) =? 0)%nat with false; [reflexivity|].
      symmetry. apply Nat.eqb_neq. rewrite length_app. cbn. lia.
    + destruct cs as [|w0 cs].
      * exists [], w. split; [constructor|]. split; reflexivity.
      * exists (w0 :: cs), ("/"%char :: w). split; [exact Hcs|]. split; [reflexivity|].
        replace (length (join (w0 :: cs)) =? 0)%nat with false; [reflexivity|].
        symmetry. apply Nat.eqb_neq. cbn. lia.
Qed.

(** *** The shapes of the remaining path *)

Lemma starts_with_true (lit path : list ascii) :
  starts_with lit path = true -> exists rest, path = lit ++ rest.
Proof.
  revert path. induction lit as [|l lit IH]; intros path H; [now exists path|].
  destruct path as [|c path]; [discriminate|]. cbn [starts_with] in H.
  apply andb_prop in H. destruct H as [Hc H]. apply Ascii.eqb_eq in Hc. subst c.
  destruct (IH _ H) as [rest ->]. now exists rest.
Qed.

Lemma starts_with_app (lit rest : list ascii) : starts_with lit (lit ++ rest) = true.
Proof.
  induction lit as [|l lit IH]; [reflexivity|].
  cbn [app starts_with]. now rewrite Ascii.eqb_refl, IH.
Qed.

Lemma is_string_true (lit path : list ascii) : is_string lit path = true -> path = lit.
Proof. unfold is_string. destruct (list_eq_dec ascii_dec path lit); [auto|discriminate]. Qed.

Lemma is_string_false (lit path : list ascii) : is_string lit path = false -> path <> lit.
Proof. unfold is_string. destruct (list_eq_dec ascii_dec path lit); [discriminate|auto]. Qed.

Lemma head_comp_nil path : head_comp path = [] -> path = [] \/ exists rest, path = "/"%char :: rest.
Proof.
  destruct path as [|c rest]; [now left|]. cbn [head_comp].
  destruct (is_slash c) eqn:E; [|discriminate]. intros _. right.
  apply is_slash_true in E. subst. now exists rest.
Qed.

Lemma head_comp_good_chars path : nul_free path -> Forall good_char (head_comp path).
Proof.
  induction 1 as [|c path Hc _ IH]; [constructor|]. cbn [head_comp].
  destruct (is_slash c) eqn:E; [constructor|]. constructor; [now split|exact IH].
Qed.

(** A path that reaches the end of [first_run] is empty or starts with
    a proper component. *)
Lemma fallthrough_comp path :
  nul_free path ->
  starts_with (chars "/") path = false ->
  is_string (chars ".") path = false ->
  is_string (chars "..") path = false ->
  starts_with (chars "../") path = false ->
  starts_with (chars "./") path = false ->
  path = [] \/ good_comp (head_comp path).
Proof.
  intros Hnf H1 H2 H3 H4 H5. destruct path as [|c rest]; [now left|right].
  assert (Hc : is_slash c = false).
  { cbn in H1. unfold is_slash. rewrite Ascii.eqb_sym. now rewrite andb_true_r in H1. }
  apply is_string_false in H2. apply is_string_false in H3.
  cbn [head_comp]. rewrite Hc.
  split; [discriminate|]. split.
  { pose proof (head_comp_good_chars _ Hnf) as H. cbn [head_comp] in H. now rewrite Hc in H. }
  split.
  - intros E. injection E as -> E. apply head_comp_nil in E. destruct E as [->|[r ->]].
    + now apply H2.
    + discriminate H5.
  - intros E. injection E as -> E. destruct rest as [|c2 rest2]; [discriminate|].
    cbn [head_comp] in E. destruct (is_slash c2); [discriminate|].
    injection E as -> E. apply head_comp_nil in E. destruct E as [->|[r ->]].
    + now apply H3.
    + discriminate H4.
Qed.

(** *** Unfolding *)

Lemma loop_eq path buf ptr :
  loop path buf ptr =
  match path with
  | [] => term buf ptr
  | c :: rest =>
      if is_slash c then first_run rest buf ptr
      else if (length buf - 1 <=? ptr)%nat then Returned false buf
      else match poke buf ptr c with
           | None => Fault
           | Some buf => loop rest buf (S ptr)
           end
  end.
Proof. destruct path; reflexivity. Qed.

Lemma first_run_eq path buf ptr :
  first_run path buf ptr =
  if starts_with (chars "/") path then
    match path with
    | _ :: rest => first_run rest buf ptr
    | [] => Fault
    end
  else if is_string (chars ".") path || is_string (chars "./") path then term buf ptr
  else if is_string (chars "..") path || is_string (chars "../") path then
    match pop buf ptr with
    | None => Fault
    | Some ptr => term buf ptr
    end
  else if starts_with (chars "../") path then
    match pop buf ptr with
    | None => Fault
    | Some ptr =>
        match poke buf ptr NUL with
        | None => Fault
        | Some buf =>
            match path with
            | _ :: _ :: _ :: rest => first_run rest buf ptr
            | _ => Fault
            end
        end
    end
  else if starts_with (chars "./") path then
    match path with
    | _ :: _ :: rest => first_run rest buf ptr
    | _ => Fault
    end
  else
    match (if (ptr =? 1)%nat then Some (Some (buf, ptr))
           else match ptr with
                | O => None
                | S p =>
                    match peek buf p with
                    | None => None
                    | Some c =>
                        if is_slash c then Some (Some (buf, ptr))
                        else if (length buf - 1 <=? ptr)%nat then Some None
                        else match poke buf ptr "/" with
                             | None => None
                             | Some buf => Some (Some (buf, S ptr))
                             end
                    end
                end) with
    | None => Fault
    | Some None => Returned false buf
    | Some (Some (buf, ptr)) => loop path buf ptr
    end.
Proof. destruct path; reflexivity. Qed.

(** *** The run leaves a canonical text *)

(** The call returns, the buffer keeps its size, a [true] return leaves
    a NUL-terminated canonical string, and with [room] the return is
    [true]. *)
Definition run_ok (size : nat) (room : Prop) (o : outcome) : Prop :=
  exists b res, o = Returned b res /\ length res = size /\
                (b = true -> exists comps rest,
                     Forall good_comp comps /\ res = render comps ++ NUL :: rest) /\
                (room -> b = true).

Lemma run_ok_true size room comps rest :
  Forall good_comp comps -> length (render comps ++ NUL :: rest) = size ->
  run_ok size room (Returned true (render comps ++ NUL :: rest)).
Proof.
  intros Hc Hl. exists true, (render comps ++ NUL :: rest).
  split; [reflexivity|]. split; [exact Hl|]. split; [|reflexivity].
  intros _. now exists comps, rest.
Qed.

Lemma run_ok_false size (room : Prop) res :
  length res = size -> ~ room -> run_ok size room (Returned false res).
Proof.
  intros Hl Hr. exists false, res. split; [reflexivity|]. split; [exact Hl|].
  split; [discriminate|]. intros H. contradiction.
Qed.

Lemma run_ok_weaken size size' (room room' : Prop) o :
  run_ok size' room' o -> size' = size -> (room -> room') -> run_ok size room o.
Proof.
  intros (b & res & E & Hl & Hc & Hr) <- H. exists b, res.
  split; [exact E|]. split; [exact Hl|]. split; [exact Hc|]. intros Hroom. exact (Hr (H Hroom)).
Qed.

Lemma canonical_render comps : Forall good_comp comps -> canonical (render comps).
Proof. intros H. now exists comps. Qed.

Lemma cstring_render comps rest :
  Forall good_comp comps -> cstring (render comps ++ NUL :: rest) = render comps.
Proof. intros H. apply cstring_app_nul. now apply render_nul_free. Qed.

Lemma render_join comps : comps <> [] -> render comps = join comps.
Proof. destruct comps; [contradiction|reflexivity]. Qed.

Definition first_run_ok (path : list ascii) : Prop :=
  forall comps j js,
    nul_free path -> Forall good_comp comps ->
    run_ok (length (render comps ++ j :: js))
           (length (render comps) + length path + 1
            <= length (render comps ++ j :: js) - 1)%nat
           (first_run path (render comps ++ j :: js) (length (render comps))).

Definition loop_ok (path : list ascii) : Prop :=
  forall comps partial j js,
    nul_free path -> Forall good_comp comps ->
    (partial = [] /\ path = [] \/ good_comp (partial ++ head_comp path)) ->
    run_ok (length ((join comps ++ "/"%char :: partial) ++ j :: js))
           (length (join comps ++ "/"%char :: partial) + length path
            <= length ((join comps ++ "/"%char :: partial) ++ j :: js) - 1)%nat
           (loop path ((join comps ++ "/"%char :: partial) ++ j :: js)
                 (length (join comps ++ "/"%char :: partial))).

Lemma loop_ok_step path :
  (forall p, (length p < length path)%nat -> first_run_ok p /\ loop_ok p) ->
  loop_ok path.
Proof.
  intros IH comps partial j js Hnf Hall Hinv. rewrite loop_eq.
  set (out := join comps ++ "/"%char :: partial).
  destruct path as [|c rest].
  - (* end of the path *)
    destruct Hinv as [[-> _]|Hg].
    + destruct comps as [|w0 cs].
      * apply (run_ok_true _ _ [] js); [constructor|reflexivity].
      * unfold out. rewrite term_separator by discriminate.
        change (join (w0 :: cs)) with (render (w0 :: cs)).
        apply run_ok_true; [exact Hall|].
        rewrite !length_app. cbn [length]. lia.
    + cbn [head_comp] in Hg. rewrite app_nil_r in Hg.
      assert (Hall' : Forall good_comp (comps ++ [partial]))
        by (apply Forall_app; split; [exact Hall|now constructor]).
      assert (Eout : out = render (comps ++ [partial])) by (now rewrite render_snoc).
      rewrite Eout, term_render by exact Hall'.
      apply run_ok_true; [exact Hall'|].
      rewrite !length_app. reflexivity.
  - inversion Hnf as [|? ? Hc Hnf']; subst.
    destruct (is_slash c) eqn:Es.
    + (* end of a component *)
      destruct Hinv as [[_ E]|Hg]; [discriminate|].
      cbn [head_comp] in Hg. rewrite Es, app_nil_r in Hg.
      assert (Hall' : Forall good_comp (comps ++ [partial]))
        by (apply Forall_app; split; [exact Hall|now constructor]).
      assert (Eout : out = render (comps ++ [partial])) by (now rewrite render_snoc).
      rewrite Eout.
      destruct (IH rest ltac:(cbn; lia)) as [HF _].
      eapply run_ok_weaken; [apply (HF _ j js Hnf' Hall')|reflexivity|].
      cbn [length]. lia.
    + (* one more character of the component *)
      assert (Hlen : length (out ++ j :: js) = (length out + S (length js))%nat)
        by (rewrite length_app; reflexivity).
      rewrite Hlen.
      destruct (length out + S (length js) - 1 <=? length out)%nat eqn:Et.
      * apply Nat.leb_le in Et.
        apply run_ok_false; [exact Hlen|]. cbn [length]. lia.
      * apply Nat.leb_gt in Et. destruct js as [|j2 js']; [cbn [length] in Et; lia|].
        rewrite poke_junk.
        destruct (IH rest ltac:(cbn; lia)) as [_ HL].
        assert (Eout : out ++ [c] = join comps ++ "/"%char :: (partial ++ [c]))
          by (unfold out; list_assoc).
        replace (S (length out)) with (length (out ++ [c]))
          by (rewrite length_app; cbn; lia).
        rewrite Eout.
        eapply run_ok_weaken; [apply (HL comps (partial ++ [c]) j2 js' Hnf' Hall)| |].
        -- right. destruct Hinv as [[_ E]|Hg]; [discriminate|].
           cbn [head_comp] in Hg. rewrite Es in Hg.
           rewrite <- app_assoc. exact Hg.
        -- rewrite <- Eout. rewrite !length_app. cbn [length]. lia.
        -- rewrite <- Eout. rewrite !length_app. cbn [length]. lia.
Qed.

Lemma first_run_ok_step path :
  (forall p, (length p < length path)%nat -> first_run_ok p /\ loop_ok p) ->
  loop_ok path -> first_run_ok path.
Proof.
  intros IH HL comps j js Hnf Hall. rewrite first_run_eq.
  destruct (starts_with (chars "/") path) eqn:T1.
  { apply starts_with_true in T1. destruct T1 as [rest ->]. cbn [app chars list_ascii_of_string].
    inversion Hnf as [|? ? _ Hnf']; subst.
    destruct (IH rest ltac:(cbn; lia)) as [HF _].
    eapply run_ok_weaken; [apply (HF comps j js Hnf' Hall)|reflexivity|].
    cbn [length app]. lia. }
  destruct (is_string (chars ".") path || is_string (chars "./") path) eqn:T2.
  { rewrite term_render by exact Hall. apply run_ok_true; [exact Hall|].
    rewrite !length_app. reflexivity. }
  apply orb_false_iff in T2. destruct T2 as [T2 T2'].
  assert (Hpop : forall (k : nat -> list ascii -> outcome) room,
    (forall comps' j' js',
        Forall good_comp comps' ->
        (length (render comps') <= length (render comps))%nat ->
        length (render comps' ++ j' :: js') = length (render comps ++ j :: js) ->
        run_ok (length (render comps ++ j :: js)) room
               (k (length (render comps')) (render comps' ++ j' :: js'))) ->
    run_ok (length (render comps ++ j :: js)) room
           match pop (render comps ++ j :: js) (length (render comps)) with
           | None => Fault
           | Some ptr => k ptr (render comps ++ j :: js)
           end).
  { intros k room Hk.
    destruct (pop_render comps j js Hall) as (comps' & extra & Hall' & Er & ->).
    assert (Eb : render comps ++ j :: js = render comps' ++ (extra ++ j :: js))
      by (rewrite Er; list_assoc).
    destruct (extra ++ j :: js) as [|j' js'] eqn:Ej; [destruct extra; discriminate|].
    rewrite Eb. rewrite <- Eb at 1. apply Hk; [exact Hall'| |now rewrite Eb].
    rewrite Er, length_app. lia. }
  destruct (is_string (chars "..") path || is_string (chars "../") path) eqn:T3.
  { apply (Hpop (fun ptr buf => term buf ptr)). intros comps' j' js' Hall' _ Hlen.
    rewrite term_render by exact Hall'. apply run_ok_true; [exact Hall'|].
    rewrite <- Hlen, !length_app. reflexivity. }
  apply orb_false_iff in T3. destruct T3 as [T3 T3'].
  destruct (starts_with (chars "../") path) eqn:T4.
  { apply starts_with_true in T4. destruct T4 as [rest ->].
    cbn [app chars list_ascii_of_string] in *.
    do 3 (let H := fresh in inversion Hnf as [|? ? _ H]; subst; clear Hnf; rename H into Hnf).
    apply (Hpop (fun ptr buf =>
                   match poke buf ptr NUL with
                   | None => Fault
                   | Some buf => first_run rest buf ptr
                   end)).
    intros comps' j' js' Hall' Hle Hlen. rewrite poke_junk, <- app_assoc. cbn [app].
    destruct (IH rest ltac:(cbn; lia)) as [HF _].
    eapply run_ok_weaken; [apply (HF comps' NUL js' Hnf Hall')| |].
    - rewrite <- Hlen, !length_app. reflexivity.
    - rewrite <- Hlen, !length_app. cbn [length]. rewrite !length_app in Hlen.
      cbn [length] in Hlen. lia. }
  destruct (starts_with (chars "./") path) eqn:T5.
  { apply starts_with_true in T5. destruct T5 as [rest ->].
    cbn [app chars list_ascii_of_string] in *.
    do 2 (let H := fresh in inversion Hnf as [|? ? _ H]; subst; clear Hnf; rename H into Hnf).
    destruct (IH rest ltac:(cbn; lia)) as [HF _].
    eapply run_ok_weaken; [apply (HF comps j js Hnf Hall)|reflexivity|].
    cbn [length]. lia. }
  (* a component to copy, or the end of the path *)
  pose proof (fallthrough_comp path Hnf T1 T2 T3 T4 T5) as Hcomp.
  destruct (list_eq_dec (list_eq_dec ascii_dec) comps []) as [->|Hne].
  - cbn [render length Nat.eqb].
    eapply run_ok_weaken; [apply (HL [] [] j js Hnf Hall)|reflexivity|].
    + destruct Hcomp as [->|Hg]; [now left|now right].
    + cbn [join app length]. lia.
  - pose proof (render_length_ge2 comps Hall Hne) as Hge.
    destruct (render_last comps Hall Hne) as (body & c & Er & Hc).
    pose proof (render_join comps Hne) as Ej.
    rewrite Er in *.
    assert (Hp : length (body ++ [c]) = S (length body)) by (rewrite length_app; cbn; lia).
    rewrite Hp in *.
    destruct (S (length body) =? 1)%nat eqn:E1; [apply Nat.eqb_eq in E1; lia|].
    rewrite peek_last, Hc.
    assert (Hlen : length ((body ++ [c]) ++ j :: js) = (S (length body) + S (length js))%nat)
      by (rewrite length_app, Hp; reflexivity).
    rewrite Hlen.
    destruct (S (length body) + S (length js) - 1 <=? S (length body))%nat eqn:Et.
    + apply Nat.leb_le in Et. apply run_ok_false; [exact Hlen|]. lia.
    + apply Nat.leb_gt in Et. destruct js as [|j2 js']; [cbn [length] in Et; lia|].
      rewrite <- Hp, poke_junk.
      replace (S (length (body ++ [c]))) with (length ((body ++ [c]) ++ ["/"%char]))
        by (rewrite !length_app; cbn; lia).
      rewrite Ej.
      eapply run_ok_weaken; [apply (HL comps [] j2 js' Hnf Hall)| |].
      * destruct Hcomp as [->|Hg]; [now left|now right].
      * rewrite !length_app. cbn [length]. lia.
      * rewrite !length_app. cbn [length]. lia.
Qed.

Lemma canonical_run path : first_run_ok path /\ loop_ok path.
Proof.
  remember (length path) as n eqn:En. revert path En.
  induction n as [n IH] using lt_wf_ind. intros path ->.
  assert (H : forall p, (length p < length path)%nat -> first_run_ok p /\ loop_ok p)
    by (intros p Hp; exact (IH _ Hp p eq_refl)).
  pose proof (loop_ok_step path H) as HL.
  split; [exact (first_run_ok_step path H HL)|exact HL].
Qed.

(** *** A canonical path is copied as it is *)

Lemma good_comp_tests (w tail : list ascii) :
  good_comp w -> (tail = [] \/ exists t, tail = "/"%char :: t) ->
  starts_with (chars "/") (w ++ tail) = false /\
  is_string (chars ".") (w ++ tail) = false /\
  is_string (chars "./") (w ++ tail) = false /\
  is_string (chars "..") (w ++ tail) = false /\
  is_string (chars "../") (w ++ tail) = false /\
  starts_with (chars "../") (w ++ tail) = false /\
  starts_with (chars "./") (w ++ tail) = false.
Proof.
  intros (Hne & Hall & Hd & Hdd) Htail.
  assert (Hsl : forall a b, w = a ++ "/"%char :: b -> False).
  { intros a b ->. apply Forall_app in Hall. destruct Hall as [_ H].
    inversion H as [|? ? [Hs _] _]. discriminate Hs. }
  assert (Hshape : forall lit, starts_with lit (w ++ tail) = true ->
            In lit [chars "/"; chars "./"; chars "../"] -> False).
  { intros lit H Hin. apply starts_with_true in H. destruct H as [r E].
    cbn in Hin. destruct Hin as [<-|[<-|[<-|[]]]]; cbn [chars list_ascii_of_string app] in E.
    - destruct w as [|c1 w]; [contradiction|]. injection E as -> _.
      apply (Hsl [] w eq_refl).
    - destruct w as [|c1 [|c2 w]]; [contradiction| |].
      + injection E as -> _. now apply Hd.
      + injection E as -> -> _. apply (Hsl ["."%char] w eq_refl).
    - destruct w as [|c1 [|c2 [|c3 w]]]; [contradiction| | |].
      + injection E as -> E. destruct Htail as [->|[t ->]]; discriminate.
      + injection E as -> -> _. now apply Hdd.
      + injection E as -> -> -> _. apply (Hsl [("."%char); ("."%char)] w eq_refl). }
  assert (Hexact : forall lit, is_string lit (w ++ tail) = true ->
            In lit [chars "."; chars "./"; chars ".."; chars "../"] -> False).
  { intros lit H Hin. apply is_string_true in H.
    cbn in Hin. destruct Hin as [<-|[<-|[<-|[<-|[]]]]];
      cbn [chars list_ascii_of_string] in H.
    - destruct w as [|c1 [|c2 w]]; [contradiction| |discriminate].
      injection H as -> _. now apply Hd.
    - apply (Hshape (chars "./")); [rewrite H; reflexivity|cbn; auto].
    - destruct w as [|c1 [|c2 [|c3 w]]]; [contradiction| | |discriminate].
      + injection H as -> H. destruct Htail as [->|[t ->]]; discriminate.
      + injection H as -> -> _. now apply Hdd.
    - apply (Hshape (chars "../")); [rewrite H; reflexivity|cbn; auto]. }
  repeat split;
    match goal with
    | |- starts_with ?l _ = false =>
        destruct (starts_with l (w ++ tail)) eqn:E; [exfalso|reflexivity];
        apply (Hshape l E); cbn; auto
    | |- is_string ?l _ = false =>
        destruct (is_string l (w ++ tail)) eqn:E; [exfalso|reflexivity];
        apply (Hexact l E); cbn; auto
    end.
Qed.

Lemma join_tail cs : join cs = [] \/ exists t, join cs = "/"%char :: t.
Proof. destruct cs as [|w cs]; [now left|right]. cbn [join]. eauto. Qed.

(** Copying a component, one character per turn of the loop. *)
Lemma loop_copy (w : list ascii) : forall out tail junk,
  Forall good_char w -> (length w < length junk)%nat ->
  exists junk',
    loop (w ++ tail) (out ++ junk) (length out) =
    loop tail ((out ++ w) ++ junk') (length (out ++ w)) /\
    length ((out ++ w) ++ junk') = length (out ++ junk) /\ junk' <> [].
Proof.
  induction w as [|c w IH]; intros out tail junk Hw Hlen.
  - exists junk. rewrite app_nil_r. cbn [app]. repeat split. destruct junk; [cbn in Hlen; lia|discriminate].
  - inversion Hw as [|? ? [Hc _] Hw']; subst.
    destruct junk as [|j [|j2 js]]; cbn [length] in Hlen; try lia.
    cbn [app]. rewrite loop_eq, Hc.
    replace (length (out ++ j :: j2 :: js) - 1 <=? length out)%nat with false
      by (symmetry; apply Nat.leb_gt; rewrite length_app; cbn [length]; lia).
    rewrite poke_junk.
    replace (S (length out)) with (length (out ++ [c])) by (rewrite length_app; cbn; lia).
    destruct (IH (out ++ [c]) tail (j2 :: js) Hw' ltac:(cbn [length]; lia))
      as (junk' & E & Hl & Hne).
    exists junk'. rewrite E.
    replace ((out ++ [c]) ++ w) with (out ++ c :: w) in * by list_assoc.
    split; [reflexivity|]. split; [|exact Hne].
    rewrite Hl, !length_app. cbn [length]. lia.
Qed.

(** One component of a canonical path: separated from what is
    already written and copied. *)
Lemma first_run_component (done : list (list ascii)) (w tail junk : list ascii) :
  Forall good_comp done -> good_comp w ->
  (tail = [] \/ exists t, tail = "/"%char :: t) ->
  (length (render (done ++ [w])) < length (render done ++ junk))%nat ->
  exists junk',
    first_run (w ++ tail) (render done ++ junk) (length (render done)) =
    loop tail (render (done ++ [w]) ++ junk') (length (render (done ++ [w]))) /\
    length (render (done ++ [w]) ++ junk') = length (render done ++ junk) /\
    junk' <> [].
Proof.
  intros Hdone Hw Htail Hroom.
  destruct (good_comp_tests w tail Hw Htail) as (T1 & T2 & T2' & T3 & T3' & T4 & T5).
  rewrite first_run_eq, T1, T2, T2', T3, T3', T4, T5. cbn [orb].
  rewrite render_snoc in *.
  assert (Hchars : Forall good_char w) by (destruct Hw as (_ & H & _); exact H).
  assert (Hcopy : forall junk1,
    length ((join done ++ ["/"%char]) ++ junk1) = length (render done ++ junk) ->
    exists junk',
      loop (w ++ tail) ((join done ++ ["/"%char]) ++ junk1) (length (join done ++ ["/"%char])) =
      loop tail ((join done ++ "/"%char :: w) ++ junk') (length (join done ++ "/"%char :: w)) /\
      length ((join done ++ "/"%char :: w) ++ junk') = length (render done ++ junk) /\
      junk' <> []).
  { intros junk1 Hl.
    destruct (loop_copy w (join done ++ ["/"%char]) tail junk1 Hchars) as (junk' & E & Hl' & Hne).
    - rewrite !length_app in *. cbn [length] in *. lia.
    - exists junk'. rewrite E.
      replace ((join done ++ ["/"%char]) ++ w) with (join done ++ "/"%char :: w) in *
        by list_assoc.
      split; [reflexivity|]. split; [congruence|exact Hne]. }
  destruct (list_eq_dec (list_eq_dec ascii_dec) done []) as [->|Hne].
  - cbn [render length Nat.eqb]. apply (Hcopy junk). reflexivity.
  - pose proof (render_length_ge2 done Hdone Hne) as Hge.
    destruct (render_last done Hdone Hne) as (body & c & Er & Hc).
    pose proof (render_join done Hne) as Ej.
    rewrite Er in *.
    assert (Hp : length (body ++ [c]) = S (length body)) by (rewrite length_app; cbn; lia).
    rewrite Hp in *.
    destruct (S (length body) =? 1)%nat eqn:E1; [apply Nat.eqb_eq in E1; lia|].
    rewrite peek_last, Hc.
    assert (Hlen : length ((body ++ [c]) ++ junk) = (S (length body) + length junk)%nat)
      by (rewrite length_app, Hp; reflexivity).
    rewrite Hlen in *.
    assert (Hw1 : (1 <= length w)%nat)
      by (destruct Hw as (H & _); destruct w; [contradiction|cbn; lia]).
    assert (Hjl : length (join done ++ "/"%char :: w) = (S (length body) + 1 + length w)%nat).
    { rewrite <- Ej, length_app, Hp. cbn [length]. lia. }
    rewrite Hjl in Hroom.
    destruct (S (length body) + length junk - 1 <=? S (length body))%nat eqn:Et;
      [apply Nat.leb_le in Et; lia|].
    destruct junk as [|j js]; [cbn [length] in Hroom; lia|].
    rewrite <- Hp, poke_junk.
    replace (S (length (body ++ [c]))) with (length ((body ++ [c]) ++ ["/"%char]))
      by (rewrite !length_app; cbn; lia).
    rewrite Ej.
    destruct (Hcopy js) as (junk' & E & Hl' & Hne').
    { rewrite !length_app, <- Ej, Hp. cbn [length]. lia. }
    exists junk'. rewrite E. split; [reflexivity|]. split; [|exact Hne'].
    rewrite Hl', <- Ej, Hp. reflexivity.
Qed.

Lemma first_run_exact (cs : list (list ascii)) : forall done w junk,
  Forall good_comp done -> good_comp w -> Forall good_comp cs ->
  (length (render (done ++ w :: cs)) < length (render done ++ junk))%nat ->
  exists junk',
    first_run (w ++ join cs) (render done ++ junk) (length (render done)) =
    Returned true (render (done ++ w :: cs) ++ NUL :: junk') /\
    length (render (done ++ w :: cs) ++ NUL :: junk') = length (render done ++ junk).
Proof.
  induction cs as [|w2 cs IH]; intros done w junk Hdone Hw Hcs Hroom.
  - destruct (first_run_component done w [] junk Hdone Hw ltac:(now left) Hroom)
      as (junk' & E & Hl & Hne).
    cbn [join]. rewrite E, loop_eq.
    destruct junk' as [|j js]; [contradiction|].
    assert (Hall : Forall good_comp (done ++ [w]))
      by (apply Forall_app; split; [exact Hdone|now constructor]).
    rewrite term_render by exact Hall. exists js. split; [reflexivity|].
    rewrite <- Hl, !length_app. reflexivity.
  - inversion Hcs as [|? ? Hw2 Hcs']; subst.
    assert (Hall : Forall good_comp (done ++ [w]))
      by (apply Forall_app; split; [exact Hdone|now constructor]).
    assert (Eall : done ++ w :: w2 :: cs = (done ++ [w]) ++ w2 :: cs) by list_assoc.
    destruct (first_run_component done w (join (w2 :: cs)) junk Hdone Hw) as (junk' & E & Hl & Hne).
    + right. cbn [join]. eauto.
    + rewrite Eall in Hroom.
      assert (length (render (done ++ [w])) <= length (render ((done ++ [w]) ++ w2 :: cs)))%nat.
      { rewrite !render_join by (destruct done; discriminate).
        rewrite (join_app (done ++ [w])), length_app. lia. }
      lia.
    + rewrite E. cbn [join]. rewrite loop_eq.
      replace (is_slash "/") with true by reflexivity.
      destruct (IH (done ++ [w]) w2 junk' Hall Hw2 Hcs') as (junk2 & E2 & Hl2).
      * rewrite Hl, <- Eall. exact Hroom.
      * exists junk2. rewrite E2, Eall. split; [reflexivity|]. congruence.
Qed.

(** A canonical path given as [path] comes back as it is. *)
Lemma get_absolute_path_canonical (buf q pwd : list ascii) :
  canonical q -> (length q < length buf)%nat -> (2 <= length buf)%nat ->
  exists out, get_absolute_path buf q pwd = Returned true out /\
              cstring out = q /\ length out = length buf.
Proof.
  intros (comps & Hall & ->) Hroom Hsize.
  unfold get_absolute_path.
  destruct buf as [|j0 [|j1 js]]; cbn [length] in Hsize; try lia.
  cbn [length Nat.eqb].
  destruct comps as [|w cs].
  - cbn [render is_slash]. replace (is_slash "/") with true by reflexivity.
    cbn [negb]. exists ("/"%char :: NUL :: js). repeat split.
  - cbn [render join]. replace (is_slash "/") with true by reflexivity. cbn [negb].
    change (poke (j0 :: j1 :: js) 0 "/") with (Some (render [] ++ j1 :: js)).
    inversion Hall as [|? ? Hw Hcs]; subst.
    destruct (first_run_exact cs [] w (j1 :: js) ltac:(constructor) Hw Hcs) as (junk' & E & Hl).
    + cbn [app render join length] in *. lia.
    + change 1%nat with (length (render [])). rewrite E. cbn [app] in *.
      eexists. split; [reflexivity|]. split; [|exact Hl].
      change (cstring (render (w :: cs) ++ NUL :: junk') = render (w :: cs)).
      now apply cstring_render.
Qed.

Lemma canonical_nul_free q : canonical q -> nul_free q.
Proof. intros (comps & Hall & ->). now apply render_nul_free. Qed.

(** For a NUL-free [path], a [pwd] that is itself in canonical form
    and a buffer of [size >= 2] bytes holding anything,
    [get_absolute_path] returns with the buffer at its size; it
    returns [true] when [size >= strlen(pwd) + strlen(path) + 2]; and
    a [true] return leaves a canonical string on which a second call
    with the same [pwd] and [size] returns [true] with the same
    string. *)
Lemma get_absolute_path_idempotent (buf buf2 p pwd : list ascii) :
  canonical pwd -> nul_free p ->
  (2 <= length buf)%nat -> length buf2 = length buf ->
  exists b out,
    get_absolute_path buf p pwd = Returned b out /\
    length out = length buf /\
    (b = true ->
     canonical (cstring out) /\
     exists out2, get_absolute_path buf2 (cstring out) pwd = Returned true out2 /\
                  cstring out2 = cstring out) /\
    ((length pwd + length p + 2 <= length buf)%nat -> b = true).
Proof.
  intros Hpwd Hnf Hsize Hsize2.
  assert (Hfinish : forall room o,
    run_ok (length buf) room o ->
    ((length pwd + length p + 2 <= length buf)%nat -> room) ->
    exists b out,
      o = Returned b out /\ length out = length buf /\
      (b = true ->
       canonical (cstring out) /\
       exists out2, get_absolute_path buf2 (cstring out) pwd = Returned true out2 /\
                    cstring out2 = cstring out) /\
      ((length pwd + length p + 2 <= length buf)%nat -> b = true)).
  { intros room o (b & res & -> & Hl & Hc & Hr) Hroom.
    exists b, res. split; [reflexivity|]. split; [exact Hl|]. split; [|auto].
    intros Hb. destruct (Hc Hb) as (comps & rest & Hall & ->).
    rewrite cstring_render by exact Hall.
    split; [now apply canonical_render|].
    destruct (get_absolute_path_canonical buf2 (render comps) pwd) as (out2 & E & Hs & _).
    - now apply canonical_render.
    - rewrite Hsize2, <- Hl, length_app. cbn [length]. lia.
    - lia.
    - exists out2. auto. }
  pose proof Hpwd as (pcomps & Hpall & Epwd).
  assert (Hput : (length pwd < length buf)%nat ->
                 exists js, put_string buf pwd = render pcomps ++ NUL :: js /\
                            length (render pcomps ++ NUL :: js) = length buf).
  { intros Hlt. unfold put_string. exists (skipn (S (length pwd)) buf).
    rewrite <- Epwd. split; [reflexivity|].
    rewrite length_app. cbn [length]. rewrite length_skipn. lia. }
  unfold get_absolute_path.
  destruct (length buf =? 0)%nat eqn:E0; [apply Nat.eqb_eq in E0; lia|].
  destruct p as [|c rest].
  - destruct (length buf <=? length pwd)%nat eqn:Ep.
    + apply Nat.leb_le in Ep. apply (Hfinish False).
      * apply run_ok_false; [reflexivity|tauto].
      * cbn [length]. lia.
    + apply Nat.leb_gt in Ep. destruct (Hput Ep) as (js & -> & Hl).
      apply (Hfinish True); [|auto]. now apply run_ok_true.
  - destruct (is_slash c) eqn:Es; cbn [negb].
    + destruct buf as [|j0 [|j1 js]]; cbn [length] in Hsize; try lia.
      change (poke (j0 :: j1 :: js) 0 "/") with (Some (render [] ++ j1 :: js)).
      inversion Hnf as [|? ? _ Hnf']; subst.
      destruct (canonical_run rest) as [HF _].
      eapply Hfinish.
      * eapply run_ok_weaken; [apply (HF [] j1 js Hnf' ltac:(constructor))|reflexivity|].
        intros H. exact H.
      * cbn [length render app]. lia.
    + destruct (length buf <=? length pwd)%nat eqn:Ep.
      * apply Nat.leb_le in Ep. apply (Hfinish False).
        -- apply run_ok_false; [reflexivity|tauto].
        -- cbn [length]. lia.
      * apply Nat.leb_gt in Ep. destruct (Hput Ep) as (js & -> & Hl).
        destruct (canonical_run (c :: rest)) as [HF _].
        replace (first_run (c :: rest) (render pcomps ++ NUL :: js) (length pwd))
          with (first_run (c :: rest) (render pcomps ++ NUL :: js) (length (render pcomps)))
          by (now rewrite Epwd).
        eapply Hfinish.
        -- eapply run_ok_weaken; [apply (HF pcomps NUL js Hnf Hpall)|exact Hl|].
           intros H. exact H.
        -- rewrite Hl, <- Epwd. cbn [length]. lia.
Qed.

(** ** ISO9660 names *)

Lemma rdz_bound (buf : list Z) (i : Z) : 0 <= rdz buf i < 256.
Proof. unfold rdz, u8. apply Z.mod_pos_bound. lia. Qed.

(** The scan of the System Use Area that starts at [s] with [l] bytes
    left comes upon an [NM] entry at [nm]: every entry before it has
    version 1, a non-zero length within what is left and another
    signature. *)
Inductive sua_reaches (dir : list Z) : Z -> Z -> Z -> Prop :=
| reach_nm s l :
    4 <= l -> rdz dir (s + 3) = 1 -> rdz dir (s + 2) <= l ->
    rdz dir s = 78 -> rdz dir (s + 1) = 77 ->
    sua_reaches dir s l s
| reach_skip s l nm :
    4 <= l -> rdz dir (s + 3) = 1 -> rdz dir (s + 2) <= l ->
    ~ (rdz dir s = 78 /\ rdz dir (s + 1) = 77) -> rdz dir (s + 2) <> 0 ->
    sua_reaches dir (s + rdz dir (s + 2)) (l - rdz dir (s + 2)) nm ->
    sua_reaches dir s l nm.

Lemma sua_reaches_unique dir s l a b :
  sua_reaches dir s l a -> sua_reaches dir s l b -> a = b.
Proof.
  intros Ha. revert b. induction Ha as [s l H1 H2 H3 H4 H5|s l nm H1 H2 H3 H4 H5 Hr IH];
    intros b Hb; inversion Hb; subst; auto; tauto.
Qed.

Lemma rr_scan_spec dir fuel : forall s l,
  0 <= l < Z.of_nat fuel ->
  match rr_scan fuel dir s l with
  | Some (n, Some nm) =>
      sua_reaches dir s l nm /\ 5 <= rdz dir (nm + 2) /\ n = rdz dir (nm + 2) - 5
  | Some (n, None) => forall nm, sua_reaches dir s l nm -> rdz dir (nm + 2) < 5
  | None => False
  end.
Proof.
  induction fuel as [|fuel IH]; intros s l Hf; [lia|].
  cbn [rr_scan].
  pose proof (rdz_bound dir (s + 2)) as Hlen.
  destruct ((l >=? 4) && (rdz dir (s + 3) =? 1)) eqn:Ehead.
  2:{ intros nm Hr. exfalso. apply andb_false_iff in Ehead.
      rewrite Z.geb_leb in Ehead.
      inversion Hr; subst; destruct Ehead as [E|E];
        (apply Z.leb_gt in E; lia) || (apply Z.eqb_neq in E; contradiction). }
  apply andb_prop in Ehead. destruct Ehead as [E4 Ev].
  rewrite Z.geb_leb in E4. apply Z.leb_le in E4. apply Z.eqb_eq in Ev.
  destruct (rdz dir (s + 2) >? l) eqn:Egt; rewrite Z.gtb_ltb in Egt.
  { apply Z.ltb_lt in Egt. intros nm Hr. inversion Hr; subst; lia. }
  apply Z.ltb_ge in Egt.
  destruct ((rdz dir s =? 78) && (rdz dir (s + 1) =? 77)) eqn:Esig.
  - apply andb_prop in Esig. destruct Esig as [EN EM].
    apply Z.eqb_eq in EN. apply Z.eqb_eq in EM.
    destruct ((rdz dir (s + 2) >=? 5) && (rdz dir (s + 2) <=? l)) eqn:Eok.
    + apply andb_prop in Eok. destruct Eok as [E5 _].
      rewrite Z.geb_leb in E5. apply Z.leb_le in E5.
      split; [now constructor|]. split; [exact E5|reflexivity].
    + intros nm Hr. inversion Hr; subst; [|tauto].
      apply andb_false_iff in Eok. rewrite Z.geb_leb in Eok.
      destruct Eok as [E|E]; [apply Z.leb_gt in E; exact E|apply Z.leb_gt in E; lia].
  - assert (Hnsig : ~ (rdz dir s = 78 /\ rdz dir (s + 1) = 77)).
    { intros [HN HM]. rewrite HN, HM in Esig. discriminate. }
    destruct (rdz dir (s + 2) =? 0) eqn:E0.
    + apply Z.eqb_eq in E0. intros nm Hr. inversion Hr; subst; tauto.
    + apply Z.eqb_neq in E0.
      specialize (IH (s + rdz dir (s + 2)) (l - rdz dir (s + 2)) ltac:(lia)).
      destruct (rr_scan fuel dir (s + rdz dir (s + 2)) (l - rdz dir (s + 2)))
        as [[n [nm|]]|]; [| |contradiction].
      * destruct IH as (Hr & H5 & Hn). split; [|auto]. now apply reach_skip.
      * intros nm Hr. inversion Hr; subst; [tauto|]. now apply IH.
Qed.

(** Where the System Use Area of the entry at [e] starts and how long
    it is, the pad byte after an even-sized name left out. *)
Definition sua_start (dir : list Z) (e : Z) : Z :=
  e + 33 + de_filename_size dir e +
  (if Z.land (de_filename_size dir e) 1 =? 0 then 1 else 0).

Definition sua_len (dir : list Z) (e : Z) : Z :=
  de_length dir e - 33 - de_filename_size dir e -
  (if Z.land (de_filename_size dir e) 1 =? 0 then 1 else 0).

(** The entry at [e] carries a Rock Ridge name: its System Use Area
    holds, where the scan comes upon it, an [NM] entry at [nm] with at
    least one byte of name after its 5-byte header. *)
Definition nm_entry_of (dir : list Z) (e nm : Z) : Prop :=
  0 <= sua_len dir e /\
  sua_reaches dir (sua_start dir e) (sua_len dir e) nm /\
  6 <= rdz dir (nm + 2).

(** The name of the ISO field, cut to what the entry can hold. *)
Definition iso_name (dir : list Z) (e : Z) : list Z :=
  let fs := de_filename_size dir e in
  iso_name_copy
    (de_name dir e
       (if de_length dir e <? 33 + fs
        then if de_length dir e <=? 33 then 0 else de_length dir e - 33
        else fs)).

Lemma use_iso_name_eq dir e :
  use_iso_name 256 dir e = Done (false, iso_name dir e ++ [0]).
Proof.
  unfold use_iso_name, iso_name, sizeof_directory_entry.
  pose proof (rdz_bound dir (e + 32)) as H. unfold de_filename_size.
  replace (rdz dir (e + 32) >=? 256) with false
    by (symmetry; rewrite Z.geb_leb; apply Z.leb_gt; lia).
  reflexivity.
Qed.

Lemma load_name_spec dir e :
  (forall nm, nm_entry_of dir e nm ->
     load_name 256 dir e =
     Done (true, map (rdz dir) (seqZ (nm + 5) (rdz dir (nm + 2) - 5)) ++ [0])) /\
  ((forall nm, ~ nm_entry_of dir e nm) ->
     load_name 256 dir e = Done (false, iso_name dir e ++ [0])).
Proof.
  pose proof (rdz_bound dir (e + 32)) as Hfs.
  pose proof (rdz_bound dir e) as HL.
  assert (Hscan : forall s l, 0 <= l ->
    let scanned :=
      match rr_scan (S (Z.to_nat l)) dir s l with
      | None => OutOfFuel
      | Some (rrnamelen, nm_entry) =>
          match nm_entry with
          | Some nm =>
              if rrnamelen >? 0 then
                if rrnamelen >=? 256 then Panicked
                else Done (true, map (rdz dir) (seqZ (nm + 5) rrnamelen) ++ [0])
              else use_iso_name 256 dir e
          | None => use_iso_name 256 dir e
          end
      end in
    (forall nm, sua_reaches dir s l nm -> 6 <= rdz dir (nm + 2) ->
       scanned = Done (true, map (rdz dir) (seqZ (nm + 5) (rdz dir (nm + 2) - 5)) ++ [0])) /\
    ((forall nm, sua_reaches dir s l nm -> ~ 6 <= rdz dir (nm + 2)) ->
       scanned = use_iso_name 256 dir e)).
  { intros s l Hl scanned. subst scanned.
    pose proof (rr_scan_spec dir (S (Z.to_nat l)) s l ltac:(lia)) as H.
    destruct (rr_scan (S (Z.to_nat l)) dir s l) as [[n [nm'|]]|]; [| |contradiction].
    - destruct H as (Hr & H5 & ->). pose proof (rdz_bound dir (nm' + 2)) as Hb. split.
      + intros nm Hr' H6. rewrite (sua_reaches_unique _ _ _ _ _ Hr' Hr) in *.
        replace (rdz dir (nm' + 2) - 5 >? 0) with true
          by (symmetry; rewrite Z.gtb_ltb; apply Z.ltb_lt; lia).
        replace (rdz dir (nm' + 2) - 5 >=? 256) with false
          by (symmetry; rewrite Z.geb_leb; apply Z.leb_gt; lia).
        reflexivity.
      + intros Hno. specialize (Hno nm' Hr).
        replace (rdz dir (nm' + 2) - 5 >? 0) with false
          by (symmetry; rewrite Z.gtb_ltb; apply Z.ltb_ge; lia).
        reflexivity.
    - split; [|reflexivity]. intros nm Hr H6. specialize (H nm Hr). lia. }
  unfold load_name, nm_entry_of, sua_start, sua_len, sizeof_directory_entry,
    de_filename_size, de_length in *.
  set (fs := rdz dir (e + 32)) in *. set (L := rdz dir e) in *.
  destruct (L <? 33 + fs) eqn:Eshort.
  { apply Z.ltb_lt in Eshort. split.
    - intros nm (Hl & _). destruct (Z.land fs 1 =? 0); lia.
    - intros _. apply use_iso_name_eq. }
  apply Z.ltb_ge in Eshort.
  destruct (Z.land fs 1 =? 0) eqn:Eeven.
  - destruct (L - 33 - fs =? 0) eqn:Ez.
    + apply Z.eqb_eq in Ez. split.
      * intros nm (Hl & _). lia.
      * intros _. apply use_iso_name_eq.
    + apply Z.eqb_neq in Ez.
      destruct (Hscan (e + 33 + fs + 1) (L - 33 - fs - 1) ltac:(lia)) as [H1 H2].
      split.
      * intros nm (_ & Hr & H6). apply H1; assumption.
      * intros Hno. rewrite H2; [apply use_iso_name_eq|].
        intros nm Hr H6. apply (Hno nm). repeat split; [lia|exact Hr|exact H6].
  - destruct (Hscan (e + 33 + fs) (L - 33 - fs) ltac:(lia)) as [H1 H2].
    rewrite !Z.add_0_r, !Z.sub_0_r.
    split.
    + intros nm (_ & Hr & H6). apply H1; assumption.
    + intros Hno. rewrite H2; [apply use_iso_name_eq|].
      intros nm Hr H6. apply (Hno nm). repeat split; [lia|exact Hr|exact H6].
Qed.

(** C6, as the code has it.  For a directory entry that lies within
    what is left of the buffer: when the scan of its System Use Area
    comes upon an [NM] entry with a name of at least one byte (length
    6 or more, within the area), [load_name] gives that name and
    [iso9660_find] compares it with [strcmp] unless the global
    case-insensitive flag is set; when there is no such entry (none, a
    malformed one, or an [NM] entry of length 5 that carries no name),
    [load_name] gives the ISO name cut at [;] or [.;] and
    [iso9660_find] compares it with [strcasecmp] whatever the flag. *)
Theorem rock_ridge_precedence (dir : list Z) (off size : Z) (filename : list Z)
        (fuel : nat) :
  size <> 0 -> 33 <= de_length dir off <= size ->
  (forall nm, nm_entry_of dir off nm ->
     let name := map (rdz dir) (seqZ (nm + 5) (rdz dir (nm + 2) - 5)) ++ [0] in
     load_name 256 dir off = Done (true, name) /\
     iso9660_find (S fuel) false dir off size filename =
       (if strcmp_eq filename name then Done (Some off)
        else iso9660_find fuel false dir (off + de_length dir off)
                          (size - de_length dir off) filename) /\
     iso9660_find (S fuel) true dir off size filename =
       (if strcasecmp_eq filename name then Done (Some off)
        else iso9660_find fuel true dir (off + de_length dir off)
                          (size - de_length dir off) filename)) /\
  ((forall nm, ~ nm_entry_of dir off nm) ->
     let name := iso_name dir off ++ [0] in
     load_name 256 dir off = Done (false, name) /\
     forall flag,
       iso9660_find (S fuel) flag dir off size filename =
       (if strcasecmp_eq filename name then Done (Some off)
        else iso9660_find fuel flag dir (off + de_length dir off)
                          (size - de_length dir off) filename)).
Proof.
  intros Hsize [Hmin Hfit].
  destruct (load_name_spec dir off) as [Hrr Hiso].
  assert (Hstep : forall flag,
    iso9660_find (S fuel) flag dir off size filename =
    match load_name 256 dir off with
    | Panicked => Panicked
    | OutOfFuel => OutOfFuel
    | Done (rr, entry_filename) =>
        if rr && negb flag then
          if strcmp_eq filename entry_filename then Done (Some off)
          else iso9660_find fuel flag dir (off + de_length dir off)
                            (size - de_length dir off) filename
        else
          if strcasecmp_eq filename entry_filename then Done (Some off)
          else iso9660_find fuel flag dir (off + de_length dir off)
                            (size - de_length dir off) filename
    end).
  { intros flag. cbn [iso9660_find]. apply Z.eqb_neq in Hsize. rewrite Hsize.
    replace (de_length dir off =? 0) with false by (symmetry; apply Z.eqb_neq; lia).
    replace (de_length dir off >? size) with false
      by (symmetry; rewrite Z.gtb_ltb; apply Z.ltb_ge; lia).
    unfold sizeof_directory_entry.
    replace (de_length dir off <? 33) with false by (symmetry; apply Z.ltb_ge; lia).
    reflexivity. }
  split.
  - intros nm Hnm name. split; [exact (Hrr nm Hnm)|].
    rewrite !Hstep, (Hrr nm Hnm). split; reflexivity.
  - intros Hno name. split; [exact (Hiso Hno)|].
    intros flag. rewrite Hstep, (Hiso Hno). reflexivity.
Qed.

(** ** ISO9660 multi-extent files *)

(** The extent described by the directory entry at [o]. *)
Definition extent_of (dir : list Z) (o : Z) : iso9660_extent :=
  {| LBA := de_extent dir o; size := de_extent_size dir o |}.

Definition sum_sizes (l : list iso9660_extent) : Z :=
  fold_right (fun ex acc => size ex + acc) 0 l.



Lemma sum_sizes_cons x l : sum_sizes (x :: l) = size x + sum_sizes l.
Proof. reflexivity. Qed.

Lemma sum_sizes_app a b : sum_sizes (a ++ b) = sum_sizes a + sum_sizes b.
Proof.
  induction a as [|x a IH]; [reflexivity|].
  cbn [app]. rewrite !sum_sizes_cons, IH. lia.
Qed.













Lemma le32_bound buf i : 0 <= le32 buf i < 2 ^ 32.
Proof. unfold le32. pose proof (field_bound buf (Z.to_nat i) 4). lia. Qed.



(** When the last path component is found at [entry], the walk of
    [iso9660_open] returns the handle its extent collection builds. *)
Lemma iso9660_open_walk_last disk flag fuel ctx path c rest filename current
      current_size first ns nsz entry h v :
  skip_slashes path = c :: rest ->
  take_component (Z.to_nat (ROCK_RIDGE_MAX_FILENAME - 1)) (c :: rest) =
    Some (filename, []) ->
  iso9660_find (S (Z.to_nat current_size)) flag current 0 current_size filename =
    Done (Some entry) ->
  collect_extents ctx current current_size entry = Done h ->
  iso9660_open_walk disk flag (S fuel) ctx path current current_size first ns nsz v =
  Val (Some h) v.
Proof.
  intros Hp Ht Hf Hc. cbn [iso9660_open_walk]. rewrite Hp, Ht, Hf, Hc. reflexivity.
Qed.


(** ** FAT cluster chains *)

(** A volume of known size that holds the image [img]. *)
Definition holds_image (img : Z -> Z) (v : volume) : Prop :=
  volume_ok v /\ addressable v /\ cache_coherent img v /\ sect_count v <> UINT64_MAX.

(** The fields of a context as C has them: unsigned, with [type] one
    of 12, 16 and 32. *)
Definition context_ok (c : fat32_context) : Prop :=
  (fat_type c = 12 \/ fat_type c = 16 \/ fat_type c = 32) /\
  0 <= fat_start_lba c /\ 0 <= bytes_per_sector c /\ 0 <= sectors_per_fat c /\
  0 <= root_start c.






Lemma holds_image_geometry img v v' :
  geometry v' = geometry v -> cache_coherent img v' -> holds_image img v ->
  holds_image img v'.
Proof.
  intros Hg Hc (Hok & Had & _ & Hs).
  split; [exact (volume_ok_geometry _ _ Hg Hok)|].
  split; [exact (addressable_geometry _ _ Hg Had)|].
  split; [exact Hc|]. now rewrite (geometry_count _ _ Hg).
Qed.


(** [volume_read] on a volume that holds an image: the bytes of the
    image when the request is in range, a refusal otherwise. *)
Lemma volume_read_holds_image img v loc count :
  holds_image img v -> 0 <= loc -> 0 <= count ->
  exists v',
    volume_read (image_disk img) loc count v =
    Val (if range_ok v loc count
         then (true, map img (seqZ (vol_base v + loc) count))
         else (false, [])) v' /\
    geometry v' = geometry v /\ holds_image img v'.
Proof.
  intros Hh Hl Hc. pose proof Hh as (Hok & Had & Hcoh & Hs).
  destruct (range_ok v loc count) eqn:Er.
  - pose proof (range_ok_in_volume v loc count Hs Hl Hc Er) as Hin.
    destruct (volume_read_image img v loc count Hok Had Hcoh Hin) as (v' & E & Hg & Hc').
    exists v'. split; [exact E|]. split; [exact Hg|].
    exact (holds_image_geometry _ _ _ Hg Hc' Hh).
  - exists v. unfold volume_read. destruct Hok as (Hp & _). rewrite Hp, Er.
    cbn [negb]. auto.
Qed.


Lemma seqZ_four s : seqZ s 4 = [s + 0; s + 1; s + 2; s + 3].
Proof. reflexivity. Qed.


Lemma field_nonneg buf off n : 0 <= field buf off n.
Proof. unfold field. pose proof (le_bytes_bound (firstn n (skipn off buf))). lia. Qed.
























(** The first cluster that [fat32_open] gives the handle of a file. *)
Definition file_first_cluster (context : fat32_context) (file : fat32_directory_entry)
  : Z :=
  if fat_type context =? 32
  then Z.lor (cluster_num_low file) (Z.shiftl (cluster_num_high file) 16)
  else cluster_num_low file.

(** At the last component of the path the walk of [fat32_open] ends in
    the handle block, run on the entry the lookup has found. *)
Lemma fat32_open_walk_last disk flag fuel context path current_index directory
      current_part file v0 v :
  fat32_scan_part (Z.to_nat (FAT32_LFN_MAX_FILENAME_LENGTH - 1)) path current_index 0 =
    PartEnd current_part ->
  fat32_open_in disk flag context directory (Some current_part) v0 = Val (Found file) v ->
  fat32_open_walk disk flag (S fuel) context path current_index directory v0 =
  fat32_open_file disk context file v.
Proof.
  intros Hp Hf. cbn [fat32_open_walk]. rewrite Hp. unfold bind at 1. rewrite Hf.
  reflexivity.
Qed.

Lemma fat32_open_file_chain disk context file v r v' :
  cache_cluster_chain disk context (file_first_cluster context file) v = Val r v' ->
  fat32_open_file disk context file v =
  Val (if match r with None => true | Some _ => false end
          && negb (file_size_bytes file =? 0)
       then None
       else Some {| fat_context := context;
                    first_cluster := file_first_cluster context file;
                    size_bytes := file_size_bytes file;
                    size_clusters := DIV_ROUNDUP (file_size_bytes file)
                                                 (bytes_per_sector context);
                    cluster_chain := r;
                    chain_len := match r with
                                 | Some c => Z.of_nat (length c)
                                 | None => 0
                                 end |}) v'.
Proof.
  intros E. unfold fat32_open_file, bind. fold (file_first_cluster context file).
  rewrite E. destruct r; destruct (file_size_bytes file =? 0); reflexivity.
Qed.

Lemma set_label_ok c l : context_ok c -> context_ok (set_label c l).
Proof. intros H. exact H. Qed.

Lemma label_step_ok (m : volume -> res fat32_found) c0 v context v' :
  context_ok c0 ->
  (r <- m ;;
   match r with
   | Label vol_label => ret (Some (set_label c0 (Some vol_label)))
   | _ => ret (Some (set_label c0 None))
   end) v = Val (Some context) v' ->
  context_ok context.
Proof.
  intros H0. unfold bind. destruct (m v) as [f v2| |]; try discriminate.
  destruct f; unfold ret; intros [= <- _]; apply set_label_ok; exact H0.
Qed.

(** Every context that [fat32_init_context] builds is as [context_ok]
    asks. *)
Lemma fat32_init_context_ok disk flag v context v' :
  fat32_init_context disk flag v = Val (Some context) v' -> context_ok context.
Proof.
  unfold fat32_init_context, bind at 1.
  destruct (volume_read disk 0 512 v) as [[ok data] v1| |]; try discriminate.
  destruct (negb ok); [discriminate|].
  destruct (negb (_ || _ || _)); [discriminate|].
  destruct (negb (existsb _ _)); [discriminate|].
  destruct (negb (existsb _ _)); [discriminate|].
  destruct (_ || _); [discriminate|].
  destruct (_ >=? _); [discriminate|].
  set (t := if _ <? 4085 then 12 else if _ <? 65525 then 16 else 32).
  assert (Ht : t = 12 \/ t = 16 \/ t = 32).
  { unfold t. destruct (_ <? 4085); [auto|]. destruct (_ <? 65525); auto. }
  set (spf := if t =? 32 then _ else _).
  assert (Hspf : 0 <= spf) by (unfold spf; destruct (t =? 32); apply field_nonneg).
  destruct (spf =? 0); [discriminate|].
  destruct (_ >? UINT32_MAX); [discriminate|].
  pose proof (field_nonneg data 14 2) as Hres.
  pose proof (field_nonneg data 16 1) as Hfc.
  pose proof (field_nonneg data 11 2) as Hbps.
  assert (Hok : forall d,
    context_ok
      {| fat_type := t; label := None;
         bytes_per_sector := bpb_bytes_per_sector (as_fat32_bpb data);
         sectors_per_cluster := bpb_sectors_per_cluster (as_fat32_bpb data);
         reserved_sectors := bpb_reserved_sectors (as_fat32_bpb data);
         number_of_fats := bpb_fats_count (as_fat32_bpb data);
         hidden_sectors := bpb_hidden_sectors_count (as_fat32_bpb data);
         sectors_per_fat := spf;
         fat_start_lba := bpb_reserved_sectors (as_fat32_bpb data);
         data_start_lba := d;
         root_directory_cluster := bpb_root_directory_cluster (as_fat32_bpb data);
         root_entries := bpb_root_entries_count (as_fat32_bpb data);
         root_start := bpb_reserved_sectors (as_fat32_bpb data)
                       + bpb_fats_count (as_fat32_bpb data) * spf;
         fat_root_size :=
           DIV_ROUNDUP (bpb_root_entries_count (as_fat32_bpb data)
                        * sizeof_fat32_directory_entry)
                       (bpb_bytes_per_sector (as_fat32_bpb data)) |}).
  { intros d. unfold context_ok.
    cbn [fat_type fat_start_lba bytes_per_sector sectors_per_fat root_start
         as_fat32_bpb bpb_bytes_per_sector bpb_reserved_sectors bpb_fats_count].
    split; [exact Ht|]. repeat split; try assumption. nia. }
  destruct (t =? 32) eqn:E32.
  - intros H. eapply label_step_ok; [|exact H]. apply Hok.
  - destruct (_ >? UINT32_MAX); [discriminate|].
    intros H. eapply label_step_ok; [|exact H]. apply Hok.
Qed.


(** ** Numbers in text *)

Lemma seqZ_In (s n x : Z) : s <= x < s + n -> In x (seqZ s n).
Proof.
  intros H. unfold seqZ. apply in_map_iff. exists (Z.to_nat (x - s)).
  split; [lia|]. apply in_seq. lia.
Qed.

(** Binary-coded decimal: the two conversions undo each other on the
    numbers 0 to 99 and on the bytes whose two nibbles are decimal
    digits. *)
Theorem bcd_round_trip (n : Z) :
  (0 <= n <= 99 -> bcd_to_int (int_to_bcd n) = n) /\
  (0 <= n <= 255 -> n mod 16 <= 9 -> n / 16 <= 9 -> int_to_bcd (bcd_to_int n) = n).
Proof.
  split.
  - intros H.
    assert (A : forallb (fun x => bcd_to_int (int_to_bcd x) =? x) (seqZ 0 100) = true)
      by (vm_compute; reflexivity).
    rewrite forallb_forall in A. apply Z.eqb_eq, A, seqZ_In. lia.
  - intros H H1 H2.
    assert (A : forallb (fun x => negb ((x mod 16 <=? 9) && (x / 16 <=? 9))
                                  || (int_to_bcd (bcd_to_int x) =? x))
                        (seqZ 0 256) = true)
      by (vm_compute; reflexivity).
    rewrite forallb_forall in A. specialize (A n (seqZ_In 0 256 n ltac:(lia))).
    apply Z.leb_le in H1. apply Z.leb_le in H2. rewrite H1, H2 in A.
    cbn [andb negb orb] in A. apply Z.eqb_eq. exact A.
Qed.

(** The characters of a string before its first character that is no
    digit, and the number they write in a base. *)
Fixpoint digit_prefix (s : list Z) : list Z :=
  match s with
  | [] => []
  | c :: rest => if digit_to_int c =? -1 then [] else c :: digit_prefix rest
  end.

Definition digits_value (base : Z) (digits : list Z) (n : Z) : Z :=
  fold_left (fun n c => n * base + digit_to_int c) digits n.

Lemma digit_to_int_range c : digit_to_int c = -1 \/ 0 <= digit_to_int c <= 15.
Proof.
  unfold digit_to_int.
  destruct ((97 <=? c) && (c <=? 102)) eqn:E1;
    [apply andb_true_iff in E1; destruct E1 as [A B];
     apply Z.leb_le in A; apply Z.leb_le in B; lia|].
  destruct ((65 <=? c) && (c <=? 70)) eqn:E2;
    [apply andb_true_iff in E2; destruct E2 as [A B];
     apply Z.leb_le in A; apply Z.leb_le in B; lia|].
  destruct ((48 <=? c) && (c <=? 57)) eqn:E3;
    [apply andb_true_iff in E3; destruct E3 as [A B];
     apply Z.leb_le in A; apply Z.leb_le in B; lia|].
  now left.
Qed.

Lemma digits_value_mono base digits : forall n,
  1 <= base -> 0 <= n -> Forall (fun c => digit_to_int c <> -1) digits ->
  n <= digits_value base digits n.
Proof.
  induction digits as [|c ds IH]; intros n Hb Hn Hall; cbn [digits_value fold_left];
    [lia|].
  inversion Hall as [|? ? Hc Hds]; subst.
  destruct (digit_to_int_range c) as [?|Hd]; [contradiction|].
  fold (digits_value base ds (n * base + digit_to_int c)).
  specialize (IH (n * base + digit_to_int c) Hb ltac:(nia) Hds). nia.
Qed.

Lemma digit_prefix_digits s : Forall (fun c => digit_to_int c <> -1) (digit_prefix s).
Proof.
  induction s as [|c rest IH]; cbn [digit_prefix]; [constructor|].
  destruct (digit_to_int c =? -1) eqn:E; [constructor|].
  apply Z.eqb_neq in E. now constructor.
Qed.

Lemma strtoui_loop_value base s : forall i n,
  1 <= base <= UINT64_MAX -> 0 <= n <= UINT64_MAX ->
  let v := digits_value base (digit_prefix s) n in
  fst (strtoui_loop s i n base) = Z.min v UINT64_MAX /\
  (v <= UINT64_MAX ->
   snd (strtoui_loop s i n base) = i + Z.of_nat (length (digit_prefix s))).
Proof.
  induction s as [|c rest IH]; intros i n Hb Hn; cbn [strtoui_loop digit_prefix].
  - cbn. split; [lia|intros _; lia].
  - destruct (digit_to_int c =? -1) eqn:Ed.
    + cbn. split; [lia|intros _; lia].
    + apply Z.eqb_neq in Ed.
      destruct (digit_to_int_range c) as [?|Hd]; [contradiction|].
      cbn [digits_value fold_left length].
      fold (digits_value base (digit_prefix rest) (n * base + digit_to_int c)).
      pose proof (digits_value_mono base (digit_prefix rest)
                    (n * base + digit_to_int c) ltac:(lia) ltac:(nia)
                    (digit_prefix_digits rest)) as Hmono.
      rewrite (wrap64_small base) by lia.
      rewrite (wrap64_small (digit_to_int c)) by (unfold UINT64_MAX; lia).
      destruct (Z_le_gt_dec (n * base) UINT64_MAX) as [Hm|Hm].
      * rewrite mul_overflow_Some by nia.
        destruct (Z_le_gt_dec (n * base + digit_to_int c) UINT64_MAX) as [Ha|Ha].
        -- rewrite add_overflow_Some by nia.
           destruct (IH (i + 1) (n * base + digit_to_int c) Hb ltac:(nia)) as [E1 E2].
           split; [exact E1|]. intros Hv. rewrite (E2 Hv). lia.
        -- unfold add_overflow.
           replace (n * base + digit_to_int c <=? UINT64_MAX) with false
             by (symmetry; apply Z.leb_gt; lia).
           rewrite andb_false_r. cbn [fst snd]. split; lia.
      * rewrite mul_overflow_None by lia. cbn [fst snd]. split; lia.
Qed.

(** [strtoui] reads the digits at the start of the string, whatever
    the base makes of them ([a] to [f] count in every base), and
    returns the number they write, or [UINT64_MAX] when that number
    does not fit 64 bits; a number that fits leaves [*end] at the first
    character that is no digit. *)
Theorem strtoui_saturating (s : list Z) (base : Z) :
  1 <= base <= UINT64_MAX ->
  let v := digits_value base (digit_prefix s) 0 in
  fst (strtoui s base) = Z.min v UINT64_MAX /\
  (v <= UINT64_MAX -> snd (strtoui s base) = Z.of_nat (length (digit_prefix s))).
Proof.
  intros Hb v. unfold strtoui.
  destruct (strtoui_loop_value base s 0 0 Hb ltac:(unfold UINT64_MAX; lia)) as [E1 E2].
  split; [exact E1|]. intros Hv. rewrite (E2 Hv). lia.
Qed.

(** ** ISO9660 directories *)

Lemma iso_name_copy_length (name : list Z) :
  (length (iso_name_copy name) <= length name)%nat.
Proof.
  induction name as [|c rest IH]; cbn [iso_name_copy length]; [lia|].
  destruct (c =? 59); [cbn; lia|].
  destruct ((c =? 46) && _); cbn [length]; lia.
Qed.

Lemma use_iso_name_bounded dir e :
  exists body, use_iso_name 256 dir e = Done (false, body ++ [0]) /\
               (length body <= 255)%nat.
Proof.
  rewrite use_iso_name_eq. exists (iso_name dir e). split; [reflexivity|].
  unfold iso_name. etransitivity; [apply iso_name_copy_length|].
  unfold de_name. rewrite length_map, seqZ_length.
  pose proof (rdz_bound dir (e + 32)) as Hfs. pose proof (rdz_bound dir e) as HL.
  unfold de_filename_size, de_length.
  destruct (rdz dir e <? 33 + rdz dir (e + 32)); [|lia].
  destruct (rdz dir e <=? 33); lia.
Qed.

Lemma load_name_done (dir : list Z) (e : Z) :
  exists rr body,
    load_name 256 dir e = Done (rr, body ++ [0]) /\ (length body <= 255)%nat.
Proof.
  pose proof (rdz_bound dir (e + 32)) as Hfs. pose proof (rdz_bound dir e) as HL.
  destruct (use_iso_name_bounded dir e) as (ibody & Ei & Hi).
  assert (Hscan : forall s l, 0 <= l ->
    exists rr body,
      match rr_scan (S (Z.to_nat l)) dir s l with
      | None => OutOfFuel
      | Some (rrnamelen, nm_entry) =>
          match nm_entry with
          | Some nm =>
              if rrnamelen >? 0 then
                if rrnamelen >=? 256 then Panicked
                else Done (true, map (rdz dir) (seqZ (nm + 5) rrnamelen) ++ [0])
              else use_iso_name 256 dir e
          | None => use_iso_name 256 dir e
          end
      end = Done (rr, body ++ [0]) /\ (length body <= 255)%nat).
  { intros s l Hl.
    pose proof (rr_scan_spec dir (S (Z.to_nat l)) s l ltac:(lia)) as H.
    destruct (rr_scan (S (Z.to_nat l)) dir s l) as [[n [nm|]]|]; [| |contradiction].
    - destruct H as (_ & H5 & ->). pose proof (rdz_bound dir (nm + 2)) as Hb.
      destruct (rdz dir (nm + 2) - 5 >? 0); [|now exists false, ibody].
      replace (rdz dir (nm + 2) - 5 >=? 256) with false
        by (symmetry; rewrite Z.geb_leb; apply Z.leb_gt; lia).
      eexists true, _. split; [reflexivity|]. rewrite length_map, seqZ_length. lia.
    - now exists false, ibody. }
  unfold load_name, sizeof_directory_entry, de_length, de_filename_size in *.
  destruct (rdz dir e <? 33 + rdz dir (e + 32)) eqn:E1; [now exists false, ibody|].
  apply Z.ltb_ge in E1.
  destruct (Z.land (rdz dir (e + 32)) 1 =? 0).
  - destruct (rdz dir e - 33 - rdz dir (e + 32) =? 0) eqn:E0; [now exists false, ibody|].
    apply Z.eqb_neq in E0. apply Hscan. lia.
  - apply Hscan. lia.
Qed.

(** With the 256-byte buffer that [iso9660_find] gives it, [load_name]
    returns for every directory entry: it never panics, and what it
    stores is a name of at most 255 bytes and the terminator. *)
Theorem load_name_fits (dir : list Z) (e : Z) :
  exists rr body,
    load_name 256 dir e = Done (rr, body ++ [0]) /\ (length body <= 255)%nat.
Proof. exact (load_name_done dir e). Qed.

Lemma ALIGN_DOWN_le x : 0 <= x -> 0 <= ALIGN_DOWN x 2048 <= x.
Proof.
  intros H. unfold ALIGN_DOWN.
  pose proof (Z.mul_div_le x 2048 ltac:(lia)).
  pose proof (Z.div_pos x 2048 H ltac:(lia)). lia.
Qed.

Lemma ALIGN_UP_ge x : x <= ALIGN_UP x 2048.
Proof.
  unfold ALIGN_UP. change (2048 - 1) with 2047.
  pose proof (Z.mod_pos_bound (x + 2047) 2048 ltac:(lia)).
  pose proof (Z.div_mod (x + 2047) 2048 ltac:(lia)). lia.
Qed.

(** What [iso9660_find] answers for one name in one directory. *)
Definition name_matches (flag : bool) (dir : list Z) (e : Z) (filename : list Z) : Prop :=
  exists rr name,
    load_name 256 dir e = Done (rr, name) /\
    (if rr && negb flag then strcmp_eq filename name
     else strcasecmp_eq filename name) = true.

Lemma iso9660_find_spec flag dir filename (fuel : nat) : forall off size,
  0 <= size < Z.of_nat fuel ->
  exists r,
    iso9660_find fuel flag dir off size filename = Done r /\
    forall e, r = Some e ->
      off <= e /\ e + de_length dir e <= off + size /\ 33 <= de_length dir e /\
      name_matches flag dir e filename.
Proof.
  induction fuel as [|fuel IH]; intros off size Hs; [lia|].
  cbn [iso9660_find]. destruct (size =? 0) eqn:E0.
  { exists None. split; [reflexivity|discriminate]. }
  apply Z.eqb_neq in E0.
  assert (Hrec : forall off' size',
    off <= off' -> off' + size' <= off + size -> 0 <= size' < size ->
    exists r,
      iso9660_find fuel flag dir off' size' filename = Done r /\
      forall e, r = Some e ->
        off <= e /\ e + de_length dir e <= off + size /\ 33 <= de_length dir e /\
        name_matches flag dir e filename).
  { intros off' size' Ho He Hlt.
    destruct (IH off' size' ltac:(lia)) as (r & E & Hr).
    exists r. split; [exact E|]. intros e He'.
    destruct (Hr e He') as (A & B & C & D). repeat split; (lia || assumption). }
  unfold ISO9660_SECTOR_SIZE, sizeof_directory_entry.
  destruct (de_length dir off =? 0) eqn:El.
  - destruct (size <=? 2048) eqn:Es; [exists None; split; [reflexivity|discriminate]|].
    apply Z.leb_gt in Es. pose proof (ALIGN_DOWN_le size ltac:(lia)) as Ha.
    destruct (size =? ALIGN_DOWN size 2048) eqn:Ea.
    + apply Z.eqb_eq in Ea. rewrite <- Ea.
      replace (size <=? 2048) with false by (symmetry; apply Z.leb_gt; lia).
      apply Hrec; lia.
    + apply Z.eqb_neq in Ea.
      assert (2048 <= ALIGN_DOWN size 2048).
      { unfold ALIGN_DOWN. pose proof (Z.div_le_lower_bound size 2048 1 ltac:(lia) ltac:(lia)).
        lia. }
      apply Hrec; lia.
  - apply Z.eqb_neq in El.
    destruct (de_length dir off >? size) eqn:Eg; rewrite Z.gtb_ltb in Eg;
      [exists None; split; [reflexivity|discriminate]|].
    apply Z.ltb_ge in Eg.
    destruct (de_length dir off <? 33) eqn:Em;
      [exists None; split; [reflexivity|discriminate]|].
    apply Z.ltb_ge in Em.
    destruct (load_name_done dir off) as (rr & body & En & _). rewrite En.
    destruct (rr && negb flag) eqn:Emode.
    + destruct (strcmp_eq filename (body ++ [0])) eqn:Ec.
      * exists (Some off). split; [reflexivity|]. intros e [= <-].
        split; [lia|]. split; [lia|]. split; [lia|].
        exists rr, (body ++ [0]). rewrite Emode. auto.
      * apply Hrec; lia.
    + destruct (strcasecmp_eq filename (body ++ [0])) eqn:Ec.
      * exists (Some off). split; [reflexivity|]. intros e [= <-].
        split; [lia|]. split; [lia|]. split; [lia|].
        exists rr, (body ++ [0]). rewrite Emode. auto.
      * apply Hrec; lia.
Qed.

(** [iso9660_find] returns for every directory buffer, name and flag:
    its loop ends and nothing in it panics.  The entry it answers lies
    within the [size] bytes it was given, has at least the 33 bytes of
    an entry header, and carries a name that compares equal. *)
Theorem iso9660_find_returns (flag : bool) (dir : list Z) (off size : Z)
        (filename : list Z) :
  0 <= size ->
  exists r,
    iso9660_find (S (Z.to_nat size)) flag dir off size filename = Done r /\
    forall e, r = Some e ->
      off <= e /\ e + de_length dir e <= off + size /\ 33 <= de_length dir e /\
      name_matches flag dir e filename.
Proof. intros H. apply iso9660_find_spec. lia. Qed.

(** [iso9660_next_entry] moves forward and stays within the buffer:
    the entry it answers starts after the current one and before
    [buffer_end], and its length byte is not zero. *)
Theorem iso9660_next_entry_advances (dir : list Z) (current buffer_end next : Z) :
  iso9660_next_entry dir current buffer_end = Some next ->
  current < next < buffer_end /\ de_length dir next <> 0 /\
  (de_length dir current <> 0 -> 33 <= de_length dir next).
Proof.
  unfold iso9660_next_entry, ISO9660_SECTOR_SIZE, sizeof_directory_entry.
  pose proof (rdz_bound dir current) as Hc. fold (de_length dir current) in Hc.
  destruct (de_length dir current =? 0) eqn:E0.
  - apply Z.eqb_eq in E0.
    pose proof (ALIGN_UP_ge (current + 1)) as Hup.
    destruct (_ >=? buffer_end) eqn:Eb; [discriminate|].
    rewrite Z.geb_leb in Eb. apply Z.leb_gt in Eb.
    destruct (de_length dir (ALIGN_UP (current + 1) 2048) =? 0) eqn:En; [discriminate|].
    apply Z.eqb_neq in En. intros [= <-]. repeat split; (lia || assumption).
  - apply Z.eqb_neq in E0.
    destruct (current + de_length dir current >=? buffer_end) eqn:Eb; [discriminate|].
    rewrite Z.geb_leb in Eb. apply Z.leb_gt in Eb.
    destruct (de_length dir (current + de_length dir current) =? 0) eqn:Ez.
    + pose proof (ALIGN_UP_ge (current + de_length dir current + 1)) as Hup.
      destruct (_ >=? buffer_end) eqn:Eb2; [discriminate|].
      rewrite Z.geb_leb in Eb2. apply Z.leb_gt in Eb2.
      destruct (de_length dir (ALIGN_UP _ 2048) =? 0) eqn:En; [discriminate|].
      apply Z.eqb_neq in En.
      destruct (de_length dir (ALIGN_UP _ 2048) <? 33) eqn:Em; [discriminate|].
      apply Z.ltb_ge in Em. intros [= <-]. repeat split; (lia || assumption).
    + apply Z.eqb_neq in Ez.
      destruct (de_length dir (current + de_length dir current) <? 33) eqn:Em;
        [discriminate|].
      apply Z.ltb_ge in Em. intros [= <-]. repeat split; (lia || assumption).
Qed.

Lemma fill_extents_length n dir buffer_end : forall e,
  length (fill_extents n dir buffer_end e) = n.
Proof.
  induction n as [|n IH]; intros e; cbn [fill_extents length]; [reflexivity|].
  f_equal. destruct n as [|n']; [reflexivity|].
  destruct (iso9660_next_entry dir e buffer_end); [apply IH|apply repeat_length].
Qed.

Lemma count_extents_any dir buffer_end (fuel : nat) : forall e c t,
  1 <= c < ISO9660_MAX_EXTENT_COUNT ->
  ISO9660_MAX_EXTENT_COUNT - c <= Z.of_nat fuel ->
  exists k : nat,
    count_extents fuel dir buffer_end e c t =
    Some (c + Z.of_nat k,
          t + sum_sizes (tl (fill_extents (S k) dir buffer_end e))) /\
    c + Z.of_nat k <= ISO9660_MAX_EXTENT_COUNT.
Proof.
  induction fuel as [|fuel IH]; intros e c t Hc Hf; [lia|].
  cbn [count_extents].
  destruct (negb (Z.land (de_flags dir e) ISO9660_FLAG_MULTI_EXTENT =? 0)).
  2:{ exists 0%nat. cbn [fill_extents tl]. change (sum_sizes []) with 0.
      split; [f_equal; f_equal; lia|lia]. }
  destruct (iso9660_next_entry dir e buffer_end) as [next|] eqn:En.
  2:{ exists 0%nat. cbn [fill_extents tl]. change (sum_sizes []) with 0.
      split; [f_equal; f_equal; lia|lia]. }
  destruct (c + 1 >=? ISO9660_MAX_EXTENT_COUNT) eqn:Ecap; rewrite Z.geb_leb in Ecap.
  - apply Z.leb_le in Ecap. exists 1%nat. cbn [fill_extents tl]. rewrite En.
    cbn [fill_extents]. rewrite sum_sizes_cons. change (sum_sizes []) with 0.
    cbn [size]. split; [f_equal; f_equal; lia|lia].
  - apply Z.leb_gt in Ecap.
    destruct (IH next (c + 1) (t + de_extent_size dir next) ltac:(lia) ltac:(lia))
      as (k & E & Hk).
    exists (S k). rewrite E. split; [|lia].
    f_equal. f_equal; [lia|].
    change (fill_extents (S (S k)) dir buffer_end e)
      with ({| LBA := de_extent dir e; size := de_extent_size dir e |}
            :: match iso9660_next_entry dir e buffer_end with
               | None => repeat {| LBA := 0; size := 0 |} (S k)
               | Some next => fill_extents (S k) dir buffer_end next
               end).
    rewrite En. cbn [tl].
    change (fill_extents (S k) dir buffer_end next)
      with ({| LBA := de_extent dir next; size := de_extent_size dir next |}
            :: tl (fill_extents (S k) dir buffer_end next)) at 2.
    rewrite sum_sizes_cons. cbn [size tl]. lia.
Qed.

Lemma collect_extents_done (ctx : iso9660_context) (dir : list Z)
      (buffer_end e : Z) :
  exists h,
    collect_extents ctx dir buffer_end e = Done h /\
    context h = ctx /\
    1 <= extent_count h <= ISO9660_MAX_EXTENT_COUNT /\
    Z.of_nat (length (extents h)) = extent_count h /\
    hd_error (extents h) = Some (extent_of dir e) /\
    total_size h = sum_sizes (extents h).
Proof.
  unfold collect_extents.
  destruct (count_extents_any dir buffer_end (Z.to_nat ISO9660_MAX_EXTENT_COUNT)
              e 1 (de_extent_size dir e))
    as (k & E & Hk); [unfold ISO9660_MAX_EXTENT_COUNT; lia..|].
  rewrite E. eexists. split; [reflexivity|].
  cbn [context extent_count extents total_size].
  replace (Z.to_nat (1 + Z.of_nat k)) with (S k) by lia.
  split; [reflexivity|].
  split; [lia|]. split; [rewrite fill_extents_length; lia|].
  split; [reflexivity|].
  change (fill_extents (S k) dir buffer_end e)
    with ({| LBA := de_extent dir e; size := de_extent_size dir e |}
          :: tl (fill_extents (S k) dir buffer_end e)) at 2.
  rewrite sum_sizes_cons. reflexivity.
Qed.

(** For every directory buffer and every entry in it, well formed or
    not, the extent collection of [iso9660_open] ends and builds a
    handle that is consistent: between 1 and 65536 extents, as many
    slots in the array as [extent_count] says, the matched entry's
    extent first, and a total size that is the sum of the sizes in the
    array. *)
Theorem collect_extents_consistent (ctx : iso9660_context) (dir : list Z)
        (buffer_end e : Z) :
  exists h,
    collect_extents ctx dir buffer_end e = Done h /\
    1 <= extent_count h <= ISO9660_MAX_EXTENT_COUNT /\
    Z.of_nat (length (extents h)) = extent_count h /\
    hd_error (extents h) = Some (extent_of dir e) /\
    total_size h = sum_sizes (extents h).
Proof.
  destruct (collect_extents_done ctx dir buffer_end e) as (h & E & _ & H).
  exists h. split; [exact E|exact H].
Qed.





(** ** Opening a file by path on ISO9660 *)











(** ** FAT file contents *)








Lemma read_cluster_chain_loop_beyond disk context chain chain_len loc count (fuel : nat) :
  let bs := sectors_per_cluster context * bytes_per_sector context in
  0 < bs -> 0 <= loc -> loc + count <= UINT64_MAX ->
  0 <= chain_len -> chain_len * bs < loc + count ->
  forall progress buf v,
    good v -> 0 <= progress < count -> count - progress <= Z.of_nat fuel ->
    exists buf' v',
      read_cluster_chain_loop disk fuel context chain chain_len loc count progress buf v =
      Val (false, buf') v'.
Proof.
  intros bs Hbs Hloc H64 Hlen Hbeyond.
  induction fuel as [|fuel IH]; intros progress buf v Hv Hp Hf; [lia|].
  cbn [read_cluster_chain_loop]. fold bs.
  replace (progress <? count) with true by (symmetry; apply Z.ltb_lt; lia).
  rewrite (wrap64_small (loc + progress)) by lia.
  set (block := (loc + progress) / bs). set (offset := (loc + progress) mod bs).
  assert (Hdm : loc + progress = bs * block + offset) by (apply Z.div_mod; lia).
  assert (Hoff : 0 <= offset < bs) by (apply Z.mod_pos_bound; lia).
  destruct (block >=? chain_len) eqn:Eb; [eexists _, v; reflexivity|].
  rewrite Z.geb_leb in Eb. apply Z.leb_gt in Eb.
  destruct (_ <? 2); [eexists _, v; reflexivity|].
  set (chunk := if count - progress >? bs - offset then bs - offset
                else count - progress).
  assert (Hchunk : chunk = Z.min (count - progress) (bs - offset)).
  { unfold chunk. destruct (count - progress >? bs - offset) eqn:E;
      rewrite Z.gtb_ltb in E; [apply Z.ltb_lt in E|apply Z.ltb_ge in E]; lia. }
  match goal with
  | |- context [volume_read disk ?l chunk] =>
      destruct (total_volume_read disk (geometry v) l chunk) with (v := v)
        as ([ok data] & v1 & E1 & Hv1 & _);
        [pose proof (wrap64_bound (wrap64 ((data_start_lba context +
            (nth (Z.to_nat block) chain 0 - 2) * sectors_per_cluster context)
            * bytes_per_sector context) + offset)); lia
        |lia|exact Hv|reflexivity|]
  end.
  unfold bind. rewrite E1. destruct ok; cbn [negb]; [|eexists _, v1; reflexivity].
  apply IH; [exact Hv1|nia|lia].
Qed.

(** [fat32_read] never hands out bytes it does not have: a read of at
    least one byte that reaches beyond the [chain_len] clusters of the
    handle panics, whatever the disk answers.  So does every such read
    of a file opened with an empty chain. *)
Theorem fat32_read_beyond_chain
        (disk : volume -> list Z -> Z -> Z -> disk_status * list Z)
        (h : fat32_file_handle) (loc count : Z) (v : volume) :
  let context := fat_context h in
  let bs := sectors_per_cluster context * bytes_per_sector context in
  good v -> 0 < bs -> 0 <= loc -> 0 < count -> loc + count <= UINT64_MAX ->
  0 <= chain_len h -> chain_len h * bs < loc + count ->
  fat32_read disk h loc count v = Panic.
Proof.
  intros context bs Hv Hbs Hl Hc H64 Hn Hb. unfold fat32_read, read_cluster_chain.
  destruct (read_cluster_chain_loop_beyond disk context
              (match cluster_chain h with Some c => c | None => [] end)
              (chain_len h) loc count (Z.to_nat count) Hbs Hl H64 Hn Hb 0 [] v Hv)
    as (buf' & v' & E); [lia|lia|].
  unfold bind. fold context. rewrite E. reflexivity.
Qed.

(** ** FAT contexts and the walk of [fat32_open] *)

(** What [fat32_init_context] has checked of a context it returns. *)
Definition context_sane (c : fat32_context) : Prop :=
  (fat_type c = 12 \/ fat_type c = 16 \/ fat_type c = 32) /\
  In (bytes_per_sector c) [512; 1024; 2048; 4096] /\
  In (sectors_per_cluster c) [1; 2; 4; 8; 16; 32; 64; 128] /\
  1 <= number_of_fats c <= 4 /\
  1 <= sectors_per_fat c /\
  0 <= reserved_sectors c /\
  fat_start_lba c = reserved_sectors c /\
  root_start c = reserved_sectors c + number_of_fats c * sectors_per_fat c /\
  root_start c <= UINT32_MAX /\
  data_start_lba c =
    (if fat_type c =? 32 then root_start c else root_start c + fat_root_size c) /\
  data_start_lba c <= UINT32_MAX /\
  0 <= root_entries c.

Lemma existsb_eqb_In (x : Z) (l : list Z) : existsb (Z.eqb x) l = true -> In x l.
Proof.
  intros H. apply existsb_exists in H. destruct H as (y & Hy & E).
  apply Z.eqb_eq in E. now subst.
Qed.

Lemma label_step_sane (m : volume -> res fat32_found) c0 v context v' :
  context_sane c0 ->
  (r <- m ;;
   match r with
   | Label vol_label => ret (Some (set_label c0 (Some vol_label)))
   | _ => ret (Some (set_label c0 None))
   end) v = Val (Some context) v' ->
  context_sane context.
Proof.
  intros H0. unfold bind. destruct (m v) as [f v2| |]; try discriminate.
  destruct f; unfold ret; intros [= <- _]; exact H0.
Qed.

Lemma fat32_init_context_checks disk flag v context v' :
  fat32_init_context disk flag v = Val (Some context) v' -> context_sane context.
Proof.
  unfold fat32_init_context, bind at 1.
  destruct (volume_read disk 0 512 v) as [[ok data] v1| |]; try discriminate.
  destruct (negb ok); [discriminate|].
  destruct (negb (_ || _ || _)); [discriminate|].
  destruct (negb (existsb _ [1; 2; 4; 8; 16; 32; 64; 128])) eqn:Espc; [discriminate|].
  apply negb_false_iff, existsb_eqb_In in Espc.
  destruct (negb (existsb _ [512; 1024; 2048; 4096])) eqn:Ebps; [discriminate|].
  apply negb_false_iff, existsb_eqb_In in Ebps.
  destruct (_ || _) eqn:Efc; [discriminate|].
  apply orb_false_iff in Efc. destruct Efc as [Ef0 Ef4].
  apply Z.eqb_neq in Ef0. rewrite Z.gtb_ltb in Ef4. apply Z.ltb_ge in Ef4.
  destruct (_ >=? _); [discriminate|].
  set (t := if _ <? 4085 then 12 else if _ <? 65525 then 16 else 32).
  assert (Ht : t = 12 \/ t = 16 \/ t = 32).
  { unfold t. destruct (_ <? 4085); [auto|]. destruct (_ <? 65525); auto. }
  set (spf := if t =? 32 then _ else _).
  assert (Hspf : 0 <= spf) by (unfold spf; destruct (t =? 32); apply field_nonneg).
  destruct (spf =? 0) eqn:Es0; [discriminate|]. apply Z.eqb_neq in Es0.
  destruct (_ >? UINT32_MAX) eqn:Ers; [discriminate|].
  rewrite Z.gtb_ltb in Ers. apply Z.ltb_ge in Ers.
  pose proof (field_nonneg data 14 2) as Hres.
  pose proof (field_nonneg data 16 1) as Hfc.
  pose proof (field_nonneg data 17 2) as Hre.
  cbn [as_fat32_bpb bpb_bytes_per_sector bpb_reserved_sectors bpb_fats_count
       bpb_sectors_per_cluster bpb_root_entries_count bpb_hidden_sectors_count
       bpb_root_directory_cluster] in *.
  destruct (t =? 32) eqn:E32.
  - intros H. eapply label_step_sane; [|exact H]. unfold context_sane.
    cbn [fat_type bytes_per_sector sectors_per_cluster number_of_fats sectors_per_fat
         reserved_sectors fat_start_lba root_start data_start_lba fat_root_size
         root_entries].
    rewrite E32. repeat split; try assumption; lia.
  - destruct (_ >? UINT32_MAX) eqn:Eds; [discriminate|].
    rewrite Z.gtb_ltb in Eds. apply Z.ltb_ge in Eds.
    intros H. eapply label_step_sane; [|exact H]. unfold context_sane.
    cbn [fat_type bytes_per_sector sectors_per_cluster number_of_fats sectors_per_fat
         reserved_sectors fat_start_lba root_start data_start_lba fat_root_size
         root_entries].
    rewrite E32. repeat split; try assumption; lia.
Qed.

(** Whatever the boot sector holds, a context that [fat32_init_context]
    returns has passed its checks: a sector size of 512 to 4096 bytes,
    1 to 128 sectors to the cluster in a power of two, 1 to 4 FATs of
    at least one sector, and a root and data start that are computed
    without overflow and fit 32 bits.  In particular the cluster size
    that [read_cluster_chain] divides by is never zero. *)
Theorem fat32_init_context_sane
        (disk : volume -> list Z -> Z -> Z -> disk_status * list Z) (flag : bool)
        (v v' : volume) (context : fat32_context) :
  fat32_init_context disk flag v = Val (Some context) v' ->
  context_sane context /\
  512 <= sectors_per_cluster context * bytes_per_sector context <= 524288.
Proof.
  intros H. pose proof (fat32_init_context_checks _ _ _ _ _ H) as Hs.
  split; [exact Hs|].
  destruct Hs as (_ & Hb & Hc & _). cbn [In] in Hb, Hc.
  repeat (destruct Hb as [<-|Hb]); try contradiction;
    repeat (destruct Hc as [<-|Hc]); try contradiction; lia.
Qed.





Lemma rdz_inside (l : list Z) (i : Z) :
  0 <= i -> rdz l i <> 0 -> i < Z.of_nat (length l).
Proof.
  intros Hi H. destruct (Z_lt_le_dec i (Z.of_nat (length l))) as [|Hge]; [assumption|].
  exfalso. apply H. unfold rdz. rewrite nth_overflow by lia. reflexivity.
Qed.

Lemma fat32_scan_part_slash (n : nat) path current_index : forall i current_part new_index,
  0 <= current_index -> 0 <= i ->
  fat32_scan_part n path current_index i = PartSlash current_part new_index ->
  current_index < new_index <= Z.of_nat (length path).
Proof.
  induction n as [|n IH]; intros i part new Hc Hi; cbn [fat32_scan_part];
    [discriminate|].
  destruct (i + current_index >? UINT32_MAX); [discriminate|].
  destruct (rdz path (i + current_index) =? 0) eqn:E0; [discriminate|].
  destruct (rdz path (i + current_index) =? 47) eqn:E47.
  - destruct (_ >? UINT32_MAX); [discriminate|]. intros [= _ <-].
    apply Z.eqb_neq in E0.
    pose proof (rdz_inside path (i + current_index) ltac:(lia) E0). lia.
  - intros H. apply (IH (i + 1) part new Hc ltac:(lia) H).
Qed.

Lemma fat32_skip_slashes_bound (n : nat) path : forall current_index,
  0 <= current_index ->
  current_index + Z.of_nat n <= Z.of_nat (length path) ->
  current_index <= fat32_skip_slashes n path current_index <= Z.of_nat (length path).
Proof.
  induction n as [|n IH]; intros ci Hc Hn; cbn [fat32_skip_slashes]; [lia|].
  destruct (rdz path ci =? 47); [|lia].
  specialize (IH (ci + 1) ltac:(lia) ltac:(lia)). lia.
Qed.





(** ** FAT short names *)

(** A character of a name that is neither its end nor a dot, and the
    character that the conversion stores for it. *)
Definition name_char (c : Z) : Prop := u8 c <> 0 /\ u8 c <> 46.

Definition upper (c : Z) : Z := toupper (u8 c).

Lemma array_set_at (pre post : list Z) (old x : Z) :
  array_set (pre ++ old :: post) (Z.of_nat (length pre)) x = pre ++ x :: post.
Proof.
  unfold array_set.
  replace ((0 <=? Z.of_nat (length pre))
           && (Z.of_nat (length pre) <? Z.of_nat (length (pre ++ old :: post))))
    with true.
  - rewrite Nat2Z.id, firstn_app, firstn_all, Nat.sub_diag. cbn [firstn].
    rewrite app_nil_r. f_equal.
    change (S (length pre)) with (1 + length pre)%nat.
    rewrite <- skipn_skipn, skipn_app, skipn_all, Nat.sub_diag. reflexivity.
  - symmetry. apply andb_true_iff. split; [apply Z.leb_le; lia|].
    apply Z.ltb_lt. rewrite length_app. cbn [length]. lia.
Qed.

Lemma fat32_filename_to_8_3_copy (src : list Z) :
  forall (tail pre : list Z) (k : nat) (ext : bool),
  Forall name_char src ->
  (length pre + length src <= (if ext then 11 else 8))%nat ->
  (length src <= k)%nat ->
  fat32_filename_to_8_3_loop (src ++ tail) (Z.of_nat (length pre)) ext
                             (pre ++ repeat 32 k) =
  fat32_filename_to_8_3_loop tail (Z.of_nat (length (pre ++ map upper src))) ext
                             ((pre ++ map upper src) ++ repeat 32 (k - length src)).
Proof.
  induction src as [|c src IH]; intros tail pre k ext Hall Hroom Hk.
  - cbn [app map length]. rewrite app_nil_r, Nat.sub_0_r. reflexivity.
  - inversion Hall as [|? ? [H0 Hdot] Hsrc]; subst. cbn [length] in Hroom, Hk.
    destruct k as [|k]; [lia|].
    cbn [app fat32_filename_to_8_3_loop repeat].
    apply Z.eqb_neq in H0. apply Z.eqb_neq in Hdot. rewrite H0, Hdot.
    replace ((Z.of_nat (length pre) >=? 8 + 3)
             || (Z.of_nat (length pre) >=? 8) && negb ext) with false.
    2:{ symmetry. apply orb_false_iff. rewrite !Z.geb_leb. split.
        - apply Z.leb_gt. destruct ext; lia.
        - destruct ext; cbn [negb]; [apply andb_false_r|].
          rewrite andb_true_r. apply Z.leb_gt. lia. }
    rewrite array_set_at.
    replace (Z.of_nat (length pre) + 1) with (Z.of_nat (length (pre ++ [upper c])))
      by (rewrite length_app; cbn [length]; lia).
    replace (pre ++ toupper (u8 c) :: repeat 32 k)
      with ((pre ++ [upper c]) ++ repeat 32 k)
      by (rewrite <- app_assoc; reflexivity).
    rewrite (IH tail (pre ++ [upper c]) k ext Hsrc)
      by (try rewrite length_app; cbn [length]; lia).
    cbn [map length]. rewrite <- !app_assoc. cbn [app Nat.sub]. reflexivity.
Qed.

(** [fat32_filename_to_8_3] turns a name into the 11 bytes of a short
    directory name: up to 8 characters, and after a dot up to 3, each
    folded to upper case and each part filled up with spaces.  A part
    that is longer, or a second dot, makes it give up. *)
Theorem fat32_filename_to_8_3_shape (base ext : list Z) :
  Forall name_char base -> Forall name_char ext ->
  ((length base <= 8)%nat ->
   fat32_filename_to_8_3 base =
   Some (map upper base ++ repeat 32 (11 - length base))) /\
  ((length base <= 8)%nat -> (length ext <= 3)%nat ->
   fat32_filename_to_8_3 (base ++ 46 :: ext) =
   Some (map upper base ++ repeat 32 (8 - length base) ++
         map upper ext ++ repeat 32 (3 - length ext))) /\
  ((8 < length base)%nat ->
   forall tail, fat32_filename_to_8_3 (base ++ tail) = None) /\
  ((length base <= 8)%nat -> (3 < length ext)%nat ->
   forall tail, fat32_filename_to_8_3 (base ++ 46 :: ext ++ tail) = None) /\
  (forall rest, fat32_filename_to_8_3 (base ++ 46 :: ext ++ 46 :: rest) = None).
Proof.
  intros Hb He. unfold fat32_filename_to_8_3.
  assert (Hdot : forall tail,
    (length base <= 8)%nat ->
    fat32_filename_to_8_3_loop (base ++ 46 :: tail) 0 false (repeat 32 11) =
    fat32_filename_to_8_3_loop tail 8 true
      (map upper base ++ repeat 32 (8 - length base) ++ repeat 32 3)).
  { intros tail Hl.
    pose proof (fat32_filename_to_8_3_copy base (46 :: tail) [] 11 false Hb) as E.
    cbn [app length] in E. change (Z.of_nat 0) with 0 in E. rewrite E by lia.
    cbn [app fat32_filename_to_8_3_loop]. change (u8 46 =? 0) with false.
    change (u8 46 =? 46) with true. cbv iota. f_equal.
    replace (11 - length base)%nat with ((8 - length base) + 3)%nat by lia.
    now rewrite repeat_app. }
  assert (Hpad : forall k, (length base <= 8)%nat ->
    map upper base ++ repeat 32 (8 - length base) ++ repeat 32 k =
    (map upper base ++ repeat 32 (8 - length base)) ++ repeat 32 k
    /\ length (map upper base ++ repeat 32 (8 - length base)) = 8%nat).
  { intros k Hl. split; [now rewrite app_assoc|].
    rewrite length_app, length_map, repeat_length. lia. }
  assert (Hlong : (8 < length base)%nat ->
    forall tail, fat32_filename_to_8_3_loop (base ++ tail) 0 false (repeat 32 11) = None).
  { intros Hl tail.
    assert (Hsplit : base = firstn 8 base ++ skipn 8 base)
      by (symmetry; apply firstn_skipn).
    destruct (skipn 8 base) as [|c rest] eqn:Es.
    { apply (f_equal (@length Z)) in Es. rewrite length_skipn in Es.
      cbn [length] in Es. lia. }
    pose proof Hb as Hb'. rewrite Hsplit in Hb'. apply Forall_app in Hb'.
    destruct Hb' as [Hb1 Hb2]. inversion Hb2 as [|? ? [H0 Hd] _]; subst.
    rewrite Hsplit, <- app_assoc.
    pose proof (fat32_filename_to_8_3_copy (firstn 8 base) ((c :: rest) ++ tail)
                  [] 11 false Hb1) as E.
    cbn [app length] in E. change (Z.of_nat 0) with 0 in E.
    cbn [app]. rewrite E by (rewrite length_firstn; lia).
    cbn [app fat32_filename_to_8_3_loop].
    apply Z.eqb_neq in H0. apply Z.eqb_neq in Hd. rewrite H0, Hd.
    rewrite length_map, length_firstn.
    replace (Nat.min 8 (length base)) with 8%nat by lia. reflexivity. }
  assert (Hlongext : (length base <= 8)%nat -> (3 < length ext)%nat ->
    forall tail,
      fat32_filename_to_8_3_loop (base ++ 46 :: ext ++ tail) 0 false (repeat 32 11)
      = None).
  { intros Hl Hx tail. rewrite (Hdot (ext ++ tail) Hl).
    destruct (Hpad 3%nat Hl) as [Ep Hlen]. rewrite Ep.
    assert (Hsplit : ext = firstn 3 ext ++ skipn 3 ext)
      by (symmetry; apply firstn_skipn).
    destruct (skipn 3 ext) as [|c rest] eqn:Es.
    { apply (f_equal (@length Z)) in Es. rewrite length_skipn in Es.
      cbn [length] in Es. lia. }
    pose proof He as He'. rewrite Hsplit in He'. apply Forall_app in He'.
    destruct He' as [He1 He2]. inversion He2 as [|? ? [H0 Hd] _]; subst.
    rewrite Hsplit, <- app_assoc.
    pose proof (fat32_filename_to_8_3_copy (firstn 3 ext) ((c :: rest) ++ tail)
                  (map upper base ++ repeat 32 (8 - length base)) 3 true He1) as E.
    rewrite Hlen in E. change (Z.of_nat 8) with 8 in E.
    rewrite E by (rewrite length_firstn; lia).
    cbn [app fat32_filename_to_8_3_loop].
    apply Z.eqb_neq in H0. apply Z.eqb_neq in Hd. rewrite H0, Hd.
    rewrite length_app, Hlen, length_map, length_firstn.
    replace (Nat.min 3 (length ext)) with 3%nat by lia. reflexivity. }
  split; [|split; [|split; [|split]]].
  - intros Hl.
    pose proof (fat32_filename_to_8_3_copy base [] [] 11 false Hb) as E.
    rewrite app_nil_r in E. cbn [app length] in E.
    change (Z.of_nat 0) with 0 in E. rewrite E by lia. reflexivity.
  - intros Hl Hx. rewrite (Hdot ext Hl).
    destruct (Hpad 3%nat Hl) as [Ep Hlen]. rewrite Ep.
    pose proof (fat32_filename_to_8_3_copy ext []
                  (map upper base ++ repeat 32 (8 - length base)) 3 true He) as E.
    rewrite app_nil_r, Hlen in E. change (Z.of_nat 8) with 8 in E.
    rewrite E by lia. cbn [fat32_filename_to_8_3_loop].
    rewrite <- !app_assoc. reflexivity.
  - exact Hlong.
  - exact Hlongext.
  - intros rest.
    destruct (le_lt_dec (length base) 8) as [Hl|Hl];
      [|exact (Hlong Hl (46 :: ext ++ 46 :: rest))].
    destruct (le_lt_dec (length ext) 3) as [Hx|Hx];
      [|apply (Hlongext Hl Hx (46 :: rest))].
    rewrite (Hdot (ext ++ 46 :: rest) Hl).
    destruct (Hpad 3%nat Hl) as [Ep Hlen]. rewrite Ep.
    pose proof (fat32_filename_to_8_3_copy ext (46 :: rest)
                  (map upper base ++ repeat 32 (8 - length base)) 3 true He) as E.
    rewrite Hlen in E. change (Z.of_nat 8) with 8 in E.
    rewrite E by lia. reflexivity.
Qed.

(** ** Identifiers and the volume index *)

(** The volume answers to a GUID: as a disk or filesystem GUID that is
    valid, or as a partition GUID that is valid. *)
Definition answers_to (v : volume) (g : list Z) : Prop :=
  (guid_valid v = true /\ map u8 (firstn 16 (guid v)) = map u8 (firstn 16 g)) \/
  (part_guid_valid v = true /\ map u8 (firstn 16 (part_guid v)) = map u8 (firstn 16 g)).

Lemma memcmp_eq_iff a b n :
  memcmp_eq a b n = true <-> map u8 (firstn n a) = map u8 (firstn n b).
Proof.
  unfold memcmp_eq.
  destruct (list_eq_dec Z.eq_dec (map u8 (firstn n a)) (map u8 (firstn n b)));
    split; intros H; (reflexivity || assumption || discriminate || contradiction).
Qed.

(** [volume_get_by_guid] answers the first volume of the index that
    answers to the GUID, and [NULL] exactly when none does; a GUID
    whose valid flag is clear never makes a match. *)
Theorem volume_get_by_guid_first (volume_index : list volume) (g : list Z) :
  match volume_get_by_guid volume_index g with
  | Some v =>
      exists before after,
        volume_index = before ++ v :: after /\ answers_to v g /\
        Forall (fun u => ~ answers_to u g) before
  | None => Forall (fun u => ~ answers_to u g) volume_index
  end.
Proof.
  induction volume_index as [|v rest IH]; cbn [volume_get_by_guid]; [constructor|].
  destruct (guid_valid v && memcmp_eq (guid v) g 16) eqn:E1.
  { apply andb_true_iff in E1. destruct E1 as [A B]. apply memcmp_eq_iff in B.
    exists [], rest. split; [reflexivity|]. split; [left; auto|constructor]. }
  destruct (part_guid_valid v && memcmp_eq (part_guid v) g 16) eqn:E2.
  { apply andb_true_iff in E2. destruct E2 as [A B]. apply memcmp_eq_iff in B.
    exists [], rest. split; [reflexivity|]. split; [right; auto|constructor]. }
  assert (Hv : ~ answers_to v g).
  { intros [[A B]|[A B]]; apply memcmp_eq_iff in B.
    - rewrite A, B in E1. discriminate.
    - rewrite A, B in E2. discriminate. }
  destruct (volume_get_by_guid rest g) as [w|].
  - destruct IH as (before & after & -> & Hw & Hb).
    exists (v :: before), after. split; [reflexivity|]. split; [exact Hw|].
    constructor; assumption.
  - constructor; assumption.
Qed.

Lemma gpt_find_header_length
      (disk : volume -> list Z -> Z -> Z -> disk_status * list Z) (guesses : list Z) :
  forall h v hdr v1 lb,
  length h = 92%nat ->
  gpt_find_header disk guesses h v = Val (lb, hdr) v1 -> length hdr = 92%nat.
Proof.
  induction guesses as [|g rest IH]; intros h v hdr v1 lb Hl; cbn [gpt_find_header].
  - unfold ret. intros [= _ <- _]. exact Hl.
  - unfold bind at 1.
    destruct (volume_read disk (g * 1) sizeof_gpt_table_header v)
      as [[ok data] v2| |]; try discriminate.
    assert (Hs : length (store h data) = 92%nat) by (rewrite length_store; exact Hl).
    destruct (negb ok); [apply IH; exact Hs|].
    destruct (negb (memcmp_eq (store h data) (literal "EFI PART") 8));
      [apply IH; exact Hs|].
    unfold ret. intros [= _ <- _]. exact Hs.
Qed.

(** [gpt_get_guid] and [gpt_get_part] agree on what a GPT is: whenever
    [gpt_get_part] answers anything but [INVALID_TABLE], the search for
    the header that both begin with has found one, for 512- or
    4096-byte blocks, and [gpt_get_guid] on the same volume answers the
    16 bytes at offset 56 of that header, its disk GUID. *)
Theorem gpt_get_guid_of_header
        (disk : volume -> list Z -> Z -> Z -> disk_status * list Z)
        (fs_get_guid fs_get_label : volume -> option (list Z) * volume)
        (r : volume) (partition : Z) (v v' : volume) (code : Z) (child : volume) :
  gpt_get_part disk fs_get_guid fs_get_label r partition v = Val (code, child) v' ->
  code <> INVALID_TABLE ->
  exists lb hdr v1,
    gpt_find_header disk lb_guesses (repeat 0 92) v = Val (lb, hdr) v1 /\
    (lb = 512 \/ lb = 4096) /\ length hdr = 92%nat /\
    gpt_get_guid disk v = Val (Some (map u8 (firstn 16 (skipn 56 hdr)))) v1 /\
    length (map u8 (firstn 16 (skipn 56 hdr))) = 16%nat.
Proof.
  unfold gpt_get_part, gpt_get_guid, bind at 1 3.
  destruct (gpt_find_header disk lb_guesses (repeat 0 92) v) as [[lb hdr] v1| |] eqn:Eh;
    try discriminate.
  destruct (lb =? -1) eqn:El; [unfold ret; intros [= <- _ _] H; contradiction|].
  destruct (negb (revision (as_gpt_table_header hdr) =? 65536));
    [unfold ret; intros [= <- _ _] H; contradiction|].
  intros _ _. exists lb, hdr, v1. split; [reflexivity|].
  pose proof (gpt_find_header_length disk lb_guesses _ _ _ _ _ (repeat_length 0 92) Eh)
    as Hlen.
  apply Z.eqb_neq in El.
  destruct (gpt_find_header_inv disk _ _ _ _ _ Eh) as [_ [Hl|Hl]]; [contradiction|].
  split; [exact Hl|]. split; [exact Hlen|]. split; [reflexivity|].
  rewrite length_map, length_firstn, length_skipn. lia.
Qed.

(** ** A FAT volume is not a partition table *)

Lemma strncmp_eq_firstn (n : nat) : forall a b,
  strncmp_eq n (firstn n a) b = strncmp_eq n a b.
Proof.
  induction n as [|n IH]; intros a b; cbn [strncmp_eq firstn]; [reflexivity|].
  destruct a as [|x a]; cbn [hd tl firstn].
  - destruct (u8 0 =? u8 (hd 0 b)); [|reflexivity].
    destruct (u8 0 =? 0); [reflexivity|]. rewrite <- (IH [] (tl b)).
    destruct n; reflexivity.
  - destruct (u8 x =? u8 (hd 0 b)); [|reflexivity].
    destruct (u8 x =? 0); [reflexivity|apply IH].
Qed.

Lemma seqZ_three s : seqZ s 3 = [s + 0; s + 1; s + 2].
Proof. reflexivity. Qed.

Lemma seqZ_five s : seqZ s 5 = [s + 0; s + 1; s + 2; s + 3; s + 4].
Proof. reflexivity. Qed.



(** The bytes of the image that a read of [n] bytes at [loc] of the
    volume asks for. *)
Definition image_bytes (img : Z -> Z) (v : volume) (loc n : Z) : list Z :=
  map img (seqZ (vol_base v + loc) n).

Lemma image_bytes_geometry img v v' loc n :
  geometry v' = geometry v -> image_bytes img v' loc n = image_bytes img v loc n.
Proof.
  intros H. unfold image_bytes, vol_base.
  now rewrite (geometry_first _ _ H), (geometry_ss _ _ H).
Qed.






(** ** The chain of extended boot records *)

Lemma ebr_walk_forward disk (n : nat) : forall i ebr_sector v s v',
  0 <= i -> (0 < i -> i <= ebr_sector < sect_count v) ->
  ebr_walk disk n i ebr_sector v = Val (Some s) v' ->
  geometry v' = geometry v /\
  ((0 < n)%nat \/ 0 < i -> i + Z.of_nat n <= s < sect_count v).
Proof.
  induction n as [|n IH]; intros i e v s v' Hi Hinv; cbn [ebr_walk].
  - unfold ret. intros [= <- <-]. split; [reflexivity|].
    intros [H|H]; [lia|]. specialize (Hinv H). lia.
  - cbv zeta. unfold bind at 1.
    destruct (volume_read disk _ sizeof_mbr_entry v) as [[ok data] v1| |] eqn:E1;
      try discriminate.
    pose proof (volume_read_geometry _ _ _ _ _ _ E1) as Hg1.
    destruct (negb ok); [discriminate|].
    destruct (_ && _); [discriminate|].
    set (next := mbr_first_sect (as_mbr_entry (store (repeat 0 16) data))).
    destruct ((next =? 0) || ((i >? 0) && (next <=? e))) eqn:Ec; [discriminate|].
    apply orb_false_iff in Ec. destruct Ec as [E0 Ei]. apply Z.eqb_neq in E0.
    destruct (next >=? sect_count v1) eqn:Eb; [discriminate|].
    rewrite Z.geb_leb in Eb. apply Z.leb_gt in Eb.
    assert (Hnn : 0 <= next).
    { unfold next, as_mbr_entry. cbn [mbr_first_sect]. apply field_nonneg. }
    intros H.
    destruct (IH (i + 1) next v1 s v' ltac:(lia)) as [Hg2 Hs]; [|exact H|].
    + intros _. split; [|exact Eb].
      destruct (i >? 0) eqn:Epos; rewrite Z.gtb_ltb in Epos.
      * apply Z.ltb_lt in Epos. cbn [andb] in Ei. apply Z.leb_gt in Ei.
        specialize (Hinv Epos). lia.
      * apply Z.ltb_ge in Epos. lia.
    + split; [congruence|]. intros _.
      rewrite <- (geometry_count _ _ Hg1). specialize (Hs ltac:(right; lia)). lia.
Qed.

(** The walk to a logical partition only moves forward inside the
    extended partition: the boot record it reaches for partition
    [n > 0] lies at a sector from [n] on and below the partition's
    sector count, so a chain that turns back ends the walk. *)
Theorem ebr_walk_inside
        (disk : volume -> list Z -> Z -> Z -> disk_status * list Z)
        (n : nat) (v v' : volume) (s : Z) :
  (0 < n)%nat ->
  ebr_walk disk n 0 0 v = Val (Some s) v' ->
  Z.of_nat n <= s < sect_count v /\ geometry v' = geometry v.
Proof.
  intros Hn H.
  destruct (ebr_walk_forward disk n 0 0 v s v' ltac:(lia) ltac:(lia) H) as [Hg Hs].
  split; [|exact Hg]. specialize (Hs ltac:(left; exact Hn)). lia.
Qed.

(** ** Joining a path to the working directory *)

Lemma put_string_text (buf pwd : list ascii) :
  (length pwd < length buf)%nat ->
  put_string buf pwd = pwd ++ NUL :: skipn (S (length pwd)) buf /\
  length (put_string buf pwd) = length buf.
Proof.
  intros H. unfold put_string. split; [reflexivity|].
  rewrite length_app. cbn [length]. rewrite length_skipn. lia.
Qed.

Lemma good_comp_head (w : list ascii) :
  good_comp w -> exists c rest, w = c :: rest /\ is_slash c = false /\ c <> NUL.
Proof.
  intros (Hne & Hall & _). destruct w as [|c rest]; [contradiction|].
  inversion Hall as [|? ? [H1 H2] _]; subst. now exists c, rest.
Qed.

(** A relative path of plain components is appended to the working
    directory: with a canonical [pwd] of components [done],
    [get_absolute_path] of ["w/c1/.../cn"] leaves
    ["/done.../w/c1/.../cn"] whenever the buffer has room for it and
    its terminator. *)
Theorem get_absolute_path_join (buf : list ascii) (done cs : list (list ascii))
        (w : list ascii) :
  Forall good_comp done -> good_comp w -> Forall good_comp cs ->
  (length (render (done ++ w :: cs)) < length buf)%nat ->
  exists out,
    get_absolute_path buf (w ++ join cs) (render done) = Returned true out /\
    cstring out = render (done ++ w :: cs) /\ length out = length buf.
Proof.
  intros Hd Hw Hcs Hroom.
  assert (Hlen : (length (render done) < length (render (done ++ w :: cs)))%nat).
  { destruct (good_comp_head w Hw) as (c & rest & -> & _).
    destruct done as [|d ds].
    - cbn [app render join length]. rewrite !length_app. cbn [length]. lia.
    - change (render (d :: ds)) with (join (d :: ds)).
      change (render ((d :: ds) ++ (c :: rest) :: cs))
        with (join ((d :: ds) ++ (c :: rest) :: cs)).
      rewrite join_app. rewrite length_app. cbn [join length]. lia. }
  destruct (good_comp_head w Hw) as (c & rest & Ew & Hc & _).
  unfold get_absolute_path.
  replace (length buf =? 0)%nat with false by (symmetry; apply Nat.eqb_neq; lia).
  rewrite Ew. cbn [app]. rewrite Hc. cbn [negb].
  replace (length buf <=? length (render done))%nat with false
    by (symmetry; apply Nat.leb_gt; lia).
  change (c :: rest ++ join cs) with ((c :: rest) ++ join cs). rewrite <- Ew.
  destruct (put_string_text buf (render done) ltac:(lia)) as [Ep Hp]. rewrite Ep.
  destruct (first_run_exact cs done w (NUL :: skipn (S (length (render done))) buf)
              Hd Hw Hcs) as (junk' & E & Hl).
  { rewrite <- Ep, Hp. exact Hroom. }
  rewrite E. eexists. split; [reflexivity|]. split.
  - apply cstring_app_nul, render_nul_free.
    apply Forall_app. split; [exact Hd|]. constructor; assumption.
  - rewrite Hl, <- Ep. exact Hp.
Qed.

(** [..] alone names the parent of the working directory, and the root
    is its own parent: from a canonical [pwd] with last component [w]
    the result is [pwd] without ["/w"], and from ["/"] it is ["/"]. *)
Theorem get_absolute_path_parent (buf : list ascii) (done : list (list ascii))
        (w : list ascii) :
  Forall good_comp done -> good_comp w ->
  ((length (render (done ++ [w])) < length buf)%nat ->
   exists out,
     get_absolute_path buf (chars "..") (render (done ++ [w])) = Returned true out /\
     cstring out = render done /\ length out = length buf) /\
  ((2 <= length buf)%nat ->
   exists out,
     get_absolute_path buf (chars "..") (chars "/") = Returned true out /\
     cstring out = chars "/" /\ length out = length buf).
Proof.
  intros Hd Hw. split.
  - intros Hroom. unfold get_absolute_path.
    replace (length buf =? 0)%nat with false by (symmetry; apply Nat.eqb_neq; lia).
    cbn [chars list_ascii_of_string is_slash Ascii.eqb negb].
    replace (is_slash ".") with false by reflexivity. cbn [negb].
    replace (length buf <=? length (render (done ++ [w])))%nat with false
      by (symmetry; apply Nat.leb_gt; lia).
    destruct (put_string_text buf (render (done ++ [w])) Hroom) as [Ep Hp].
    rewrite Ep in *. set (js := skipn (S (length (render (done ++ [w])))) buf) in *.
    rewrite first_run_eq.
    change (starts_with (chars "/") ["."%char; "."%char]) with false.
    change (is_string (chars ".") ["."%char; "."%char]
            || is_string (chars "./") ["."%char; "."%char]) with false.
    change (is_string (chars "..") ["."%char; "."%char]
            || is_string (chars "../") ["."%char; "."%char]) with true.
    cbv iota.
    rewrite render_snoc in *.
    pose proof (good_comp_noslash w Hw) as Hns.
    unfold pop.
    replace (join done ++ "/"%char :: w) with (join done ++ "/"%char :: w) by reflexivity.
    rewrite (rewind_text (join done) w NUL js Hns).
    replace (is_slash NUL) with false by reflexivity.
    destruct (good_comp_head w Hw) as (c & rest & Ew & _).
    destruct done as [|d ds].
    + cbn [join length Nat.eqb app]. rewrite Ew. cbn [app].
      pose proof (term_root c (rest ++ NUL :: js)) as Et. cbn [app] in Et.
      rewrite Et. eexists. split; [reflexivity|]. split; [reflexivity|].
      rewrite <- Hp. rewrite Ew. cbn [app length]. reflexivity.
    + change (render (d :: ds)) with (join (d :: ds)).
      destruct (render_last (d :: ds) Hd ltac:(discriminate)) as (body & c0 & Eb & Hc0).
      change (render (d :: ds)) with (join (d :: ds)) in Eb.
      replace (length (join (d :: ds)) =? 0)%nat with false
        by (symmetry; apply Nat.eqb_neq; rewrite Eb, length_app; cbn [length]; lia).
      rewrite <- app_assoc. cbn [app]. rewrite Eb.
      rewrite (term_nonslash body c0 "/"%char (w ++ NUL :: js) Hc0).
      eexists. split; [reflexivity|]. split.
      * rewrite <- Eb. apply cstring_app_nul.
        change (join (d :: ds)) with (render (d :: ds)). now apply render_nul_free.
      * rewrite <- Hp, <- Eb. rewrite !length_app. cbn [length].
        rewrite !length_app. cbn [length]. lia.
  - intros Hsize. destruct buf as [|b0 [|b1 bs]]; cbn [length] in Hsize; try lia.
    eexists. split; [vm_compute; reflexivity|]. split; reflexivity.
Qed.

(** ** The reader and its cache *)

Lemma seqZ_cons (s : Z) (n : nat) : seqZ s (Z.of_nat (S n)) = s :: seqZ (s + 1) (Z.of_nat n).
Proof.
  unfold seqZ. rewrite !Nat2Z.id. cbn [seq map]. f_equal; [lia|].
  rewrite <- seq_shift, map_map. apply map_ext. intros i. lia.
Qed.

Lemma nth_error_seqZ (img : Z -> Z) (s n : Z) (k : nat) :
  Z.of_nat k < n -> nth_error (map img (seqZ s n)) k = Some (img (s + Z.of_nat k)).
Proof.
  intros Hk. unfold seqZ. rewrite map_map.
  rewrite nth_error_map, nth_error_seq.
  replace (k <? Z.to_nat n)%nat with true by (symmetry; apply Nat.ltb_lt; lia).
  reflexivity.
Qed.

Lemma read_byte_cacheless_image img v off :
  volume_ok v -> 0 <= off ->
  read_byte_cacheless (image_disk img) v off = Some (img (vol_base v + off)).
Proof.
  intros (_ & _ & Hs & _) Ho. unfold read_byte_cacheless, image_disk.
  pose proof (Z.mod_pos_bound off (sector_size v) ltac:(lia)) as Hm.
  rewrite nth_error_seqZ by lia. f_equal. f_equal. unfold vol_base.
  pose proof (Z.div_mod off (sector_size v) ltac:(lia)). nia.
Qed.

Lemma volume_read_cacheless_image img v (n : nat) : forall loc,
  volume_ok v -> 0 <= loc ->
  volume_read_cacheless (image_disk img) n loc v =
  Some (map img (seqZ (vol_base v + loc) (Z.of_nat n))).
Proof.
  induction n as [|n IH]; intros loc Hok Hl; [reflexivity|].
  cbn [volume_read_cacheless].
  rewrite (read_byte_cacheless_image img v loc Hok Hl), (IH (loc + 1) Hok ltac:(lia)).
  rewrite seqZ_cons. cbn [map].
  replace (vol_base v + (loc + 1)) with (vol_base v + loc + 1) by lia. reflexivity.
Qed.

(** C1, as the code has it.  On a disk that transfers the sectors of
    an image at every request, for a volume whose cache is not ready
    or holds the image's bytes of the block it names, and for a
    request within [sect_count * sector_size]: [volume_read] returns
    [true] with the bytes that the reader without a cache fetches,
    which are the bytes of the image at that range; [count]
    successive one-byte calls of [volume_read] give the same; the
    cache is left in such a state again, and the bytes are the same
    from every such state of the volume.  Whatever the disk and
    whatever the cache holds, [volume_read] and the one-byte calls
    agree with each other. *)
Theorem volume_read_cacheless_equiv (img : Z -> Z) (v : volume) (loc count : Z) :
  volume_ok v -> in_volume v loc count ->
  (forall disk,
     volume_read disk loc count v =
     volume_read_bytewise disk (Z.to_nat count) loc v) /\
  (addressable v -> cache_coherent img v ->
   exists out v',
     volume_read_cacheless (image_disk img) (Z.to_nat count) loc v = Some out /\
     out = map img (seqZ (vol_base v + loc) count) /\
     volume_read (image_disk img) loc count v = Val (true, out) v' /\
     volume_read_bytewise (image_disk img) (Z.to_nat count) loc v = Val (true, out) v' /\
     geometry v' = geometry v /\ cache_coherent img v' /\
     (forall u,
        geometry u = geometry v -> cache_coherent img u ->
        exists u', volume_read (image_disk img) loc count u = Val (true, out) u')).
Proof.
  intros Hok Hin. split.
  { intros disk. exact (volume_read_bytewise_equiv disk v loc count Hok Hin). }
  intros Had Hcoh.
  assert (Hl : 0 <= loc /\ 0 <= count) by (unfold in_volume in Hin; lia).
  destruct (volume_read_image img v loc count Hok Had Hcoh Hin) as (v' & E & Hg & Hc').
  exists (map img (seqZ (vol_base v + loc) count)), v'.
  split.
  { rewrite (volume_read_cacheless_image img v _ loc Hok) by lia.
    rewrite Z2Nat.id by lia. reflexivity. }
  split; [reflexivity|]. split; [exact E|].
  split; [rewrite <- (volume_read_bytewise_equiv _ v loc count Hok Hin); exact E|].
  split; [exact Hg|]. split; [exact Hc'|].
  intros u Hgu Hcu.
  destruct (volume_read_image img u loc count (volume_ok_geometry _ _ Hgu Hok)
              (addressable_geometry _ _ Hgu Had) Hcu
              (in_volume_geometry _ _ _ _ Hgu Hin)) as (u' & Eu & _).
  exists u'. rewrite Eu, (vol_base_geometry _ _ Hgu). reflexivity.
Qed.

(** *** Requests on a volume of known size *)





(** ** The extent of a partition *)

(** A miss on a misaligned volume makes [volume_read] fail. *)
Lemma volume_read_misaligned disk v loc count :
  volume_ok v -> cache_status v <> CACHE_READY ->
  first_sect v mod (sector_size v / 512) <> 0 -> 0 < count ->
  exists out v', volume_read disk loc count v = Val (false, out) v'.
Proof.
  intros Hok Hst Hal Hc. unfold volume_read.
  pose proof Hok as (Hp & _). rewrite Hp.
  destruct (range_ok v loc count); cbn [negb]; [|eexists _, _; reflexivity].
  destruct (block_size_eq v Hok) as [-> _].
  destruct (cache_block_misaligned disk v
              (wrap64 loc / (fastest_xfer_size v * sector_size v))) as (v1 & E);
    [intros [H _]; contradiction|exact Hal|].
  exists [], v1. apply volume_read_loop_first_fail; assumption.
Qed.

Section PartitionExtents.

Variable img : Z -> Z.
Variable fs_get_guid : volume -> option (list Z) * volume.
Variable fs_get_label : volume -> option (list Z) * volume.

Hypothesis fs_get_guid_frame : forall r, geometry (snd (fs_get_guid r)) = geometry r.
Hypothesis fs_get_label_frame : forall r, geometry (snd (fs_get_label r)) = geometry r.

Definition is_extended (e : mbr_entry) : Prop := type e = 15 \/ type e = 5.

(** The signature of a GPT header is at logical block 1 of the volume
    of geometry [g], for blocks of [lb] bytes. *)
Definition gpt_header_at (g : volume) (lb : Z) : Prop :=
  in_volume g (lb * 1) 92 /\
  memcmp_eq (image_bytes img g (lb * 1) 92) (literal "EFI PART") 8 = true.

(** The child of a GPT: the header is looked for with blocks of 512
    bytes, then of 4096 bytes; entry [p] of its array gives the
    extent, scaled to 512-byte sectors. *)
Definition gpt_child (g : volume) (p : Z) (c : volume) : Prop :=
  exists lb,
    (lb = 512 \/ (lb = 4096 /\ ~ gpt_header_at g 512)) /\ gpt_header_at g lb /\
    let header := as_gpt_table_header (image_bytes img g (lb * 1) 92) in
    let off := partition_entry_lba header * lb + p * size_of_partition_entry header in
    revision header = 65536 /\
    p < number_of_partition_entries header /\
    128 <= size_of_partition_entry header /\
    in_volume g off 128 /\
    let e := as_gpt_entry (image_bytes img g off 128) in
    starting_lba e <= ending_lba e /\
    partition c = p + 1 /\
    first_sect c = starting_lba e * (lb / 512) /\
    sect_count c = (ending_lba e - starting_lba e + 1) * (lb / 512).

(** The child of a primary MBR entry: entry [p] of the four at offset
    [0x1be] gives the extent as it stands. *)
Definition mbr_primary_child (g : volume) (p : Z) (c : volume) : Prop :=
  0 <= p <= 3 /\ in_volume g (446 + 16 * p) 16 /\
  let e := as_mbr_entry (image_bytes img g (446 + 16 * p) 16) in
  type e <> 0 /\ mbr_sect_count e <> 0 /\
  partition c = p + 1 /\
  first_sect c = mbr_first_sect e /\ sect_count c = mbr_sect_count e.

(** The link of the boot record at sector [s] of the extended
    partition of geometry [gx]: its second entry. *)
Definition ebr_link_entry (gx : volume) (s : Z) : mbr_entry :=
  as_mbr_entry (image_bytes img gx (s * 512 + 462) 16).

(** The chain of extended boot records inside the extended partition:
    from the record at sector [s], the [i]-th of the walk, [n] links
    lead to the record at sector [s'].  A link is of an extended type
    and points forward, inside the partition. *)
Inductive ebr_path (gx : volume) : Z -> Z -> nat -> Z -> Prop :=
| ebr_here i s : ebr_path gx i s 0 s
| ebr_link i s n s' :
    in_volume gx (s * 512 + 462) 16 ->
    is_extended (ebr_link_entry gx s) ->
    mbr_first_sect (ebr_link_entry gx s) <> 0 ->
    (0 < i -> s < mbr_first_sect (ebr_link_entry gx s)) ->
    mbr_first_sect (ebr_link_entry gx s) < sect_count gx ->
    ebr_path gx (i + 1) (mbr_first_sect (ebr_link_entry gx s)) n s' ->
    ebr_path gx i s (S n) s'.

(** The child of a logical partition: the first entry of the record
    that [p] links lead to gives the extent, relative to the record
    and to the extended partition. *)
Definition logical_child (gx : volume) (p : Z) (c : volume) : Prop :=
  exists s,
    ebr_path gx 0 0 (Z.to_nat p) s /\
    in_volume gx (s * 512 + 446) 16 /\
    let e := as_mbr_entry (image_bytes img gx (s * 512 + 446) 16) in
    type e <> 0 /\ mbr_sect_count e <> 0 /\
    partition c = p + 4 + 1 /\
    first_sect c = first_sect gx + s + mbr_first_sect e /\
    sect_count c = mbr_sect_count e.

(** A primary entry that the search for the extended partition passes
    over: outside the volume, not of an extended type, or empty. *)
Definition skipped (g : volume) (i : Z) : Prop :=
  ~ in_volume g (446 + 16 * i) 16 \/
  let e := as_mbr_entry (image_bytes img g (446 + 16 * i) 16) in
  ~ is_extended e \/ mbr_sect_count e = 0.

(** The extended partition is the first primary entry of an extended
    type that is not empty; it starts at a multiple of the sector
    size, and the logical partition [p - 4] is looked up in it. *)
Definition mbr_logical_child (g : volume) (p : Z) (c : volume) : Prop :=
  4 <= p /\
  exists i,
    0 <= i <= 3 /\ (forall j, 0 <= j < i -> skipped g j) /\
    in_volume g (446 + 16 * i) 16 /\
    let x := as_mbr_entry (image_bytes img g (446 + 16 * i) 16) in
    is_extended x /\ mbr_sect_count x <> 0 /\
    mbr_first_sect x mod (sector_size g / 512) = 0 /\
    logical_child
      (geometry (inherit zero_volume g (i + 1) (mbr_first_sect x) (mbr_sect_count x)))
      (p - 4) c.

(** Where the child of index [p] comes from: a GPT entry, a primary
    MBR entry or a logical partition. *)
Definition from_table (g : volume) (p : Z) (c : volume) : Prop :=
  gpt_child g p c \/ mbr_primary_child g p c \/ mbr_logical_child g p c.

(** [m] returns on every volume of geometry [g] that holds the image,
    leaving such a volume and an answer that satisfies [Q]. *)
Definition on_image {A : Type} (g : volume) (m : volume -> res A) (Q : A -> Prop)
  : Prop :=
  forall v, holds_image img v -> geometry v = g ->
  exists a v', m v = Val a v' /\ holds_image img v' /\ geometry v' = g /\ Q a.

Lemma on_image_ret {A : Type} (g : volume) (a : A) (Q : A -> Prop) :
  Q a -> on_image g (ret a) Q.
Proof. intros H v Hv Hg. exists a, v. auto. Qed.

Lemma on_image_bind {A B : Type} (g : volume) (m : volume -> res A)
      (k : A -> volume -> res B) (P : A -> Prop) (Q : B -> Prop) :
  on_image g m P -> (forall a, P a -> on_image g (k a) Q) -> on_image g (bind m k) Q.
Proof.
  intros Hm Hk v Hv Hg. destruct (Hm v Hv Hg) as (a & v1 & E & Hv1 & Hg1 & Pa).
  unfold bind. rewrite E. exact (Hk a Pa v1 Hv1 Hg1).
Qed.

Lemma on_image_weaken {A : Type} (g : volume) (m : volume -> res A) (P Q : A -> Prop) :
  on_image g m P -> (forall a, P a -> Q a) -> on_image g m Q.
Proof.
  intros Hm HPQ v Hv Hg. destruct (Hm v Hv Hg) as (a & v1 & E & Hv1 & Hg1 & Pa).
  exists a, v1. auto.
Qed.

(** What the reader answers on such a volume: the bytes of the image
    for a request within the volume, a refusal for any other. *)
Definition answer (g : volume) (loc count : Z) (r : bool * list Z) : Prop :=
  (fst r = true /\ in_volume g loc count /\ snd r = image_bytes img g loc count) \/
  (fst r = false /\ ~ in_volume g loc count).

Lemma on_image_read g loc count :
  0 <= loc -> 0 <= count ->
  on_image g (volume_read (image_disk img) loc count) (answer g loc count).
Proof.
  intros Hl Hc v Hv Hg.
  destruct (volume_read_holds_image img v loc count Hv Hl Hc) as (v' & E & Hg' & Hv').
  eexists _, v'. split; [exact E|]. split; [exact Hv'|].
  split; [now rewrite Hg'|].
  assert (Hvg : geometry g = geometry v) by (rewrite <- Hg; reflexivity).
  destruct (range_ok v loc count) eqn:Er.
  - left. cbn [fst snd]. split; [reflexivity|].
    destruct Hv as (_ & _ & _ & Hs).
    pose proof (range_ok_in_volume v loc count Hs Hl Hc Er) as Hin.
    split.
    + exact (in_volume_geometry v g loc count Hvg Hin).
    + rewrite (image_bytes_geometry img v g loc count Hvg). reflexivity.
  - right. cbn [fst]. split; [reflexivity|]. intros Hin.
    assert (Hgv : geometry v = geometry g) by (symmetry; exact Hvg).
    pose proof (in_volume_range_ok v loc count (in_volume_geometry g v loc count Hgv Hin)).
    congruence.
Qed.

(** One read of a parser: the continuation is taken with the bytes of
    the image when the request is within the volume, and with a
    refusal when it is not. *)
Lemma on_image_read_bind {B : Type} g loc count
      (k : bool * list Z -> volume -> res B) (Q : B -> Prop) :
  0 <= loc -> 0 <= count ->
  (in_volume g loc count -> on_image g (k (true, image_bytes img g loc count)) Q) ->
  (~ in_volume g loc count -> forall data, on_image g (k (false, data)) Q) ->
  on_image g (bind (volume_read (image_disk img) loc count) k) Q.
Proof.
  intros Hl Hc Hyes Hno. eapply on_image_bind; [apply on_image_read; assumption|].
  intros [ok data] [(Hok & Hin & Hd)|(Hok & Hout)]; cbn [fst snd] in *; subst ok.
  - subst data. exact (Hyes Hin).
  - exact (Hno Hout data).
Qed.

Lemma store_image_bytes g loc count (n : nat) :
  Z.of_nat n = count ->
  store (repeat 0 n) (image_bytes img g loc count) = image_bytes img g loc count.
Proof.
  intros Hc. apply store_full. unfold image_bytes.
  rewrite repeat_length, length_map, seqZ_length. lia.
Qed.

Lemma extended_test (e : mbr_entry) :
  negb (type e =? 15) && negb (type e =? 5) = false <-> is_extended e.
Proof.
  unfold is_extended. rewrite andb_false_iff, !negb_false_iff, !Z.eqb_eq. tauto.
Qed.

Lemma child_fields r par part first count b x :
  let c := set_part_guid
             (probe_filesystem fs_get_guid fs_get_label (inherit r par part first count))
             b x in
  partition c = part /\ first_sect c = first /\ sect_count c = count.
Proof.
  intros c.
  destruct (probe_filesystem_frame fs_get_guid fs_get_label fs_get_guid_frame
              fs_get_label_frame (inherit r par part first count)) as (Ht & _ & _).
  unfold c. unfold transport in Ht. cbn [set_part_guid partition first_sect sect_count].
  injection Ht as _ _ _ _ _ E1 E2 E3. cbn in E1, E2, E3. auto.
Qed.

(** The answer of a parser, with the source [Q] of an [OK] child. *)
Definition child_answer (Q : volume -> Prop) (a : Z * volume) : Prop :=
  fst a = 0 -> Q (snd a).

Lemma child_answer_fail (Q : volume -> Prop) st r :
  st = NO_PARTITION \/ st = END_OF_TABLE \/ st = INVALID_TABLE ->
  child_answer Q (st, r).
Proof.
  unfold child_answer, NO_PARTITION, END_OF_TABLE, INVALID_TABLE. cbn [fst]. lia.
Qed.

Ltac fails := apply on_image_ret, child_answer_fail; auto.

(** [is_valid_mbr] answers on a volume that holds the image. *)
Lemma on_image_is_valid_mbr g :
  on_image g (is_valid_mbr (image_disk img)) (fun _ => True).
Proof.
  unfold is_valid_mbr. cbv zeta.
  repeat (first
    [ apply on_image_ret; exact I
    | eapply on_image_bind; [apply on_image_read; lia|intros [? ?] _]
    | match goal with
      | |- on_image _ (if ?c then _ else _) _ => destruct c
      end ]).
Qed.

(** The walk along the chain. *)
Lemma on_image_ebr_walk gx (n : nat) : forall i s,
  0 <= s < 4294967296 -> 0 <= i ->
  on_image gx (ebr_walk (image_disk img) n i s)
           (fun o => forall e, o = Some e -> 0 <= e < 4294967296 /\ ebr_path gx i s n e).
Proof.
  induction n as [|n IH]; intros i s Hs Hi; cbn [ebr_walk].
  - apply on_image_ret. intros e [= <-]. split; [exact Hs|constructor].
  - cbv zeta. unfold sizeof_mbr_entry.
    rewrite wrap64_small by (unfold UINT64_MAX; lia).
    apply on_image_read_bind; [lia|lia| |].
    2:{ intros _ data. cbn [negb]. apply on_image_ret. intros ? [=]. }
    intros Hin. cbn [negb].
    rewrite (store_image_bytes gx (s * 512 + 462) 16 16%nat) by reflexivity.
    fold (ebr_link_entry gx s).
    set (entry := ebr_link_entry gx s).
    destruct (negb (type entry =? 15) && negb (type entry =? 5)) eqn:Et;
      [apply on_image_ret; intros ? [=]|].
    apply extended_test in Et.
    destruct ((mbr_first_sect entry =? 0)
              || ((i >? 0) && (mbr_first_sect entry <=? s))) eqn:Ez;
      [apply on_image_ret; intros ? [=]|].
    apply orb_false_iff in Ez. destruct Ez as [Ez Eb]. apply Z.eqb_neq in Ez.
    assert (Hfwd : 0 < i -> s < mbr_first_sect entry).
    { intros Hpos. apply andb_false_iff in Eb. destruct Eb as [Eb|Eb].
      - rewrite Z.gtb_ltb in Eb. apply Z.ltb_ge in Eb. lia.
      - apply Z.leb_gt in Eb. exact Eb. }
    assert (Hb : 0 <= mbr_first_sect entry < 4294967296)
      by (unfold entry, ebr_link_entry, as_mbr_entry; cbn [mbr_first_sect];
          apply (field_bound _ 8 4)).
    intros v Hv Hg.
    destruct (mbr_first_sect entry >=? sect_count v) eqn:Ec.
    + exists None, v. split; [reflexivity|]. split; [exact Hv|].
      split; [exact Hg|]. intros ? [=].
    + rewrite Z.geb_leb in Ec. apply Z.leb_gt in Ec.
      destruct (IH (i + 1) (mbr_first_sect entry) Hb ltac:(lia) v Hv Hg)
        as (o & v' & E & Hv' & Hg' & Ho).
      exists o, v'. split; [exact E|]. split; [exact Hv'|]. split; [exact Hg'|].
      intros e He. destruct (Ho e He) as [He1 He2]. split; [exact He1|].
      apply (ebr_link gx i s n e Hin Et Ez Hfwd); [|exact He2].
      fold entry. rewrite <- Hg. change (sect_count (geometry v)) with (sect_count v).
      exact Ec.
Qed.

Lemma on_image_mbr_get_logical_part gx r p :
  0 <= p ->
  on_image gx (mbr_get_logical_part (image_disk img) fs_get_guid fs_get_label r p)
           (child_answer (logical_child gx p)).
Proof.
  intros Hp. unfold mbr_get_logical_part.
  destruct (p >=? MAX_LOGICAL_PARTITIONS); [fails|].
  eapply on_image_bind; [apply on_image_ebr_walk; lia|]. intros [s|] Hs; [|fails].
  destruct (Hs s eq_refl) as [Hb Hpath]. cbv zeta. unfold sizeof_mbr_entry.
  rewrite wrap64_small by (unfold UINT64_MAX; lia).
  apply on_image_read_bind; [lia|lia| |intros _ data; cbn [negb]; fails].
  intros Hin. cbn [negb].
  rewrite (store_image_bytes gx (s * 512 + 446) 16 16%nat) by reflexivity.
  set (entry := as_mbr_entry (image_bytes img gx (s * 512 + 446) 16)).
  destruct (type entry =? 0) eqn:Et; [fails|].
  destruct (mbr_sect_count entry =? 0) eqn:Ec; [fails|].
  apply Z.eqb_neq in Et. apply Z.eqb_neq in Ec.
  intros v Hv Hg.
  destruct (add_overflow (first_sect v) s) as [f1|] eqn:E1;
    [|eexists _, v; split; [reflexivity|]; split; [exact Hv|]; split; [exact Hg|];
      apply child_answer_fail; auto].
  destruct (add_overflow f1 (mbr_first_sect entry)) as [f2|] eqn:E2;
    [|eexists _, v; split; [reflexivity|]; split; [exact Hv|]; split; [exact Hg|];
      apply child_answer_fail; auto].
  destruct (add_overflow f2 (mbr_sect_count entry)) as [f3|] eqn:E3;
    [|eexists _, v; split; [reflexivity|]; split; [exact Hv|]; split; [exact Hg|];
      apply child_answer_fail; auto].
  eexists _, v. split; [reflexivity|]. split; [exact Hv|]. split; [exact Hg|].
  apply add_overflow_inv in E1. apply add_overflow_inv in E2.
  intros _. cbn [snd].
  destruct (child_fields r v (p + 4 + 1) f2 (mbr_sect_count entry) false
              (part_guid (probe_filesystem fs_get_guid fs_get_label
                            (inherit r v (p + 4 + 1) f2 (mbr_sect_count entry)))))
    as (F1 & F2 & F3).
  exists s. split; [exact Hpath|]. split; [exact Hin|]. cbv zeta.
  fold entry. split; [exact Et|]. split; [exact Ec|]. split; [exact F1|].
  split; [|exact F3].
  rewrite F2. rewrite <- Hg. change (first_sect (geometry v)) with (first_sect v). lia.
Qed.

(** On an extended partition that does not start at a multiple of the
    sector size the first read fails, and no logical partition is
    found. *)
Lemma mbr_get_logical_part_misaligned r p x :
  volume_ok x -> cache_status x <> CACHE_READY ->
  first_sect x mod (sector_size x / 512) <> 0 ->
  exists st x',
    mbr_get_logical_part (image_disk img) fs_get_guid fs_get_label r p x = Val (st, r) x' /\
    st <> 0.
Proof.
  intros Hok Hst Hal. unfold mbr_get_logical_part.
  destruct (p >=? MAX_LOGICAL_PARTITIONS).
  { eexists _, x. split; [reflexivity|]. unfold END_OF_TABLE. lia. }
  destruct (Z.to_nat p) as [|n]; cbn [ebr_walk].
  - unfold bind at 1. unfold ret at 1. cbv zeta.
    destruct (volume_read_misaligned (image_disk img) x (wrap64 (0 * 512 + 446))
                sizeof_mbr_entry Hok Hst Hal) as (out & x' & E);
      [unfold sizeof_mbr_entry; lia|].
    unfold bind. rewrite E. cbn [negb]. eexists _, x'. split; [reflexivity|].
    unfold END_OF_TABLE. lia.
  - cbv zeta.
    destruct (volume_read_misaligned (image_disk img) x (wrap64 (0 * 512 + 462))
                sizeof_mbr_entry Hok Hst Hal) as (out & x' & E);
      [unfold sizeof_mbr_entry; lia|].
    unfold bind. rewrite E. cbn [negb]. unfold ret. eexists _, x'.
    split; [reflexivity|]. unfold END_OF_TABLE. lia.
Qed.

(** The volume that stands for an aligned extended partition holds
    the image. *)
Lemma holds_image_extended v part first count :
  holds_image img v -> 0 <= first < 4294967296 -> 0 <= count < 4294967296 ->
  first mod (sector_size v / 512) = 0 ->
  holds_image img (inherit zero_volume v part first count).
Proof.
  intros ((Hp & Hf & Hs & Hb) & _) Hfirst Hcount Hal.
  split; [unfold volume_ok; cbn; auto|].
  split.
  - unfold addressable. cbn [inherit first_sect sector_size sect_count].
    split; [lia|]. split; [exact Hal|].
    assert (0 < sector_size v / 512) by (apply Z.div_str_pos; lia).
    assert (first / (sector_size v / 512) <= first)
      by (apply Z.div_le_upper_bound; nia).
    unfold UINT64_MAX. lia.
  - split.
    + split; [unfold cache_sized; cbn; discriminate|]. cbn. discriminate.
    + cbn [inherit sect_count]. unfold UINT64_MAX. lia.
Qed.

Lemma inherit_geometry v g part first count :
  geometry v = g ->
  inherit zero_volume v part first count = inherit zero_volume g part first count.
Proof. intros <-. reflexivity. Qed.

Lemma on_image_mbr_find_extended g r p (n : nat) : forall i0,
  4 <= p -> 0 <= i0 -> i0 + Z.of_nat n = 4 ->
  (forall j, 0 <= j < i0 -> skipped g j) ->
  on_image g (mbr_find_extended (image_disk img) fs_get_guid fs_get_label
                (map (fun t => i0 + Z.of_nat t) (seq 0 n)) r p)
           (child_answer (mbr_logical_child g p)).
Proof.
  induction n as [|n IH]; intros i0 Hp Hi0 Hn Hskip; cbn [seq map mbr_find_extended];
    [fails|].
  rewrite Z.add_0_r. cbv zeta. unfold sizeof_mbr_entry.
  assert (Hnext : skipped g i0 ->
                  on_image g (mbr_find_extended (image_disk img) fs_get_guid fs_get_label
                                (map (fun t => i0 + Z.of_nat t) (seq 1 n)) r p)
                           (child_answer (mbr_logical_child g p))).
  { intros Hwhy. rewrite <- seq_shift, map_map.
    replace (map (fun x => i0 + Z.of_nat (S x)) (seq 0 n))
      with (map (fun t => (i0 + 1) + Z.of_nat t) (seq 0 n))
      by (apply map_ext; intros t; lia).
    apply IH; try lia. intros j Hj.
    destruct (Z.eq_dec j i0) as [->|Hne]; [exact Hwhy|apply Hskip; lia]. }
  apply on_image_read_bind; [lia|lia| |].
  2:{ intros Hout data. cbn [negb]. apply Hnext. left. exact Hout. }
  intros Hin. cbn [negb].
  rewrite (store_image_bytes g (446 + 16 * i0) 16 16%nat) by reflexivity.
  set (entry := as_mbr_entry (image_bytes img g (446 + 16 * i0) 16)).
  destruct (negb (type entry =? 15) && negb (type entry =? 5)) eqn:Et.
  { apply Hnext. right. left. intros Hx. apply extended_test in Hx.
    fold entry in Hx. congruence. }
  apply extended_test in Et.
  destruct (mbr_sect_count entry =? 0) eqn:Ec.
  { apply Hnext. right. right. now apply Z.eqb_eq. }
  apply Z.eqb_neq in Ec. clear Hnext.
  assert (Hf : 0 <= mbr_first_sect entry < 4294967296)
    by (unfold entry, as_mbr_entry; cbn [mbr_first_sect]; apply (field_bound _ 8 4)).
  assert (Hc : 0 <= mbr_sect_count entry < 4294967296)
    by (unfold entry, as_mbr_entry; cbn [mbr_sect_count]; apply (field_bound _ 12 4)).
  intros v Hv Hg.
  set (ext := inherit zero_volume v (i0 + 1) (mbr_first_sect entry)
                      (mbr_sect_count entry)).
  assert (Hss : sector_size g = sector_size v) by (rewrite <- Hg; reflexivity).
  destruct (Z.eq_dec (mbr_first_sect entry mod (sector_size v / 512)) 0) as [Hal|Hal].
  - destruct (on_image_mbr_get_logical_part (geometry ext) r (p - 4) ltac:(lia) ext)
      as (a & v' & E & _ & _ & Ha);
      [apply holds_image_extended; assumption|reflexivity|].
    rewrite E. exists a, v. split; [reflexivity|]. split; [exact Hv|].
    split; [exact Hg|]. intros H0. split; [exact Hp|]. exists i0.
    split; [lia|]. split; [exact Hskip|]. split; [exact Hin|]. cbv zeta.
    fold entry. split; [exact Et|]. split; [exact Ec|].
    split; [rewrite Hss; exact Hal|].
    rewrite <- (inherit_geometry v g _ _ _ Hg). exact (Ha H0).
  - pose proof Hv as (Hok & _).
    destruct (mbr_get_logical_part_misaligned r (p - 4) ext) as (st & x' & E & Hst).
    + destruct Hok as (Hp' & Hf' & Hs' & Hb'). unfold volume_ok. cbn. auto.
    + cbn. discriminate.
    + exact Hal.
    + rewrite E. exists (st, r), v. split; [reflexivity|].
      split; [exact Hv|]. split; [exact Hg|].
      intros H0. cbn [fst] in H0. contradiction.
Qed.

Lemma on_image_mbr_get_part g r p :
  0 <= p ->
  on_image g (mbr_get_part (image_disk img) fs_get_guid fs_get_label r p)
           (child_answer (fun c => mbr_primary_child g p c \/ mbr_logical_child g p c)).
Proof.
  intros Hp. unfold mbr_get_part.
  eapply on_image_bind; [apply on_image_is_valid_mbr|]. intros valid _.
  destruct (negb valid); [fails|].
  destruct (p >? 3) eqn:E3.
  { rewrite Z.gtb_ltb in E3. apply Z.ltb_lt in E3.
    eapply on_image_weaken;
      [apply (on_image_mbr_find_extended g r p 4 0); try lia|].
    intros a Ha H0. right. exact (Ha H0). }
  rewrite Z.gtb_ltb in E3. apply Z.ltb_ge in E3.
  cbv zeta. unfold sizeof_mbr_entry.
  apply on_image_read_bind; [lia|lia| |intros _ data; cbn [negb]; fails].
  intros Hin. cbn [negb].
  rewrite (store_image_bytes g (446 + 16 * p) 16 16%nat) by reflexivity.
  set (entry := as_mbr_entry (image_bytes img g (446 + 16 * p) 16)).
  destruct (type entry =? 0) eqn:Et; [fails|].
  destruct (mbr_sect_count entry =? 0) eqn:Ec; [fails|].
  apply Z.eqb_neq in Et. apply Z.eqb_neq in Ec.
  intros v Hv Hg. eexists _, v. split; [reflexivity|]. split; [exact Hv|].
  split; [exact Hg|]. intros _. left. cbn [snd]. split; [lia|].
  split; [exact Hin|]. cbv zeta. fold entry. split; [exact Et|]. split; [exact Ec|].
  apply child_fields.
Qed.

(** The search for the header answers the header of the image, found
    with blocks of 512 bytes or, failing that, of 4096 bytes. *)
Lemma on_image_gpt_find_header g :
  on_image g (gpt_find_header (image_disk img) lb_guesses (repeat 0 92))
           (fun a => fst a = -1 \/
                     ((fst a = 512 \/ (fst a = 4096 /\ ~ gpt_header_at g 512)) /\
                      gpt_header_at g (fst a) /\
                      snd a = image_bytes img g (fst a * 1) 92)).
Proof.
  unfold lb_guesses. cbn [gpt_find_header]. unfold sizeof_gpt_table_header.
  assert (Hsecond : ~ gpt_header_at g 512 ->
            forall h, length h = 92%nat ->
            on_image g
              (bind (volume_read (image_disk img) (4096 * 1) 92)
                 (fun '(ok, data) =>
                    let header := store h data in
                    if negb ok then ret (-1, header)
                    else if negb (memcmp_eq header (literal "EFI PART") 8)
                         then ret (-1, header) else ret (4096, header)))
              (fun a => fst a = -1 \/
                        ((fst a = 512 \/ (fst a = 4096 /\ ~ gpt_header_at g 512)) /\
                         gpt_header_at g (fst a) /\
                         snd a = image_bytes img g (fst a * 1) 92))).
  { intros Hno h Hh. apply on_image_read_bind; [lia|lia| |].
    2:{ intros _ data. cbn [negb]. apply on_image_ret. now left. }
    intros Hin. cbn [negb]. cbv zeta.
    assert (Es : store h (image_bytes img g (4096 * 1) 92) =
                 image_bytes img g (4096 * 1) 92).
    { apply store_full. rewrite Hh. unfold image_bytes.
      rewrite length_map, seqZ_length. reflexivity. }
    rewrite Es.
    destruct (memcmp_eq (image_bytes img g (4096 * 1) 92) (literal "EFI PART") 8) eqn:Em;
      cbn [negb]; apply on_image_ret; [right|now left].
    cbn [fst snd]. split; [right; auto|]. split; [split; assumption|].
    reflexivity. }
  apply on_image_read_bind; [lia|lia| |].
  - intros Hin. cbn [negb].
    rewrite (store_image_bytes g (512 * 1) 92 92%nat) by reflexivity.
    destruct (memcmp_eq (image_bytes img g (512 * 1) 92) (literal "EFI PART") 8) eqn:Em;
      cbn [negb].
    + apply on_image_ret. right. cbn [fst snd].
      split; [now left|]. split; [split; assumption|reflexivity].
    + apply Hsecond.
      * intros [_ Hsig]. congruence.
      * unfold image_bytes. rewrite length_map, seqZ_length. reflexivity.
  - intros Hout data. cbn [negb]. apply Hsecond.
    + intros [Hin _]. contradiction.
    + rewrite length_store. apply repeat_length.
Qed.

Lemma on_image_gpt_get_part g r p :
  0 <= p < 2147483648 ->
  on_image g (gpt_get_part (image_disk img) fs_get_guid fs_get_label r p)
           (child_answer (gpt_child g p)).
Proof.
  intros Hp. unfold gpt_get_part.
  eapply on_image_bind; [apply on_image_gpt_find_header|].
  intros [lb hdr] Hfound. cbn [fst snd] in Hfound. cbv zeta. unfold sizeof_gpt_entry.
  destruct (lb =? -1) eqn:El; [fails|].
  apply Z.eqb_neq in El.
  destruct Hfound as [Hfound|(Hlb & Hat & ->)]; [contradiction|].
  assert (Hlb' : lb = 512 \/ lb = 4096) by (destruct Hlb as [?|[? _]]; auto).
  set (header := as_gpt_table_header (image_bytes img g (lb * 1) 92)) in *.
  destruct (negb (revision header =? 65536)) eqn:Erev; [fails|].
  apply negb_false_iff, Z.eqb_eq in Erev.
  rewrite (Z.mod_small p 4294967296) by lia.
  destruct (p >=? number_of_partition_entries header) eqn:Enum; [fails|].
  rewrite Z.geb_leb in Enum. apply Z.leb_gt in Enum.
  destruct (size_of_partition_entry header <? 128) eqn:Esz; [fails|].
  apply Z.ltb_ge in Esz.
  destruct (mul_overflow (partition_entry_lba header) lb) as [eo|] eqn:Em; [|fails].
  assert (Hes : 0 <= size_of_partition_entry header < 4294967296)
    by (unfold header, as_gpt_table_header; cbn [size_of_partition_entry];
        apply (field_bound _ 84 4)).
  rewrite (wrap64_small p) by (unfold UINT64_MAX; lia).
  rewrite (wrap64_small (p * size_of_partition_entry header))
    by (unfold UINT64_MAX; nia).
  destruct (add_overflow eo (p * size_of_partition_entry header)) as [off|] eqn:Ea;
    [|fails].
  apply mul_overflow_inv in Em. apply add_overflow_inv in Ea.
  apply on_image_read_bind; [lia|lia| |intros _ data; cbn [negb]; fails].
  intros Hin. cbn [negb].
  rewrite (store_image_bytes g off 128 128%nat) by reflexivity.
  set (entry := as_gpt_entry (image_bytes img g off 128)).
  destruct (memcmp_eq (unique_partition_guid entry) (repeat 0 16) 16); [fails|].
  destruct (ending_lba entry <? starting_lba entry) eqn:Eord; [fails|].
  apply Z.ltb_ge in Eord.
  destruct (mul_overflow (starting_lba entry) (lb / 512)) as [fs|] eqn:E1; [|fails].
  destruct (ending_lba entry - starting_lba entry =? UINT64_MAX); [fails|].
  destruct (mul_overflow (ending_lba entry - starting_lba entry + 1) (lb / 512))
    as [sc|] eqn:E2; [|fails].
  intros v Hv Hg. eexists _, v. split; [reflexivity|]. split; [exact Hv|].
  split; [exact Hg|].
  apply mul_overflow_inv in E1. apply mul_overflow_inv in E2.
  intros _. cbn [snd]. exists lb. split; [exact Hlb|]. split; [exact Hat|].
  cbv zeta. fold header.
  assert (Eoff : partition_entry_lba header * lb + p * size_of_partition_entry header
                 = off) by lia.
  rewrite Eoff. fold entry.
  split; [exact Erev|]. split; [exact Enum|]. split; [exact Esz|].
  split; [exact Hin|]. split; [exact Eord|].
  destruct (child_fields r v (p + 1) fs sc true (unique_partition_guid entry))
    as (F1 & F2 & F3).
  split; [exact F1|]. split; [rewrite F2; lia|rewrite F3; lia].
Qed.

Lemma on_image_part_get g part p :
  -2147483648 <= p < 2147483647 ->
  on_image g (part_get (image_disk img) fs_get_guid fs_get_label part p)
           (child_answer (from_table g p)).
Proof.
  intros Hp. unfold part_get.
  destruct (p <? 0) eqn:Eneg; [fails|].
  apply Z.ltb_ge in Eneg.
  eapply on_image_bind; [apply on_image_gpt_get_part; lia|]. intros [st c] Hr.
  destruct (negb (st =? INVALID_TABLE)) eqn:Est.
  { apply on_image_ret. intros H0. left. exact (Hr H0). }
  eapply on_image_bind; [apply on_image_mbr_get_part; exact Eneg|]. intros [st' c'] Hr'.
  destruct (negb (st' =? INVALID_TABLE)) eqn:Est'.
  { apply on_image_ret. intros H0. right. exact (Hr' H0). }
  fails.
Qed.

(** C4, as the code has it.  Whatever the disk primitive delivers for
    the table sectors and whatever the partition index, [part_get] on
    a readable (non-PXE) volume returns, without panic, one of [0],
    [NO_PARTITION], [END_OF_TABLE], [INVALID_TABLE]; on any code but
    [0] the caller's volume is left as it was, and on [0] the child
    carries the parent's transport fields and an extent that is within
    64 bits and not empty.  On a volume of known size that holds an
    image, the partition number, [first_sect] and [sect_count] of an
    [OK] child are those of the table entry in the image: of the GPT
    entry scaled to 512-byte sectors, of the primary MBR entry as it
    stands, or of the logical partition's entry relative to its boot
    record and the extended partition.  The extent is not compared
    with the parent's. *)
Theorem part_get_from_table
        (disk : volume -> list Z -> Z -> Z -> disk_status * list Z)
        (v part : volume) (p : Z) :
  good v -> -2147483648 <= p < 2147483647 ->
  (exists st child v',
     part_get disk fs_get_guid fs_get_label part p v = Val (st, child) v' /\
     geometry v' = geometry v /\
     (st = 0 \/ st = NO_PARTITION \/ st = END_OF_TABLE \/ st = INVALID_TABLE) /\
     (st <> 0 -> child = part) /\
     (st = 0 -> is_child v child)) /\
  (holds_image img v ->
   exists st child v',
     part_get (image_disk img) fs_get_guid fs_get_label part p v = Val (st, child) v' /\
     holds_image img v' /\ geometry v' = geometry v /\
     (st = 0 -> is_child v child /\ from_table (geometry v) p child)).
Proof.
  intros Hv Hp. split.
  - exact (part_get_total disk fs_get_guid fs_get_label fs_get_guid_frame
             fs_get_label_frame v part p Hv Hp).
  - intros Hh.
    destruct (on_image_part_get (geometry v) part p Hp v Hh eq_refl)
      as ([st child] & v' & E & Hh' & Hg & Hc).
    exists st, child, v'. split; [exact E|]. split; [exact Hh'|]. split; [exact Hg|].
    intros H0. split; [|exact (Hc H0)].
    destruct (part_get_total (image_disk img) fs_get_guid fs_get_label fs_get_guid_frame
                fs_get_label_frame v part p Hv Hp)
      as (st2 & child2 & v2 & E2 & _ & _ & _ & Hch).
    rewrite E in E2. injection E2 as <- <- <-. exact (Hch H0).
Qed.

End PartitionExtents.

(** On the sample disks the table leaves one extent only for the
    partition asked for. *)
Example from_table_pins_extent (c : volume) :
  let g := geometry (fresh_volume 1 512 0 100) in
  (from_table mbr_image g 0 c ->
   partition c = 1 /\ first_sect c = 1000 /\ sect_count c = 5000) /\
  (from_table logical_image g 5 c ->
   partition c = 6 /\ first_sect c = 14 /\ sect_count c = 5).
Proof.
  intros g. split.
  - intros [(lb & Hlb & (_ & Hsig) & _)|[(_ & _ & H)|(Hp & _)]]; [| |lia].
    + destruct Hlb as [->|[-> _]]; vm_compute in Hsig; discriminate.
    + cbv zeta in H. destruct H as (_ & _ & H1 & H2 & H3).
      rewrite H1, H2, H3. vm_compute. auto.
  - intros [(lb & Hlb & (_ & Hsig) & _)|[(Hp & _)|(_ & i & Hi & Hskip & _ & H)]];
      [|lia|].
    + destruct Hlb as [->|[-> _]]; vm_compute in Hsig; discriminate.
    + cbv zeta in H. destruct H as (Hext & _ & _ & s & Hpath & _ & Hc).
      assert (Ei : i = 1).
      { destruct (Z.eq_dec i 0) as [->|H0].
        - destruct Hext as [Hx|Hx]; vm_compute in Hx; discriminate.
        - destruct (Z.eq_dec i 1) as [->|H1]; [reflexivity|].
          exfalso. destruct (Hskip 1 ltac:(lia)) as [Hout|Hs].
          + apply Hout. unfold in_volume, UINT64_MAX. cbn. repeat split; lia.
          + cbv zeta in Hs. destruct Hs as [Hs|Hs].
            * apply Hs. right. vm_compute. reflexivity.
            * vm_compute in Hs. discriminate. }
      subst i.
      change (Z.to_nat (5 - 4)) with 1%nat in Hpath.
      inversion Hpath as [|? ? ? ? _ _ _ _ _ Hrest]; subst.
      inversion Hrest; subst.
      cbv zeta in Hc. destruct Hc as (_ & _ & H1 & H2 & H3).
      rewrite H1, H2, H3. vm_compute. auto.
Qed.

(** ** Opening a multi-extent file by path *)











Lemma skip_slashes_length (path : list Z) :
  (length (skip_slashes path) <= length path)%nat.
Proof.
  induction path as [|c rest IH]; [cbn; lia|].
  cbn [skip_slashes]. destruct (c =? 47); cbn [length]; lia.
Qed.


(** ** Opening a file of length zero *)

(** The lookups that the walk of [fat32_open] makes from
    [current_index] on, through the directory [directory]: each
    component of [path] but the last is found by [fat32_open_in] in
    the directory reached so far, and the last one is found with the
    entry [file]; [v] is the volume before the first lookup and [v']
    the volume after the last. *)
Inductive fat32_walk_finds
          (disk : volume -> list Z -> Z -> Z -> disk_status * list Z) (flag : bool)
          (context : fat32_context) (path : list Z)
  : Z -> option fat32_directory_entry -> volume ->
    fat32_directory_entry -> volume -> Prop :=
| walk_finds_file current_index directory current_part file v v' :
    fat32_scan_part (Z.to_nat (FAT32_LFN_MAX_FILENAME_LENGTH - 1)) path
                    current_index 0 = PartEnd current_part ->
    fat32_open_in disk flag context directory (Some current_part) v =
      Val (Found file) v' ->
    fat32_walk_finds disk flag context path current_index directory v file v'
| walk_finds_directory current_index directory current_part new_index sub v v1 file v' :
    fat32_scan_part (Z.to_nat (FAT32_LFN_MAX_FILENAME_LENGTH - 1)) path
                    current_index 0 = PartSlash current_part new_index ->
    fat32_open_in disk flag context directory (Some current_part) v =
      Val (Found sub) v1 ->
    fat32_walk_finds disk flag context path new_index (Some sub) v1 file v' ->
    fat32_walk_finds disk flag context path current_index directory v file v'.

(** With the fuel that [fat32_open] gives it, the walk reaches the
    handle block for the entry that the lookups find. *)
Lemma fat32_open_walk_finds disk flag context path current_index directory v file v' :
  fat32_walk_finds disk flag context path current_index directory v file v' ->
  0 <= current_index <= Z.of_nat (length path) ->
  forall fuel : nat,
    Z.of_nat (length path) - current_index < Z.of_nat fuel ->
    fat32_open_walk disk flag fuel context path current_index directory v =
    fat32_open_file disk context file v'.
Proof.
  induction 1 as [ci dir part file v v' Hp Hf
                 |ci dir part new sub v v1 file v' Hp Hf _ IH];
    intros Hci fuel Hfuel; (destruct fuel as [|fuel]; [lia|]).
  - exact (fat32_open_walk_last _ _ _ _ _ _ _ _ _ _ _ Hp Hf).
  - cbn [fat32_open_walk]. rewrite Hp. unfold bind at 1. rewrite Hf.
    pose proof (fat32_scan_part_slash _ path ci 0 part new ltac:(lia) ltac:(lia) Hp)
      as Hnew.
    apply IH; lia.
Qed.

(** C9.  Let [fat32_init_context] accept the volume, let the lookups
    of the components of [path] succeed in turn and find the entry
    [file] for the last one, and let [cache_cluster_chain] return
    [NULL] for the first cluster of [file].  Then [fat32_open] returns
    a handle when the recorded size of [file] is zero, with size 0, no
    cluster chain and a chain length of 0, and it returns [NULL] when
    the recorded size is not zero. *)
Theorem fat32_open_zero_length
        (disk : volume -> list Z -> Z -> Z -> disk_status * list Z)
        (flag : bool) (path : list Z) (context : fat32_context)
        (file : fat32_directory_entry) (v v1 v2 v3 : volume) :
  fat32_init_context disk flag v = Val (Some context) v1 ->
  fat32_walk_finds disk flag context path
    (fat32_skip_slashes (length path) path 0)
    (if fat_type context =? 32
     then Some (root_directory_entry (root_directory_cluster context))
     else None) v1 file v2 ->
  cache_cluster_chain disk context (file_first_cluster context file) v2 = Val None v3 ->
  (file_size_bytes file = 0 ->
   exists h,
     fat32_open disk flag path v = Val (Some h) v3 /\
     fat_context h = context /\
     size_bytes h = 0 /\ cluster_chain h = None /\ chain_len h = 0 /\
     first_cluster h = file_first_cluster context file) /\
  (file_size_bytes file <> 0 -> fat32_open disk flag path v = Val None v3).
Proof.
  intros Hi Hw Hc.
  pose proof (fat32_skip_slashes_bound (length path) path 0 ltac:(lia) ltac:(lia)) as Hk.
  assert (E : fat32_open disk flag path v = fat32_open_file disk context file v2).
  { unfold fat32_open, bind at 1. rewrite Hi.
    apply (fat32_open_walk_finds _ _ _ _ _ _ _ _ _ Hw); lia. }
  rewrite E, (fat32_open_file_chain _ _ _ _ _ _ Hc). split.
  - intros Hz. rewrite Hz. cbn [Z.eqb negb andb]. eexists. split; [reflexivity|].
    cbn [fat_context size_bytes cluster_chain chain_len first_cluster]. auto.
  - intros Hnz. apply Z.eqb_neq in Hnz. rewrite Hnz. reflexivity.
Qed.

(** ** The canonical form of a path *)

(** *** The call stays within the buffer *)

(** The buffer starts with a ['/'] and [ptr] points inside it, past
    that ['/']. *)
Definition rooted (buf : list ascii) (ptr : nat) : Prop :=
  nth_error buf 0 = Some "/"%char /\ (1 <= ptr < length buf)%nat.

(** The call returns and the buffer keeps its size. *)
Definition safe (size : nat) (o : outcome) : Prop :=
  exists b res, o = Returned b res /\ length res = size.

Lemma poke_inside (buf : list ascii) (i : nat) (c : ascii) :
  (i < length buf)%nat ->
  exists buf', poke buf i c = Some buf' /\ length buf' = length buf /\
               ((1 <= i)%nat -> nth_error buf' 0 = nth_error buf 0).
Proof.
  intros Hi. unfold poke. apply Nat.ltb_lt in Hi. rewrite Hi. apply Nat.ltb_lt in Hi.
  eexists. split; [reflexivity|]. split.
  - rewrite length_app, length_firstn. cbn [length]. rewrite length_skipn. lia.
  - intros H1. destruct buf as [|b0 buf]; [cbn in Hi; lia|].
    destruct i as [|i]; [lia|]. reflexivity.
Qed.

Lemma rewind_rooted (buf : list ascii) : forall ptr,
  nth_error buf 0 = Some "/"%char -> (ptr < length buf)%nat ->
  exists p, rewind buf ptr = Some p /\ (p <= ptr)%nat.
Proof.
  induction ptr as [|ptr IH]; intros H0 Hp.
  - cbn [rewind]. unfold peek. rewrite H0. cbn. exists 0%nat. auto.
  - cbn [rewind]. unfold peek.
    destruct (nth_error buf (S ptr)) as [c|] eqn:E;
      [|apply nth_error_None in E; lia].
    destruct (is_slash c); [exists (S ptr); auto|].
    destruct (IH H0 ltac:(lia)) as (p & Ep & Hle). exists p. split; [exact Ep|lia].
Qed.

Lemma pop_rooted (buf : list ascii) (ptr : nat) :
  rooted buf ptr -> exists q, pop buf ptr = Some q /\ (1 <= q <= ptr)%nat.
Proof.
  intros [H0 Hp]. unfold pop.
  destruct (rewind_rooted buf ptr H0 ltac:(lia)) as (p & -> & Hle).
  destruct (p =? 0)%nat eqn:E; eexists; (split; [reflexivity|]).
  - apply Nat.eqb_eq in E. lia.
  - apply Nat.eqb_neq in E. lia.
Qed.

Lemma term_rooted (buf : list ascii) (ptr : nat) :
  rooted buf ptr -> safe (length buf) (term buf ptr).
Proof.
  intros [H0 Hp]. unfold term. destruct ptr as [|p]; [lia|].
  unfold peek. destruct (nth_error buf p) as [c|] eqn:E;
    [|apply nth_error_None in E; lia].
  set (q := if is_slash c && negb (p =? 0)%nat then p else S p).
  assert (Hq : (q < length buf)%nat) by (unfold q; destruct (_ && _); lia).
  destruct (poke_inside buf q NUL Hq) as (buf' & -> & Hl & _).
  exists true, buf'. auto.
Qed.

Definition first_run_safe (path : list ascii) : Prop :=
  forall buf ptr, rooted buf ptr -> safe (length buf) (first_run path buf ptr).

Definition loop_safe (path : list ascii) : Prop :=
  forall buf ptr, rooted buf ptr -> safe (length buf) (loop path buf ptr).

Lemma safe_length (size size' : nat) o : safe size' o -> size' = size -> safe size o.
Proof. intros H <-. exact H. Qed.

Lemma loop_safe_step path :
  (forall p, (length p < length path)%nat -> first_run_safe p /\ loop_safe p) ->
  loop_safe path.
Proof.
  intros IH buf ptr Hr. rewrite loop_eq. destruct path as [|c rest].
  - now apply term_rooted.
  - destruct (IH rest ltac:(cbn; lia)) as [HF HL].
    destruct (is_slash c); [now apply HF|].
    destruct (length buf - 1 <=? ptr)%nat eqn:Et; [exists false, buf; auto|].
    apply Nat.leb_gt in Et. destruct Hr as [H0 Hp].
    destruct (poke_inside buf ptr c ltac:(lia)) as (buf' & -> & Hl & Hk).
    eapply safe_length; [apply HL|exact Hl].
    split; [rewrite Hk by lia; exact H0|lia].
Qed.

Lemma first_run_safe_step path :
  (forall p, (length p < length path)%nat -> first_run_safe p /\ loop_safe p) ->
  loop_safe path -> first_run_safe path.
Proof.
  intros IH HL buf ptr Hr. rewrite first_run_eq.
  destruct (starts_with (chars "/") path) eqn:T1.
  { apply starts_with_true in T1. destruct T1 as [rest ->].
    cbn [app chars list_ascii_of_string].
    destruct (IH rest ltac:(cbn; lia)) as [HF _]. now apply HF. }
  destruct (is_string (chars ".") path || is_string (chars "./") path).
  { now apply term_rooted. }
  destruct (is_string (chars "..") path || is_string (chars "../") path).
  { destruct (pop_rooted buf ptr Hr) as (q & -> & Hq).
    apply term_rooted. destruct Hr as [H0 Hp]. split; [exact H0|lia]. }
  destruct (starts_with (chars "../") path) eqn:T4.
  { apply starts_with_true in T4. destruct T4 as [rest ->].
    cbn [app chars list_ascii_of_string].
    destruct (pop_rooted buf ptr Hr) as (q & -> & Hq). destruct Hr as [H0 Hp].
    destruct (poke_inside buf q NUL ltac:(lia)) as (buf' & -> & Hl & Hk).
    destruct (IH rest ltac:(cbn; lia)) as [HF _].
    eapply safe_length; [apply HF|exact Hl].
    split; [rewrite Hk by lia; exact H0|lia]. }
  destruct (starts_with (chars "./") path) eqn:T5.
  { apply starts_with_true in T5. destruct T5 as [rest ->].
    cbn [app chars list_ascii_of_string].
    destruct (IH rest ltac:(cbn; lia)) as [HF _]. now apply HF. }
  destruct (ptr =? 1)%nat; [now apply HL|].
  pose proof Hr as [H0 Hp]. destruct ptr as [|p]; [lia|].
  unfold peek. destruct (nth_error buf p) as [c|] eqn:E;
    [|apply nth_error_None in E; lia].
  destruct (is_slash c); [now apply HL|].
  destruct (length buf - 1 <=? S p)%nat eqn:Et; [exists false, buf; auto|].
  apply Nat.leb_gt in Et.
  destruct (poke_inside buf (S p) "/"%char ltac:(lia)) as (buf' & -> & Hl & Hk).
  eapply safe_length; [apply HL|exact Hl].
  split; [rewrite Hk by lia; exact H0|lia].
Qed.

Lemma safe_run path : first_run_safe path /\ loop_safe path.
Proof.
  remember (length path) as n eqn:En. revert path En.
  induction n as [n IH] using lt_wf_ind. intros path ->.
  assert (H : forall p, (length p < length path)%nat -> first_run_safe p /\ loop_safe p)
    by (intros p Hp; exact (IH _ Hp p eq_refl)).
  pose proof (loop_safe_step path H) as HL.
  split; [exact (first_run_safe_step path H HL)|exact HL].
Qed.

(** With a [pwd] that starts with ['/'] and a buffer of at least two
    bytes the call returns and stays within the buffer. *)
Lemma get_absolute_path_safe (buf p pwd : list ascii) :
  starts_with (chars "/") pwd = true -> (2 <= length buf)%nat ->
  safe (length buf) (get_absolute_path buf p pwd).
Proof.
  intros Hpwd Hsize. unfold get_absolute_path.
  destruct (length buf =? 0)%nat; [exists false, buf; auto|].
  apply starts_with_true in Hpwd. destruct Hpwd as [tail ->].
  cbn [app chars list_ascii_of_string].
  assert (Hput : (length ("/"%char :: tail) < length buf)%nat ->
                 length (put_string buf ("/"%char :: tail)) = length buf /\
                 rooted (put_string buf ("/"%char :: tail)) (length ("/"%char :: tail))).
  { intros Hlt. unfold put_string. split.
    - rewrite length_app. cbn [length]. rewrite length_skipn. cbn [length] in Hlt. lia.
    - split; [reflexivity|]. rewrite length_app. cbn [length]. rewrite length_skipn.
      cbn [length] in Hlt. lia. }
  destruct p as [|c rest].
  - destruct (length buf <=? length ("/"%char :: tail))%nat eqn:Ep;
      [exists false, buf; auto|].
    apply Nat.leb_gt in Ep. destruct (Hput Ep) as [Hl _].
    eexists true, _. split; [reflexivity|exact Hl].
  - destruct (is_slash c); cbn [negb].
    + destruct (poke_inside buf 0 "/"%char ltac:(lia)) as (buf' & E & Hl & _).
      rewrite E. eapply safe_length; [apply (proj1 (safe_run rest))|exact Hl].
      split; [|lia]. unfold poke in E.
      destruct (0 <? length buf)%nat; [|discriminate]. injection E as <-. reflexivity.
    + destruct (length buf <=? length ("/"%char :: tail))%nat eqn:Ep;
        [exists false, buf; auto|].
      apply Nat.leb_gt in Ep. destruct (Hput Ep) as [Hl Hr].
      eapply safe_length; [apply (proj1 (safe_run (c :: rest))); exact Hr|exact Hl].
Qed.

(** *** The string that a [true] return leaves *)

Definition noslash (c : ascii) : Prop := is_slash c = false.

(** A [true] return leaves the text of [target], terminated. *)
Definition run_exact (target : list (list ascii)) (o : outcome) : Prop :=
  forall res, o = Returned true res -> exists rest, res = render target ++ NUL :: rest.

Lemma run_exact_true target rest :
  run_exact target (Returned true (render target ++ NUL :: rest)).
Proof. intros res [= <-]. now exists rest. Qed.

Lemma run_exact_false target res : run_exact target (Returned false res).
Proof. intros r [=]. Qed.

Lemma run_exact_fault target : run_exact target Fault.
Proof. intros r [=]. Qed.

Lemma resolve_step_good stack w : good_comp w -> resolve_step stack w = stack ++ [w].
Proof.
  intros (Hne & _ & Hd & Hdd). unfold resolve_step.
  destruct (is_string [] w) eqn:E1; [apply is_string_true in E1; contradiction|].
  destruct (is_string (chars ".") w) eqn:E2; [apply is_string_true in E2; contradiction|].
  destruct (is_string (chars "..") w) eqn:E3; [apply is_string_true in E3; contradiction|].
  reflexivity.
Qed.

Lemma resolve_slash stack cur rest :
  resolve stack cur ("/"%char :: rest) = resolve (resolve_step stack cur) [] rest.
Proof. reflexivity. Qed.

Lemma resolve_char stack cur c rest :
  is_slash c = false -> resolve stack cur (c :: rest) = resolve stack (cur ++ [c]) rest.
Proof. intros H. unfold resolve. cbn [split_path]. now rewrite H. Qed.

Lemma resolve_end stack cur : resolve stack cur [] = resolve_step stack cur.
Proof. reflexivity. Qed.

(** [..] with a first unwritten byte other than ['/'] drops the last
    component, and what follows the shorter text holds no ['/'] past
    its first byte. *)
Lemma pop_exact comps j js :
  Forall good_comp comps -> Forall noslash (j :: js) ->
  exists j' js',
    render comps ++ j :: js = render (removelast comps) ++ j' :: js' /\
    Forall noslash js' /\
    pop (render comps ++ j :: js) (length (render comps)) =
    Some (length (render (removelast comps))).
Proof.
  intros Hall Hjunk. inversion Hjunk as [|? ? Hj Hjs]; subst. unfold noslash in Hj.
  unfold pop. induction comps as [|w cs _] using rev_ind.
  - exists j, js. split; [reflexivity|]. split; [exact Hjs|].
    change (render []) with ([] ++ "/"%char :: @nil ascii).
    rewrite rewind_text by constructor. rewrite Hj. reflexivity.
  - apply Forall_app in Hall. destruct Hall as [Hcs Hw]. inversion Hw as [|? ? Hg _]; subst.
    rewrite removelast_last.
    rewrite render_snoc, rewind_text by (now apply good_comp_noslash). rewrite Hj.
    pose proof (good_comp_noslash w Hg) as Hns.
    destruct cs as [|w0 cs].
    + destruct w as [|c w']; [destruct Hg as [Hne _]; contradiction|].
      exists c, (w' ++ j :: js). split; [cbn [join render app]; list_assoc|].
      split; [|reflexivity].
      inversion Hns; subst. apply Forall_app. split; [assumption|exact Hjunk].
    + exists "/"%char, (w ++ j :: js).
      split; [change (render (w0 :: cs)) with (join (w0 :: cs)); list_assoc|].
      split; [apply Forall_app; split; [exact Hns|exact Hjunk]|].
      replace (length (join (w0 :: cs)) =? 0)%nat with false; [reflexivity|].
      symmetry. apply Nat.eqb_neq. cbn. lia.
Qed.

Lemma Forall_removelast {A : Type} (P : A -> Prop) (l : list A) :
  Forall P l -> Forall P (removelast l).
Proof.
  induction 1 as [|x l Hx Hl IH]; [constructor|].
  cbn [removelast]. destruct l; [constructor|]. constructor; assumption.
Qed.

Definition first_run_exact_spec (path : list ascii) : Prop :=
  forall comps j js,
    nul_free path -> Forall good_comp comps -> Forall noslash (j :: js) ->
    run_exact (resolve comps [] path)
              (first_run path (render comps ++ j :: js) (length (render comps))).

Definition loop_exact_spec (path : list ascii) : Prop :=
  forall comps partial j js,
    nul_free path -> Forall good_comp comps ->
    (partial = [] /\ path = [] \/ good_comp (partial ++ head_comp path)) ->
    Forall noslash (j :: js) ->
    run_exact (resolve comps partial path)
              (loop path ((join comps ++ "/"%char :: partial) ++ j :: js)
                    (length (join comps ++ "/"%char :: partial))).

Lemma loop_exact_step path :
  (forall p, (length p < length path)%nat -> first_run_exact_spec p /\ loop_exact_spec p) ->
  loop_exact_spec path.
Proof.
  intros IH comps partial j js Hnf Hall Hinv Hjunk. rewrite loop_eq.
  set (out := join comps ++ "/"%char :: partial).
  destruct path as [|c rest].
  - rewrite resolve_end. destruct Hinv as [[-> _]|Hg].
    + change (resolve_step comps []) with comps.
      destruct comps as [|w0 cs].
      * apply (run_exact_true [] js).
      * unfold out. rewrite term_separator by discriminate.
        change (join (w0 :: cs)) with (render (w0 :: cs)).
        apply run_exact_true.
    + cbn [head_comp] in Hg. rewrite app_nil_r in Hg.
      rewrite (resolve_step_good _ _ Hg).
      assert (Hall' : Forall good_comp (comps ++ [partial]))
        by (apply Forall_app; split; [exact Hall|now constructor]).
      assert (Eout : out = render (comps ++ [partial])) by (now rewrite render_snoc).
      rewrite Eout, term_render by exact Hall'.
      apply run_exact_true.
  - inversion Hnf as [|? ? Hc Hnf']; subst.
    destruct (is_slash c) eqn:Es.
    + apply is_slash_true in Es. subst c. rewrite resolve_slash.
      destruct Hinv as [[_ E]|Hg]; [discriminate|].
      cbn [head_comp] in Hg. change (is_slash "/") with true in Hg. cbv iota in Hg.
      rewrite app_nil_r in Hg. rewrite (resolve_step_good _ _ Hg).
      assert (Hall' : Forall good_comp (comps ++ [partial]))
        by (apply Forall_app; split; [exact Hall|now constructor]).
      assert (Eout : out = render (comps ++ [partial])) by (now rewrite render_snoc).
      rewrite Eout.
      destruct (IH rest ltac:(cbn; lia)) as [HF _].
      apply (HF _ j js Hnf' Hall' Hjunk).
    + rewrite (resolve_char _ _ _ _ Es).
      destruct (length (out ++ j :: js) - 1 <=? length out)%nat eqn:Et;
        [apply run_exact_false|].
      apply Nat.leb_gt in Et.
      destruct js as [|j2 js'];
        [rewrite length_app in Et; cbn [length] in Et; lia|].
      rewrite poke_junk.
      destruct (IH rest ltac:(cbn; lia)) as [_ HL].
      assert (Eout : out ++ [c] = join comps ++ "/"%char :: (partial ++ [c]))
        by (unfold out; list_assoc).
      replace (S (length out)) with (length (out ++ [c]))
        by (rewrite length_app; cbn; lia).
      rewrite Eout.
      apply (HL comps (partial ++ [c]) j2 js' Hnf' Hall).
      * right. destruct Hinv as [[_ E]|Hg]; [discriminate|].
        cbn [head_comp] in Hg. rewrite Es in Hg.
        rewrite <- app_assoc. exact Hg.
      * inversion Hjunk; subst. assumption.
Qed.

Lemma first_run_exact_step path :
  (forall p, (length p < length path)%nat -> first_run_exact_spec p /\ loop_exact_spec p) ->
  loop_exact_spec path -> first_run_exact_spec path.
Proof.
  intros IH HL comps j js Hnf Hall Hjunk. rewrite first_run_eq.
  destruct (starts_with (chars "/") path) eqn:T1.
  { apply starts_with_true in T1. destruct T1 as [rest ->].
    cbn [app chars list_ascii_of_string].
    inversion Hnf as [|? ? _ Hnf']; subst.
    destruct (IH rest ltac:(cbn; lia)) as [HF _].
    rewrite resolve_slash. change (resolve_step comps []) with comps.
    apply (HF comps j js Hnf' Hall Hjunk). }
  destruct (is_string (chars ".") path || is_string (chars "./") path) eqn:T2.
  { rewrite term_render by exact Hall.
    replace (resolve comps [] path) with comps; [apply run_exact_true|].
    apply orb_true_iff in T2. destruct T2 as [T|T]; apply is_string_true in T; subst path;
      reflexivity. }
  apply orb_false_iff in T2. destruct T2 as [T2 T2'].
  destruct (is_string (chars "..") path || is_string (chars "../") path) eqn:T3.
  { destruct (pop_exact comps j js Hall Hjunk) as (j' & js' & Eb & _ & ->).
    rewrite Eb.
    assert (Hall' : Forall good_comp (removelast comps)) by (now apply Forall_removelast).
    rewrite term_render by exact Hall'.
    replace (resolve comps [] path) with (removelast comps); [apply run_exact_true|].
    apply orb_true_iff in T3. destruct T3 as [T|T]; apply is_string_true in T; subst path;
      reflexivity. }
  apply orb_false_iff in T3. destruct T3 as [T3 T3'].
  destruct (starts_with (chars "../") path) eqn:T4.
  { apply starts_with_true in T4. destruct T4 as [rest ->].
    cbn [app chars list_ascii_of_string] in *.
    do 3 (let H := fresh in inversion Hnf as [|? ? _ H]; subst; clear Hnf; rename H into Hnf).
    destruct (pop_exact comps j js Hall Hjunk) as (j' & js' & Eb & Hjs' & ->).
    rewrite Eb, poke_junk, <- app_assoc. cbn [app].
    assert (Hall' : Forall good_comp (removelast comps)) by (now apply Forall_removelast).
    destruct (IH rest ltac:(cbn; lia)) as [HF _].
    change (resolve comps [] ("."%char :: "."%char :: "/"%char :: rest))
      with (resolve (removelast comps) [] rest).
    apply (HF (removelast comps) NUL js' Hnf Hall').
    constructor; [reflexivity|exact Hjs']. }
  destruct (starts_with (chars "./") path) eqn:T5.
  { apply starts_with_true in T5. destruct T5 as [rest ->].
    cbn [app chars list_ascii_of_string] in *.
    do 2 (let H := fresh in inversion Hnf as [|? ? _ H]; subst; clear Hnf; rename H into Hnf).
    destruct (IH rest ltac:(cbn; lia)) as [HF _].
    change (resolve comps [] ("."%char :: "/"%char :: rest)) with (resolve comps [] rest).
    apply (HF comps j js Hnf Hall Hjunk). }
  pose proof (fallthrough_comp path Hnf T1 T2 T3 T4 T5) as Hcomp.
  destruct (list_eq_dec (list_eq_dec ascii_dec) comps []) as [->|Hne].
  - cbn [render length Nat.eqb].
    apply (HL [] [] j js Hnf Hall); [|exact Hjunk].
    destruct Hcomp as [->|Hg]; [now left|now right].
  - pose proof (render_length_ge2 comps Hall Hne) as Hge.
    destruct (render_last comps Hall Hne) as (body & c & Er & Hc).
    pose proof (render_join comps Hne) as Ej.
    rewrite Er in *.
    assert (Hp : length (body ++ [c]) = S (length body)) by (rewrite length_app; cbn; lia).
    rewrite Hp in *.
    destruct (S (length body) =? 1)%nat eqn:E1; [apply Nat.eqb_eq in E1; lia|].
    rewrite peek_last, Hc.
    destruct (length ((body ++ [c]) ++ j :: js) - 1 <=? S (length body))%nat eqn:Et;
      [apply run_exact_false|].
    apply Nat.leb_gt in Et.
    destruct js as [|j2 js'];
      [rewrite length_app, Hp in Et; cbn [length] in Et; lia|].
    rewrite <- Hp, poke_junk.
    replace (S (length (body ++ [c]))) with (length ((body ++ [c]) ++ ["/"%char]))
      by (rewrite !length_app; cbn; lia).
    rewrite Ej.
    apply (HL comps [] j2 js' Hnf Hall).
    + destruct Hcomp as [->|Hg]; [now left|now right].
    + inversion Hjunk; subst. assumption.
Qed.

Lemma exact_run path : first_run_exact_spec path /\ loop_exact_spec path.
Proof.
  remember (length path) as n eqn:En. revert path En.
  induction n as [n IH] using lt_wf_ind. intros path ->.
  assert (H : forall p, (length p < length path)%nat ->
                        first_run_exact_spec p /\ loop_exact_spec p)
    by (intros p Hp; exact (IH _ Hp p eq_refl)).
  pose proof (loop_exact_step path H) as HL.
  split; [exact (first_run_exact_step path H HL)|exact HL].
Qed.

Lemma resolve_step_keeps stack w :
  Forall good_comp stack -> Forall good_char w -> Forall good_comp (resolve_step stack w).
Proof.
  intros Hs Hw. unfold resolve_step.
  destruct (is_string [] w) eqn:E1; [exact Hs|]. apply is_string_false in E1.
  destruct (is_string (chars ".") w) eqn:E2; [exact Hs|]. apply is_string_false in E2.
  destruct (is_string (chars "..") w) eqn:E3; [now apply Forall_removelast|].
  apply is_string_false in E3.
  apply Forall_app. split; [exact Hs|]. constructor; [|constructor].
  repeat split; assumption.
Qed.

Lemma resolve_good path : forall stack cur,
  nul_free path -> Forall good_comp stack -> Forall good_char cur ->
  Forall good_comp (resolve stack cur path).
Proof.
  induction path as [|c rest IH]; intros stack cur Hnf Hs Hc.
  - rewrite resolve_end. now apply resolve_step_keeps.
  - inversion Hnf as [|? ? Hc0 Hnf']; subst.
    destruct (is_slash c) eqn:Es.
    + apply is_slash_true in Es. subst c. rewrite resolve_slash.
      apply IH; [exact Hnf'|now apply resolve_step_keeps|constructor].
    + rewrite (resolve_char _ _ _ _ Es). apply IH; [exact Hnf'|exact Hs|].
      apply Forall_app. split; [exact Hc|]. constructor; [|constructor]. now split.
Qed.

Lemma resolve_comp (w : list ascii) : forall stack cur rest,
  Forall (fun c => is_slash c = false) w ->
  resolve stack cur (w ++ "/"%char :: rest) = resolve (resolve_step stack (cur ++ w)) [] rest.
Proof.
  induction w as [|c w IH]; intros stack cur rest Hw.
  - cbn [app]. rewrite app_nil_r. apply resolve_slash.
  - inversion Hw as [|? ? Hc Hw']; subst. cbn [app].
    rewrite (resolve_char _ _ _ _ Hc), IH by exact Hw'.
    now rewrite <- app_assoc.
Qed.

Lemma resolve_join (done : list (list ascii)) : forall stack p,
  Forall good_comp done ->
  resolve stack [] (join done ++ "/"%char :: p) = resolve (stack ++ done) [] p.
Proof.
  induction done as [|w ds IH]; intros stack p Hall.
  - cbn [join app]. rewrite resolve_slash, app_nil_r. reflexivity.
  - inversion Hall as [|? ? Hw Hds]; subst. cbn [join app].
    rewrite resolve_slash. change (resolve_step stack []) with stack.
    assert (Et : exists t, join ds ++ "/"%char :: p = "/"%char :: t).
    { destruct ds as [|w1 ds']; cbn [join app]; eauto. }
    destruct Et as [t Et]. rewrite <- app_assoc, Et.
    rewrite resolve_comp by (now apply good_comp_noslash).
    cbn [app]. rewrite (resolve_step_good _ _ Hw).
    change (resolve (stack ++ [w]) [] t)
      with (resolve (stack ++ [w]) [] ("/"%char :: t)).
    rewrite <- Et, IH by exact Hds. now rewrite <- app_assoc.
Qed.

Lemma resolve_path_canonical (done : list (list ascii)) (p : list ascii) :
  Forall good_comp done ->
  resolve_path (render done) p =
  if starts_with ["/"%char] p then resolve [] [] p else resolve done [] p.
Proof.
  intros Hall. unfold resolve_path. destruct (starts_with ["/"%char] p); [reflexivity|].
  destruct done as [|w ds].
  - reflexivity.
  - change (render (w :: ds)) with (join (w :: ds)).
    rewrite resolve_join by exact Hall. reflexivity.
Qed.

Lemma get_absolute_path_exact (buf p : list ascii) (done : list (list ascii)) :
  Forall good_comp done -> nul_free p ->
  Forall noslash buf -> (2 <= length buf)%nat ->
  run_exact (resolve_path (render done) p) (get_absolute_path buf p (render done)).
Proof.
  intros Hall Hnf Hbuf Hsize. rewrite resolve_path_canonical by exact Hall.
  unfold get_absolute_path.
  destruct (length buf =? 0)%nat; [apply run_exact_false|].
  assert (Hjunk : Forall noslash (NUL :: skipn (S (length (render done))) buf)).
  { constructor; [reflexivity|].
    rewrite <- (firstn_skipn (S (length (render done))) buf) in Hbuf.
    apply Forall_app in Hbuf. exact (proj2 Hbuf). }
  destruct p as [|c rest].
  - cbn [starts_with]. destruct (length buf <=? length (render done))%nat;
      [apply run_exact_false|].
    rewrite resolve_end. change (resolve_step done []) with done.
    apply run_exact_true.
  - destruct (is_slash c) eqn:Es; cbn [negb].
    + apply is_slash_true in Es. subst c.
      change (starts_with ["/"%char] ("/"%char :: rest)) with true. cbv iota.
      destruct buf as [|j0 [|j1 js]]; cbn [length] in Hsize; try lia.
      change (poke (j0 :: j1 :: js) 0 "/") with (Some (render [] ++ j1 :: js)).
      inversion Hnf as [|? ? _ Hnf']; subst.
      rewrite resolve_slash. change (resolve_step [] []) with (@nil (list ascii)).
      apply (proj1 (exact_run rest) [] j1 js Hnf' ltac:(constructor)).
      inversion Hbuf; subst. assumption.
    + replace (starts_with ["/"%char] (c :: rest)) with false
        by (cbn [starts_with]; unfold is_slash in Es;
            rewrite Ascii.eqb_sym, Es; reflexivity).
      destruct (length buf <=? length (render done))%nat; [apply run_exact_false|].
      unfold put_string.
      apply (proj1 (exact_run (c :: rest)) done NUL _ Hnf Hall Hjunk).
Qed.

(** C8, as the code has it.  For a buffer of [size >= 2] bytes holding
    anything: with a [pwd] that starts with ['/'] the call returns and
    stays within the [size] bytes of the buffer.  With a [pwd] that is
    itself in canonical form and a NUL-free [path]: a [true] return
    leaves a canonical string (no empty, [.] or [..] component, no
    trailing ['/']) on which a second call with the same [pwd] and
    [size] returns [true] with the same string; the return is [true]
    when [size >= strlen(pwd) + strlen(path) + 2]; and when the buffer
    holds no ['/'] on entry, the string of a [true] return is the
    canonical form of [path] taken from [pwd] (['//'] collapsed, [.]
    dropped, [..] dropping the last component or nothing at the
    root), so that the return is [false] whenever that form and its
    terminator do not fit the buffer. *)
Theorem get_absolute_path_fixed_point (buf buf2 p pwd : list ascii) :
  (2 <= length buf)%nat -> length buf2 = length buf ->
  (starts_with (chars "/") pwd = true ->
   exists b out,
     get_absolute_path buf p pwd = Returned b out /\ length out = length buf) /\
  (canonical pwd -> nul_free p ->
   exists b out,
     get_absolute_path buf p pwd = Returned b out /\
     length out = length buf /\
     (b = true ->
      canonical (cstring out) /\
      exists out2, get_absolute_path buf2 (cstring out) pwd = Returned true out2 /\
                   cstring out2 = cstring out) /\
     ((length pwd + length p + 2 <= length buf)%nat -> b = true) /\
     (Forall noslash buf -> b = true -> cstring out = render (resolve_path pwd p)) /\
     (Forall noslash buf ->
      (length buf <= length (render (resolve_path pwd p)))%nat -> b = false)).
Proof.
  intros Hsize Hsize2. split.
  - intros Hpwd. exact (get_absolute_path_safe buf p pwd Hpwd Hsize).
  - intros Hpwd Hnf.
    destruct (get_absolute_path_idempotent buf buf2 p pwd Hpwd Hnf Hsize Hsize2)
      as (b & out & E & Hl & Hfix & Hroom).
    exists b, out. split; [exact E|]. split; [exact Hl|]. split; [exact Hfix|].
    split; [exact Hroom|].
    destruct Hpwd as (done & Hall & ->).
    assert (Hgood : Forall good_comp (resolve_path (render done) p)).
    { rewrite resolve_path_canonical by exact Hall.
      destruct (starts_with ["/"%char] p);
        apply resolve_good; try assumption; constructor. }
    assert (Hexact : Forall noslash buf -> b = true ->
                     exists rest, out = render (resolve_path (render done) p) ++ NUL :: rest).
    { intros Hbuf ->.
      exact (get_absolute_path_exact buf p done Hall Hnf Hbuf Hsize out E). }
    split.
    + intros Hbuf Hb. destruct (Hexact Hbuf Hb) as [rest ->].
      apply cstring_render. exact Hgood.
    + intros Hbuf Hlong. destruct b; [|reflexivity].
      destruct (Hexact Hbuf eq_refl) as [rest ->].
      rewrite length_app in Hl. cbn [length] in Hl. lia.
Qed.

(** ** Instances on sample disks *)


Lemma volume_read_unknown_size_witness :
  exists ok out v',
    volume_read (image_disk counting_image) 123456789 5000
      (fresh_volume 8 512 0 UINT64_MAX) = Val (ok, out) v' /\
    (ok = true -> Z.of_nat (length out) = 5000).
Proof.
  destruct (volume_read_unknown_size (image_disk counting_image)
              (fresh_volume 8 512 0 UINT64_MAX) 123456789 5000)
    as (ok & out & v' & E & Hlen & _).
  - unfold volume_ok, UINT64_MAX; cbn; repeat split; lia.
  - unfold cache_sized; cbn; discriminate.
  - reflexivity.
  - unfold UINT64_MAX; lia.
  - unfold UINT64_MAX; lia.
  - exists ok, out, v'. split; [exact E|exact Hlen].
Defined.

Lemma no_probe_frame : forall r, geometry (snd (no_probe r)) = geometry r.
Proof. reflexivity. Qed.

(** On the sample MBR disk of 100 sectors, partition 0 is reported with
    the extent 1000 .. 5999, which the disk does not have. *)
Lemma part_get_child_outside_parent :
  match part_get (image_disk mbr_image) no_probe no_probe zero_volume 0
                 (fresh_volume 1 512 0 100) with
  | Val (st, child) parent =>
      st = 0 /\ first_sect parent = 0 /\ sect_count parent = 100 /\
      first_sect child = 1000 /\ sect_count child = 5000 /\
      ~ (first_sect parent <= first_sect child /\
         first_sect child + sect_count child <= first_sect parent + sect_count parent)
  | _ => False
  end.
Proof. vm_compute. repeat split. intros [_ H]. exact (H eq_refl). Qed.

Lemma gpt_get_part_entry_witness :
  exists child v2,
    gpt_get_part (image_disk gpt_image) no_probe no_probe zero_volume 0
                 (fresh_volume 1 512 0 8192) = Val (0, child) v2 /\
    partition child = 1 /\ first_sect child = 2048 /\ sect_count child = 2048 /\
    sector_size child = 512.
Proof.
  eassert (Hfind : gpt_find_header (image_disk gpt_image) lb_guesses (repeat 0 92)
                     (fresh_volume 1 512 0 8192) = Val (512, _) _)
    by (vm_compute; reflexivity).
  match type of Hfind with
  | _ = Val _ ?w =>
      eassert (Hread : volume_read (image_disk gpt_image) 1024 128 w = Val (true, _) _)
        by (vm_compute; reflexivity)
  end.
  destruct (gpt_get_part_entry (image_disk gpt_image) no_probe no_probe
              no_probe_frame no_probe_frame
              (fresh_volume 1 512 0 8192) zero_volume 0 512 _ _ 1024 1024 _ _
              Hfind ltac:(discriminate) ltac:(reflexivity) ltac:(lia)
              ltac:(vm_compute; reflexivity) ltac:(vm_compute; discriminate)
              ltac:(reflexivity) ltac:(reflexivity) Hread) as [_ Hchild].
  destruct Hchild as (child & E & Hp & Hf & Hc & _ & _ & Hs & _).
  - vm_compute. intros [H|[H|[H|H]]]; discriminate.
  - exists child. eexists. split; [exact E|].
    split; [exact Hp|]. split; [rewrite Hf; reflexivity|].
    split; [rewrite Hc; reflexivity|exact Hs].
Defined.

(** With a [pwd] that is not canonical the output of a first call is
    changed by a second one: the empty path gives ["/a/"], and ["/a/"]
    gives ["/a"]. *)
Lemma get_absolute_path_not_idempotent :
  match get_absolute_path (repeat "x"%char 16) (chars "") (chars "/a/") with
  | Returned true out =>
      cstring out = chars "/a/" /\
      match get_absolute_path (repeat "x"%char 16) (cstring out) (chars "/a/") with
      | Returned true out2 => cstring out2 = chars "/a" /\ cstring out2 <> cstring out
      | _ => False
      end
  | _ => False
  end.
Proof. vm_compute. repeat split. discriminate. Qed.

(** With [size = 1] and an absolute path the terminator is stored at
    index 1, outside the buffer. *)
Example get_absolute_path_size_one :
  get_absolute_path ["x"%char] (chars "/") (chars "/") = Fault.
Proof. reflexivity. Qed.

(** A ['/'] left in the buffer by an earlier use makes [..] a no-op. *)
Example get_absolute_path_stale_slash :
  (exists out, get_absolute_path (repeat "x"%char 16) (chars "/a/b/../c") (chars "/")
               = Returned true out /\ cstring out = chars "/a/c") /\
  (exists out, get_absolute_path (repeat "/"%char 16) (chars "/a/b/../c") (chars "/")
               = Returned true out /\ cstring out = chars "/a/b/c").
Proof. split; eexists; split; vm_compute; reflexivity. Qed.

Lemma rock_ridge_precedence_witness :
  load_name 256 sample_root 68 = Done (true, literal "readme.txt" ++ [0]) /\
  iso9660_find 2048 false sample_root 68 1980 (literal "readme.txt") = Done (Some 68) /\
  iso9660_find 2048 false sample_root 68 1980 (literal "README.TXT") = Done None /\
  iso9660_find 2048 true sample_root 68 1980 (literal "README.TXT") = Done (Some 68) /\
  load_name 256 sample_root 0 = Done (false, [0; 0]).
Proof.
  assert (Hnm : nm_entry_of sample_root 68 114).
  { assert (Es : sua_start sample_root 68 = 114) by (vm_compute; reflexivity).
    assert (El : sua_len sample_root 68 = 15) by (vm_compute; reflexivity).
    unfold nm_entry_of. rewrite Es, El.
    split; [lia|]. split; [|vm_compute; discriminate].
    apply reach_nm; [lia|vm_compute; reflexivity|vm_compute; discriminate|
                     vm_compute; reflexivity|vm_compute; reflexivity]. }
  assert (Hs : 1980 <> 0) by lia.
  assert (Hl : 33 <= de_length sample_root 68 <= 1980) by (vm_compute; split; discriminate).
  split; [|split; [|split; [|split]]].
  - destruct (rock_ridge_precedence sample_root 68 1980 (literal "readme.txt") 2047 Hs Hl)
      as [Hrr _].
    destruct (Hrr 114 Hnm) as (E & _). rewrite E. vm_compute. reflexivity.
  - destruct (rock_ridge_precedence sample_root 68 1980 (literal "readme.txt") 2047 Hs Hl)
      as [Hrr _].
    destruct (Hrr 114 Hnm) as (_ & E & _).
    change 2048%nat with (S 2047). rewrite E. vm_compute. reflexivity.
  - destruct (rock_ridge_precedence sample_root 68 1980 (literal "README.TXT") 2047 Hs Hl)
      as [Hrr _].
    destruct (Hrr 114 Hnm) as (_ & E & _).
    change 2048%nat with (S 2047). rewrite E. vm_compute. reflexivity.
  - destruct (rock_ridge_precedence sample_root 68 1980 (literal "README.TXT") 2047 Hs Hl)
      as [Hrr _].
    destruct (Hrr 114 Hnm) as (_ & _ & E).
    change 2048%nat with (S 2047). rewrite E. vm_compute. reflexivity.
  - assert (Hno : forall nm, ~ nm_entry_of sample_root 0 nm).
    { intros nm (_ & Hr & _).
      assert (El : sua_len sample_root 0 = 0) by (vm_compute; reflexivity).
      rewrite El in Hr. inversion Hr; lia. }
    assert (Hs0 : 2048 <> 0) by lia.
    assert (Hl0 : 33 <= de_length sample_root 0 <= 2048)
      by (vm_compute; split; discriminate).
    destruct (rock_ridge_precedence sample_root 0 2048 [] 0 Hs0 Hl0) as [_ Hiso].
    destruct (Hiso Hno) as (E & _). rewrite E. vm_compute. reflexivity.
Defined.

(** An [NM] entry of length 5 lies within the System Use Area and is
    where the scan stops, yet the name used is the ISO name and the
    comparison folds case, with the case-insensitive flag clear. *)
Lemma rock_ridge_empty_name :
  sua_reaches empty_nm_dir (sua_start empty_nm_dir 0) (sua_len empty_nm_dir 0) 46 /\
  rdz empty_nm_dir (46 + 2) = 5 /\
  5 <= sua_len empty_nm_dir 0 /\
  load_name 256 empty_nm_dir 0 = Done (false, literal "README.TXT" ++ [0]) /\
  iso9660_find 51 false empty_nm_dir 0 51 (literal "readme.txt") = Done (Some 0).
Proof.
  assert (Es : sua_start empty_nm_dir 0 = 46) by (vm_compute; reflexivity).
  assert (El : sua_len empty_nm_dir 0 = 5) by (vm_compute; reflexivity).
  rewrite Es, El.
  split; [|split; [vm_compute; reflexivity|split; [lia|split; vm_compute; reflexivity]]].
  apply reach_nm; [lia|vm_compute; reflexivity|vm_compute; discriminate|
                   vm_compute; reflexivity|vm_compute; reflexivity].
Qed.

(** The same file opened by path on the sample image, and a read that
    crosses from its first extent into the second. *)
Example iso9660_open_sample :
  exists h ctxs v',
    iso9660_open (image_disk sample_iso) false 0 [] (literal "/BIG.BIN")
                 (fresh_volume 1 2048 0 100) = Val (Some h, ctxs) v' /\
    total_size h = 4396 /\
    extents h = [ {| LBA := 31; size := 2048 |}; {| LBA := 40; size := 2048 |};
                  {| LBA := 35; size := 300 |} ] /\
    exists v'',
      iso9660_read (image_disk sample_iso) h 2040 16 v' =
      Val (map sample_iso (seqZ 65528 8 ++ seqZ 81920 8)) v''.
Proof.
  do 3 eexists. split; [vm_compute; reflexivity|].
  split; [reflexivity|]. split; [reflexivity|].
  eexists. vm_compute. reflexivity.
Qed.





(** The sample volume end to end: its context, a file on a cycle, an
    empty file, and a file of two clusters read back. *)
Example fat32_open_sample :
  let v0 := fresh_volume 1 512 0 100 in
  (exists v1, fat32_init_context (image_disk sample_fat) false v0 =
              Val (Some sample_fat_context) v1) /\
  (exists v', fat32_open (image_disk sample_fat) false (literal "/LOOP.BIN") v0 =
              Val None v') /\
  (exists h v', fat32_open (image_disk sample_fat) false (literal "empty.txt") v0 =
                Val (Some h) v' /\ size_bytes h = 0 /\ cluster_chain h = None) /\
  (exists h v' v'',
     fat32_open (image_disk sample_fat) false (literal "DATA.BIN") v0 =
       Val (Some h) v' /\
     cluster_chain h = Some [5; 6] /\ size_bytes h = 700 /\
     fat32_read (image_disk sample_fat) h 0 700 v' =
       Val (map sample_fat (seqZ 3072 700)) v'').
Proof.
  intros v0.
  split; [eexists; vm_compute; reflexivity|].
  split; [eexists; vm_compute; reflexivity|].
  split; [do 2 eexists; split; [vm_compute; reflexivity|split; reflexivity]|].
  do 3 eexists. split; [vm_compute; reflexivity|].
  split; [reflexivity|]. split; [reflexivity|]. vm_compute. reflexivity.
Qed.

Lemma bcd_round_trip_witness :
  bcd_to_int (int_to_bcd 59) = 59 /\ int_to_bcd (bcd_to_int 89) = 89.
Proof.
  split.
  - apply (proj1 (bcd_round_trip 59)). lia.
  - apply (proj2 (bcd_round_trip 89)); [lia|vm_compute; discriminate|vm_compute; discriminate].
Defined.

Lemma strtoui_saturating_witness :
  strtoui (literal "1234;") 10 = (1234, 4) /\
  fst (strtoui (literal "ffffffffffffffffff") 16) = UINT64_MAX.
Proof.
  split.
  - destruct (strtoui_saturating (literal "1234;") 10) as [E1 E2];
      [unfold UINT64_MAX; lia|].
    rewrite (surjective_pairing (strtoui (literal "1234;") 10)), E1, E2
      by (vm_compute; discriminate).
    vm_compute. reflexivity.
  - destruct (strtoui_saturating (literal "ffffffffffffffffff") 16) as [E1 _];
      [unfold UINT64_MAX; lia|].
    rewrite E1. vm_compute. reflexivity.
Defined.

Lemma iso9660_find_returns_witness :
  exists r,
    iso9660_find (S (Z.to_nat 2048)) true sample_root 0 2048 (literal "BIG.BIN") = Done r /\
    forall e, r = Some e ->
      0 <= e /\ e + de_length sample_root e <= 0 + 2048 /\
      33 <= de_length sample_root e /\
      name_matches true sample_root e (literal "BIG.BIN").
Proof.
  apply (iso9660_find_returns true sample_root 0 2048 (literal "BIG.BIN")). lia.
Defined.

Lemma iso9660_next_entry_advances_witness :
  iso9660_next_entry sample_root 129 2048 = Some 171 /\
  129 < 171 < 2048 /\ de_length sample_root 171 <> 0 /\
  (de_length sample_root 129 <> 0 -> 33 <= de_length sample_root 171).
Proof.
  assert (H : iso9660_next_entry sample_root 129 2048 = Some 171)
    by (vm_compute; reflexivity).
  split; [exact H|].
  exact (iso9660_next_entry_advances sample_root 129 2048 171 H).
Defined.




Lemma fat32_read_beyond_chain_witness :
  fat32_read (image_disk sample_fat) sample_fat_handle 1000 100
             (fresh_volume 1 512 0 100) = Panic.
Proof.
  apply (fat32_read_beyond_chain (image_disk sample_fat) sample_fat_handle 1000 100
           (fresh_volume 1 512 0 100)).
  - split; [unfold volume_ok, UINT64_MAX; cbn; repeat split; lia|].
    unfold cache_sized; cbn; discriminate.
  - cbn; lia.
  - lia.
  - lia.
  - unfold UINT64_MAX; lia.
  - cbn; lia.
  - cbn; lia.
Defined.

Lemma fat32_init_context_sane_witness :
  exists context v',
    fat32_init_context (image_disk sample_fat) false (fresh_volume 1 512 0 100) =
      Val (Some context) v' /\
    context_sane context /\
    512 <= sectors_per_cluster context * bytes_per_sector context <= 524288.
Proof.
  eassert (H : fat32_init_context (image_disk sample_fat) false
                 (fresh_volume 1 512 0 100) = Val (Some _) _)
    by (vm_compute; reflexivity).
  do 2 eexists. split; [exact H|].
  exact (fat32_init_context_sane (image_disk sample_fat) false _ _ _ H).
Defined.


Lemma fat32_filename_to_8_3_shape_witness :
  fat32_filename_to_8_3 (literal "limine") =
    Some (literal "LIMINE     ") /\
  fat32_filename_to_8_3 (literal "limine.sys") =
    Some (literal "LIMINE  SYS").
Proof.
  assert (Hb : Forall name_char (literal "limine"))
    by (repeat constructor; vm_compute; discriminate).
  assert (He : Forall name_char (literal "sys"))
    by (repeat constructor; vm_compute; discriminate).
  destruct (fat32_filename_to_8_3_shape (literal "limine") (literal "sys") Hb He)
    as (H1 & H2 & _).
  split.
  - rewrite (H1 ltac:(cbn; lia)). reflexivity.
  - change (literal "limine.sys") with (literal "limine" ++ 46 :: literal "sys").
    rewrite (H2 ltac:(cbn; lia) ltac:(cbn; lia)). reflexivity.
Defined.


Lemma ebr_walk_inside_witness :
  let v := fresh_volume 1 512 0 100 in
  exists v',
    ebr_walk (image_disk ebr_image) 2 0 0 v = Val (Some 7) v' /\
    Z.of_nat 2 <= 7 < sect_count v /\ geometry v' = geometry v.
Proof.
  intros v.
  eassert (H : ebr_walk (image_disk ebr_image) 2 0 0 v = Val (Some 7) _)
    by (vm_compute; reflexivity).
  eexists. split; [exact H|].
  exact (ebr_walk_inside (image_disk ebr_image) 2 v _ 7 ltac:(lia) H).
Defined.

Lemma get_absolute_path_join_witness :
  exists out,
    get_absolute_path (repeat "x"%char 32) (chars "limine/limine.conf") (chars "/boot")
      = Returned true out /\
    cstring out = chars "/boot/limine/limine.conf" /\ length out = 32%nat.
Proof.
  apply (get_absolute_path_join (repeat "x"%char 32) [chars "boot"]
           [chars "limine.conf"] (chars "limine")).
  - repeat constructor; discriminate.
  - repeat constructor; discriminate.
  - repeat constructor; discriminate.
  - cbn; lia.
Defined.

Lemma get_absolute_path_parent_witness :
  (exists out,
     get_absolute_path (repeat "x"%char 32) (chars "..") (chars "/boot/limine")
       = Returned true out /\
     cstring out = chars "/boot" /\ length out = 32%nat) /\
  (exists out,
     get_absolute_path (repeat "x"%char 32) (chars "..") (chars "/")
       = Returned true out /\
     cstring out = chars "/" /\ length out = 32%nat).
Proof.
  destruct (get_absolute_path_parent (repeat "x"%char 32) [chars "boot"] (chars "limine"))
    as [H1 H2].
  - repeat constructor; discriminate.
  - repeat constructor; discriminate.
  - split; [apply H1; cbn; lia|apply H2; cbn; lia].
Defined.


Lemma volume_read_cacheless_equiv_witness :
  let v := fresh_volume 8 512 0 100 in
  exists out v',
    volume_read_cacheless (image_disk counting_image) (Z.to_nat 9000) 1000 v = Some out /\
    volume_read (image_disk counting_image) 1000 9000 v = Val (true, out) v' /\
    nth_error out 0 = Some 247 /\ nth_error out 4 = Some 0.
Proof.
  intros v.
  destruct (volume_read_cacheless_equiv counting_image v 1000 9000) as (_ & H).
  - unfold volume_ok, UINT64_MAX; cbn; repeat split; lia.
  - unfold in_volume, UINT64_MAX; cbn; repeat split; lia.
  - destruct H as (out & v' & Ec & Eo & Er & _).
    + unfold addressable, UINT64_MAX; cbn; repeat split; lia.
    + split; [unfold cache_sized; cbn; discriminate|]. cbn. discriminate.
    + exists out, v'. split; [exact Ec|]. split; [exact Er|].
      rewrite Eo. split; vm_compute; reflexivity.
Defined.

(** The cache is trusted.  A cache marked ready whose contents are not
    those of the disk is returned as it is, by [volume_read] and by
    its one-byte calls alike, where the reader without a cache and a
    volume with an empty cache deliver the bytes of the disk.  Such a
    cache arises from an empty one when a transfer fails and is
    retried at a smaller size: on a disk that refuses requests of two
    sectors the block of two sectors is marked ready after one sector
    was transferred, and the second sector reads as zeros. *)
Lemma volume_read_stale_cache :
  (volume_ok (stale_volume 8 512 0 100) /\ in_volume (stale_volume 8 512 0 100) 0 4 /\
   geometry (stale_volume 8 512 0 100) = geometry (fresh_volume 8 512 0 100) /\
   fst_val (volume_read (image_disk counting_image) 0 4 (stale_volume 8 512 0 100)) =
     Some (true, [99; 99; 99; 99]) /\
   fst_val (volume_read_bytewise (image_disk counting_image) 4 0
              (stale_volume 8 512 0 100)) = Some (true, [99; 99; 99; 99]) /\
   volume_read_cacheless (image_disk counting_image) 4 0 (stale_volume 8 512 0 100) =
     Some [0; 1; 2; 3] /\
   fst_val (volume_read (image_disk counting_image) 0 4 (fresh_volume 8 512 0 100)) =
     Some (true, [0; 1; 2; 3])) /\
  (fst_val (volume_read (choosy_disk counting_image 2) 512 4 (fresh_volume 2 512 0 100)) =
     Some (true, [0; 0; 0; 0]) /\
   volume_read_cacheless (choosy_disk counting_image 2) 4 512 (fresh_volume 2 512 0 100) =
     Some [10; 11; 12; 13]).
Proof.
  split.
  - split; [unfold volume_ok, UINT64_MAX; cbn; repeat split; lia|].
    split; [unfold in_volume, UINT64_MAX; cbn; repeat split; lia|].
    split; [reflexivity|]. repeat split; vm_compute; reflexivity.
  - split; vm_compute; reflexivity.
Qed.


(** After a transfer that failed and was retried at a smaller size the
    whole block counts as cached: on a disk that refuses requests of
    two sectors, a read from the second sector of a block of two
    returns [true] with bytes that no transfer has delivered, where a
    request for that one sector delivers the bytes of the disk. *)
Example volume_read_short_transfer :
  let v := fresh_volume 2 512 0 100 in
  fst_val (volume_read (choosy_disk counting_image 2) 512 4 v) =
    Some (true, [0; 0; 0; 0]) /\
  firstn 4 (snd (choosy_disk counting_image 2 v [] 1 1)) = [10; 11; 12; 13].
Proof. split; vm_compute; reflexivity. Qed.

Lemma part_get_from_table_witness :
  let v := fresh_volume 1 512 0 100 in
  (exists child v',
     part_get (image_disk mbr_image) no_probe no_probe zero_volume 0 v =
       Val (0, child) v' /\
     partition child = 1 /\ first_sect child = 1000 /\ sect_count child = 5000 /\
     from_table mbr_image (geometry v) 0 child) /\
  (exists child v',
     part_get (image_disk logical_image) no_probe no_probe zero_volume 5 v =
       Val (0, child) v' /\
     partition child = 6 /\ first_sect child = 14 /\ sect_count child = 5 /\
     from_table logical_image (geometry v) 5 child).
Proof.
  intros v.
  assert (Hv : good v).
  { split; [unfold volume_ok, UINT64_MAX; cbn; repeat split; lia|].
    unfold cache_sized; cbn; discriminate. }
  assert (Hh : forall img, holds_image img v).
  { intros img.
    split; [unfold volume_ok, UINT64_MAX; cbn; repeat split; lia|].
    split; [unfold addressable, UINT64_MAX; cbn; repeat split; lia|].
    split; [|unfold UINT64_MAX; cbn; lia].
    split; [unfold cache_sized; cbn; discriminate|]. cbn. discriminate. }
  split.
  - destruct (part_get_from_table mbr_image no_probe no_probe
                no_probe_frame no_probe_frame (image_disk mbr_image)
                v zero_volume 0 Hv ltac:(lia)) as (_ & Himg).
    destruct (Himg (Hh mbr_image)) as (st & child & v' & E & _ & _ & Hchild).
    eassert (Hrun : part_get (image_disk mbr_image) no_probe no_probe zero_volume 0 v =
                    Val (0, _) _) by (vm_compute; reflexivity).
    rewrite Hrun in E. injection E as <- <- <-.
    do 2 eexists. split; [exact Hrun|].
    split; [reflexivity|]. split; [reflexivity|]. split; [reflexivity|].
    exact (proj2 (Hchild eq_refl)).
  - destruct (part_get_from_table logical_image no_probe no_probe
                no_probe_frame no_probe_frame (image_disk logical_image)
                v zero_volume 5 Hv ltac:(lia)) as (_ & Himg).
    destruct (Himg (Hh logical_image)) as (st & child & v' & E & _ & _ & Hchild).
    eassert (Hrun : part_get (image_disk logical_image) no_probe no_probe zero_volume 5 v =
                    Val (0, _) _) by (vm_compute; reflexivity).
    rewrite Hrun in E. injection E as <- <- <-.
    do 2 eexists. split; [exact Hrun|].
    split; [reflexivity|]. split; [reflexivity|]. split; [reflexivity|].
    exact (proj2 (Hchild eq_refl)).
Defined.


(** The file [EMPTY.TXT] of the sample volume has no cluster and a
    size of zero: [fat32_open] returns a handle for it. *)
Lemma fat32_open_zero_length_witness :
  let v0 := fresh_volume 1 512 0 100 in
  exists h v',
    fat32_open (image_disk sample_fat) false (literal "/EMPTY.TXT") v0 =
      Val (Some h) v' /\
    size_bytes h = 0 /\ cluster_chain h = None /\ chain_len h = 0.
Proof.
  intros v0.
  eassert (Hi : fat32_init_context (image_disk sample_fat) false v0 =
                Val (Some sample_fat_context) _) by (vm_compute; reflexivity).
  assert (Hp : fat32_scan_part (Z.to_nat (FAT32_LFN_MAX_FILENAME_LENGTH - 1))
                 (literal "/EMPTY.TXT") 1 0 = PartEnd (literal "EMPTY.TXT"))
    by (vm_compute; reflexivity).
  match type of Hi with
  | _ = Val _ ?v1 =>
      eassert (Hf : fat32_open_in (image_disk sample_fat) false sample_fat_context None
                      (Some (literal "EMPTY.TXT")) v1 = Val (Found _) _)
        by (vm_compute; reflexivity)
  end.
  match type of Hf with
  | _ = Val (Found ?f) ?v2 =>
      assert (Hc : cache_cluster_chain (image_disk sample_fat) sample_fat_context
                     (file_first_cluster sample_fat_context f) v2 = Val None v2)
        by (vm_compute; reflexivity);
      destruct (fat32_open_zero_length (image_disk sample_fat) false
                  (literal "/EMPTY.TXT") sample_fat_context f v0 _ v2 v2 Hi
                  (walk_finds_file _ _ _ _ 1 None _ _ _ _ Hp Hf) Hc) as [Hzero _];
      destruct Hzero as (h & E & _ & Hs & Hn & Hl & _); [vm_compute; reflexivity|];
      exists h, v2; auto
  end.
Defined.

Lemma get_absolute_path_fixed_point_witness :
  (exists out,
     get_absolute_path (repeat "x"%char 16) (chars "b/../c//./d") (chars "/a") =
       Returned true out /\
     cstring out = chars "/a/c/d" /\
     exists out2, get_absolute_path (repeat "y"%char 16) (cstring out) (chars "/a")
                  = Returned true out2 /\ cstring out2 = cstring out) /\
  (exists out,
     get_absolute_path (repeat "x"%char 6) (chars "bcd") (chars "/a") =
       Returned false out) /\
  (exists b out,
     get_absolute_path (repeat "x"%char 16) (chars "../b") (chars "/a//") =
       Returned b out /\ length out = 16%nat).
Proof.
  assert (Hpwd : canonical (chars "/a")).
  { exists [chars "a"]. split; [|reflexivity]. repeat constructor; discriminate. }
  split; [|split].
  - destruct (get_absolute_path_fixed_point (repeat "x"%char 16) (repeat "y"%char 16)
                (chars "b/../c//./d") (chars "/a") ltac:(cbn; lia) eq_refl)
      as [_ Hcan].
    destruct (Hcan Hpwd ltac:(repeat constructor; discriminate))
      as (b & out & E & _ & Hfix & Hroom & Hexact & _).
    assert (b = true) as -> by (apply Hroom; cbn; lia).
    exists out. split; [exact E|].
    rewrite (Hexact ltac:(repeat constructor) eq_refl).
    split; [reflexivity|].
    destruct (Hfix eq_refl) as [_ H].
    rewrite (Hexact ltac:(repeat constructor) eq_refl) in H. exact H.
  - destruct (get_absolute_path_fixed_point (repeat "x"%char 6) (repeat "y"%char 6)
                (chars "bcd") (chars "/a") ltac:(cbn; lia) eq_refl)
      as [_ Hcan].
    destruct (Hcan Hpwd ltac:(repeat constructor; discriminate))
      as (b & out & E & _ & _ & _ & _ & Hover).
    assert (b = false) as -> by (apply Hover; [repeat constructor|cbn; lia]).
    exists out. exact E.
  - destruct (get_absolute_path_fixed_point (repeat "x"%char 16) (repeat "y"%char 16)
                (chars "../b") (chars "/a//") ltac:(cbn; lia) eq_refl)
      as [Hsafe _].
    exact (Hsafe eq_refl).
Defined.

(** With a [pwd] that does not start with ['/'] the walk back of [..]
    leaves the buffer at its start. *)
Example get_absolute_path_relative_pwd :
  get_absolute_path (repeat "x"%char 16) (chars "..") (chars "abc") = Fault.
Proof. reflexivity. Qed.

Lemma gpt_get_guid_of_header_witness :
  exists v1,
    gpt_get_guid (image_disk gpt_guid_image) (fresh_volume 1 512 0 8192) =
    Val (Some [1; 2; 3; 4; 5; 6; 7; 8; 9; 10; 11; 12; 13; 14; 15; 16]) v1.
Proof.
  eassert (H : gpt_get_part (image_disk gpt_guid_image) no_probe no_probe zero_volume 0
                 (fresh_volume 1 512 0 8192) = Val (0, _) _)
    by (vm_compute; reflexivity).
  destruct (gpt_get_guid_of_header (image_disk gpt_guid_image) no_probe no_probe
              zero_volume 0 _ _ 0 _ H ltac:(vm_compute; discriminate))
    as (lb & hdr & v1 & Ef & _ & _ & Eg & _).
  exists v1. rewrite Eg. f_equal. f_equal.
  eassert (Ec : gpt_find_header (image_disk gpt_guid_image) lb_guesses (repeat 0 92)
                  (fresh_volume 1 512 0 8192) = Val (512, _) _)
    by (vm_compute; reflexivity).
  rewrite Ec in Ef. injection Ef as _ <- _. vm_compute. reflexivity.
Defined.
